(** * Polytopes: explicit incidence lists and symmetry-based conversion

    A shallow embedding of [src/ts/polytopes/types.ts] (classes [PolytopeC]
    and [PolytopeS]) and of the doubly linked node of
    [src/data structures/nodeD.js], with the properties of the
    specification stated and settled over it.

    JavaScript numbers are IEEE 754 binary64 values: they are modelled by
    the kernel's primitive floats.  Array indices, counts and class numbers
    are naturals; thrown exceptions are values of [error]; mutable objects
    that the source shares between variables live in an explicit store. *)

From Stdlib Require Import List Arith ZArith Lia Bool Floats Permutation.
Import ListNotations.

Set Implicit Arguments.

(** ** Outcomes of a call *)

(** The exceptions the modelled code can raise.  [TypeError] is what the
    runtime raises when a property of [undefined] is read. *)
Inductive error : Type :=
| TypeError
| RangeError
| LinkError.

(** A call returns, throws, or is still looping when the fuel given to
    its [while] loops is used up. *)
Inductive outcome (A : Type) : Type :=
| Done (a : A)
| Throw (e : error)
| Timeout.

Arguments Done {A} a.
Arguments Throw {A} e.
Arguments Timeout {A}.

(** State-and-exception monad over a store [S]. *)
Definition M (S A : Type) : Type := S -> outcome (A * S).

Definition ret {S A} (a : A) : M S A := fun s => Done (a, s).

Definition bind {S A B} (m : M S A) (k : A -> M S B) : M S B :=
  fun s =>
    match m s with
    | Done (a, s') => k a s'
    | Throw e => Throw e
    | Timeout => Timeout
    end.

Definition throw {S A} (e : error) : M S A := fun _ => Throw e.

Definition timeout {S A} : M S A := fun _ => Timeout.

Definition getS {S} : M S S := fun s => Done (s, s).

Definition putS {S} (s : S) : M S unit := fun _ => Done (tt, s).

(** Reading a value that may be [undefined] and then using one of its
    properties. *)
Definition defined {S A} (o : option A) : M S A :=
  match o with
  | Some a => ret a
  | None => throw TypeError
  end.

Declare Scope monad_scope.
Delimit Scope monad_scope with monad.
Notation "x <- m ;; k" := (bind m (fun x => k))
  (at level 61, m at next level, right associativity) : monad_scope.
Notation "' pat <- m ;; k" :=
  (bind m (fun x => match x with pat => k end))
  (at level 61, pat pattern, m at next level, right associativity)
  : monad_scope.
Notation "m ;;; k" := (bind m (fun _ => k))
  (at level 61, right associativity) : monad_scope.

Local Open Scope monad_scope.

(** A [for] loop over the elements of a list, in order. *)
Fixpoint forEach {S A} (l : list A) (body : A -> M S unit) : M S unit :=
  match l with
  | [] => ret tt
  | a :: l' => body a ;;; forEach l' body
  end.

(** ** Points *)

(** Modelled from the spec: the [Point] class ([geometry/Point], not under
    src/): an ordered tuple of numbers with the numeric operations of the
    specification.  [PolytopeC.scale] and [PolytopeC.move] discard the
    results of [scale] and [add], so these two update their receiver; the
    others return a new point. *)
Record Point : Type := mkPoint { coordinates : list float }.

Definition dimensions_of (P : Point) : nat := length (coordinates P).

Local Open Scope float_scope.

(** The binary operations act coordinate by coordinate on operands of one
    dimension; on operands of different dimension (a contract violation)
    the model keeps the common prefix. *)
Fixpoint map2 (f : float -> float -> float) (a b : list float) : list float :=
  match a, b with
  | x :: a', y :: b' => f x y :: map2 f a' b'
  | _, _ => []
  end.

(** [new Point(n)]: the origin of an [n]-dimensional space. *)
Definition origin (n : Z) : Point := mkPoint (repeat 0 (Z.to_nat n)).

Definition add (P Q : Point) : Point :=
  mkPoint (map2 PrimFloat.add (coordinates P) (coordinates Q)).

Definition subtract (P Q : Point) : Point :=
  mkPoint (map2 PrimFloat.sub (coordinates P) (coordinates Q)).

Definition scale (P : Point) (r : float) : Point :=
  mkPoint (map (fun x => x * r) (coordinates P)).

Definition dot (P Q : Point) : float :=
  fold_left PrimFloat.add (map2 PrimFloat.mul (coordinates P) (coordinates Q)) 0.

Definition sqMagnitude (P : Point) : float := dot P P.

Definition magnitude (P : Point) : float := PrimFloat.sqrt (sqMagnitude P).

(** [P.project(u)]: the component of [P] along [u]. *)
Definition project (P u : Point) : Point :=
  let c := dot P u / dot u u in
  mkPoint (map (fun x => x * c) (coordinates u)).

(** [Space.distanceSq] and [Space.distance]. *)
Definition distanceSq (P Q : Point) : float := sqMagnitude (subtract P Q).

Definition distance (P Q : Point) : float := PrimFloat.sqrt (distanceSq P Q).

(** [a > b] on numbers. *)
Definition gt (a b : float) : bool := PrimFloat.ltb b a.

Local Close Scope float_scope.

(** ** The explicit polytope *)

(** Reading [a[i]] where [i] is a number computed by subtraction: a
    negative index gives [undefined]. *)
Definition nthZ {A} (l : list A) (i : Z) : option A :=
  if (i <? 0)%Z then None else nth_error l (Z.to_nat i).

(** [ElementList = [Point[], ...number[][][]] | []].  The entries of the
    higher levels are of type [I]: naturals for a well-typed list, and
    possibly [undefined] for the list that the conversion assembles. *)
Inductive ElementList (I : Type) : Type :=
| NoLevels
| Levels (points : list Point) (higher : list (list (list I))).

Arguments NoLevels {I}.
Arguments Levels {I} points higher.

(** [elementList.length]. *)
Definition levels {I} (els : ElementList I) : nat :=
  match els with
  | NoLevels => 0
  | Levels _ higher => S (length higher)
  end.

(** [elementList[k].length], when [elementList[k]] is defined. *)
Definition levelLength {I} (els : ElementList I) (k : Z) : option nat :=
  match els with
  | NoLevels => None
  | Levels points higher =>
      if (k =? 0)%Z then Some (length points)
      else option_map (@length _) (nthZ higher (k - 1)%Z)
  end.

(** The construction nodes that the polytope classes create themselves. *)
Inductive ConstructionNode : Type :=
| CNPlain (children : list Z)
| CNName.

Record PolytopeC (I : Type) : Type := mkPolytopeC {
  construction : ConstructionNode;
  dimensions : Z;
  spaceDimensions : Z;
  elementList : ElementList I
}.

(** The constructor of [PolytopeC]; [None] is an omitted [construction]. *)
Definition newPolytopeC {I} (elementList : ElementList I)
    (construction : option ConstructionNode) : outcome (PolytopeC I) :=
  let len := Z.of_nat (levels elementList) in
  match
    match construction with
    | Some c => Done c
    | None =>
        match levelLength elementList (len - 2)%Z with
        | Some n => Done (CNPlain [Z.of_nat n; (len - 1)%Z])
        | None => Throw TypeError
        end
    end
  with
  | Done construction =>
      match elementList with
      | NoLevels =>
          Done (mkPolytopeC construction (len - 1)%Z (-1)%Z elementList)
      | Levels points _ =>
          match points with
          | P :: _ =>
              Done (mkPolytopeC construction (len - 1)%Z
                      (Z.of_nat (dimensions_of P)) elementList)
          | [] => Throw TypeError
          end
      end
  | Throw e => Throw e
  | Timeout => Timeout
  end.

(** ** Geometry of the explicit polytope *)

Section Geometry.

Variable I : Type.

(** [circumradius]: [els[0] ? els[0][0].magnitude() : 0]. *)
Definition circumradius (this : PolytopeC I) : outcome float :=
  match elementList this with
  | NoLevels => Done 0%float
  | Levels [] _ => Throw TypeError
  | Levels (P :: _) _ => Done (magnitude P)
  end.

(** The tolerance [1e-9], written as the binary64 value that the literal
    denotes. *)
Definition epsilon : float := 0x1.12e0be826d695p-30%float.

(** The inner loop of [circumcenter]: [v] after subtracting from it the
    projections of [Q] on the vectors found so far. *)
Fixpoint residual (Q v : Point) (vectors : list Point) : Point :=
  match vectors with
  | [] => v
  | u :: vectors' => residual Q (subtract v (project Q u)) vectors'
  end.

(** The outer loop of [circumcenter] over the vertices after the first.
    [v.scale(k)] updates [v], which is by then an entry of [vectors]. *)
Fixpoint circumcenterLoop (rest : list Point) (P : Point)
    (vectors : list Point) (O : Point) : option Point :=
  match rest with
  | [] => Some (add O P)
  | Vi :: rest' =>
      let Q := subtract Vi P in
      let v := residual Q Q vectors in
      if gt (magnitude v) epsilon then
        let k := ((distanceSq O Q - sqMagnitude O) / (2 * dot Q v))%float in
        let v := scale v k in
        circumcenterLoop rest' P (vectors ++ [v]) (add O v)
      else if gt (PrimFloat.abs (magnitude O - distance O Q)%float) epsilon
      then None
      else circumcenterLoop rest' P vectors O
  end.

(** [circumcenter]: [None] is [null]. *)
Definition circumcenter (this : PolytopeC I) : outcome (option Point) :=
  match elementList this with
  | NoLevels => Done None
  | Levels [] _ => Throw TypeError
  | Levels (P :: rest) _ =>
      Done (circumcenterLoop rest P [] (origin (spaceDimensions this)))
  end.

(** The padding loop of [setSpaceDimensions],
    [for (let j = 0; j < dim - coords.length; j++) coords.push(0)]:
    its bound is read again at every test.  A unit of fuel is one
    iteration. *)
Fixpoint padLoop (fuel : nat) (dim j : Z) (coords : list float)
    : list float :=
  match fuel with
  | 0 => coords
  | S fuel' =>
      if (j <? dim - Z.of_nat (length coords))%Z
      then padLoop fuel' dim (j + 1)%Z (coords ++ [0%float])
      else coords
  end.

(** The body of the loop of [setSpaceDimensions] for one vertex: the
    coordinates that the vertex holds afterwards.  [coords.slice(0, dim)]
    is assigned to the local variable only. *)
Definition resizeVertex (dim : Z) (P : Point) : Point :=
  let coords := coordinates P in
  if (Z.of_nat (length coords) >? dim)%Z then P
  else if (Z.of_nat (length coords) <? dim)%Z
  then mkPoint (padLoop (Z.to_nat dim) dim 0 coords)
  else P.

Definition setSpaceDimensions (this : PolytopeC I) (dim : Z) : PolytopeC I :=
  match elementList this with
  | NoLevels => this
  | Levels points higher =>
      mkPolytopeC (construction this) (dimensions this) dim
        (Levels (map (resizeVertex dim) points) higher)
  end.

End Geometry.

(** ** Doubly linked nodes and face boundaries *)

(** A number read from an array, or [undefined]. *)
Definition index : Type := option nat.

Definition index_eqb (a b : index) : bool :=
  match a, b with
  | Some x, Some y => x =? y
  | None, None => true
  | _, _ => false
  end.

(** A [NodeD].  In [faceToVertices] there is one node for each array slot
    of [vertexDLL], so a node is named by its slot; the slots [node0] and
    [node1] hold such names, [None] when [undefined]. *)
Record NodeD : Type := mkNodeD {
  value : index;
  node0 : option index;
  node1 : option index;
  traversed : bool
}.

(** The array [vertexDLL], as the list of its filled slots. *)
Definition Nodes : Type := list (index * NodeD).

Fixpoint lookupNode (nodes : Nodes) (i : index) : option NodeD :=
  match nodes with
  | [] => None
  | (k, n) :: nodes' => if index_eqb k i then Some n else lookupNode nodes' i
  end.

Fixpoint storeNode (nodes : Nodes) (i : index) (n : NodeD) : Nodes :=
  match nodes with
  | [] => [(i, n)]
  | (k, m) :: nodes' =>
      if index_eqb k i then (k, n) :: nodes'
      else (k, m) :: storeNode nodes' i n
  end.

(** One half of [linkTo]: put [target] in the first free slot of the node
    named [i]. *)
Definition fillSlot (i target : index) : M Nodes unit :=
  nodes <- getS ;;
  n <- defined (lookupNode nodes i) ;;
  match node0 n, node1 n with
  | None, _ =>
      putS (storeNode nodes i
              (mkNodeD (value n) (Some target) (node1 n) (traversed n)))
  | Some _, None =>
      putS (storeNode nodes i
              (mkNodeD (value n) (node0 n) (Some target) (traversed n)))
  | Some _, Some _ => throw LinkError
  end.

(** [this.linkTo(node)]. *)
Definition linkTo (this node : index) : M Nodes unit :=
  fillSlot this node ;;; fillSlot node this.

Definition markTraversed (i : index) : M Nodes unit :=
  nodes <- getS ;;
  n <- defined (lookupNode nodes i) ;;
  putS (storeNode nodes i (mkNodeD (value n) (node0 n) (node1 n) true)).

Definition readNode (i : option index) : M Nodes NodeD :=
  i <- defined i ;;
  nodes <- getS ;;
  defined (lookupNode nodes i).

(** The loop of [getCycle]; [node] is the current node, [undefined] when
    [None].  A unit of fuel is one iteration. *)
Fixpoint cycleLoop (fuel : nat) (node : option index) (cycle : list index)
    : M Nodes (list index) :=
  n <- readNode node ;;
  if traversed n then ret cycle
  else
    match fuel with
    | 0 => timeout
    | S fuel' =>
        i <- defined node ;;
        markTraversed i ;;;
        let cycle := cycle ++ [value n] in
        next <- readNode (node1 n) ;;
        if traversed next then cycleLoop fuel' (node0 n) cycle
        else cycleLoop fuel' (node1 n) cycle
    end.

(** [this.getCycle()].  Every iteration marks one more node, so one unit
    of fuel per node is enough. *)
Definition getCycle (this : index) : M Nodes (list index) :=
  n <- readNode (Some this) ;;
  markTraversed this ;;;
  nodes <- getS ;;
  cycleLoop (length nodes) (node0 n) [value n].

(** [if (vertexDLL[i] === undefined) vertexDLL[i] = new NodeD(i)]. *)
Definition ensureNode (i : index) : M Nodes unit :=
  nodes <- getS ;;
  match lookupNode nodes i with
  | None => putS (storeNode nodes i (mkNodeD i None None false))
  | Some _ => ret tt
  end.

(** The body of the loop of [faceToVertices] once [edge] is read. *)
Definition linkEndpoints (edge : list nat) : M Nodes unit :=
  ensureNode (nth_error edge 0) ;;;
  ensureNode (nth_error edge 1) ;;;
  linkTo (nth_error edge 0) (nth_error edge 1).

(** The body of the loop of [faceToVertices] for the edge with index
    [e]. *)
Definition linkEdge (edges : list (list nat)) (e : nat) : M Nodes unit :=
  edge <- defined (nth_error edges e) ;;
  linkEndpoints edge.

(** [elementList[d]] for [d >= 1]. *)
Definition level {I} (els : ElementList I) (d : nat) : option (list (list I)) :=
  match els, d with
  | Levels _ higher, S d' => nth_error higher d'
  | _, _ => None
  end.

Definition faceToVertices (this : PolytopeC nat) (i : Z)
    : outcome (list index) :=
  match level (elementList this) 2 with
  | None => Throw RangeError
  | Some faces =>
      match nthZ faces i with
      | None => Throw RangeError
      | Some face =>
          let run : M Nodes (list index) :=
            edges <- defined (level (elementList this) 1) ;;
            forEach face (linkEdge edges) ;;;
            first <- defined (nth_error face 0) ;;
            edge <- defined (nth_error edges first) ;;
            getCycle (nth_error edge 0) in
          match run [] with
          | Done (cycle, _) => Done cycle
          | Throw e => Throw e
          | Timeout => Timeout
          end
      end
  end.

(** ** Flags, flag classes and flag maps *)

Section Flags.

(** The type of the elements of the symmetry group. *)
Variable T : Type.

(** Modelled from the spec: the capabilities of [ConcreteGroup]
    ([Data structures/groups], not under src/) that the conversion uses:
    the identity, the comparator with results [-1 | 0 | 1] (here [Lt], [Eq],
    [Gt]) and the enumeration of all elements. *)
Record ConcreteGroup : Type := {
  identity : T;
  compare : T -> T -> comparison;
  enumerateElements : list T
}.

(** Modelled from the spec: a flag pairs a class number with a group
    element ([Data structures/flags], not under src/). *)
Record Flag : Type := mkFlag { classNumber : nat; domain : T }.

(** Modelled from the spec: an element-change rule of a flag class gives the
    new class number and the new domain; the group argument of [apply] is
    the one group of the polytope. *)
Record ElementChange : Type := {
  newClassNumber : nat;
  apply : T -> T
}.

(** Modelled from the spec: a flag class holds one element-change rule
    for each generator. *)
Record FlagClass : Type := { elementChanges : list ElementChange }.

(** The fields of a [PolytopeS] that the conversion reads.  Its private
    field [identitySimplifier] is assigned during the conversion and is
    kept in the store below. *)
Record PolytopeS : Type := {
  symmetries : ConcreteGroup;
  flagClasses : list FlagClass;
  vertices : list Point;
  rank : nat  (* the field [dimensions] *)
}.

Variable this : PolytopeS.

(** Modelled from the spec: [P.applyMatrix(g.matrix)], the action of a
    group element on a point, supplied by the group. *)
Variable applyMatrix : Point -> T -> Point.

Definition compareFlags (flag1 flag2 : Flag) : comparison :=
  if classNumber flag1 <? classNumber flag2 then Lt
  else if classNumber flag2 <? classNumber flag1 then Gt
  else compare (symmetries this) (domain flag1) (domain flag2).

Definition equalFlags (flag1 flag2 : Flag) : bool :=
  match compareFlags flag1 flag2 with
  | Eq => true
  | _ => false
  end.

(** Modelled from the spec: [FlagMap] ([Data structures/flags], not under
    src/) is a dictionary keyed by flag: two flags are the same key when
    they are equal flags.  Keys are kept in insertion order, the order in
    which [for ... in] visits them; setting an existing key keeps its
    place.  A key that [for ... in] yields is passed to [get] as the flag
    it stands for. *)
Definition FlagMap (U : Type) : Type := list (Flag * U).

Fixpoint fm_get {U} (m : FlagMap U) (key : Flag) : option U :=
  match m with
  | [] => None
  | (k, v) :: m' => if equalFlags k key then Some v else fm_get m' key
  end.

Fixpoint fm_set {U} (m : FlagMap U) (key : Flag) (value : U) : FlagMap U :=
  match m with
  | [] => [(key, value)]
  | (k, v) :: m' =>
      if equalFlags k key then (k, value) :: m'
      else (k, v) :: fm_set m' key value
  end.

Definition fm_keys {U} (m : FlagMap U) : list Flag := map fst m.

(** ** The store of simplifiers *)

(** Simplifiers are objects: [const newSimplifier = simplifier1] makes two
    names for one dictionary.  The store holds every simplifier created
    during a conversion, named by its position, and the current value of
    the field [this.identitySimplifier]. *)
Definition ref : Type := nat.

Record Store : Type := mkStore {
  maps : list (FlagMap Flag);
  identitySimplifier : ref
}.

Definition alloc (m : FlagMap Flag) : M Store ref :=
  fun st => Done (length (maps st),
                  mkStore (maps st ++ [m]) (identitySimplifier st)).

Definition deref (r : ref) : M Store (FlagMap Flag) :=
  fun st => match nth_error (maps st) r with
            | Some m => Done (m, st)
            | None => Throw TypeError
            end.

Fixpoint update_nth {A} (l : list A) (n : nat) (a : A) : list A :=
  match l, n with
  | [], _ => []
  | _ :: l', 0 => a :: l'
  | x :: l', S n' => x :: update_nth l' n' a
  end.

(** [r.get(key)]: [None] is [undefined]. *)
Definition get (r : ref) (key : Flag) : M Store (option Flag) :=
  m <- deref r ;; ret (fm_get m key).

(** [r.set(key, value)]. *)
Definition set (r : ref) (key value : Flag) : M Store unit :=
  m <- deref r ;;
  st <- getS ;;
  putS (mkStore (update_nth (maps st) r (fm_set m key value))
                (identitySimplifier st)).

Definition thisIdentitySimplifier : M Store ref :=
  st <- getS ;; ret (identitySimplifier st).

Definition setIdentitySimplifier (r : ref) : M Store unit :=
  st <- getS ;; putS (mkStore (maps st) r).

(** [moveFlag]: reading a flag class or an element change that does not
    exist gives [undefined], whose property access throws. *)
Definition moveFlag (flag : Flag) (generator : nat) : outcome Flag :=
  match nth_error (flagClasses this) (classNumber flag) with
  | None => Throw TypeError
  | Some fc =>
      match nth_error (elementChanges fc) generator with
      | None => Throw TypeError
      | Some elementChange =>
          Done (mkFlag (newClassNumber elementChange)
                       (apply elementChange (domain flag)))
      end
  end.

Definition lift {S A} (o : outcome A) : M S A :=
  fun s => match o with
           | Done a => Done (a, s)
           | Throw e => Throw e
           | Timeout => Timeout
           end.

(** The loop
    [while (!equalFlags(oldElem, elem)) { oldElem = elem; elem = m.get(elem); }]
    on the simplifier [r].  Comparing with [undefined] throws.  One unit
    of fuel is one iteration. *)
Fixpoint resolve (fuel : nat) (r : ref) (oldElem : Flag) (elem : option Flag)
    : M Store Flag :=
  elem <- defined elem ;;
  if equalFlags oldElem elem then ret elem
  else
    match fuel with
    | 0 => timeout
    | S fuel' =>
        next <- get r elem ;;
        resolve fuel' r elem next
    end.

(** Fuel for the loops on [r]: a chain that visits no key twice makes at
    most one iteration per key. *)
Definition fuelFor (r : ref) : M Store nat :=
  m <- deref r ;; ret (S (length m)).

(** The body of the first loop of [modifySimplifier] for one key. *)
Definition unionStep (simplifier1 : ref) (simplifier2 : ref + nat)
    (key : Flag) : M Store unit :=
  let newSimplifier := simplifier1 in
  let oldLeftElem := mkFlag 0 (identity (symmetries this)) in
  '(oldRightElem, leftElem, rightElem) <-
    match simplifier2 with
    | inr generator =>
        oldRightElem <- lift (moveFlag oldLeftElem generator) ;;
        idS <- thisIdentitySimplifier ;;
        leftElem <- get idS key ;;
        leftElem <- defined leftElem ;;
        rightElem <- lift (moveFlag leftElem generator) ;;
        ret (oldRightElem, Some leftElem, Some rightElem)
    | inl simplifier2 =>
        leftElem <- get simplifier1 key ;;
        rightElem <- get simplifier2 key ;;
        ret (mkFlag 0 (identity (symmetries this)), leftElem, rightElem)
    end ;;
  fuel <- fuelFor newSimplifier ;;
  leftElem <- resolve fuel newSimplifier oldLeftElem leftElem ;;
  rightElem <- resolve fuel newSimplifier oldRightElem rightElem ;;
  match compareFlags leftElem rightElem with
  | Gt => set newSimplifier leftElem rightElem
  | Lt => set newSimplifier rightElem leftElem
  | Eq => ret tt
  end.

(** The clean-up loop of [modifySimplifier] for one key: the entry of
    [betterSimplifier] for [key]. *)
Definition cleanStep (newSimplifier betterSimplifier : ref) (key : Flag)
    : M Store unit :=
  let oldElem := mkFlag 0 (identity (symmetries this)) in
  elem <- get newSimplifier key ;;
  fuel <- fuelFor newSimplifier ;;
  elem <- resolve fuel newSimplifier oldElem elem ;;
  set betterSimplifier key elem.

Definition modifySimplifier (simplifier1 : ref) (simplifier2 : ref + nat)
    : M Store ref :=
  let newSimplifier := simplifier1 in
  m <- deref simplifier1 ;;
  forEach (fm_keys m) (unionStep simplifier1 simplifier2) ;;;
  betterSimplifier <- alloc [] ;;
  m' <- deref newSimplifier ;;
  forEach (fm_keys m') (cleanStep newSimplifier betterSimplifier) ;;;
  ret betterSimplifier.

Definition extendSimplifier (simplifier1 : ref) (simplifier2 : nat)
    : M Store ref :=
  modifySimplifier simplifier1 (inr simplifier2).

Definition mergeSimplifiers (simplifier1 simplifier2 : ref) : M Store ref :=
  modifySimplifier simplifier1 (inl simplifier2).

(** A loop that threads a local variable. *)
Fixpoint foldM {S A B} (l : list A) (b : B) (body : B -> A -> M S B)
    : M S B :=
  match l with
  | [] => ret b
  | a :: l' => b' <- body b a ;; foldM l' b' body
  end.

(** The flags [new Flag(j, domains[i])] in the order of the nested loops
    over [domains] and [flagClasses]. *)
Definition scan : list Flag :=
  flat_map
    (fun d => map (fun j => mkFlag j d) (seq 0 (length (flagClasses this))))
    (enumerateElements (symmetries this)).

(** [simplifiers[i]] as the first argument or the receiver of a call. *)
Definition pick {A} (l : list A) (i : Z) : M Store A := defined (nthZ l i).

(** [this.equalFlags(flag, simplifier.get(flag))]. *)
Definition isRepresentative (simplifier : ref) (flag : Flag) : M Store bool :=
  rep <- get simplifier flag ;;
  rep <- defined rep ;;
  ret (equalFlags flag rep).

(** [elements[rightID].push(leftID)]. *)
Definition pushAt {I} (elements : list (list I)) (rightID : option nat)
    (leftID : I) : M Store (list (list I)) :=
  match rightID with
  | None => throw TypeError
  | Some n =>
      match nth_error elements n with
      | None => throw TypeError
      | Some row => ret (update_nth elements n (row ++ [leftID]))
      end
  end.

(** The blocks of [toPolytopeC], in the order of the source.  The calls
    of [console.log], and of [simplifierCosets] inside them, only read and
    are left out. *)

(** The identity simplifier: each flag is mapped to itself. *)
Definition buildIdentity : M Store unit :=
  fresh <- alloc [] ;;
  setIdentitySimplifier fresh ;;;
  forEach scan (fun flag =>
    idS <- thisIdentitySimplifier ;; set idS flag flag).

Definition buildAscending : M Store (list ref) :=
  idS <- thisIdentitySimplifier ;;
  '(ascendingSimplifiers, _) <-
    foldM (seq 0 (rank this)) ([idS], idS) (fun '(asc, lastSimplifier) i =>
      lastSimplifier <- extendSimplifier lastSimplifier i ;;
      ret (asc ++ [lastSimplifier], lastSimplifier)) ;;
  ret ascendingSimplifiers.

Definition buildDescending : M Store (list ref) :=
  idS <- thisIdentitySimplifier ;;
  foldM (seq 0 (rank this)) [idS] (fun desc i =>
    lastSimplifier <- pick desc (Z.of_nat (length desc) - 1)%Z ;;
    r <- extendSimplifier lastSimplifier (rank this - (i + 1)) ;;
    ret (desc ++ [r])).

Definition buildElementSimplifiers (ascendingSimplifiers
    descendingSimplifiers : list ref) : M Store (list (option ref)) :=
  let dims := Z.of_nat (rank this) in
  elementSimplifiers <-
    foldM (seq 0 (rank this)) [] (fun els i =>
      s1 <- pick ascendingSimplifiers (Z.of_nat i) ;;
      s2 <- pick descendingSimplifiers (dims - (Z.of_nat i + 1))%Z ;;
      simplifier <- mergeSimplifiers s1 s2 ;;
      ret (els ++ [Some simplifier])) ;;
  ret (elementSimplifiers ++ [nthZ ascendingSimplifiers dims]).

Definition buildIntersectionSimplifiers (ascendingSimplifiers
    descendingSimplifiers : list ref) : M Store (list (option ref)) :=
  let dims := Z.of_nat (rank this) in
  intersectionSimplifiers <-
    foldM (seq 0 (rank this - 1)) [] (fun ints i =>
      s1 <- pick ascendingSimplifiers (Z.of_nat i) ;;
      s2 <- pick descendingSimplifiers (dims - (Z.of_nat i + 2))%Z ;;
      simplifier <- mergeSimplifiers s1 s2 ;;
      ret (ints ++ [Some simplifier])) ;;
  ret (intersectionSimplifiers ++ [nthZ ascendingSimplifiers (dims - 1)%Z]).

(** [simplifiers[i]] as the receiver of [get]. *)
Definition simplifierAt (l : list (option ref)) (i : Z) : M Store ref :=
  s <- pick l i ;; defined s.

Definition buildVertices (elementSimplifiers : list (option ref))
    : M Store (list Point) :=
  foldM scan [] (fun points flag =>
    s <- simplifierAt elementSimplifiers 0%Z ;;
    b <- isRepresentative s flag ;;
    if b then
      seed <- defined (nth_error (vertices this) (classNumber flag)) ;;
      ret (points ++ [applyMatrix seed (domain flag)])
    else ret points).

Definition buildLocations (elementSimplifiers : list (option ref))
    : M Store (list (FlagMap nat) * list nat) :=
  foldM (seq 0 (rank this + 1)) ([], [])
    (fun '(locations, locationsLengths) i =>
      '(locationsRow, nextID) <-
        foldM scan ([], 0) (fun '(row, nextID) flag =>
          s <- simplifierAt elementSimplifiers (Z.of_nat i) ;;
          b <- isRepresentative s flag ;;
          if b then ret (fm_set row flag nextID, S nextID)
          else ret (row, nextID)) ;;
      ret (locations ++ [locationsRow], locationsLengths ++ [nextID])).

(** The elements of rank [i], for [i >= 1]. *)
Definition buildElements (elementSimplifiers intersectionSimplifiers
    : list (option ref)) (locations : list (FlagMap nat))
    (locationsLengths : list nat) (i : Z)
    : M Store (list (list (option nat))) :=
  n <- defined (nthZ locationsLengths i) ;;
  foldM scan (repeat [] n) (fun elements flag =>
    s <- simplifierAt intersectionSimplifiers (i - 1)%Z ;;
    b <- isRepresentative s flag ;;
    if b then
      sl <- simplifierAt elementSimplifiers (i - 1)%Z ;;
      sr <- simplifierAt elementSimplifiers i ;;
      leftFlag <- get sl flag ;;
      rightFlag <- get sr flag ;;
      leftFlag <- defined leftFlag ;;
      rowl <- pick locations (i - 1)%Z ;;
      let leftID := fm_get rowl leftFlag in
      rightFlag <- defined rightFlag ;;
      rowr <- pick locations i ;;
      let rightID := fm_get rowr rightFlag in
      pushAt elements rightID leftID
    else ret elements).

Definition buildHigher (elementSimplifiers intersectionSimplifiers
    : list (option ref)) (locations : list (FlagMap nat))
    (locationsLengths : list nat)
    : M Store (list (list (list (option nat)))) :=
  foldM (seq 1 (rank this)) [] (fun higher i =>
    elements <- buildElements elementSimplifiers intersectionSimplifiers
                  locations locationsLengths (Z.of_nat i) ;;
    ret (higher ++ [elements])).

Definition toPolytopeC : M Store (PolytopeC (option nat)) :=
  buildIdentity ;;;
  ascendingSimplifiers <- buildAscending ;;
  descendingSimplifiers <- buildDescending ;;
  elementSimplifiers <-
    buildElementSimplifiers ascendingSimplifiers descendingSimplifiers ;;
  intersectionSimplifiers <-
    buildIntersectionSimplifiers ascendingSimplifiers descendingSimplifiers ;;
  points <- buildVertices elementSimplifiers ;;
  '(locations, locationsLengths) <- buildLocations elementSimplifiers ;;
  higher <- buildHigher elementSimplifiers intersectionSimplifiers
              locations locationsLengths ;;
  lift (newPolytopeC (Levels points higher) None).

End Flags.

(** * Instances and specification predicates *)

(** ** Explicit polytopes used as examples *)

(** An explicit polytope with the given levels, named, in the space of its
    first vertex. *)
Definition explicit (points : list (list float))
    (higher : list (list (list nat))) : PolytopeC nat :=
  mkPolytopeC CNName (Z.of_nat (length higher))
    (Z.of_nat (length (hd [] points)))
    (Levels (map mkPoint points) higher).

Local Open Scope float_scope.

(** One vertex with three coordinates and one with a single coordinate. *)
Definition resizeExample : PolytopeC nat := explicit [[1; 2; 3]; [1]] [].

(** The segments with end points 1 and 2, and 1 and 3, on the line. *)
Definition dyad12 : PolytopeC nat := explicit [[1]; [2]] [[[0; 1]%nat]].

Definition dyad13 : PolytopeC nat := explicit [[1]; [3]] [[[0; 1]%nat]].





(** ** Predicates on numbers and points *)





(** The reading of the specification under which [circumradius] agrees
    with the distance from the computed circumcenter to the vertices only
    when that circumcenter is the origin. *)
Definition circumradiusOnlyAtOrigin : Prop :=
  forall (this : PolytopeC nat) points higher c r,
    elementList this = Levels points higher ->
    circumcenter this = Done (Some c) ->
    Forall (fun P => distance c P = r) points ->
    circumradius this = Done r ->
    c = origin (spaceDimensions this).

Local Close Scope float_scope.

(** ** Symmetry-based polytopes used as examples *)

(** Group elements given as 2x2 integer matrices, by rows. *)
Definition Mat : Type := (Z * Z * Z * Z)%type.

Definition mmul (m n : Mat) : Mat :=
  let '(a, b, c, d) := m in
  let '(e, f, g, h) := n in
  (a * e + b * g, a * f + b * h, c * e + d * g, c * f + d * h)%Z.

(** The entries compared one after the other. *)
Definition lexCompare (m n : Mat) : comparison :=
  let '(a, b, c, d) := m in
  let '(e, f, g, h) := n in
  match (a ?= e)%Z with
  | Eq => match (b ?= f)%Z with
          | Eq => match (c ?= g)%Z with
                  | Eq => (d ?= h)%Z
                  | o => o
                  end
          | o => o
          end
  | o => o
  end.

(** The entries are -1, 0 and 1. *)
Definition entry (z : Z) : float :=
  if (z =? 0)%Z then 0%float
  else if (0 <? z)%Z then 1%float else (-1)%float.

Definition applyMat (P : Point) (m : Mat) : Point :=
  let '(a, b, c, d) := m in
  match coordinates P with
  | [x; y] => mkPoint [(entry a * x + entry b * y)%float;
                       (entry c * x + entry d * y)%float]
  | _ => P
  end.

Definition I2 : Mat := (1, 0, 0, 1)%Z.
Definition flipX : Mat := (-1, 0, 0, 1)%Z.
Definition flipY : Mat := (1, 0, 0, -1)%Z.
Definition minusI : Mat := (-1, 0, 0, -1)%Z.
Definition swapXY : Mat := (0, 1, 1, 0)%Z.
Definition antiSwap : Mat := (0, -1, -1, 0)%Z.
Definition quarterTurn : Mat := (0, -1, 1, 0)%Z.
Definition quarterBack : Mat := (0, 1, -1, 0)%Z.

(** The element change of a flag class that multiplies the domain by a
    generating reflection and stays in class [c]. *)
Definition reflectTo (c : nat) (g : Mat) : ElementChange Mat :=
  {| newClassNumber := c; apply := fun d => mmul d g |}.

(** The element change that keeps the domain and moves to class [c]. *)
Definition switchTo (c : nat) : ElementChange Mat :=
  {| newClassNumber := c; apply := fun d => d |}.

(** The symmetry group of the square with the vertices (1,1), (1,-1),
    (-1,-1), (-1,1): its eight elements in the order in which products of
    the two generating reflections reach them from the identity,
    compared entry by entry with the larger entry first, so that the
    identity is the least element. *)
Definition squareGroup : ConcreteGroup Mat := {|
  identity := I2;
  compare := fun m n => lexCompare n m;
  enumerateElements :=
    [I2; flipY; antiSwap; quarterTurn; quarterBack; swapXY; flipX; minusI]
|}.

(** The square as a regular polygon: one flag class; the base flag is the
    vertex (1,-1) on the edge [x = 1]; changing the vertex is the
    reflection [flipY], changing the edge is the reflection [antiSwap],
    which fixes the vertex. *)
Definition square : PolytopeS Mat := {|
  symmetries := squareGroup;
  flagClasses :=
    [ {| elementChanges := [reflectTo 0 flipY; reflectTo 0 antiSwap] |} ];
  vertices := [mkPoint [1; -1]%float];
  rank := 2
|}.

(** The symmetry group of a rhombus, compared entry by entry with the
    smaller entry first. *)
Definition rhombusGroup : ConcreteGroup Mat := {|
  identity := I2;
  compare := lexCompare;
  enumerateElements := [I2; flipX; flipY; minusI]
|}.

(** The rhombus with the vertices (2,0), (0,1), (-2,0), (0,-1): two flag
    classes, the flag of the vertex (2,0) and the flag of the vertex (0,1)
    on the edge that joins them.  Changing the vertex switches the class
    and keeps the domain; changing the edge reflects in the axis through
    the vertex. *)
Definition rhombus : PolytopeS Mat := {|
  symmetries := rhombusGroup;
  flagClasses :=
    [ {| elementChanges := [switchTo 1; reflectTo 0 flipY] |};
      {| elementChanges := [switchTo 0; reflectTo 1 flipX] |} ];
  vertices := [mkPoint [2; 0]%float; mkPoint [0; 1]%float];
  rank := 2
|}.

(** The store before a conversion. *)
Definition emptyStore : Store Mat := mkStore [] 0.

(** [simplifier.get(flag)] in the store [st]. *)
Definition lookup {T} (this : PolytopeS T) (st : Store T) (simplifier : ref)
    (flag : Flag T) : option (Flag T) :=
  match nth_error (maps st) simplifier with
  | Some m => fm_get this m flag
  | None => None
  end.

(** ** Faces and their boundaries *)

(** The entries of [l] at the positions [idxs], when all exist. *)
Fixpoint lookupAll {A} (l : list A) (idxs : list nat) : option (list A) :=
  match idxs with
  | [] => Some []
  | i :: idxs' =>
      match nth_error l i, lookupAll l idxs' with
      | Some x, Some xs => Some (x :: xs)
      | _, _ => None
      end
  end.

(** The edges that bound the 2-face [i], in the order of its list. *)
Definition faceEdges (this : PolytopeC nat) (i : Z)
    : option (list (list nat)) :=
  match level (elementList this) 2, level (elementList this) 1 with
  | Some faces, Some edges =>
      match nthZ faces i with
      | Some face => lookupAll edges face
      | None => None
      end
  | _, _ => None
  end.

(** What [faceToVertices] computes from the edges of the face. *)
Definition cycleOfEdges (es : list (list nat)) : outcome (list index) :=
  let run : M Nodes (list index) :=
    forEach es linkEndpoints ;;;
    edge <- defined (hd_error es) ;;
    getCycle (nth_error edge 0) in
  match run [] with
  | Done (cycle, _) => Done cycle
  | Throw e => Throw e
  | Timeout => Timeout
  end.

(** [e] joins the vertices [a] and [b], in either direction. *)
Definition isEdge (e : list nat) (a b : nat) : Prop :=
  e = [a; b] \/ e = [b; a].

(** The face is bounded by exactly the four edges (0,1), (1,2), (2,3) and
    (3,0), listed in any order and each in either direction. *)
Definition squareFace (es : list (list nat)) : Prop :=
  exists e01 e12 e23 e30,
    Permutation es [e01; e12; e23; e30] /\
    isEdge e01 0 1 /\ isEdge e12 1 2 /\ isEdge e23 2 3 /\ isEdge e30 3 0.

(** The pairs of neighbours in a cyclic sequence, the pair of the last
    and the first included. *)
Definition adjacentPairs {A} (cycle : list A) : list (A * A) :=
  combine cycle (tl cycle ++ firstn 1 cycle).

Definition index_eq_dec (a b : index) : {a = b} + {a <> b}.
Proof. repeat decide equality. Defined.

(** The eight directed edges of the square, the number of the undirected
    edge of each, and the eight traversals of the square. *)
Definition orientedEdges : list (list nat) :=
  [[0; 1]; [1; 0]; [1; 2]; [2; 1]; [2; 3]; [3; 2]; [3; 0]; [0; 3]].

Definition edgeId (e : list nat) : nat :=
  match e with
  | [0; 1] | [1; 0] => 0
  | [1; 2] | [2; 1] => 1
  | [2; 3] | [3; 2] => 2
  | [3; 0] | [0; 3] => 3
  | _ => 4
  end.

Definition squareCycles : list (list index) :=
  map (map Some)
    [[0; 1; 2; 3]; [1; 2; 3; 0]; [2; 3; 0; 1]; [3; 0; 1; 2];
     [0; 3; 2; 1]; [3; 2; 1; 0]; [2; 1; 0; 3]; [1; 0; 3; 2]].

Definition eachEdgeOnce (es : list (list nat)) : bool :=
  forallb (fun k => count_occ Nat.eq_dec (map edgeId es) k =? 1)
    [0; 1; 2; 3].

Definition checkSquare (es : list (list nat)) : bool :=
  if eachEdgeOnce es then
    match cycleOfEdges es with
    | Done cycle =>
        if in_dec (list_eq_dec index_eq_dec) cycle squareCycles
        then true else false
    | _ => false
    end
  else true.

(** The faces used as examples of malformed boundaries: an edge listed
    twice, two triangles in one face, an open chain, and three edges at
    one vertex. *)
Definition unitSquare : PolytopeC nat :=
  explicit [[0; 0]; [1; 0]; [1; 1]; [0; 1]]%float
    [[[0; 1]; [1; 2]; [2; 3]; [3; 0]]; [[0; 1; 2; 3]]].

Definition doubledEdge : PolytopeC nat :=
  explicit [[0]; [1]]%float [[[0; 1]; [0; 1]]; [[0; 1]]].

Definition twoTriangles : PolytopeC nat :=
  explicit [[0]; [1]; [2]; [3]; [4]; [5]]%float
    [[[0; 1]; [1; 2]; [2; 0]; [3; 4]; [4; 5]; [5; 3]];
     [[0; 1; 2; 3; 4; 5]]].

Definition openChain : PolytopeC nat :=
  explicit [[0]; [1]; [2]]%float [[[0; 1]; [1; 2]]; [[0; 1]]].

Definition threeAtVertex : PolytopeC nat :=
  explicit [[0]; [1]; [2]; [3]]%float
    [[[0; 1]; [0; 2]; [0; 3]]; [[0; 1; 2]]].

(** The number of filled slots of a node, and of the node in slot [i] of
    [vertexDLL]. *)
Definition filled (n : NodeD) : nat :=
  match node0 n with Some _ => 1 | None => 0 end
  + match node1 n with Some _ => 1 | None => 0 end.

Definition fill (nodes : Nodes) (i : index) : nat :=
  match lookupNode nodes i with
  | Some n => filled n
  | None => 0
  end.

(** The number of times that [i] is an end point of an edge of [es]. *)
Definition occurrences (i : index) (es : list (list nat)) : nat :=
  length (filter (index_eqb i)
            (flat_map (fun e => [nth_error e 0; nth_error e 1]) es)).

(** The distinct vertices joined to [i] by an edge of [es]. *)
Definition partners (i : index) (es : list (list nat)) : list index :=
  nodup index_eq_dec
    (flat_map (fun e =>
       (if index_eqb (nth_error e 0) i then [nth_error e 1] else []) ++
       (if index_eqb (nth_error e 1) i then [nth_error e 0] else [])) es).

(** The reading of the specification under which a malformed edge set
    makes the extraction fail, for two of the ways in which it can be
    malformed: a vertex on three or more edges, and a vertex with fewer
    than two distinct partners. *)
Definition malformedDetected : Prop :=
  forall (this : PolytopeC nat) i es,
    faceEdges this i = Some es ->
    (exists v, 3 <= occurrences v es) \/
    (exists v, 1 <= occurrences v es /\ length (partners v es) < 2) ->
    exists e, faceToVertices this i = Throw e.

(** ** Representatives of a simplifier *)

Section Representatives.

Context {T : Type} (this : PolytopeS T).

(** [f] is its own image under the simplifier [r]: it is a
    representative. *)
Definition isRep (st : Store T) (r : ref) (f : Flag T) : Prop :=
  lookup this st r f = Some f.

(** From [st] to [st'] only the simplifier [r] was written, and no flag
    became a representative of it. *)
Definition mutates (r : ref) (st st' : Store T) : Prop :=
  identitySimplifier st' = identitySimplifier st /\
  length (maps st') = length (maps st) /\
  (forall r', r' <> r -> nth_error (maps st') r' = nth_error (maps st) r') /\
  (forall f, isRep st' r f -> isRep st r f).

(** Every representative of [a] is a representative of [b]. *)
Definition finer (st : Store T) (a b : ref) : Prop :=
  forall f, isRep st a f -> isRep st b f.

(** The element simplifiers built so far: each was returned by a merge
    into the ascending simplifier of its rank, which has since gained no
    representative. *)
Definition elementFacts (n : nat) (asc : list ref) (els : list (option ref))
    (st : Store T) : Prop :=
  forall k, k < length els ->
    exists a b,
      nth_error asc k = Some a /\ nth_error els k = Some (Some b) /\
      n <= b /\ b < length (maps st) /\ finer st a b.

(** The intersection simplifiers built so far: each was returned by a
    later merge into the same ascending simplifier as the element
    simplifier of its rank. *)
Definition intersectionFacts (n : nat) (ints els : list (option ref))
    (st : Store T) : Prop :=
  forall k, k < length ints ->
    exists x b,
      nth_error ints k = Some (Some x) /\ nth_error els k = Some (Some b) /\
      n <= x /\ x < length (maps st) /\ n <= b /\ b < length (maps st) /\
      finer st x b.

(** A row of [locations] for the simplifier [e]: distinct flags have
    distinct IDs, and every representative that is scanned has one. *)
Definition rowOK (row : FlagMap T nat) (e : ref) (st : Store T) : Prop :=
  (forall f g id, fm_get this row f = Some id ->
     fm_get this row g = Some id -> f = g) /\
  (forall f, In f (scan this) -> isRep st e f -> fm_get this row f <> None).

End Representatives.

(** * Further models *)

(** ** Links and walks of the doubly linked nodes *)

(** [this.node0 = target] and [this.node1 = target] on the node named [i]. *)
Definition setNode0 (i target : index) : M Nodes unit :=
  nodes <- getS ;;
  n <- defined (lookupNode nodes i) ;;
  putS (storeNode nodes i
          (mkNodeD (value n) (Some target) (node1 n) (traversed n))).

Definition setNode1 (i target : index) : M Nodes unit :=
  nodes <- getS ;;
  n <- defined (lookupNode nodes i) ;;
  putS (storeNode nodes i
          (mkNodeD (value n) (node0 n) (Some target) (traversed n))).

(** [this.linkToNext(node)]. *)
Definition linkToNext (this node : index) : M Nodes unit :=
  setNode0 this node ;;; setNode1 node this.

(** [this.linkToPrev(node)]. *)
Definition linkToPrev (this node : index) : M Nodes unit :=
  setNode1 this node ;;; setNode0 node this.

(** The loop of [getOrderedCycle]. *)
Fixpoint orderedLoop (fuel : nat) (node : option index) (cycle : list index)
    : M Nodes (list index) :=
  n <- readNode node ;;
  if traversed n then ret cycle
  else
    match fuel with
    | 0 => timeout
    | S fuel' =>
        i <- defined node ;;
        markTraversed i ;;;
        orderedLoop fuel' (node0 n) (cycle ++ [value n])
    end.

(** [this.getOrderedCycle()]. *)
Definition getOrderedCycle (this : index) : M Nodes (list index) :=
  n <- readNode (Some this) ;;
  markTraversed this ;;;
  nodes <- getS ;;
  orderedLoop (length nodes) (node0 n) [value n].

(** [this.getNode(i)]. *)
Definition getNode (this : index) (i : Z) : M Nodes (option index) :=
  n <- readNode (Some this) ;;
  ret (if (i =? 0)%Z then node0 n else node1 n).

Definition slot_eqb (a : option index) (b : index) : bool :=
  match a with
  | Some x => index_eqb x b
  | None => false
  end.

(** The node named [cur] is not traversed and its two slots hold [before]
    and [after], in either order. *)
Definition linkedBetween (nodes : Nodes) (before cur after : index) : bool :=
  match lookupNode nodes cur with
  | Some n =>
      negb (traversed n) &&
      ((slot_eqb (node0 n) after && slot_eqb (node1 n) before) ||
       (slot_eqb (node0 n) before && slot_eqb (node1 n) after))
  | None => false
  end.

(** The nodes of [l], which follow [before] on a ring that starts at
    [first], are each linked to the node before and the node after. *)
Fixpoint linkedFrom (nodes : Nodes) (first before : index) (l : list index)
    : bool :=
  match l with
  | [] => true
  | cur :: post =>
      linkedBetween nodes before cur (hd first post) &&
      linkedFrom nodes first cur post
  end.

(** The nodes [first :: rest] form a ring: the first slot of [first] holds
    the second node, and every later node is linked to its two neighbours. *)
Definition linkedRing (nodes : Nodes) (first : index) (rest : list index)
    : bool :=
  match lookupNode nodes first with
  | Some n =>
      negb (traversed n) && slot_eqb (node0 n) (hd first rest) &&
      linkedFrom nodes first first rest
  | None => false
  end.

(** The node named [cur] is not traversed and its first slot holds [after]. *)
Definition nextIs (nodes : Nodes) (cur after : index) : bool :=
  match lookupNode nodes cur with
  | Some n => negb (traversed n) && slot_eqb (node0 n) after
  | None => false
  end.

Fixpoint orderedFrom (nodes : Nodes) (first : index) (l : list index) : bool :=
  match l with
  | [] => true
  | cur :: post =>
      nextIs nodes cur (hd first post) && orderedFrom nodes first post
  end.

(** In the ring [first :: rest] the first slot of every node holds the
    next node. *)
Definition orderedRing (nodes : Nodes) (first : index) (rest : list index)
    : bool :=
  orderedFrom nodes first (first :: rest).

(** The values of the nodes named in [l]. *)
Definition valuesOf (nodes : Nodes) (l : list index) : list index :=
  map (fun i => match lookupNode nodes i with
                | Some n => value n
                | None => None
                end) l.

Definition marked (n : NodeD) : NodeD :=
  mkNodeD (value n) (node0 n) (node1 n) true.

(** The store [N] is [N0] with the nodes named in [V] marked as
    traversed. *)
Definition visitedState (N0 : Nodes) (V : list index) (N : Nodes) : Prop :=
  length N = length N0 /\
  forall j, lookupNode N j =
    match lookupNode N0 j with
    | Some n => Some (if in_dec index_eq_dec j V then marked n else n)
    | None => None
    end.

(** A ring of three nodes linked in order. *)
Definition orderedTriple : Nodes :=
  [(Some 0, mkNodeD (Some 10) (Some (Some 1)) None false);
   (Some 1, mkNodeD (Some 11) (Some (Some 2)) None false);
   (Some 2, mkNodeD (Some 12) (Some (Some 0)) None false)].

(** One of the two slots of the node named [x] holds [y]. *)
Definition neighbour (nodes : Nodes) (x y : index) : Prop :=
  exists n, lookupNode nodes x = Some n /\
    (node0 n = Some y \/ node1 n = Some y).

(** Every link is held from both ends. *)
Definition symmetricLinks (nodes : Nodes) : Prop :=
  forall x y, neighbour nodes x y -> neighbour nodes y x.

(** Both slots of the node are taken. *)
Definition fullNode (n : NodeD) : bool :=
  match node0 n, node1 n with
  | Some _, Some _ => true
  | _, _ => false
  end.

(** Two nodes not linked to anything. *)
Definition twoFresh : Nodes :=
  [(Some 0, mkNodeD (Some 0) None None false);
   (Some 1, mkNodeD (Some 1) None None false)].

(** The nodes that linking the edges [es] puts in the slots of the node
    [v], in the order in which they are linked. *)
Definition partnerList (v : index) (es : list (list nat)) : list index :=
  flat_map (fun e =>
     (if index_eqb (nth_error e 0) v then [nth_error e 1] else []) ++
     (if index_eqb (nth_error e 1) v then [nth_error e 0] else [])) es.

(** The edges [es] are the sides of the polygon with the vertices [ring],
    listed in any order and each in either direction. *)
Definition polygonFace (ring : list nat) (es : list (list nat)) : Prop :=
  exists es', Permutation es es' /\
    Forall2 (fun e p => isEdge e (fst p) (snd p)) es' (adjacentPairs ring).

(** Every node of the store carries its own name, is not traversed, and
    holds in its slots the first two entries of [f]. *)
Definition slotsFilled (nodes : Nodes) (f : index -> list index) : Prop :=
  forall v,
    match lookupNode nodes v with
    | Some n =>
        value n = v /\ traversed n = false /\
        node0 n = nth_error (f v) 0 /\ node1 n = nth_error (f v) 1
    | None => f v = []
    end.

(** What the pair [p] of neighbours on a ring contributes to the
    neighbours of [v]. *)
Definition pairContrib (v : nat) (p : nat * nat) : list nat :=
  (if fst p =? v then [snd p] else []) ++
  (if snd p =? v then [fst p] else []).

(** The pairs of consecutive entries of a list. *)
Definition cpairs {A} (l : list A) : list (A * A) := combine l (tl l).

(** A pair with its components exchanged. *)
Definition swapPair {A} (p : A * A) : A * A := (snd p, fst p).

(** A ring of three nodes whose slots hold the neighbours in mixed
    order. *)
Definition mixedRing : Nodes :=
  [(Some 0, mkNodeD (Some 10) (Some (Some 1)) (Some (Some 2)) false);
   (Some 1, mkNodeD (Some 11) (Some (Some 0)) (Some (Some 2)) false);
   (Some 2, mkNodeD (Some 12) (Some (Some 0)) (Some (Some 1)) false)].

(** A pentagon whose face lists its sides out of order, some of them
    reversed. *)
Definition pentagon : PolytopeC nat :=
  explicit [[0]; [1]; [2]; [3]; [4]]%float
    [[[0; 1]; [2; 1]; [2; 3]; [4; 3]; [0; 4]]; [[2; 0; 4; 1; 3]]].

(** ** The centroid of the explicit polytope *)

Section Centroid.

Variable I : Type.

(** [for (let j = 0; j < d; j++) res[j] += coordinates[j]], where [res]
    has [d] entries: a missing coordinate is [undefined], and adding it
    gives [NaN]. *)
Fixpoint addCoordinates (res coords : list float) : list float :=
  match res with
  | [] => []
  | r :: res' =>
      (r + hd nan coords)%float :: addCoordinates res' (tl coords)
  end.

(** The number [n] of entries of an array as a float; array lengths are
    below [2^32], where the conversion is exact. *)
Definition numberOf (n : nat) : float :=
  PrimFloat.of_uint63 (Uint63.of_Z (Z.of_nat n)).

(** [gravicenter]: the sums of the first [spaceDimensions] coordinates of
    the vertices, divided by the number of vertices; [new Point(res)] is
    the point with the coordinates [res]. *)
Definition gravicenter (this : PolytopeC I) : Point :=
  match elementList this with
  | NoLevels => origin 0
  | Levels vertices _ =>
      let res := repeat 0%float (Z.to_nat (spaceDimensions this)) in
      let res := fold_left (fun res P => addCoordinates res (coordinates P))
                   vertices res in
      mkPoint (map (fun x => (x / numberOf (length vertices))%float) res)
  end.

End Centroid.

(** The polytope with the vertices (1, 2, 3) and (1) after
    [setSpaceDimensions(3)]. *)
Definition paddedExample : PolytopeC nat := setSpaceDimensions resizeExample 3.

(** ** Counting representatives *)

Section Counting.

Context {T : Type} (this : PolytopeS T).

(** The test [equalFlags(flag, simplifiers[i].get(flag))] in the store
    [st], when [simplifiers[i]] and the entry exist. *)
Definition representativeAt (st : Store T) (l : list (option ref)) (i : nat)
    (flag : Flag T) : bool :=
  match nth_error l i with
  | Some (Some s) =>
      match lookup this st s flag with
      | Some rep => equalFlags this flag rep
      | None => false
      end
  | _ => false
  end.

(** The number of scanned flags that pass the test. *)
Definition representatives (st : Store T) (l : list (option ref)) (i : nat)
    : nat :=
  length (filter (representativeAt st l i) (scan this)).

(** The IDs of a row of [locations] are below [bound]. *)
Definition boundedRow (row : FlagMap T nat) (bound : nat) : Prop :=
  forall f id, fm_get this row f = Some id -> id < bound.

End Counting.

(** ** Well-formed simplifiers *)

Section WellFormed.

Context {T : Type} (this : PolytopeS T).

(** [new Flag(0, this.symmetries.identity())], the flag with which the
    resolution loops start. *)
Definition sentinel : Flag T := mkFlag 0 (identity (symmetries this)).

(** [v] is [k] or comes before it in the order of [compareFlags]. *)
Definition notAfter (v k : Flag T) : Prop :=
  v = k \/ compareFlags this v k = Lt.

(** Every entry of the dictionary maps a scanned flag to a scanned flag
    that is not after it. *)
Definition partialSimplifier (m : FlagMap T (Flag T)) : Prop :=
  forall k v, fm_get this m k = Some v ->
    In k (scan this) /\ In v (scan this) /\ notAfter v k.

(** A simplifier over the scanned flags: it has moreover an entry for
    each of them. *)
Definition simplifierOver (m : FlagMap T (Flag T)) : Prop :=
  partialSimplifier m /\
  forall k, In k (scan this) -> fm_get this m k <> None.

(** The dictionaries created from the [n]-th on are simplifiers over the
    scanned flags. *)
Definition wellFormedFrom (n : nat) (st : Store T) : Prop :=
  forall r m, n <= r -> nth_error (maps st) r = Some m -> simplifierOver m.

(** The simplifier [r] maps every scanned flag to one of its fixed
    points. *)
Definition idempotentAt (st : Store T) (r : ref) : Prop :=
  forall k, In k (scan this) ->
    exists x, lookup this st r k = Some x /\ lookup this st r x = Some x.

(** The number of keys of [m] that come before [e]. *)
Definition below (m : FlagMap T (Flag T)) (e : Flag T) : nat :=
  length (filter (fun k => match compareFlags this k e with
                           | Lt => true
                           | _ => false
                           end) (fm_keys m)).

(** The second argument of [modifySimplifier] is a simplifier created from
    the [n]-th on, or a generator below the rank, in which case the
    identity simplifier is read. *)
Definition validArgument (n : nat) (st : Store T) (s2 : ref + nat) : Prop :=
  match s2 with
  | inl r2 => n <= r2 < length (maps st)
  | inr g =>
      g < rank this /\
      n <= identitySimplifier st < length (maps st)
  end.

(** The entries of the dictionary under construction in the clean-up
    loop: each maps a scanned flag to a fixed point of [m] that is not
    after it. *)
Definition cleanedFrom (m mb : FlagMap T (Flag T)) : Prop :=
  forall k v, fm_get this mb k = Some v ->
    In k (scan this) /\ In v (scan this) /\ notAfter v k /\
    fm_get this m v = Some v.

(** The rows of [locations] and the entries of [locationsLengths] for the
    ranks up to the rank of the polytope: the IDs of a row are below its
    length, and every scanned representative has one. *)
Definition rowsReady (st : Store T) (els : list (option ref))
    (locs : list (FlagMap T nat)) (lens : list nat) : Prop :=
  forall k, k < rank this + 1 ->
    exists row n,
      nth_error locs k = Some row /\ nth_error lens k = Some n /\
      boundedRow this row n /\
      forall f, In f (scan this) -> representativeAt this st els k f = true ->
        fm_get this row f <> None.

(** The simplifiers of the list [l] up to position [c] exist, were
    created from the [n]-th on, and satisfy [P]. *)
Definition simplifiersReady (n : nat) (st : Store T) (P : ref -> Prop)
    (l : list (option ref)) (c : nat) : Prop :=
  forall k, k < c ->
    exists r, nth_error l k = Some (Some r) /\
      n <= r < length (maps st) /\ P r.

End WellFormed.

(** The store of the square once its identity simplifier is built. *)
Definition identityStore : Store Mat :=
  match buildIdentity square emptyStore with
  | Done (_, st) => st
  | _ => emptyStore
  end.

(** ** Construction nodes as objects *)

(** A value held in a [children] array: a construction node, named by
    its place in the heap, any value without fields of its own (the
    numbers of a plain node), or [undefined]. *)
Inductive Child : Type :=
| ChildNode (node : nat)
| ChildOther (z : Z)
| ChildUndefined.

(** What the field [children] of a node holds: an array, named by its
    place in the heap, so that two nodes may hold one array; a single
    node; or a number or a string. *)
Inductive Children : Type :=
| ChildrenArray (array : nat)
| ChildrenNode (node : nat)
| ChildrenPlain.

(** The values that [setGenders] assigns to the field [gender]. *)
Inductive Gender : Type := male | female | neuter.

(** The fields [type] and [children] of a [ConstructionNode], which the
    functions below read and never assign. *)
Record NodeObject : Type := mkNodeObject { type : nat; children : Children }.

(** The heap: the construction nodes, the arrays, and the field [gender]
    of every node, [None] when [undefined]. *)
Record Heap : Type := mkHeap {
  objects : list NodeObject;
  arrays : list (list Child);
  genders : nat -> option Gender
}.

Definition readArray (a : nat) : M Heap (list Child) :=
  h <- getS ;;
  defined (nth_error (arrays h) a).

Definition writeArray (a : nat) (l : list Child) : M Heap unit :=
  h <- getS ;;
  putS (mkHeap (objects h) (update_nth (arrays h) a l) (genders h)).

(** The object that a value denotes when one of its fields is read:
    [None] for a value whose fields are all [undefined]. *)
Definition readObject (c : Child) : M Heap (option NodeObject) :=
  match c with
  | ChildNode id =>
      h <- getS ;;
      o <- defined (nth_error (objects h) id) ;;
      ret (Some o)
  | ChildOther _ => ret None
  | ChildUndefined => throw TypeError
  end.

(** [this.children[i]], where [this.children] is the array [a]. *)
Definition childAt (a i : nat) : M Heap Child :=
  l <- readArray a ;;
  ret (nth i l ChildUndefined).

(** [this.children[i].children], about to be popped from.  What is not
    an array has no method [pop]; the loop below calls it after a test
    that does not throw, so the call ends in the same [TypeError]. *)
Definition childrenOfChild (a i : nat) : M Heap nat :=
  c <- childAt a i ;;
  o <- readObject c ;;
  match o with
  | Some o =>
      match children o with
      | ChildrenArray b => ret b
      | _ => throw TypeError
      end
  | None => throw TypeError
  end.

(** [a.push(x)]. *)
Definition push (a : nat) (x : Child) : M Heap unit :=
  l <- readArray a ;;
  writeArray a (l ++ [x]).

(** [a.pop()]: [undefined] from an empty array. *)
Definition pop (a : nat) : M Heap Child :=
  l <- readArray a ;;
  writeArray a (removelast l) ;;;
  ret (last l ChildUndefined).

(** [a[i] = x]: an index past the end extends the array. *)
Definition assign (a i : nat) (x : Child) : M Heap unit :=
  l <- readArray a ;;
  writeArray a
    (if i <? length l then update_nth l i x
     else l ++ repeat ChildUndefined (i - length l) ++ [x]).

(** The inner loop of [_mergeChildren],
    [for (j = 0; j < this.children[i].children.length - 1; j++)
       this.children.push(this.children[i].children.pop())]:
    the bound is read again at every test.  A unit of fuel is one
    iteration. *)
Fixpoint popLoop (fuel : nat) (a i : nat) (j : Z) : M Heap unit :=
  b <- childrenOfChild a i ;;
  l <- readArray b ;;
  if (j <? Z.of_nat (length l) - 1)%Z
  then
    match fuel with
    | 0 => timeout
    | S fuel' =>
        b <- childrenOfChild a i ;;
        x <- pop b ;;
        push a x ;;;
        popLoop fuel' a i (j + 1)%Z
    end
  else ret tt.

(** The body of the outer loop of [_mergeChildren] for the index [i];
    [t] is [this.type] and [a] the array [this.children].  No iteration
    of the inner loop lengthens the array it pops from, so its length is
    fuel enough. *)
Definition mergeChild (t a i : nat) : M Heap unit :=
  c <- childAt a i ;;
  o <- readObject c ;;
  if match o with Some o => type o =? t | None => false end
  then
    b <- childrenOfChild a i ;;
    l <- readArray b ;;
    popLoop (length l) a i 0 ;;;
    b <- childrenOfChild a i ;;
    x <- pop b ;;
    assign a i x
  else ret tt.

(** [this._mergeChildren()].  When [this.children] is a single node or a
    number, its [length] is [undefined] and the loop has no iteration;
    when it is a string, no character has the type of [this]. *)
Definition _mergeChildren (this : nat) : M Heap unit :=
  h <- getS ;;
  o <- defined (nth_error (objects h) this) ;;
  match children o with
  | ChildrenArray a =>
      l <- readArray a ;;
      forEach (seq 0 (length l)) (mergeChild (type o) a)
  | _ => ret tt
  end.

(** [child.gender = g]. *)
Definition setGender (child : nat) (g : option Gender) : M Heap unit :=
  h <- getS ;;
  putS (mkHeap (objects h) (arrays h)
          (fun x => if x =? child then g else genders h x)).

(** [this._setGenders()]; a unit of fuel is one level of calls.  A
    single node as [children] has no [length] and has the method; an
    empty array, a number and a string give a loop that changes
    nothing. *)
Fixpoint _setGenders (fuel : nat) (this : nat) : M Heap unit :=
  match fuel with
  | 0 => timeout
  | S fuel' =>
      h <- getS ;;
      o <- defined (nth_error (objects h) this) ;;
      match children o with
      | ChildrenNode c =>
          setGender c (genders h this) ;;;
          _setGenders fuel' c
      | ChildrenArray a =>
          l <- readArray a ;;
          forEach l (fun child =>
            match child with
            | ChildNode c =>
                h <- getS ;;
                setGender c (genders h this) ;;;
                _setGenders fuel' c
            | ChildOther _ => ret tt
            | ChildUndefined => throw TypeError
            end)
      | ChildrenPlain => ret tt
      end
  end.

(** The array of the child [c] when [c] is a node of the type [t] that
    holds an array. *)
Definition mergedArray (h : Heap) (t : nat) (c : Child) : option nat :=
  match c with
  | ChildNode id =>
      match nth_error (objects h) id with
      | Some o =>
          match children o with
          | ChildrenArray b => if type o =? t then Some b else None
          | _ => None
          end
      | None => None
      end
  | _ => None
  end.

Definition arrayOf (h : Heap) (b : nat) : list Child := nth b (arrays h) [].

(** Of the [k] entries of an array that is merged, the last [k / 2] are
    moved to the end of the parent's array, the one before them takes
    the place of the child, and the others stay behind. *)
Definition movedOf (l : list Child) : list Child :=
  rev (skipn (length l - length l / 2) l).

Definition keptOf (l : list Child) : Child :=
  nth (length l - length l / 2 - 1) l ChildUndefined.

Definition leftOf (l : list Child) : list Child :=
  firstn (length l - length l / 2 - 1) l.

Definition keptChild (h : Heap) (t : nat) (c : Child) : Child :=
  match mergedArray h t c with
  | Some b => keptOf (arrayOf h b)
  | None => c
  end.

Definition movedChildren (h : Heap) (t : nat) (c : Child) : list Child :=
  match mergedArray h t c with
  | Some b => movedOf (arrayOf h b)
  | None => []
  end.

(** The arrays of the children of the type [t] among [cs]. *)
Definition mergedArrays (h : Heap) (t : nat) (cs : list Child) : list nat :=
  flat_map (fun c => match mergedArray h t c with
                     | Some b => [b]
                     | None => []
                     end) cs.

(** The children after a merge that loses nothing. *)
Definition flattened (h : Heap) (t : nat) (cs : list Child) : list Child :=
  flat_map (fun c => match mergedArray h t c with
                     | Some b => arrayOf h b
                     | None => [c]
                     end) cs.

(** A node of the type [t] whose array [a] holds the children [cs] can
    be merged: every child is a node of the heap or a plain value, and
    the children of the type [t] hold arrays of the heap that differ
    from each other and from [a]. *)
Definition mergeable (h : Heap) (t a : nat) (cs : list Child) : Prop :=
  nth_error (arrays h) a = Some cs /\
  (forall c, In c cs -> c <> ChildUndefined) /\
  (forall id, In (ChildNode id) cs ->
     exists o, nth_error (objects h) id = Some o /\
       (type o = t -> exists b, children o = ChildrenArray b)) /\
  (forall b, In b (mergedArrays h t cs) -> b < length (arrays h)) /\
  NoDup (a :: mergedArrays h t cs).

(** What the outer loop has done when the children [pre] are visited
    and [post] are still to come. *)
Definition mergedSoFar (h : Heap) (t a : nat) (pre post : list Child)
    (h' : Heap) : Prop :=
  objects h' = objects h /\
  nth_error (arrays h') a
  = Some (map (keptChild h t) pre ++ post
          ++ flat_map (movedChildren h t) pre) /\
  (forall b, In b (mergedArrays h t pre) ->
     nth_error (arrays h') b = Some (leftOf (arrayOf h b))) /\
  (forall b, b <> a -> ~ In b (mergedArrays h t pre) ->
     nth_error (arrays h') b = nth_error (arrays h) b).

(** The nodes below [this] are nodes of the heap, at most [n] levels
    deep, and no array among them holds [undefined]. *)
Fixpoint builtWithin (h : Heap) (n : nat) (this : nat) : bool :=
  match n with
  | 0 => false
  | S n' =>
      match nth_error (objects h) this with
      | None => false
      | Some o =>
          match children o with
          | ChildrenNode c => builtWithin h n' c
          | ChildrenArray a =>
              match nth_error (arrays h) a with
              | None => false
              | Some l =>
                  forallb (fun child =>
                             match child with
                             | ChildNode c => builtWithin h n' c
                             | ChildOther _ => true
                             | ChildUndefined => false
                             end) l
              end
          | ChildrenPlain => true
          end
      end
  end.

(** The node that a value of an array is, if any. *)
Definition nodesOf (child : Child) : list nat :=
  match child with
  | ChildNode c => [c]
  | _ => []
  end.

(** The children of the node [o] that are nodes. *)
Definition childNodes (h : Heap) (o : NodeObject) : list nat :=
  match children o with
  | ChildrenNode c => [c]
  | ChildrenArray a => flat_map nodesOf (arrayOf h a)
  | ChildrenPlain => []
  end.

(** The node [x] is a child of [this], or a child of a child, and so on
    for fewer than [n] levels. *)
Fixpoint reaches (h : Heap) (n : nat) (this x : nat) : bool :=
  match n with
  | 0 => false
  | S n' =>
      match nth_error (objects h) this with
      | None => false
      | Some o =>
          existsb (fun c => (c =? x) || reaches h n' c x) (childNodes h o)
      end
  end.

(** A prism product (type 2) of a plain value with two prism products:
    one of two factors, one of three. *)
Definition nestedPrisms : Heap :=
  mkHeap [mkNodeObject 2 (ChildrenArray 0); mkNodeObject 2 (ChildrenArray 1);
          mkNodeObject 2 (ChildrenArray 2)]
         [[ChildOther 7; ChildNode 1; ChildNode 2];
          [ChildOther 1; ChildOther 2];
          [ChildOther 3; ChildOther 4; ChildOther 5]]
         (fun _ => None).

(** The same with one and two factors. *)
Definition pairedPrisms : Heap :=
  mkHeap [mkNodeObject 2 (ChildrenArray 0); mkNodeObject 2 (ChildrenArray 1);
          mkNodeObject 2 (ChildrenArray 2)]
         [[ChildOther 7; ChildNode 1; ChildNode 2];
          [ChildOther 1; ChildOther 2];
          [ChildOther 3]]
         (fun _ => None).

(** A pyramid (type 6) of the prism product (type 2) of a polygon and
    an antiprism (type 5) of a polygon (type 1); only the pyramid has a
    gender. *)
Definition genderedPyramid : Heap :=
  mkHeap [mkNodeObject 6 (ChildrenNode 1);
          mkNodeObject 2 (ChildrenArray 0);
          mkNodeObject 1 (ChildrenArray 1);
          mkNodeObject 5 (ChildrenNode 4);
          mkNodeObject 1 (ChildrenArray 2)]
         [[ChildNode 2; ChildNode 3];
          [ChildOther 5; ChildOther 1];
          [ChildOther 7; ChildOther 2]]
         (fun x => if x =? 0 then Some female else None).

(** ** The loop of the circumcenter, and lattice points as vertices *)

Local Open Scope float_scope.










Local Close Scope float_scope.













(** ** Faces with edges beside a polygon or a chain *)

(** The edge [e] has an end point among the vertices [vs]. *)
Definition touches (vs : list nat) (e : list nat) : bool :=
  existsb (fun v => index_eqb (nth_error e 0) (Some v)
                    || index_eqb (nth_error e 1) (Some v)) vs.

(** The edges of [es] that have an end point among the vertices [vs]. *)
Definition edgesAt (vs : list nat) (es : list (list nat))
    : list (list nat) :=
  filter (touches vs) es.

(** The edges [es] are the links of the open chain through the vertices
    [path], listed in any order and each in either direction. *)
Definition chainFace (path : list nat) (es : list (list nat)) : Prop :=
  exists es', Permutation es es' /\
    Forall2 (fun e p => isEdge e (fst p) (snd p)) es' (cpairs path).

(** The nodes of [l], which follow [before] on an open chain, are each
    linked to the node before and the node after, and the second slot of
    the last one is empty. *)
Fixpoint openFrom (nodes : Nodes) (before : index) (l : list index)
    : bool :=
  match l with
  | [] => false
  | cur :: post =>
      match post with
      | [] =>
          match lookupNode nodes cur with
          | Some n =>
              negb (traversed n) &&
              match node1 n with None => true | Some _ => false end
          | None => false
          end
      | after :: _ =>
          linkedBetween nodes before cur after && openFrom nodes cur post
      end
  end.

(** An edge listed twice, beside an open chain that the walk from the
    first vertex does not reach. *)
Definition digonAndChain : PolytopeC nat :=
  explicit [[0]; [1]; [2]; [3]]%float
    [[[0; 1]; [0; 1]; [2; 3]]; [[0; 1; 2]]].

(** * Properties *)

(** ** Running monadic code *)

Lemma bind_congr {S A B} (m m' : M S A) (k k' : A -> M S B) s :
  m s = m' s ->
  (forall a s', m s = Done (a, s') -> k a s' = k' a s') ->
  bind m k s = bind m' k' s.
Proof.
  intros Hm Hk. unfold bind. rewrite <- Hm.
  destruct (m s) as [[a s']| |]; auto.
Qed.

Lemma bind_Done {S A B} (m : M S A) (k : A -> M S B) s b s2 :
  bind m k s = Done (b, s2) ->
  exists a s1, m s = Done (a, s1) /\ k a s1 = Done (b, s2).
Proof.
  unfold bind. destruct (m s) as [[a s1]| |]; try discriminate.
  intros H. now exists a, s1.
Qed.

Lemma bind_run {S A B} (m : M S A) (k : A -> M S B) s a s1 :
  m s = Done (a, s1) -> bind m k s = k a s1.
Proof. unfold bind. now intros ->. Qed.

Lemma bind_throw {S A B} (m : M S A) (k : A -> M S B) s e :
  m s = Throw e -> bind m k s = Throw e.
Proof. unfold bind. now intros ->. Qed.

Arguments bind_run {S A B m k s a s1} _.
Arguments bind_throw {S A B m k s e} _.
Arguments bind_Done {S A B m k s b s2} _.

(** ** The constructor of the explicit polytope *)

Lemma levelLength_negative {I} (els : ElementList I) (k : Z) :
  (k < 0)%Z -> levelLength els k = None.
Proof.
  intros Hk. destruct els as [|points higher]; simpl; [reflexivity|].
  destruct (Z.eqb_spec k 0); [lia|].
  unfold nthZ. destruct (Z.ltb_spec (k - 1) 0); [reflexivity | lia].
Qed.

Lemma newPolytopeC_dimensions {I} (els : ElementList I) c P :
  newPolytopeC els c = Done P ->
  dimensions P = (Z.of_nat (levels els) - 1)%Z /\ elementList P = els.
Proof.
  unfold newPolytopeC. intros H.
  destruct c as [node|].
  - destruct els as [|[|Q ps] higher]; inversion H; subst; simpl; auto.
  - destruct (levelLength els (Z.of_nat (levels els) - 2)); [|discriminate].
    destruct els as [|[|Q ps] higher]; inversion H; subst; simpl; auto.
Qed.

(** C10.  With the construction argument omitted, the constructor reads
    [elementList[elementList.length - 2].length]; for every element list
    with fewer than two levels, the empty list included, that entry does
    not exist and the constructor throws instead of producing a polytope
    with [dimensions = elementList.length - 1].  For such a list a
    polytope is produced only when a construction node is supplied, and
    one is then produced for the empty list and for a list holding one
    non-empty vertex level. *)
Theorem newPolytopeC_short_list {I} (els : ElementList I)
    (Hshort : levels els < 2) :
  newPolytopeC els None = Throw TypeError /\
  (forall c P, newPolytopeC els c = Done P ->
     exists node, c = Some node /\ construction P = node /\
       dimensions P = (Z.of_nat (levels els) - 1)%Z) /\
  (forall node,
     els = NoLevels \/ (exists Q ps, els = Levels (Q :: ps) []) ->
     exists P, newPolytopeC els (Some node) = Done P).
Proof.
  assert (Hnone : newPolytopeC els None = Throw TypeError).
  { unfold newPolytopeC. rewrite levelLength_negative; [reflexivity | lia]. }
  split; [exact Hnone|]. split.
  - intros [node|] P HP.
    + exists node. split; [reflexivity|]. split.
      * unfold newPolytopeC in HP.
        destruct els as [|[|Q ps] higher]; inversion HP; reflexivity.
      * apply (newPolytopeC_dimensions _ _ HP).
    + rewrite Hnone in HP. discriminate.
  - intros node [-> | (Q & ps & ->)]; eexists; reflexivity.
Qed.

Lemma newPolytopeC_short_list_witness :
  levels (@NoLevels nat) < 2 /\
  newPolytopeC (@NoLevels nat) None = Throw TypeError.
Proof.
  split; [simpl; lia|].
  apply (newPolytopeC_short_list (@NoLevels nat)). simpl. lia.
Defined.

(** ** Resizing the vertices *)

(** The padding loop appends half of the missing coordinates, rounded
    up: each iteration both adds a coordinate and lowers the bound. *)
Lemma padLoop_spec fuel : forall dim j coords,
  (Z.to_nat ((dim - Z.of_nat (length coords) - j + 1) / 2) <= fuel)%nat ->
  padLoop fuel dim j coords =
  coords ++ repeat 0%float
              (Z.to_nat ((dim - Z.of_nat (length coords) - j + 1) / 2)).
Proof.
  induction fuel as [|fuel IH]; intros dim j coords Hfuel.
  - simpl. replace (Z.to_nat _) with 0%nat by lia.
    simpl. now rewrite app_nil_r.
  - simpl. destruct (Z.ltb_spec j (dim - Z.of_nat (length coords))) as [Hlt|Hge].
    + assert (Hdiv : ((dim - Z.of_nat (length coords) - j + 1) / 2
                      = (dim - Z.of_nat (length (coords ++ [0%float]))
                           - (j + 1) + 1) / 2 + 1)%Z).
      { rewrite length_app. simpl length.
        replace (dim - Z.of_nat (length coords) - j + 1)%Z
          with ((dim - Z.of_nat (length coords + 1) - (j + 1) + 1) + 1 * 2)%Z
          by lia.
        rewrite Z.div_add by lia. reflexivity. }
      assert (Hnn : (0 <= (dim - Z.of_nat (length (coords ++ [0%float]))
                            - (j + 1) + 1) / 2)%Z).
      { apply Z.div_pos; [|lia]. rewrite length_app. simpl length. lia. }
      rewrite IH by lia.
      rewrite Hdiv, Z2Nat.inj_add by lia.
      rewrite <- app_assoc. simpl.
      replace (Z.to_nat 1) with 1%nat by reflexivity.
      rewrite Nat.add_1_r. simpl. reflexivity.
    + assert (Hlow : ((dim - Z.of_nat (length coords) - j + 1) / 2 < 1)%Z)
        by (apply Z.div_lt_upper_bound; lia).
      replace (Z.to_nat _) with 0%nat by lia.
      simpl. now rewrite app_nil_r.
Qed.

Lemma resizeVertex_spec dim P :
  coordinates (resizeVertex dim P) =
  if (Z.of_nat (dimensions_of P) <? dim)%Z
  then coordinates P ++
       repeat 0%float (Z.to_nat ((dim - Z.of_nat (dimensions_of P) + 1) / 2))
  else coordinates P.
Proof.
  unfold resizeVertex, dimensions_of.
  destruct (Z.gtb_spec (Z.of_nat (length (coordinates P))) dim) as [Hgt|Hle].
  - destruct (Z.ltb_spec (Z.of_nat (length (coordinates P))) dim); [lia|].
    reflexivity.
  - destruct (Z.ltb_spec (Z.of_nat (length (coordinates P))) dim) as [Hlt|Hge];
      [|reflexivity].
    simpl. rewrite padLoop_spec.
    + now rewrite Z.sub_0_r.
    + rewrite Z.sub_0_r.
      assert (((dim - Z.of_nat (length (coordinates P)) + 1) / 2 < dim + 1)%Z)
        by (apply Z.div_lt_upper_bound; lia).
      lia.
Qed.

(** What [setSpaceDimensions] does to every explicit polytope with a
    vertex level: a vertex with at least [dim] coordinates keeps them
    all, a shorter one receives half of the missing zeros, rounded up, and
    the field [spaceDimensions] becomes [dim]. *)
Lemma setSpaceDimensions_spec {I} (this : PolytopeC I) dim points higher :
  elementList this = Levels points higher ->
  spaceDimensions (setSpaceDimensions this dim) = dim /\
  exists points',
    elementList (setSpaceDimensions this dim) = Levels points' higher /\
    length points' = length points /\
    forall i P, nth_error points i = Some P ->
      exists P', nth_error points' i = Some P' /\
        coordinates P' =
        if (Z.of_nat (dimensions_of P) <? dim)%Z
        then coordinates P ++
             repeat 0%float
               (Z.to_nat ((dim - Z.of_nat (dimensions_of P) + 1) / 2))
        else coordinates P.
Proof.
  intros Hels. unfold setSpaceDimensions. rewrite Hels. simpl.
  split; [reflexivity|].
  exists (map (resizeVertex dim) points).
  split; [reflexivity|]. split; [apply length_map|].
  intros i P HP. exists (resizeVertex dim P). split.
  - now rewrite nth_error_map, HP.
  - apply resizeVertex_spec.
Qed.

(** C6.  [setSpaceDimensions] evaluated on the polytope with the vertices
    (1, 2, 3) and (1): asked for two coordinates it leaves the first
    vertex with three, and asked for three coordinates it leaves the
    second vertex with two; the field [spaceDimensions] is set in both
    cases. *)
Theorem setSpaceDimensions_wrong_lengths :
  elementList (setSpaceDimensions resizeExample 2) =
    Levels [mkPoint [1; 2; 3]; mkPoint [1; 0]]%float [] /\
  spaceDimensions (setSpaceDimensions resizeExample 2) = 2%Z /\
  elementList (setSpaceDimensions resizeExample 3) =
    Levels [mkPoint [1; 2; 3]; mkPoint [1; 0]]%float [] /\
  spaceDimensions (setSpaceDimensions resizeExample 3) = 3%Z.
Proof. repeat split. Qed.

(** ** Circumradius and circumcenter *)

Lemma circumradius_vertex {I} (this : PolytopeC I) P points higher :
  elementList this = Levels (P :: points) higher ->
  circumradius this = Done (magnitude P).
Proof. unfold circumradius. now intros ->. Qed.

Lemma circumradius_no_levels {I} (this : PolytopeC I) :
  elementList this = NoLevels -> circumradius this = Done 0%float.
Proof. unfold circumradius. now intros ->. Qed.

Lemma sq_zero_sub (z x : float) :
  z = 0%float \/ z = (-0)%float ->
  ((z - x) * (z - x) = x * x)%float.
Proof.
  intros Hz. apply Prim2SF_inj. rewrite !mul_spec, !sub_spec.
  destruct Hz as [-> | ->]; destruct (Prim2SF x) as [[|]|[|]| |[|] m e];
    reflexivity.
Qed.

Lemma map2_sq_zero_sub zs : forall xs,
  Forall (fun z => z = 0%float \/ z = (-0)%float) zs ->
  length zs = length xs ->
  map2 PrimFloat.mul (map2 PrimFloat.sub zs xs) (map2 PrimFloat.sub zs xs) =
  map2 PrimFloat.mul xs xs.
Proof.
  induction zs as [|z zs IH]; intros [|x xs] Hz Hlen; try discriminate;
    [reflexivity|].
  inversion Hz; subst. simpl. rewrite sq_zero_sub by assumption.
  f_equal. apply IH; [assumption | now inversion Hlen].
Qed.

(** The distance from a point at the origin is the magnitude. *)
Lemma distance_from_origin c P :
  Forall (fun z => z = 0%float \/ z = (-0)%float) (coordinates c) ->
  dimensions_of c = dimensions_of P ->
  distance c P = magnitude P.
Proof.
  intros Hz Hlen.
  unfold distance, distanceSq, magnitude, sqMagnitude, dot, subtract. simpl.
  now rewrite map2_sq_zero_sub.
Qed.

(** C9, the claim as stated fails: for the segment from 1 to 3 the
    computed circumcenter is the point 2, both vertices are at distance 1
    from it, [circumradius] returns 1, and the circumcenter is not the
    origin. *)
Lemma circumradius_equal_off_origin : ~ circumradiusOnlyAtOrigin.
Proof.
  intros H.
  specialize (H dyad13 _ _ (mkPoint [2%float]) 1%float eq_refl eq_refl).
  assert (Hc : mkPoint [2%float] = origin (spaceDimensions dyad13)).
  { apply H; [|reflexivity].
    repeat constructor. }
  discriminate Hc.
Qed.

(** C9, amended.  On an explicit polytope with at least one vertex
    [circumradius] returns the magnitude of the first vertex, and 0 when
    there is no vertex level.  This is the distance of that vertex from
    the origin, so it is the distance from the computed circumcenter
    whenever that circumcenter is the origin; it is not that distance in
    general (segment from 1 to 2), and it can be that distance although
    the circumcenter is elsewhere (segment from 1 to 3). *)
Theorem circumradius_is_first_magnitude :
  (forall I (this : PolytopeC I) P points higher,
     elementList this = Levels (P :: points) higher ->
     circumradius this = Done (magnitude P)) /\
  (forall I (this : PolytopeC I),
     elementList this = NoLevels -> circumradius this = Done 0%float) /\
  (forall I (this : PolytopeC I) P points higher c,
     elementList this = Levels (P :: points) higher ->
     Forall (fun z => z = 0%float \/ z = (-0)%float) (coordinates c) ->
     dimensions_of c = dimensions_of P ->
     circumradius this = Done (distance c P)) /\
  (circumcenter dyad12 = Done (Some (mkPoint [1.5%float])) /\
   distance (mkPoint [1.5%float]) (mkPoint [1%float]) = 0.5%float /\
   circumradius dyad12 = Done 1%float) /\
  (circumcenter dyad13 = Done (Some (mkPoint [2%float])) /\
   distance (mkPoint [2%float]) (mkPoint [1%float]) = 1%float /\
   circumradius dyad13 = Done 1%float).
Proof.
  split; [intros; eapply circumradius_vertex; eassumption|].
  split; [intros; now apply circumradius_no_levels|].
  split.
  - intros I this P points higher c Hels Hz Hlen.
    rewrite (circumradius_vertex _ Hels).
    now rewrite distance_from_origin.
  - repeat split.
Qed.

Lemma circumradius_is_first_magnitude_witness :
  circumradius dyad13 = Done (magnitude (mkPoint [1%float])).
Proof.
  apply (proj1 circumradius_is_first_magnitude nat dyad13
           (mkPoint [1%float]) [mkPoint [3%float]] [[[0; 1]]]).
  reflexivity.
Defined.






(** ** Face boundaries *)

Lemma forEach_linkEdge edges : forall face es,
  lookupAll edges face = Some es ->
  forall nodes, forEach face (linkEdge edges) nodes
              = forEach es linkEndpoints nodes.
Proof.
  induction face as [|f face IH]; intros es Hes nodes.
  - injection Hes as <-. reflexivity.
  - simpl in Hes.
    destruct (nth_error edges f) as [x|] eqn:Hx; [|discriminate].
    destruct (lookupAll edges face) as [xs|] eqn:Hxs; [|discriminate].
    injection Hes as <-. simpl.
    apply bind_congr.
    + unfold linkEdge, bind at 1. now rewrite Hx.
    + intros _ nodes' _. now apply IH.
Qed.

Lemma bind_ret {S A B} (a : A) (k : A -> M S B) s :
  bind (ret a) k s = k a s.
Proof. reflexivity. Qed.

(** [faceToVertices] only depends on the edges of the face. *)
Lemma faceToVertices_cycleOfEdges this i es :
  faceEdges this i = Some es -> faceToVertices this i = cycleOfEdges es.
Proof.
  unfold faceEdges, faceToVertices, cycleOfEdges.
  destruct (level (elementList this) 2) as [faces|]; [|discriminate].
  destruct (level (elementList this) 1) as [edges|]; [|discriminate].
  destruct (nthZ faces i) as [face|]; [|discriminate].
  intros Hes. cbv zeta.
  match goal with
  | |- match ?m [] with _ => _ end = match ?m' [] with _ => _ end =>
      assert (Hrun : m [] = m' []); [|now rewrite Hrun]
  end.
  unfold defined at 1. rewrite bind_ret.
  apply bind_congr; [now apply forEach_linkEdge|].
  intros _ nodes _.
  destruct face as [|f face].
  - injection Hes as <-. reflexivity.
  - simpl in Hes.
    destruct (nth_error edges f) as [x|] eqn:Hx; [|discriminate].
    destruct (lookupAll edges face) as [xs|]; [|discriminate].
    injection Hes as <-. simpl nth_error. unfold defined at 1.
    rewrite bind_ret, Hx. reflexivity.
Qed.

(** Every arrangement of the four edges of the square, in any order and
    with any directions, is traversed correctly. *)
Lemma all_square_arrangements_checked :
  forallb (fun a => forallb (fun b => forallb (fun c => forallb (fun d =>
    checkSquare [a; b; c; d])
    orientedEdges) orientedEdges) orientedEdges) orientedEdges = true.
Proof. vm_compute. reflexivity. Qed.

Lemma isEdge_oriented e a b :
  isEdge e a b -> In [a; b] orientedEdges -> In e orientedEdges.
Proof.
  intros [-> | ->] Hin; [exact Hin|].
  simpl in Hin. simpl.
  repeat (destruct Hin as [Hin|Hin];
          [injection Hin as <- <-; tauto|]).
  contradiction.
Qed.

Lemma squareFace_arrangement es :
  squareFace es ->
  exists a b c d,
    es = [a; b; c; d] /\ In a orientedEdges /\ In b orientedEdges /\
    In c orientedEdges /\ In d orientedEdges /\ eachEdgeOnce es = true.
Proof.
  intros (e01 & e12 & e23 & e30 & Hperm & H01 & H12 & H23 & H30).
  assert (Hall : forall e, In e es -> In e orientedEdges).
  { intros e He. apply (Permutation_in _ Hperm) in He.
    destruct He as [<-|[<-|[<-|[<-|[]]]]].
    - apply (isEdge_oriented H01). simpl. tauto.
    - apply (isEdge_oriented H12). simpl. tauto.
    - apply (isEdge_oriented H23). simpl. tauto.
    - apply (isEdge_oriented H30). simpl. tauto. }
  assert (Hids : map edgeId [e01; e12; e23; e30] = [0; 1; 2; 3]).
  { destruct H01 as [-> | ->], H12 as [-> | ->], H23 as [-> | ->],
      H30 as [-> | ->]; reflexivity. }
  assert (Honce : eachEdgeOnce es = true).
  { unfold eachEdgeOnce.
    assert (Hcount : forall k,
      count_occ Nat.eq_dec (map edgeId es) k
      = count_occ Nat.eq_dec [0; 1; 2; 3] k).
    { intros k. rewrite <- Hids.
      apply Permutation_count_occ. now apply Permutation_map. }
    simpl. rewrite !Hcount. reflexivity. }
  pose proof (Permutation_length Hperm) as Hlen.
  destruct es as [|a [|b [|c [|d [|? ?]]]]]; try discriminate Hlen.
  exists a, b, c, d.
  repeat split; try (apply Hall; simpl; tauto). exact Honce.
Qed.

Lemma squareFace_has_edge es a b :
  squareFace es ->
  In [a; b] orientedEdges ->
  exists e, In e es /\ isEdge e a b.
Proof.
  intros (e01 & e12 & e23 & e30 & Hperm & H01 & H12 & H23 & H30) Hin.
  apply Permutation_sym in Hperm.
  assert (Hmem : forall e, In e [e01; e12; e23; e30] -> In e es)
    by (intros e; apply (Permutation_in _ Hperm)).
  assert (Hsym : forall e x y, isEdge e x y -> isEdge e y x)
    by (intros e x y [H|H]; [right | left]; exact H).
  simpl in Hin.
  destruct Hin as [Hin|[Hin|[Hin|[Hin|[Hin|[Hin|[Hin|[Hin|[]]]]]]]]];
    injection Hin as <- <-.
  - exists e01. split; [apply Hmem; simpl; tauto | assumption].
  - exists e01. split; [apply Hmem; simpl; tauto | now apply Hsym].
  - exists e12. split; [apply Hmem; simpl; tauto | assumption].
  - exists e12. split; [apply Hmem; simpl; tauto | now apply Hsym].
  - exists e23. split; [apply Hmem; simpl; tauto | assumption].
  - exists e23. split; [apply Hmem; simpl; tauto | now apply Hsym].
  - exists e30. split; [apply Hmem; simpl; tauto | assumption].
  - exists e30. split; [apply Hmem; simpl; tauto | now apply Hsym].
Qed.

Lemma squareCycles_permutation cycle :
  In cycle squareCycles ->
  Permutation cycle [Some 0; Some 1; Some 2; Some 3].
Proof.
  intros Hin. apply Permutation_sym.
  apply NoDup_Permutation.
  - repeat constructor; simpl; intuition discriminate.
  - simpl in Hin.
    repeat (destruct Hin as [<-|Hin];
            [repeat constructor; simpl; intuition discriminate|]).
    contradiction.
  - intros x. simpl in Hin.
    repeat (destruct Hin as [<-|Hin]; [simpl; tauto|]).
    contradiction.
Qed.

Lemma squareCycles_adjacent cycle x y :
  In cycle squareCycles ->
  In (x, y) (adjacentPairs cycle) ->
  exists a b, x = Some a /\ y = Some b /\ In [a; b] orientedEdges.
Proof.
  intros Hin Hpair. simpl in Hin.
  repeat (destruct Hin as [<-|Hin];
    [simpl in Hpair;
     repeat (destruct Hpair as [Hpair|Hpair];
       [injection Hpair as <- <-; do 2 eexists;
        split; [reflexivity|]; split; [reflexivity|]; simpl; tauto|]);
     contradiction|]).
  contradiction.
Qed.

(** C8.  For a polytope whose 2-face [i] is bounded by exactly the four
    edges (0,1), (1,2), (2,3), (3,0), [faceToVertices i] returns a
    four-element permutation of 0, 1, 2, 3 in which every pair of
    neighbours, the last and the first included, is one of the four
    edges. *)
Theorem faceToVertices_square this i es
    (Hface : faceEdges this i = Some es) (Hsquare : squareFace es) :
  exists cycle,
    faceToVertices this i = Done cycle /\
    length cycle = 4 /\
    Permutation cycle [Some 0; Some 1; Some 2; Some 3] /\
    forall x y, In (x, y) (adjacentPairs cycle) ->
      exists a b e, x = Some a /\ y = Some b /\ In e es /\ isEdge e a b.
Proof.
  rewrite (faceToVertices_cycleOfEdges _ _ Hface).
  destruct (squareFace_arrangement Hsquare)
    as (a & b & c & d & -> & Ha & Hb & Hc & Hd & Honce).
  pose proof all_square_arrangements_checked as Hall.
  rewrite forallb_forall in Hall. specialize (Hall a Ha).
  rewrite forallb_forall in Hall. specialize (Hall b Hb).
  rewrite forallb_forall in Hall. specialize (Hall c Hc).
  rewrite forallb_forall in Hall. specialize (Hall d Hd).
  unfold checkSquare in Hall. rewrite Honce in Hall.
  destruct (cycleOfEdges [a; b; c; d]) as [cycle| |]; try discriminate.
  destruct (in_dec (list_eq_dec index_eq_dec) cycle squareCycles)
    as [Hin|]; [|discriminate].
  exists cycle. split; [reflexivity|].
  pose proof (squareCycles_permutation Hin) as Hperm.
  split; [exact (Permutation_length Hperm)|].
  split; [exact Hperm|].
  intros x y Hxy.
  destruct (@squareCycles_adjacent cycle x y Hin Hxy) as (u & v & -> & -> & Huv).
  destruct (@squareFace_has_edge _ u v Hsquare Huv) as (e & He & Hedge).
  exists u, v, e. auto.
Qed.

Lemma faceToVertices_square_witness :
  exists cycle,
    faceToVertices unitSquare 0 = Done cycle /\
    length cycle = 4 /\
    Permutation cycle [Some 0; Some 1; Some 2; Some 3] /\
    forall x y, In (x, y) (adjacentPairs cycle) ->
      exists a b e, x = Some a /\ y = Some b /\
        In e [[0; 1]; [1; 2]; [2; 3]; [3; 0]] /\ isEdge e a b.
Proof.
  apply (@faceToVertices_square unitSquare 0
           [[0; 1]; [1; 2]; [2; 3]; [3; 0]]).
  - reflexivity.
  - exists [0; 1], [1; 2], [2; 3], [3; 0].
    split; [apply Permutation_refl|].
    repeat split; left; reflexivity.
Defined.

Lemma index_eqb_eq a b : index_eqb a b = true <-> a = b.
Proof.
  destruct a as [x|], b as [y|]; simpl; split; intros H;
    try discriminate; try reflexivity.
  - apply Nat.eqb_eq in H. now subst.
  - injection H as ->. apply Nat.eqb_refl.
Qed.

Lemma index_eqb_refl a : index_eqb a a = true.
Proof. now apply index_eqb_eq. Qed.

Lemma index_eqb_neq a b : a <> b -> index_eqb a b = false.
Proof.
  intros H. destruct (index_eqb a b) eqn:E; [|reflexivity].
  apply index_eqb_eq in E. contradiction.
Qed.

Lemma lookupNode_storeNode_same nodes i n :
  lookupNode (storeNode nodes i n) i = Some n.
Proof.
  induction nodes as [|[k m] nodes IH]; simpl.
  - now rewrite index_eqb_refl.
  - destruct (index_eqb k i) eqn:E; simpl; rewrite E; auto.
Qed.

Lemma lookupNode_storeNode_other nodes i j n :
  i <> j -> lookupNode (storeNode nodes i n) j = lookupNode nodes j.
Proof.
  intros Hij. induction nodes as [|[k m] nodes IH]; simpl.
  - now rewrite index_eqb_neq.
  - destruct (index_eqb k i) eqn:E; simpl.
    + apply index_eqb_eq in E. subst k.
      now rewrite index_eqb_neq.
    + now rewrite IH.
Qed.

Lemma fill_le_2 nodes i : fill nodes i <= 2.
Proof.
  unfold fill, filled. destruct (lookupNode nodes i) as [n|]; [|lia].
  destruct (node0 n), (node1 n); simpl; lia.
Qed.

Lemma ensureNode_spec i nodes :
  exists nodes',
    ensureNode i nodes = Done (tt, nodes') /\
    lookupNode nodes' i <> None /\
    forall j, fill nodes' j = fill nodes j.
Proof.
  unfold ensureNode, bind, getS, putS, ret.
  destruct (lookupNode nodes i) as [n|] eqn:E.
  - exists nodes. split; [reflexivity|]. split; [now rewrite E | reflexivity].
  - eexists. split; [reflexivity|]. split.
    + now rewrite lookupNode_storeNode_same.
    + intros j. unfold fill.
      destruct (index_eq_dec i j) as [<-|Hij].
      * now rewrite lookupNode_storeNode_same, E.
      * now rewrite lookupNode_storeNode_other.
Qed.

Lemma fillSlot_spec i target nodes :
  lookupNode nodes i <> None ->
  (fill nodes i = 2 /\ fillSlot i target nodes = Throw LinkError) \/
  (exists nodes',
     fillSlot i target nodes = Done (tt, nodes') /\
     (forall j, lookupNode nodes j <> None -> lookupNode nodes' j <> None) /\
     forall j, fill nodes' j
               = fill nodes j + (if index_eqb j i then 1 else 0)).
Proof.
  intros Hi. unfold fillSlot, bind, getS, defined, putS, ret, throw.
  destruct (lookupNode nodes i) as [n|] eqn:E; [|contradiction].
  assert (Hstore : forall n',
    filled n' = S (filled n) ->
    (forall j, lookupNode nodes j <> None ->
               lookupNode (storeNode nodes i n') j <> None) /\
    forall j, fill (storeNode nodes i n') j
              = fill nodes j + (if index_eqb j i then 1 else 0)).
  { intros n' Hn'. split; intros j; [intros Hj|];
      destruct (index_eq_dec i j) as [<-|Hij].
    - now rewrite lookupNode_storeNode_same.
    - now rewrite lookupNode_storeNode_other.
    - unfold fill. rewrite lookupNode_storeNode_same, E, index_eqb_refl. lia.
    - unfold fill. rewrite lookupNode_storeNode_other by assumption.
      rewrite index_eqb_neq by congruence. lia. }
  destruct (node0 n) as [a|] eqn:E0; [destruct (node1 n) as [b|] eqn:E1|].
  - left. split; [|reflexivity].
    unfold fill, filled. now rewrite E, E0, E1.
  - right. eexists. split; [reflexivity|]. apply Hstore.
    unfold filled. simpl. now rewrite E0, E1.
  - right. eexists. split; [reflexivity|]. apply Hstore.
    unfold filled. simpl. rewrite E0. destruct (node1 n); reflexivity.
Qed.

Lemma occurrences_nil i : occurrences i [] = 0.
Proof. reflexivity. Qed.

Lemma occurrences_cons i e es :
  occurrences i (e :: es)
  = (if index_eqb i (nth_error e 0) then 1 else 0)
    + (if index_eqb i (nth_error e 1) then 1 else 0)
    + occurrences i es.
Proof.
  unfold occurrences. cbn [flat_map app filter].
  destruct (index_eqb i (nth_error e 0)), (index_eqb i (nth_error e 1));
    cbn [length]; lia.
Qed.

(** Linking the end points of an edge either fails on a node that is
    already linked twice, or fills one slot for each end point. *)
Lemma linkEndpoints_spec edge nodes :
  linkEndpoints edge nodes = Throw LinkError \/
  exists nodes',
    linkEndpoints edge nodes = Done (tt, nodes') /\
    forall j, fill nodes' j = fill nodes j + occurrences j [edge].
Proof.
  unfold linkEndpoints, linkTo.
  set (a := nth_error edge 0). set (b := nth_error edge 1).
  destruct (ensureNode_spec a nodes) as (n1 & R1 & Ha1 & F1).
  rewrite (bind_run R1).
  destruct (ensureNode_spec b n1) as (n2 & R2 & Hb2 & F2).
  rewrite (bind_run R2).
  assert (Ha2 : lookupNode n2 a <> None).
  { unfold ensureNode, bind, getS, putS, ret in R2.
    destruct (lookupNode n1 b) eqn:E; injection R2 as <-; [assumption|].
    destruct (index_eq_dec b a) as [<-|Hba].
    - now rewrite lookupNode_storeNode_same.
    - now rewrite lookupNode_storeNode_other. }
  destruct (@fillSlot_spec a b n2 Ha2) as [[_ T3]|(n3 & R3 & K3 & F3)].
  - left. now rewrite (bind_throw T3).
  - rewrite (bind_run R3).
    destruct (@fillSlot_spec b a n3 (K3 _ Hb2)) as [[_ T4]|(n4 & R4 & _ & F4)].
    + now left.
    + right. exists n4. split; [exact R4|].
      intros j. rewrite F4, F3, F2, F1, occurrences_cons, occurrences_nil.
      fold a. fold b. lia.
Qed.

Lemma forEach_linkEndpoints_spec es : forall nodes,
  forEach es linkEndpoints nodes = Throw LinkError \/
  exists nodes',
    forEach es linkEndpoints nodes = Done (tt, nodes') /\
    forall j, fill nodes' j = fill nodes j + occurrences j es.
Proof.
  induction es as [|e es IH]; intros nodes.
  - right. exists nodes. split; [reflexivity|].
    intros j. rewrite occurrences_nil. lia.
  - simpl. destruct (linkEndpoints_spec e nodes) as [T|(n1 & R1 & F1)].
    + left. now rewrite (bind_throw T).
    + rewrite (bind_run R1).
      destruct (IH n1) as [T|(n2 & R2 & F2)]; [now left|].
      right. exists n2. split; [exact R2|].
      intros j. rewrite F2, F1, (occurrences_cons j e es).
      rewrite (occurrences_cons j e []), occurrences_nil. lia.
Qed.

(** A vertex that ends three or more edges of the face makes the linking
    fail with the error of [linkTo]. *)
Lemma faceToVertices_third_link this i es v :
  faceEdges this i = Some es ->
  3 <= occurrences v es ->
  faceToVertices this i = Throw LinkError.
Proof.
  intros Hes Hocc. rewrite (faceToVertices_cycleOfEdges _ _ Hes).
  unfold cycleOfEdges.
  destruct (forEach_linkEndpoints_spec es []) as [T|(nodes & R & F)].
  - now rewrite (bind_throw T).
  - pose proof (fill_le_2 nodes v) as Hle. rewrite F in Hle.
    unfold fill in Hle. simpl in Hle. lia.
Qed.

Lemma faceToVertices_invalid_face this i :
  level (elementList this) 2 = None \/
  (exists faces, level (elementList this) 2 = Some faces /\
                 nthZ faces i = None) ->
  faceToVertices this i = Throw RangeError.
Proof.
  unfold faceToVertices. intros [-> | (faces & -> & ->)]; reflexivity.
Qed.

(** C7, the claim as stated fails: in the face whose edge list names the
    edge (0,1) twice every vertex has a single partner, and
    [faceToVertices] returns the vertices 0, 1 without any error. *)
Lemma malformed_boundary_undetected : ~ malformedDetected.
Proof.
  intros H.
  destruct (H doubledEdge 0%Z [[0; 1]; [0; 1]] eq_refl) as [e He].
  - right. exists (Some 0). split; vm_compute; lia.
  - vm_compute in He. discriminate He.
Qed.

(** ** The conversion on examples *)

(** C1.  [toPolytopeC] evaluated on the square: the symmetry group has
    eight elements and the generator that fixes the vertex is an
    involution, so the vertex stabilizer has order two and the square has
    four vertices, but the vertex list of the result has two entries.
    The identity simplifier, which is also [ascendingSimplifiers[0]] and
    [descendingSimplifiers[0]], no longer maps each flag to itself when
    the element simplifiers are built. *)
Theorem toPolytopeC_square_two_vertices :
  exists P st,
    toPolytopeC square applyMat emptyStore = Done (P, st) /\
    elementList P =
      Levels [mkPoint [1; -1]%float; mkPoint [-1; 1]%float]
        [[[Some 0]; [Some 1]]; [[Some 0]; [Some 1]]] /\
    length (enumerateElements squareGroup) = 8 /\
    mmul antiSwap antiSwap = I2 /\
    identitySimplifier st = 0 /\
    lookup square st 0 (mkFlag 0 flipY) = Some (mkFlag 0 I2).
Proof.
  do 2 eexists. split; [vm_compute; reflexivity|].
  repeat split.
Qed.

(** C2.  The ascending simplifiers of the square, evaluated when the
    second [extendSimplifier] returns: the simplifier that folds the
    generators 0 and 1 maps the flag of the quarter turn to the flag of
    [swapXY], although generator 1 leads from it to the flag of [flipY],
    which is smaller; and it maps the flag of [flipY] to the flag of the
    identity, so the two flags, joined by generator 1, have different
    representatives. *)
Theorem extendSimplifier_square_not_minimal :
  exists st,
    bind (buildIdentity square) (fun _ => buildAscending square) emptyStore
      = Done ([0; 1; 2], st) /\
    lookup square st 2 (mkFlag 0 quarterTurn) = Some (mkFlag 0 swapXY) /\
    moveFlag square (mkFlag 0 quarterTurn) 1 = Done (mkFlag 0 flipY) /\
    compareFlags square (mkFlag 0 swapXY) (mkFlag 0 flipY) = Gt /\
    lookup square st 2 (mkFlag 0 flipY) = Some (mkFlag 0 I2).
Proof.
  eexists. split; [vm_compute; reflexivity|].
  repeat split.
Qed.

(** C3.  The ascending simplifiers of the rhombus, evaluated when the
    second [extendSimplifier] returns: the returned simplifier maps the
    flag of class 1 at the identity to the flag of class 0 at the
    identity, and maps that flag to the flag of class 0 at [flipY]. *)
Theorem extendSimplifier_rhombus_not_idempotent :
  exists st,
    bind (buildIdentity rhombus) (fun _ => buildAscending rhombus) emptyStore
      = Done ([0; 1; 2], st) /\
    lookup rhombus st 2 (mkFlag 1 I2) = Some (mkFlag 0 I2) /\
    lookup rhombus st 2 (mkFlag 0 I2) = Some (mkFlag 0 flipY).
Proof.
  eexists. split; [vm_compute; reflexivity|].
  repeat split.
Qed.

(** ** Loop invariants *)

Unset Implicit Arguments.

(** An invariant indexed by the part of the list already visited holds
    after a loop that returns. *)
Lemma foldM_inv {S A B} (Inv : list A -> B -> S -> Prop)
    (body : B -> A -> M S B) (full : list A) :
  (forall done a rest b s b' s',
     full = done ++ a :: rest -> Inv done b s ->
     body b a s = Done (b', s') -> Inv (done ++ [a]) b' s') ->
  forall l done b s b' s',
    full = done ++ l -> Inv done b s ->
    foldM l b body s = Done (b', s') -> Inv full b' s'.
Proof.
  intros Hstep. induction l as [|a l IH]; intros done b s b' s' Hfull Hinv H;
    simpl in H.
  - injection H as <- <-. rewrite app_nil_r in Hfull. now subst.
  - apply bind_Done in H as (b1 & s1 & Hbody & H).
    apply (IH (done ++ [a]) b1 s1 b' s').
    + now rewrite <- app_assoc.
    + eapply Hstep; eassumption.
    + exact H.
Qed.

Lemma forEach_inv {S A} (Inv : list A -> S -> Prop)
    (body : A -> M S unit) (full : list A) :
  (forall done a rest s u s',
     full = done ++ a :: rest -> Inv done s ->
     body a s = Done (u, s') -> Inv (done ++ [a]) s') ->
  forall l done s u s',
    full = done ++ l -> Inv done s ->
    forEach l body s = Done (u, s') -> Inv full s'.
Proof.
  intros Hstep. induction l as [|a l IH]; intros done s u s' Hfull Hinv H;
    simpl in H.
  - injection H as _ <-. rewrite app_nil_r in Hfull. now subst.
  - apply bind_Done in H as (u1 & s1 & Hbody & H).
    apply (IH (done ++ [a]) s1 u s').
    + now rewrite <- app_assoc.
    + eapply Hstep; eassumption.
    + exact H.
Qed.

(** The loop variable of a counting loop is the number of iterations
    made. *)
Lemma seq_split start n done i rest :
  seq start n = done ++ i :: rest -> i = start + length done.
Proof.
  intros H.
  assert (Hlen : length done < n).
  { apply (f_equal (@length nat)) in H.
    rewrite length_seq, length_app in H. simpl in H. lia. }
  apply (f_equal (fun l => nth (length done) l 0)) in H.
  rewrite seq_nth in H by assumption.
  rewrite app_nth2, Nat.sub_diag in H by lia. simpl in H. now symmetry.
Qed.

Lemma nthZ_of_nat {A} (l : list A) (k : nat) :
  nthZ l (Z.of_nat k) = nth_error l k.
Proof.
  unfold nthZ. destruct (Z.ltb_spec (Z.of_nat k) 0); [lia|].
  now rewrite Nat2Z.id.
Qed.

(** ** Representatives of the simplifiers during a conversion *)

Section ConversionFacts.

Context {T : Type} (this : PolytopeS T).

(** The comparator of the group identifies equal elements only. *)
Hypothesis compare_eq :
  forall x y : T, compare (symmetries this) x y = Eq <-> x = y.

Lemma equalFlags_eq (f g : Flag T) : equalFlags this f g = true <-> f = g.
Proof.
  unfold equalFlags, compareFlags.
  destruct f as [c d], g as [c' d']; simpl.
  destruct (Nat.ltb_spec c c') as [Hlt|Hge].
  - split; [discriminate|]. intros [= -> _]. lia.
  - destruct (Nat.ltb_spec c' c) as [Hlt'|Hge'].
    + split; [discriminate|]. intros [= -> _]. lia.
    + assert (c = c') by lia. subst c'.
      destruct (compare (symmetries this) d d') eqn:E.
      * apply compare_eq in E. subst. tauto.
      * split; [discriminate|]. intros [= ->].
        assert (compare (symmetries this) d' d' = Eq) by now apply compare_eq.
        congruence.
      * split; [discriminate|]. intros [= ->].
        assert (compare (symmetries this) d' d' = Eq) by now apply compare_eq.
        congruence.
Qed.

Lemma equalFlags_refl (f : Flag T) : equalFlags this f f = true.
Proof. now apply equalFlags_eq. Qed.

Lemma equalFlags_neq (f g : Flag T) : f <> g -> equalFlags this f g = false.
Proof.
  intros H. destruct (equalFlags this f g) eqn:E; [|reflexivity].
  apply equalFlags_eq in E. contradiction.
Qed.

Lemma flag_eq_dec (f g : Flag T) : {f = g} + {f <> g}.
Proof.
  destruct (equalFlags this f g) eqn:E.
  - left. now apply equalFlags_eq.
  - right. intros ->. now rewrite equalFlags_refl in E.
Qed.

Lemma compareFlags_Gt_neq (f g : Flag T) : compareFlags this f g = Gt -> f <> g.
Proof.
  intros H ->. pose proof (equalFlags_refl g) as E.
  unfold equalFlags in E. now rewrite H in E.
Qed.

Lemma compareFlags_Lt_neq (f g : Flag T) : compareFlags this f g = Lt -> f <> g.
Proof.
  intros H ->. pose proof (equalFlags_refl g) as E.
  unfold equalFlags in E. now rewrite H in E.
Qed.

(** *** Flag maps *)

Lemma fm_get_set_same {U} (m : FlagMap T U) k v :
  fm_get this (fm_set this m k v) k = Some v.
Proof.
  induction m as [|[k' v'] m IH]; simpl.
  - now rewrite equalFlags_refl.
  - destruct (equalFlags this k' k) eqn:E; simpl; rewrite E; auto.
Qed.

Lemma fm_get_set_other {U} (m : FlagMap T U) k k' v :
  k <> k' -> fm_get this (fm_set this m k v) k' = fm_get this m k'.
Proof.
  intros Hk. induction m as [|[k0 v0] m IH]; simpl.
  - now rewrite equalFlags_neq.
  - destruct (equalFlags this k0 k) eqn:E; simpl.
    + apply equalFlags_eq in E. subst k0. now rewrite equalFlags_neq.
    + now rewrite IH.
Qed.

Lemma fm_get_keys {U} (m : FlagMap T U) k v :
  fm_get this m k = Some v -> In k (fm_keys m).
Proof.
  induction m as [|[k' v'] m IH]; simpl; [discriminate|].
  destruct (equalFlags this k' k) eqn:E.
  - apply equalFlags_eq in E. now left.
  - intros H. right. now apply IH.
Qed.

(** *** Lists updated in place *)

Lemma length_update_nth {A} (l : list A) n a :
  length (update_nth l n a) = length l.
Proof.
  revert n. induction l as [|x l IH]; intros [|n]; simpl; auto.
Qed.

Lemma nth_error_update_nth_same {A} (l : list A) n a :
  n < length l -> nth_error (update_nth l n a) n = Some a.
Proof.
  revert n. induction l as [|x l IH]; intros [|n] H; simpl in *;
    try lia; auto. apply IH. lia.
Qed.

Lemma nth_error_update_nth_other {A} (l : list A) n n' a :
  n <> n' -> nth_error (update_nth l n a) n' = nth_error l n'.
Proof.
  revert n n'. induction l as [|x l IH]; intros [|n] [|n'] H; simpl;
    try congruence; auto.
Qed.

Lemma In_update_nth {A} (l : list A) n a y :
  In y (update_nth l n a) -> In y l \/ y = a.
Proof.
  revert n. induction l as [|x l IH]; intros [|n]; simpl; auto.
  - intros [<-|H]; auto.
  - intros [<-|H]; auto. destruct (IH _ H); auto.
Qed.

(** *** Reading and writing the store *)

Lemma deref_inv r (st st' : Store T) m :
  deref r st = Done (m, st') -> st' = st /\ nth_error (maps st) r = Some m.
Proof.
  unfold deref. destruct (nth_error (maps st) r); [|discriminate].
  now intros [= <- <-].
Qed.

Lemma get_inv r key (st st' : Store T) x :
  get this r key st = Done (x, st') ->
  st' = st /\ x = lookup this st r key /\ r < length (maps st).
Proof.
  unfold get, lookup. intros H.
  apply bind_Done in H as (m & s1 & Hm & Hret).
  apply deref_inv in Hm as [-> Hm]. injection Hret as <- <-.
  rewrite Hm. repeat split.
  apply nth_error_Some. congruence.
Qed.

Lemma get_run r key (st : Store T) :
  r < length (maps st) ->
  get this r key st = Done (lookup this st r key, st).
Proof.
  intros Hr. unfold get, lookup, bind, deref.
  destruct (nth_error (maps st) r) eqn:E; [reflexivity|].
  apply nth_error_None in E. lia.
Qed.

Lemma defined_inv {S A} (o : option A) (s s' : S) a :
  defined o s = Done (a, s') -> s' = s /\ o = Some a.
Proof. destruct o; simpl; [|discriminate]. now intros [= <- <-]. Qed.

Lemma lift_inv {S A} (o : outcome A) (s s' : S) a :
  lift o s = Done (a, s') -> s' = s /\ o = Done a.
Proof. destruct o; simpl; try discriminate. now intros [= <- <-]. Qed.

Lemma fuelFor_inv r (st st' : Store T) n :
  fuelFor r st = Done (n, st') -> st' = st.
Proof.
  unfold fuelFor. intros H.
  apply bind_Done in H as (m & s1 & Hm & Hret).
  apply deref_inv in Hm as [-> _]. now injection Hret as _ <-.
Qed.

(** The resolution loops only read; they stop on the value they were
    given, when it is the previous one, or on a representative. *)
Lemma resolve_inv r fuel : forall oldElem elem (st st' : Store T) x,
  resolve this fuel r oldElem elem st = Done (x, st') ->
  st' = st /\ ((elem = Some x /\ oldElem = x) \/ isRep this st r x).
Proof.
  induction fuel as [|fuel IH]; intros oldElem elem st st' x H; simpl in H;
    apply bind_Done in H as (e & s1 & He & H);
    apply defined_inv in He as [-> ->];
    destruct (equalFlags this oldElem e) eqn:E.
  - injection H as <- <-. apply equalFlags_eq in E. auto.
  - discriminate.
  - injection H as <- <-. apply equalFlags_eq in E. auto.
  - apply bind_Done in H as (next & s2 & Hget & H).
    apply get_inv in Hget as (-> & -> & _).
    apply IH in H as [-> [[Hnext ->]|Hrep]]; auto.
Qed.

Lemma resolve_rep r fuel oldElem f (st : Store T) :
  isRep this st r f -> r < length (maps st) ->
  resolve this (S fuel) r oldElem (Some f) st = Done (f, st).
Proof.
  intros Hrep Hr. simpl. rewrite bind_ret.
  destruct (equalFlags this oldElem f); [reflexivity|].
  rewrite (bind_run (get_run r f st Hr)). rewrite Hrep.
  destruct fuel; simpl; rewrite bind_ret, equalFlags_refl; reflexivity.
Qed.

(** *** What a call changes *)

Lemma mutates_refl r st : mutates this r st st.
Proof. repeat split; auto. Qed.

Lemma mutates_trans r st1 st2 st3 :
  mutates this r st1 st2 -> mutates this r st2 st3 -> mutates this r st1 st3.
Proof.
  intros (I1 & L1 & F1 & R1) (I2 & L2 & F2 & R2).
  repeat split; try congruence.
  - intros r' Hr'. now rewrite F2, F1.
  - auto.
Qed.

Lemma set_inv r key value (st st' : Store T) u :
  set this r key value st = Done (u, st') ->
  exists m, nth_error (maps st) r = Some m /\
    st' = mkStore (update_nth (maps st) r (fm_set this m key value))
            (identitySimplifier st).
Proof.
  unfold set. intros H.
  apply bind_Done in H as (m & s1 & Hm & H).
  apply deref_inv in Hm as [-> Hm].
  apply bind_Done in H as (s2 & s3 & Hget & H).
  injection Hget as <- <-. injection H as _ <-.
  now exists m.
Qed.

Lemma set_mutates r key value (st st' : Store T) u :
  set this r key value st = Done (u, st') ->
  key <> value -> mutates this r st st'.
Proof.
  intros H Hneq. apply set_inv in H as (m & Hm & ->).
  assert (Hr : r < length (maps st)) by (apply nth_error_Some; congruence).
  repeat split; simpl.
  - apply length_update_nth.
  - intros r' Hr'. now apply nth_error_update_nth_other.
  - intros f. unfold isRep, lookup. simpl.
    rewrite nth_error_update_nth_same, Hm by assumption.
    destruct (flag_eq_dec key f) as [<-|Hkf].
    + rewrite fm_get_set_same by assumption. congruence.
    + now rewrite fm_get_set_other.
Qed.

Lemma thisIdentitySimplifier_inv (st st' : Store T) r :
  thisIdentitySimplifier st = Done (r, st') ->
  st' = st /\ r = identitySimplifier st.
Proof. unfold thisIdentitySimplifier, bind, getS, ret. now intros [= <- <-]. Qed.

Lemma unionStep_mutates s1 s2 key (st st' : Store T) u :
  unionStep this s1 s2 key st = Done (u, st') -> mutates this s1 st st'.
Proof.
  unfold unionStep. intros H.
  apply bind_Done in H as ([[oldRight left] right] & st1 & Hread & H).
  assert (st1 = st) as ->.
  { destruct s2 as [s2|generator].
    - apply bind_Done in Hread as (l & sa & Hl & Hread).
      apply get_inv in Hl as (-> & _ & _).
      apply bind_Done in Hread as (r & sb & Hr & Hread).
      apply get_inv in Hr as (-> & _ & _).
      now injection Hread.
    - apply bind_Done in Hread as (o & sa & Ho & Hread).
      apply lift_inv in Ho as (-> & _).
      apply bind_Done in Hread as (i & sb & Hi & Hread).
      apply thisIdentitySimplifier_inv in Hi as (-> & _).
      apply bind_Done in Hread as (l & sc & Hl & Hread).
      apply get_inv in Hl as (-> & _ & _).
      apply bind_Done in Hread as (l' & sd & Hl' & Hread).
      apply defined_inv in Hl' as (-> & _).
      apply bind_Done in Hread as (r' & se & Hr' & Hread).
      apply lift_inv in Hr' as (-> & _).
      now injection Hread. }
  apply bind_Done in H as (fuel & st1 & Hfuel & H).
  apply fuelFor_inv in Hfuel as ->.
  apply bind_Done in H as (l & st1 & Hl & H).
  apply resolve_inv in Hl as (-> & _).
  apply bind_Done in H as (r & st1 & Hr & H).
  apply resolve_inv in Hr as (-> & _).
  destruct (compareFlags this l r) eqn:E.
  - injection H as _ <-. apply mutates_refl.
  - apply set_mutates in H; [assumption|].
    intros ->. now apply compareFlags_Lt_neq in E.
  - apply set_mutates in H; [assumption|].
    now apply compareFlags_Gt_neq.
Qed.

Lemma forEach_unionStep_mutates s1 s2 keys : forall (st st' : Store T) u,
  forEach keys (unionStep this s1 s2) st = Done (u, st') -> mutates this s1 st st'.
Proof.
  induction keys as [|k keys IH]; intros st st' u H; simpl in H.
  - injection H as _ <-. apply mutates_refl.
  - apply bind_Done in H as (u1 & st1 & Hstep & H).
    eapply mutates_trans.
    + eapply unionStep_mutates. eassumption.
    + eapply IH. eassumption.
Qed.

Lemma alloc_inv m (st st' : Store T) r :
  alloc m st = Done (r, st') ->
  r = length (maps st) /\
  st' = mkStore (maps st ++ [m]) (identitySimplifier st).
Proof. unfold alloc. now intros [= <- <-]. Qed.

Lemma isRep_frame r (st st' : Store T) f :
  nth_error (maps st') r = nth_error (maps st) r ->
  isRep this st' r f <-> isRep this st r f.
Proof. unfold isRep, lookup. now intros ->. Qed.

Lemma isRep_keys r (st : Store T) f m :
  isRep this st r f -> nth_error (maps st) r = Some m -> In f (fm_keys m).
Proof.
  unfold isRep, lookup. intros Hf Hm. rewrite Hm in Hf.
  eapply fm_get_keys. eassumption.
Qed.

(** The clean-up of one key writes, for a representative of the
    simplifier that is read, the key itself, and writes the key itself
    only for a representative. *)
Lemma cleanStep_inv newS betterS key (st st' : Store T) u :
  newS <> betterS ->
  cleanStep this newS betterS key st = Done (u, st') ->
  exists mb x,
    nth_error (maps st) betterS = Some mb /\
    st' = mkStore (update_nth (maps st) betterS (fm_set this mb key x))
            (identitySimplifier st) /\
    (isRep this st newS key <-> x = key).
Proof.
  intros Hneq H. unfold cleanStep in H.
  apply bind_Done in H as (elem & st1 & Hget & H).
  apply get_inv in Hget as (-> & -> & Hnew).
  apply bind_Done in H as (fuel & st1 & Hfuel & H).
  assert (Hf : exists n, fuel = S n /\ st1 = st).
  { unfold fuelFor in Hfuel.
    apply bind_Done in Hfuel as (m & s1 & Hm & Hret).
    apply deref_inv in Hm as [-> _]. injection Hret as <- <-. eauto. }
  destruct Hf as (n & -> & ->).
  apply bind_Done in H as (x & st1 & Hres & H).
  pose proof (resolve_inv _ _ _ _ _ _ _ Hres) as (-> & Hx).
  apply set_inv in H as (mb & Hmb & ->).
  exists mb, x. split; [assumption|]. split; [reflexivity|]. split.
  - intros Hrep. unfold isRep in Hrep. rewrite Hrep in Hres.
    rewrite (resolve_rep newS n _ key st Hrep Hnew) in Hres.
    now injection Hres.
  - intros ->. destruct Hx as [[Hx _]|Hx]; assumption.
Qed.

Lemma cleanLoop_inv newS betterS keys : forall (st st' : Store T) u mb0,
  newS <> betterS ->
  nth_error (maps st) betterS = Some mb0 ->
  forEach keys (cleanStep this newS betterS) st = Done (u, st') ->
  identitySimplifier st' = identitySimplifier st /\
  length (maps st') = length (maps st) /\
  (forall r', r' <> betterS ->
     nth_error (maps st') r' = nth_error (maps st) r') /\
  exists mb2,
    nth_error (maps st') betterS = Some mb2 /\
    (forall f, fm_get this mb2 f = Some f ->
       fm_get this mb0 f = Some f \/ isRep this st newS f) /\
    (forall f, In f keys -> isRep this st newS f -> fm_get this mb2 f = Some f) /\
    (forall f, isRep this st newS f -> fm_get this mb0 f = Some f ->
       fm_get this mb2 f = Some f).
Proof.
  induction keys as [|k keys IH]; intros st st' u mb0 Hneq Hmb0 H;
    simpl in H.
  - injection H as _ <-. repeat split; auto.
    exists mb0. repeat split; auto. intros f [].
  - apply bind_Done in H as (u1 & st1 & Hstep & H).
    apply cleanStep_inv in Hstep as (mb & x & Hmb & -> & Hx);
      [|assumption].
    rewrite Hmb0 in Hmb. injection Hmb as <-.
    assert (Hb : betterS < length (maps st))
      by (apply nth_error_Some; congruence).
    set (st1 := mkStore (update_nth (maps st) betterS
                           (fm_set this mb0 k x)) (identitySimplifier st))
      in *.
    assert (Hframe : forall r', r' <> betterS ->
              nth_error (maps st1) r' = nth_error (maps st) r').
    { intros r' Hr'. simpl. apply nth_error_update_nth_other. congruence. }
    assert (Hrep : forall f, isRep this st1 newS f <-> isRep this st newS f).
    { intros f. apply isRep_frame. now apply Hframe. }
    assert (Hmb1 : nth_error (maps st1) betterS
                   = Some (fm_set this mb0 k x)).
    { simpl. now apply nth_error_update_nth_same. }
    destruct (IH st1 st' u _ Hneq Hmb1 H)
      as (Hid & Hlen & Hfr & mb2 & Hmb2 & Hback & Hkeys & Hkeep).
    split; [exact Hid|].
    split; [rewrite Hlen; simpl; apply length_update_nth|].
    split; [intros r' Hr'; rewrite Hfr by assumption; now apply Hframe|].
    exists mb2. split; [exact Hmb2|].
    assert (Hset : forall f, isRep this st newS f -> fm_get this mb0 f = Some f
                     \/ f = k -> fm_get this (fm_set this mb0 k x) f = Some f).
    { intros f Hf Hcase.
      destruct (flag_eq_dec k f) as [<-|Hkf].
      - rewrite fm_get_set_same. f_equal. now apply Hx.
      - rewrite fm_get_set_other by assumption.
        destruct Hcase as [Hcase|Hcase]; [assumption | congruence]. }
    repeat split.
    + intros f Hf. destruct (Hback f Hf) as [Hold|Hnew].
      * destruct (flag_eq_dec k f) as [<-|Hkf].
        -- rewrite fm_get_set_same in Hold. injection Hold as Hold.
           right. now apply Hx.
        -- rewrite fm_get_set_other in Hold by assumption. now left.
      * right. now apply Hrep.
    + intros f [<-|Hin] Hf.
      * apply Hkeep; [now apply Hrep|]. apply Hset; auto.
      * apply Hkeys; [assumption | now apply Hrep].
    + intros f Hf Hold. apply Hkeep; [now apply Hrep|]. apply Hset; auto.
Qed.

(** A call of [modifySimplifier]: the result is a new simplifier; of the
    existing ones only the first argument is written; the first argument
    gains no representative; and the representatives of the result are
    those of the first argument as the call leaves it. *)
Lemma modifySimplifier_inv s1 s2 (st st' : Store T) b :
  modifySimplifier this s1 s2 st = Done (b, st') ->
  b = length (maps st) /\
  s1 < length (maps st) /\
  length (maps st') = S (length (maps st)) /\
  identitySimplifier st' = identitySimplifier st /\
  (forall r', r' <> s1 -> r' < length (maps st) ->
     nth_error (maps st') r' = nth_error (maps st) r') /\
  (forall f, isRep this st' s1 f -> isRep this st s1 f) /\
  (forall f, isRep this st' b f <-> isRep this st' s1 f).
Proof.
  unfold modifySimplifier. intros H.
  apply bind_Done in H as (m & st0 & Hm & H).
  apply deref_inv in Hm as [-> Hm].
  assert (Hs1 : s1 < length (maps st))
    by (apply nth_error_Some; congruence).
  apply bind_Done in H as (u1 & st1 & Hunion & H).
  apply forEach_unionStep_mutates in Hunion as (I1 & L1 & F1 & R1).
  apply bind_Done in H as (b' & st2 & Halloc & H).
  apply alloc_inv in Halloc as (-> & ->).
  apply bind_Done in H as (m' & st3 & Hm' & H).
  apply deref_inv in Hm' as [-> Hm'].
  apply bind_Done in H as (u2 & st3 & Hclean & H).
  injection H as <- <-.
  set (st2 := mkStore (maps st1 ++ [[]]) (identitySimplifier st1)) in *.
  assert (Hneq : s1 <> length (maps st1)) by lia.
  assert (Hb0 : nth_error (maps st2) (length (maps st1)) = Some [])
    by (simpl; rewrite nth_error_app2, Nat.sub_diag by lia; reflexivity).
  assert (Hold : forall r', r' < length (maps st1) ->
            nth_error (maps st2) r' = nth_error (maps st1) r')
    by (intros r' Hr'; simpl; now rewrite nth_error_app1).
  destruct (cleanLoop_inv _ _ _ _ _ _ _ Hneq Hb0 Hclean)
    as (Hid & Hlen & Hfr & mb2 & Hmb2 & Hback & Hkeys & _).
  assert (Hs1' : nth_error (maps st3) s1 = nth_error (maps st1) s1)
    by (rewrite Hfr by assumption; apply Hold; lia).
  assert (Hrep3 : forall f, isRep this st3 s1 f <-> isRep this st1 s1 f)
    by (intros f; now apply isRep_frame).
  assert (Hrep2 : forall f, isRep this st2 s1 f <-> isRep this st1 s1 f)
    by (intros f; apply isRep_frame; apply Hold; lia).
  split; [congruence|]. split; [assumption|].
  split; [rewrite Hlen; simpl; rewrite length_app; simpl; lia|].
  split; [rewrite Hid; simpl; assumption|].
  split.
  { intros r' Hr' Hlt. rewrite Hfr by lia.
    rewrite Hold by lia. now apply F1. }
  split; [intros f Hf; apply R1; now apply Hrep3|].
  intros f. rewrite Hrep3. unfold isRep at 1, lookup. rewrite Hmb2.
  split.
  - intros Hf. destruct (Hback f Hf) as [Hnil|Hnew]; [discriminate|].
    now apply Hrep2.
  - intros Hf. apply Hrep2 in Hf. apply Hkeys; [|assumption].
    exact (isRep_keys _ _ _ _ Hf Hm').
Qed.

(** *** The blocks of the conversion *)

Lemma pick_inv {A} (l : list A) i (st st' : Store T) a :
  pick l i st = Done (a, st') -> st' = st /\ nthZ l i = Some a.
Proof. unfold pick. apply defined_inv. Qed.

Lemma buildIdentity_inv (st st' : Store T) u :
  buildIdentity this st = Done (u, st') ->
  identitySimplifier st' < length (maps st').
Proof.
  unfold buildIdentity. intros H.
  apply bind_Done in H as (fresh & st1 & Halloc & H).
  apply alloc_inv in Halloc as (-> & ->).
  apply bind_Done in H as (u1 & st1 & Hset & H).
  unfold setIdentitySimplifier, bind, getS, putS in Hset.
  injection Hset as _ <-. simpl in H.
  refine (forEach_inv
            (fun _ s => identitySimplifier s < length (maps s))
            _ (scan this) _ (scan this) [] _ u st' eq_refl _ H).
  - intros done a rest s u' s' _ Hinv Hbody.
    apply bind_Done in Hbody as (idS & s1 & Hid & Hbody).
    apply thisIdentitySimplifier_inv in Hid as (-> & ->).
    apply set_inv in Hbody as (m & _ & ->). simpl.
    now rewrite length_update_nth.
  - simpl. rewrite length_app. simpl. lia.
Qed.

Lemma buildAscending_inv (st st' : Store T) asc :
  buildAscending this st = Done (asc, st') ->
  identitySimplifier st < length (maps st) ->
  length (maps st) <= length (maps st') /\
  Forall (fun r => r < length (maps st')) asc.
Proof.
  unfold buildAscending. intros H Hid.
  apply bind_Done in H as (idS & st1 & HidS & H).
  apply thisIdentitySimplifier_inv in HidS as (-> & ->).
  apply bind_Done in H as ([asc' last] & st1 & Hloop & H).
  injection H as <- <-.
  refine (foldM_inv
            (fun _ (b : list ref * ref) s =>
               length (maps st) <= length (maps s) /\
               Forall (fun r => r < length (maps s)) (fst b))
            _ (seq 0 (rank this)) _ (seq 0 (rank this)) [] _ _ _ _
            eq_refl _ Hloop).
  - intros done a rest [asc0 last0] s [asc1 last1] s' _ [Hlen Hall] Hbody.
    apply bind_Done in Hbody as (b & s1 & Hext & Hbody).
    injection Hbody as <- <- <-.
    apply modifySimplifier_inv in Hext as (-> & _ & Hlen' & _).
    simpl in *. split; [lia|].
    apply Forall_app. split.
    + eapply Forall_impl; [|exact Hall]. simpl. intros; lia.
    + repeat constructor. lia.
  - simpl. split; [lia|]. repeat constructor. assumption.
Qed.

Lemma buildDescending_inv (st st' : Store T) desc :
  buildDescending this st = Done (desc, st') ->
  length (maps st) <= length (maps st').
Proof.
  unfold buildDescending. intros H.
  apply bind_Done in H as (idS & st1 & HidS & H).
  apply thisIdentitySimplifier_inv in HidS as (-> & ->).
  refine (foldM_inv
            (fun _ (_ : list ref) s => length (maps st) <= length (maps s))
            _ (seq 0 (rank this)) _ (seq 0 (rank this)) [] _ _ _ _
            eq_refl _ H).
  - intros done a rest desc0 s desc1 s' _ Hlen Hbody.
    apply bind_Done in Hbody as (last & s1 & Hpick & Hbody).
    apply pick_inv in Hpick as (-> & _).
    apply bind_Done in Hbody as (b & s1 & Hext & Hbody).
    injection Hbody as _ <-.
    apply modifySimplifier_inv in Hext as (_ & _ & Hlen' & _). lia.
  - lia.
Qed.

Lemma merge_keeps_finer s1 s2 (st st' : Store T) r n a b :
  modifySimplifier this s1 s2 st = Done (r, st') ->
  s1 < n -> n <= b -> b < length (maps st) -> a < length (maps st) ->
  finer this st a b -> finer this st' a b.
Proof.
  intros H Hs1 Hnb Hb Ha Hfiner f Hf.
  apply modifySimplifier_inv in H
    as (_ & _ & _ & _ & Hframe & Hshrink & _).
  apply (isRep_frame b st st'); [apply Hframe; lia|].
  apply Hfiner.
  destruct (Nat.eq_dec a s1) as [->|Hneq]; [now apply Hshrink|].
  apply (isRep_frame a st st'); [now apply Hframe | assumption].
Qed.

Lemma elementFacts_merge n asc els s1 s2 (st st' : Store T) r :
  elementFacts this n asc els st ->
  Forall (fun r => r < n) asc -> n <= length (maps st) ->
  modifySimplifier this s1 s2 st = Done (r, st') -> s1 < n ->
  elementFacts this n asc els st'.
Proof.
  intros Hfacts Hasc Hn H Hs1 k Hk.
  destruct (Hfacts k Hk) as (a & b & Ha & Hb & Hnb & Hblen & Hfiner).
  exists a, b. repeat split; try assumption.
  - pose proof (modifySimplifier_inv _ _ _ _ _ H) as (_ & _ & Hlen & _). lia.
  - eapply merge_keeps_finer; try eassumption.
    rewrite Forall_forall in Hasc.
    apply nth_error_In in Ha. apply Hasc in Ha. lia.
Qed.

Lemma buildElementSimplifiers_inv asc desc (st st' : Store T) els' n :
  buildElementSimplifiers this asc desc st = Done (els', st') ->
  Forall (fun r => r < n) asc -> n <= length (maps st) ->
  exists els,
    els' = els ++ [nthZ asc (Z.of_nat (rank this))] /\
    length els = rank this /\
    n <= length (maps st') /\
    elementFacts this n asc els st'.
Proof.
  unfold buildElementSimplifiers. intros H Hasc Hn.
  apply bind_Done in H as (els & st1 & Hloop & H).
  injection H as <- <-. exists els. split; [reflexivity|].
  assert (Hinv : length els = length (seq 0 (rank this)) /\
                 n <= length (maps st1) /\ elementFacts this n asc els st1).
  { refine (foldM_inv
              (fun done (els : list (option ref)) s =>
                 length els = length done /\ n <= length (maps s) /\
                 elementFacts this n asc els s)
              _ (seq 0 (rank this)) _ (seq 0 (rank this)) [] _ _ _ _
              eq_refl _ Hloop).
    - intros done i rest els0 s els1 s' Hsplit (Hlen & Hns & Hfacts) Hbody.
      apply seq_split in Hsplit. simpl in Hsplit. subst i.
      apply bind_Done in Hbody as (s1 & sa & Hp1 & Hbody).
      apply pick_inv in Hp1 as (-> & Hs1). rewrite nthZ_of_nat in Hs1.
      apply bind_Done in Hbody as (s2 & sa & Hp2 & Hbody).
      apply pick_inv in Hp2 as (-> & _).
      apply bind_Done in Hbody as (b & sa & Hmerge & Hbody).
      injection Hbody as <- <-.
      assert (Hs1n : s1 < n).
      { rewrite Forall_forall in Hasc. apply Hasc.
        eapply nth_error_In. eassumption. }
      pose proof (modifySimplifier_inv _ _ _ _ _ Hmerge)
        as (-> & _ & Hlen' & _ & _ & _ & Hnew).
      split; [rewrite !length_app; simpl; lia|].
      split; [lia|].
      intros k Hk. rewrite length_app in Hk. simpl in Hk.
      destruct (Nat.eq_dec k (length els0)) as [->|Hneq].
      + exists s1, (length (maps s)).
        rewrite nth_error_app2, Nat.sub_diag by lia.
        rewrite <- Hlen in Hs1.
        repeat split; try assumption; try lia.
        intros f Hf. now apply Hnew.
      + destruct (elementFacts_merge _ _ _ _ _ _ _ _
                    Hfacts Hasc Hns Hmerge Hs1n k ltac:(lia))
          as (a & b & Ha & Hb & Hrest).
        exists a, b. rewrite nth_error_app1 by lia. auto.
    - repeat split; try assumption. intros k Hk. simpl in Hk. lia. }
  rewrite length_seq in Hinv. tauto.
Qed.

Lemma buildIntersectionSimplifiers_inv asc desc (st st' : Store T)
    ints' n els :
  buildIntersectionSimplifiers this asc desc st = Done (ints', st') ->
  Forall (fun r => r < n) asc -> n <= length (maps st) ->
  length els = rank this ->
  elementFacts this n asc els st ->
  exists ints,
    ints' = ints ++ [nthZ asc (Z.of_nat (rank this) - 1)] /\
    length ints = rank this - 1 /\
    elementFacts this n asc els st' /\
    intersectionFacts this n ints els st'.
Proof.
  unfold buildIntersectionSimplifiers. intros H Hasc Hn Hels Hfacts0.
  apply bind_Done in H as (ints & st1 & Hloop & H).
  injection H as <- <-. exists ints. split; [reflexivity|].
  assert (Hinv : length ints = length (seq 0 (rank this - 1)) /\
                 n <= length (maps st1) /\ elementFacts this n asc els st1 /\
                 intersectionFacts this n ints els st1).
  { refine (foldM_inv
              (fun done (ints : list (option ref)) s =>
                 length ints = length done /\ n <= length (maps s) /\
                 elementFacts this n asc els s /\
                 intersectionFacts this n ints els s)
              _ (seq 0 (rank this - 1)) _ (seq 0 (rank this - 1)) [] _ _ _ _
              eq_refl _ Hloop).
    - intros done i rest ints0 s ints1 s' Hsplit
        (Hlen & Hns & Hfacts & Hints) Hbody.
      assert (Hi : i < rank this - 1).
      { assert (In i (seq 0 (rank this - 1)))
          by (rewrite Hsplit; apply in_or_app; right; now left).
        apply in_seq in H. lia. }
      apply seq_split in Hsplit. simpl in Hsplit. subst i.
      apply bind_Done in Hbody as (s1 & sa & Hp1 & Hbody).
      apply pick_inv in Hp1 as (-> & Hs1). rewrite nthZ_of_nat in Hs1.
      apply bind_Done in Hbody as (s2 & sa & Hp2 & Hbody).
      apply pick_inv in Hp2 as (-> & _).
      apply bind_Done in Hbody as (x & sa & Hmerge & Hbody).
      injection Hbody as <- <-.
      assert (Hs1n : s1 < n).
      { rewrite Forall_forall in Hasc. apply Hasc.
        eapply nth_error_In. eassumption. }
      pose proof (elementFacts_merge _ _ _ _ _ _ _ _
                    Hfacts Hasc Hns Hmerge Hs1n) as Hfacts'.
      pose proof (modifySimplifier_inv _ _ _ _ _ Hmerge)
        as (-> & _ & Hlen' & _ & _ & _ & Hnew).
      split; [rewrite !length_app; simpl; lia|].
      split; [lia|]. split; [exact Hfacts'|].
      intros k Hk. rewrite length_app in Hk. simpl in Hk.
      destruct (Nat.eq_dec k (length ints0)) as [->|Hneq].
      + destruct (Hfacts' (length ints0) ltac:(lia))
          as (a & b & Ha & Hb & Hnb & Hblen & Hfiner).
        rewrite <- Hlen in Hs1. rewrite Hs1 in Ha. injection Ha as <-.
        exists (length (maps s)), b.
        rewrite nth_error_app2, Nat.sub_diag by lia.
        repeat split; try assumption; try lia.
        intros f Hf. apply Hfiner. now apply Hnew.
      + destruct (Hints k ltac:(lia))
          as (x & b & Hx & Hb & Hnx & Hxlen & Hnb & Hblen & Hfiner).
        exists x, b. rewrite nth_error_app1 by lia.
        repeat split; try assumption; try lia.
        eapply merge_keeps_finer; try eassumption.
    - repeat split; try assumption. intros k Hk. simpl in Hk. lia. }
  rewrite length_seq in Hinv. tauto.
Qed.

(** In the store in which the elements are read off, a representative of
    the intersection simplifier of a rank is a representative of the
    element simplifier of the lower rank. *)
Lemma representative_inclusion n asc els ints (st : Store T) :
  length els = rank this -> length ints = rank this - 1 ->
  elementFacts this n asc els st -> intersectionFacts this n ints els st ->
  forall i, 1 <= i <= rank this ->
    exists x e,
      nth_error (ints ++ [nthZ asc (Z.of_nat (rank this) - 1)]) (i - 1)
        = Some (Some x) /\
      nth_error (els ++ [nthZ asc (Z.of_nat (rank this))]) (i - 1)
        = Some (Some e) /\
      finer this st x e.
Proof.
  intros Hels Hints Hfacts Hifacts i Hi.
  destruct (Nat.eq_dec (i - 1) (rank this - 1)) as [Heq|Hneq].
  - destruct (Hfacts (rank this - 1) ltac:(lia))
      as (a & b & Ha & Hb & _ & _ & Hfiner).
    exists a, b. rewrite Heq.
    rewrite nth_error_app2, Hints, Nat.sub_diag by lia.
    rewrite nth_error_app1 by lia. simpl.
    replace (Z.of_nat (rank this) - 1)%Z with (Z.of_nat (rank this - 1))
      by lia.
    rewrite nthZ_of_nat, Ha. auto.
  - destruct (Hifacts (i - 1) ltac:(lia))
      as (x & b & Hx & Hb & _ & _ & _ & _ & Hfiner).
    exists x, b. rewrite !nth_error_app1 by lia. auto.
Qed.

(** *** Reading the elements off the simplifiers *)

Lemma isRepresentative_inv s flag (st st' : Store T) b :
  isRepresentative this s flag st = Done (b, st') ->
  st' = st /\ (b = true <-> isRep this st s flag).
Proof.
  unfold isRepresentative. intros H.
  apply bind_Done in H as (o & st1 & Hget & H).
  apply get_inv in Hget as (-> & -> & _).
  apply bind_Done in H as (rep & st1 & Hdef & H).
  apply defined_inv in Hdef as (-> & Hrep).
  injection H as <- <-. split; [reflexivity|].
  unfold isRep. rewrite Hrep, equalFlags_eq.
  split; [now intros -> | now intros [= ->]].
Qed.

Lemma simplifierAt_inv l i (st st' : Store T) s :
  simplifierAt l i st = Done (s, st') ->
  st' = st /\ nthZ l i = Some (Some s).
Proof.
  unfold simplifierAt. intros H.
  apply bind_Done in H as (o & st1 & Hpick & H).
  apply pick_inv in Hpick as (-> & Ho).
  apply defined_inv in H as (-> & ->). auto.
Qed.

Lemma buildVertices_inv applyMatrix els (st st' : Store T) points :
  buildVertices this applyMatrix els st = Done (points, st') -> st' = st.
Proof.
  unfold buildVertices. intros H.
  refine (foldM_inv (fun _ (_ : list Point) s => s = st)
            _ (scan this) _ (scan this) [] _ _ _ _ eq_refl eq_refl H).
  intros done flag rest pts s pts' s' _ -> Hbody.
  apply bind_Done in Hbody as (e & s1 & He & Hbody).
  apply simplifierAt_inv in He as (-> & _).
  apply bind_Done in Hbody as (b & s1 & Hb & Hbody).
  apply isRepresentative_inv in Hb as (-> & _).
  destruct b.
  - apply bind_Done in Hbody as (seed & s1 & Hseed & Hbody).
    apply defined_inv in Hseed as (-> & _). now injection Hbody.
  - now injection Hbody.
Qed.

Lemma locationsRow_inv els i (st st' : Store T) row next :
  NoDup (scan this) ->
  foldM (scan this) ([], 0) (fun '(row, nextID) flag =>
    bind (simplifierAt els (Z.of_nat i)) (fun s =>
    bind (isRepresentative this s flag) (fun b =>
      if b then ret (fm_set this row flag nextID, S nextID)
      else ret (row, nextID)))) st = Done ((row, next), st') ->
  st' = st /\
  forall e, nth_error els i = Some (Some e) -> rowOK this row e st.
Proof.
  intros Hnodup H.
  assert (Hinv :
    st' = st /\
    (forall f id, fm_get this row f = Some id ->
       id < next /\ In f (scan this)) /\
    (forall f g id, fm_get this row f = Some id ->
       fm_get this row g = Some id -> f = g) /\
    (forall e, nth_error els i = Some (Some e) ->
       forall f, In f (scan this) -> isRep this st e f ->
         fm_get this row f <> None)).
  { refine (foldM_inv
      (fun done (acc : FlagMap T nat * nat) s =>
         s = st /\
         (forall f id, fm_get this (fst acc) f = Some id ->
            id < snd acc /\ In f done) /\
         (forall f g id, fm_get this (fst acc) f = Some id ->
            fm_get this (fst acc) g = Some id -> f = g) /\
         (forall e, nth_error els i = Some (Some e) ->
            forall f, In f done -> isRep this st e f ->
              fm_get this (fst acc) f <> None))
      _ (scan this) _ (scan this) [] _ _ _ _ eq_refl _ H).
    - intros done flag rest [row0 next0] s [row1 next1] s' Hsplit
        (-> & Hbound & Hinj & Hcover) Hbody. simpl in *.
      apply bind_Done in Hbody as (e & s1 & He & Hbody).
      apply simplifierAt_inv in He as (-> & He).
      rewrite nthZ_of_nat in He.
      apply bind_Done in Hbody as (b & s1 & Hb & Hbody).
      apply isRepresentative_inv in Hb as (-> & Hb).
      assert (Hfresh : ~ In flag done).
      { rewrite Hsplit in Hnodup. apply NoDup_remove_2 in Hnodup.
        intros Hin. apply Hnodup. apply in_or_app. now left. }
      destruct b; injection Hbody as <- <- <-.
      + split; [reflexivity|]. split; [|split].
        * intros f id Hf.
          destruct (flag_eq_dec flag f) as [<-|Hneq].
          -- rewrite fm_get_set_same in Hf. injection Hf as <-.
             split; [lia | apply in_or_app; right; now left].
          -- rewrite fm_get_set_other in Hf by assumption.
             destruct (Hbound f id Hf). split; [lia|].
             apply in_or_app. now left.
        * intros f g id Hf Hg.
          destruct (flag_eq_dec flag f) as [<-|Hnf],
                   (flag_eq_dec flag g) as [<-|Hng]; try reflexivity.
          -- rewrite fm_get_set_same in Hf. injection Hf as <-.
             rewrite fm_get_set_other in Hg by assumption.
             apply Hbound in Hg. lia.
          -- rewrite fm_get_set_same in Hg. injection Hg as <-.
             rewrite fm_get_set_other in Hf by assumption.
             apply Hbound in Hf. lia.
          -- rewrite fm_get_set_other in Hf, Hg by assumption. eauto.
        * intros e' He' f Hin Hf.
          destruct (flag_eq_dec flag f) as [<-|Hneq].
          -- now rewrite fm_get_set_same.
          -- rewrite fm_get_set_other by assumption.
             apply in_app_or in Hin as [Hin|[Hin|[]]];
               [eapply Hcover; eassumption | contradiction].
      + split; [reflexivity|]. split; [|split].
        * intros f id Hf. destruct (Hbound f id Hf).
          split; [assumption | apply in_or_app; now left].
        * exact Hinj.
        * intros e' He' f Hin Hf.
          apply in_app_or in Hin as [Hin|[<-|[]]];
            [eapply Hcover; eassumption|].
          rewrite He in He'. injection He' as <-.
          apply Hb in Hf. discriminate.
    - simpl. repeat split; try discriminate. intros e _ f []. }
  destruct Hinv as (-> & _ & Hinj & Hcover).
  split; [reflexivity|]. intros e He. split; [exact Hinj|].
  apply Hcover. exact He.
Qed.

Lemma buildLocations_inv els (st st' : Store T) locs lens :
  NoDup (scan this) ->
  buildLocations this els st = Done ((locs, lens), st') ->
  st' = st /\
  forall k e, k < rank this + 1 -> nth_error els k = Some (Some e) ->
    exists row, nth_error locs k = Some row /\ rowOK this row e st.
Proof.
  intros Hnodup H. unfold buildLocations in H.
  assert (Hinv :
    st' = st /\ length locs = length (seq 0 (rank this + 1)) /\
    forall k e, k < length (seq 0 (rank this + 1)) ->
      nth_error els k = Some (Some e) ->
      exists row, nth_error locs k = Some row /\ rowOK this row e st).
  { refine (foldM_inv
      (fun done (acc : list (FlagMap T nat) * list nat) s =>
         s = st /\ length (fst acc) = length done /\
         forall k e, k < length done -> nth_error els k = Some (Some e) ->
           exists row, nth_error (fst acc) k = Some row /\ rowOK this row e st)
      _ (seq 0 (rank this + 1)) _ (seq 0 (rank this + 1)) [] _ _ _ _
      eq_refl _ H).
    - intros done i rest [locs0 lens0] s [locs1 lens1] s' Hsplit
        (-> & Hlen & Hrows) Hbody. simpl in *.
      apply seq_split in Hsplit. simpl in Hsplit. subst i.
      apply bind_Done in Hbody as ([row next] & s1 & Hrow & Hbody).
      injection Hbody as <- <- <-.
      apply (locationsRow_inv _ _ _ _ _ _ Hnodup) in Hrow as (-> & Hrow).
      unfold FlagMap in *.
      split; [reflexivity|]. rewrite !length_app. simpl.
      split; [lia|].
      intros k e Hk He.
      destruct (Nat.eq_dec k (length done)) as [->|Hneq].
      + exists row. rewrite nth_error_app2, Hlen, Nat.sub_diag by lia.
        split; [reflexivity | now apply Hrow].
      + rewrite nth_error_app1 by lia. apply Hrows; [lia | assumption].
    - simpl. repeat split. intros k e Hk. lia. }
  rewrite length_seq in Hinv. tauto.
Qed.

Lemma pushAt_inv {I} (elements : list (list I)) rightID leftID
    (st st' : Store T) elements' :
  pushAt elements rightID leftID st = Done (elements', st') ->
  st' = st /\
  exists n row,
    nth_error elements n = Some row /\
    elements' = update_nth elements n (row ++ [leftID]).
Proof.
  unfold pushAt. destruct rightID as [n|]; [|discriminate].
  destruct (nth_error elements n) as [row|] eqn:E; [|discriminate].
  intros [= <- <-]. split; [reflexivity|]. now exists n, row.
Qed.

(** The elements of one rank: every intersection representative appends
    the ID of a different element of the lower rank, so no list receives
    an ID twice. *)
Lemma buildElements_inv els ints locs lens i (st st' : Store T) elements
    x e rowl :
  NoDup (scan this) -> 1 <= i ->
  nth_error ints (i - 1) = Some (Some x) ->
  nth_error els (i - 1) = Some (Some e) ->
  finer this st x e ->
  nth_error locs (i - 1) = Some rowl -> rowOK this rowl e st ->
  buildElements this els ints locs lens (Z.of_nat i) st
    = Done (elements, st') ->
  st' = st /\ forall row, In row elements -> NoDup row.
Proof.
  intros Hnodup Hi Hx He Hfiner Hrowl [Hinj Hcover] H.
  unfold buildElements in H.
  replace (Z.of_nat i - 1)%Z with (Z.of_nat (i - 1)) in H by lia.
  apply bind_Done in H as (n & st1 & Hn & H).
  apply defined_inv in Hn as (-> & _).
  assert (Hinv :
    st' = st /\
    forall row, In row elements ->
      NoDup row /\
      forall y, In y row ->
        exists f, In f (scan this) /\ fm_get this rowl f = y /\ y <> None).
  { refine (foldM_inv
      (fun done (elements : list (list (option nat))) s =>
         s = st /\
         forall row, In row elements ->
           NoDup row /\
           forall y, In y row ->
             exists f, In f done /\ fm_get this rowl f = y /\ y <> None)
      _ (scan this) _ (scan this) [] _ _ _ _ eq_refl _ H).
    - intros done flag rest elements0 s elements1 s' Hsplit
        (-> & Hrows) Hbody.
      assert (Hfresh : ~ In flag done).
      { rewrite Hsplit in Hnodup. apply NoDup_remove_2 in Hnodup.
        intros Hin. apply Hnodup. apply in_or_app. now left. }
      assert (Hscan : In flag (scan this))
        by (rewrite Hsplit; apply in_or_app; right; now left).
      assert (Hold : forall row, In row elements0 ->
                NoDup row /\
                forall y, In y row ->
                  exists f, In f (done ++ [flag]) /\
                            fm_get this rowl f = y /\ y <> None).
      { intros row Hrow. destruct (Hrows row Hrow) as [Hnd Hent].
        split; [assumption|]. intros y Hy.
        destruct (Hent y Hy) as (f & Hf & Hget & Hsome).
        exists f. split; [apply in_or_app; now left | auto]. }
      apply bind_Done in Hbody as (sx & s1 & Hsx & Hbody).
      apply simplifierAt_inv in Hsx as (-> & Hsx).
      rewrite nthZ_of_nat, Hx in Hsx. injection Hsx as <-.
      apply bind_Done in Hbody as (b & s1 & Hb & Hbody).
      apply isRepresentative_inv in Hb as (-> & Hb).
      destruct b; [|injection Hbody as <- <-; auto].
      assert (Hrep : isRep this st e flag) by (apply Hfiner; now apply Hb).
      apply bind_Done in Hbody as (sl & s1 & Hsl & Hbody).
      apply simplifierAt_inv in Hsl as (-> & Hsl).
      rewrite nthZ_of_nat, He in Hsl. injection Hsl as <-.
      apply bind_Done in Hbody as (sr & s1 & Hsr & Hbody).
      apply simplifierAt_inv in Hsr as (-> & _).
      apply bind_Done in Hbody as (leftFlag & s1 & Hleft & Hbody).
      apply get_inv in Hleft as (-> & -> & _).
      apply bind_Done in Hbody as (rightFlag & s1 & Hright & Hbody).
      apply get_inv in Hright as (-> & _ & _).
      apply bind_Done in Hbody as (leftFlag & s1 & Hleft & Hbody).
      apply defined_inv in Hleft as (-> & Hleft).
      unfold isRep in Hrep. rewrite Hrep in Hleft. injection Hleft as <-.
      apply bind_Done in Hbody as (rowl' & s1 & Hpick & Hbody).
      apply pick_inv in Hpick as (-> & Hpick).
      rewrite nthZ_of_nat, Hrowl in Hpick. injection Hpick as <-.
      apply bind_Done in Hbody as (rightFlag' & s1 & Hright & Hbody).
      apply defined_inv in Hright as (-> & _).
      apply bind_Done in Hbody as (rowr & s1 & Hpick & Hbody).
      apply pick_inv in Hpick as (-> & _).
      apply pushAt_inv in Hbody as (-> & k & row & Hrow & ->).
      split; [reflexivity|].
      intros row' Hrow'. apply In_update_nth in Hrow' as [Hrow'| ->];
        [now apply Hold|].
      apply nth_error_In in Hrow.
      destruct (Hrows row Hrow) as [Hnd Hent].
      assert (Hsome : fm_get this rowl flag <> None)
        by (now apply Hcover).
      split.
      + apply NoDup_app; [assumption | repeat constructor; intros [] |].
        intros y Hy [<-|[]].
        destruct (Hent _ Hy) as (f & Hf & Hget & _).
        destruct (fm_get this rowl flag) as [id|] eqn:Hid;
          [|contradiction].
        assert (f = flag) by (eapply Hinj; eassumption).
        subst f. contradiction.
      + intros y Hy. apply in_app_or in Hy as [Hy|[<-|[]]].
        * destruct (Hold row Hrow) as [_ Hent']. now apply Hent'.
        * exists flag. split; [apply in_or_app; right; now left | auto].
    - split; [reflexivity|]. intros row Hrow.
      apply repeat_spec in Hrow. subst row.
      split; [constructor | intros y []]. }
  destruct Hinv as (-> & Hrows). split; [reflexivity|].
  intros row Hrow. now apply Hrows.
Qed.

Lemma buildHigher_inv els ints locs lens (st st' : Store T) higher :
  NoDup (scan this) ->
  (forall i, 1 <= i <= rank this ->
     exists x e rowl,
       nth_error ints (i - 1) = Some (Some x) /\
       nth_error els (i - 1) = Some (Some e) /\
       finer this st x e /\
       nth_error locs (i - 1) = Some rowl /\ rowOK this rowl e st) ->
  buildHigher this els ints locs lens st = Done (higher, st') ->
  st' = st /\
  forall elements, In elements higher ->
    forall row, In row elements -> NoDup row.
Proof.
  intros Hnodup Hlevels H. unfold buildHigher in H.
  refine (foldM_inv
    (fun _ (higher : list (list (list (option nat)))) s =>
       s = st /\
       forall elements, In elements higher ->
         forall row, In row elements -> NoDup row)
    _ (seq 1 (rank this)) _ (seq 1 (rank this)) [] _ _ _ _ eq_refl _ H).
  - intros done i rest higher0 s higher1 s' Hsplit (-> & Hrows) Hbody.
    assert (Hi : 1 <= i <= rank this).
    { assert (In i (seq 1 (rank this)))
        by (rewrite Hsplit; apply in_or_app; right; now left).
      apply in_seq in H0. lia. }
    apply bind_Done in Hbody as (elements & s1 & Hel & Hbody).
    injection Hbody as <- <-.
    destruct (Hlevels i Hi) as (x & e & rowl & Hx & He & Hf & Hrowl & Hok).
    apply (buildElements_inv _ _ _ _ _ _ _ _ _ _ _
             Hnodup (proj1 Hi) Hx He Hf Hrowl Hok) in Hel as (-> & Hel).
    split; [reflexivity|].
    intros elements' Hin. apply in_app_or in Hin as [Hin|[<-|[]]].
    + now apply Hrows.
    + exact Hel.
  - split; [reflexivity|]. intros elements [].
Qed.

(** The flags are scanned once each when the group enumerates each of
    its elements once. *)
Lemma scan_NoDup :
  NoDup (enumerateElements (symmetries this)) -> NoDup (scan this).
Proof.
  unfold scan.
  induction (enumerateElements (symmetries this)) as [|d ds IH];
    intros Hnd; simpl; [constructor|].
  apply NoDup_cons_iff in Hnd as [Hd Hds].
  apply NoDup_app.
  - apply Finite.Injective_map_NoDup; [|apply seq_NoDup].
    intros j j' Hj. now injection Hj.
  - now apply IH.
  - intros f Hf Hin.
    apply in_map_iff in Hf as (j & <- & _).
    apply in_flat_map in Hin as (d' & Hd' & Hin).
    apply in_map_iff in Hin as (j' & Hj' & _).
    injection Hj' as _ ->. contradiction.
Qed.

(** The conversion as a whole. *)
Lemma toPolytopeC_rows_NoDup applyMatrix (st st' : Store T) P :
  NoDup (enumerateElements (symmetries this)) ->
  toPolytopeC this applyMatrix st = Done (P, st') ->
  forall points higher, elementList P = Levels points higher ->
  forall elements, In elements higher ->
  forall row, In row elements -> NoDup row.
Proof.
  intros Henum H. pose proof (scan_NoDup Henum) as Hnodup.
  unfold toPolytopeC in H.
  apply bind_Done in H as (u & st1 & Hid & H).
  apply buildIdentity_inv in Hid.
  apply bind_Done in H as (asc & st2 & Hasc & H).
  apply buildAscending_inv in Hasc as (Hlen2 & Hasc); [|assumption].
  apply bind_Done in H as (desc & st3 & Hdesc & H).
  apply buildDescending_inv in Hdesc.
  assert (Hasc3 : Forall (fun r => r < length (maps st2)) asc)
    by assumption.
  apply bind_Done in H as (els' & st4 & Hels & H).
  apply (buildElementSimplifiers_inv _ _ _ _ _ (length (maps st2)))
    in Hels as (els & -> & Helslen & Hn4 & Hfacts);
    [|assumption|assumption].
  apply bind_Done in H as (ints' & st5 & Hints & H).
  apply (buildIntersectionSimplifiers_inv _ _ _ _ _
           (length (maps st2)) els)
    in Hints as (ints & -> & Hintslen & Hfacts5 & Hifacts);
    [|assumption|assumption|assumption|assumption].
  pose proof (representative_inclusion _ _ _ _ _
                Helslen Hintslen Hfacts5 Hifacts) as Hincl.
  apply bind_Done in H as (pts & st6 & Hpts & H).
  apply buildVertices_inv in Hpts as ->.
  apply bind_Done in H as ([locs lens] & st6 & Hlocs & H).
  apply (buildLocations_inv _ _ _ _ _ Hnodup) in Hlocs as (-> & Hlocs).
  apply bind_Done in H as (higher & st6 & Hhigher & H).
  apply lift_inv in H as (-> & Hnew).
  apply newPolytopeC_dimensions in Hnew as [_ Hels].
  apply (buildHigher_inv _ _ _ _ _ _ _ Hnodup) in Hhigher as (_ & Hrows).
  - intros points higher' HP. rewrite Hels in HP.
    injection HP as _ <-. exact Hrows.
  - intros i Hi.
    destruct (Hincl i Hi) as (x & e & Hx & He & Hfiner).
    destruct (Hlocs (i - 1) e ltac:(lia) He) as (rowl & Hrowl & Hok).
    exists x, e, rowl. auto.
Qed.

End ConversionFacts.

(** C4.  In the explicit polytope produced by [toPolytopeC], for a group
    whose comparator identifies equal elements only and which enumerates
    each element once, no boundary index occurs twice in the list of an
    element of any rank from 1 up: each flag that represents a class of
    an intersection simplifier also represents a class of the element
    simplifier of the lower rank, so two flags never append the same
    index. *)
Theorem toPolytopeC_no_duplicate_boundary {T} (this : PolytopeS T)
    (applyMatrix : Point -> T -> Point) (st st' : Store T)
    (P : PolytopeC (option nat))
    (Hcompare : forall x y : T,
        compare (symmetries this) x y = Eq <-> x = y)
    (Henumerate : NoDup (enumerateElements (symmetries this)))
    (Hrun : toPolytopeC this applyMatrix st = Done (P, st')) :
  forall points higher, elementList P = Levels points higher ->
  forall d elements, nth_error higher d = Some elements ->
  forall row, In row elements -> NoDup row.
Proof.
  intros points higher HP d elements Hd row Hrow.
  eapply (toPolytopeC_rows_NoDup this Hcompare applyMatrix st st' P);
    try eassumption.
  eapply nth_error_In. eassumption.
Qed.

Lemma lexCompare_eq (m n : Mat) : lexCompare m n = Eq <-> m = n.
Proof.
  destruct m as [[[a b] c] d], n as [[[e f] g] h]. unfold lexCompare.
  split.
  - destruct (a ?= e)%Z eqn:Ea; try discriminate.
    destruct (b ?= f)%Z eqn:Eb; try discriminate.
    destruct (c ?= g)%Z eqn:Ec; try discriminate.
    intros Ed.
    apply Z.compare_eq in Ea, Eb, Ec, Ed. now subst.
  - intros [= -> -> -> ->]. now rewrite !Z.compare_refl.
Qed.

Lemma squareGroup_compare_eq (x y : Mat) :
  compare (symmetries square) x y = Eq <-> x = y.
Proof.
  simpl. rewrite lexCompare_eq. split; congruence.
Qed.

Lemma squareGroup_enumerates_once :
  NoDup (enumerateElements (symmetries square)).
Proof.
  simpl. repeat constructor; simpl; intuition discriminate.
Qed.

Lemma toPolytopeC_no_duplicate_boundary_witness :
  exists P st',
    toPolytopeC square applyMat emptyStore = Done (P, st') /\
    forall points higher, elementList P = Levels points higher ->
    forall d elements, nth_error higher d = Some elements ->
    forall row, In row elements -> NoDup row.
Proof.
  do 2 eexists. split; [vm_compute; reflexivity|].
  eapply (toPolytopeC_no_duplicate_boundary square applyMat emptyStore _ _
            squareGroup_compare_eq squareGroup_enumerates_once).
  vm_compute. reflexivity.
Defined.

(** * Further properties *)

(** ** More on running monadic code *)

Lemma bind_getS {S B} (k : S -> M S B) s : bind getS k s = k s s.
Proof. reflexivity. Qed.

Lemma bind_defined_Some {S A B} (a : A) (k : A -> M S B) s :
  bind (defined (Some a)) k s = k a s.
Proof. reflexivity. Qed.

Lemma bind_assoc {S A B C} (m : M S A) (f : A -> M S B) (k : B -> M S C) s :
  bind (bind m f) k s = bind m (fun a => bind (f a) k) s.
Proof. unfold bind. destruct (m s) as [[a s']| |]; reflexivity. Qed.

(** *** Loops that always return *)

Lemma foldM_total {S A B} (Inv : list A -> B -> S -> Prop)
    (body : B -> A -> M S B) (full : list A) :
  (forall done a rest b s,
     full = done ++ a :: rest -> Inv done b s ->
     exists b' s', body b a s = Done (b', s') /\ Inv (done ++ [a]) b' s') ->
  forall l done b s,
    full = done ++ l -> Inv done b s ->
    exists b' s', foldM l b body s = Done (b', s') /\ Inv full b' s'.
Proof.
  intros Hstep. induction l as [|a l IH]; intros done b s Hfull Hinv.
  - exists b, s. split; [reflexivity|]. now rewrite Hfull, app_nil_r.
  - destruct (Hstep done a l b s Hfull Hinv) as (b1 & s1 & Hrun & Hinv1).
    destruct (IH (done ++ [a]) b1 s1) as (b2 & s2 & Hrun2 & Hinv2).
    + now rewrite <- app_assoc.
    + exact Hinv1.
    + exists b2, s2. cbn [foldM]. rewrite (bind_run Hrun). auto.
Qed.

Lemma forEach_total {S A} (Inv : list A -> S -> Prop)
    (body : A -> M S unit) (full : list A) :
  (forall done a rest s,
     full = done ++ a :: rest -> Inv done s ->
     exists s', body a s = Done (tt, s') /\ Inv (done ++ [a]) s') ->
  forall l done s,
    full = done ++ l -> Inv done s ->
    exists s', forEach l body s = Done (tt, s') /\ Inv full s'.
Proof.
  intros Hstep. induction l as [|a l IH]; intros done s Hfull Hinv.
  - exists s. split; [reflexivity|]. now rewrite Hfull, app_nil_r.
  - destruct (Hstep done a l s Hfull Hinv) as (s1 & Hrun & Hinv1).
    destruct (IH (done ++ [a]) s1) as (s2 & Hrun2 & Hinv2).
    + now rewrite <- app_assoc.
    + exact Hinv1.
    + exists s2. cbn [forEach]. rewrite (bind_run Hrun). auto.
Qed.

(** ** Walking a ring of nodes *)

Lemma slot_eqb_eq a b : slot_eqb a b = true <-> a = Some b.
Proof.
  destruct a as [x|]; simpl.
  - rewrite index_eqb_eq. split; [intros ->; reflexivity | congruence].
  - split; discriminate.
Qed.

Lemma length_storeNode_present nodes i n m :
  lookupNode nodes i = Some n -> length (storeNode nodes i m) = length nodes.
Proof.
  induction nodes as [|[k x] nodes IH]; simpl; [discriminate|].
  destruct (index_eqb k i); simpl; [reflexivity|].
  intros H. now rewrite IH.
Qed.

Lemma lookupNode_In nodes i n :
  lookupNode nodes i = Some n -> In i (map fst nodes).
Proof.
  induction nodes as [|[k x] nodes IH]; simpl; [discriminate|].
  destruct (index_eqb k i) eqn:E.
  - apply index_eqb_eq in E. now left.
  - intros H. right. now apply IH.
Qed.

Lemma ring_fits nodes (l : list index) :
  NoDup l -> (forall x, In x l -> lookupNode nodes x <> None) ->
  length l <= length nodes.
Proof.
  intros Hnd Hin. rewrite <- (length_map fst nodes).
  apply NoDup_incl_length; [exact Hnd|].
  intros x Hx. specialize (Hin x Hx).
  destruct (lookupNode nodes x) as [n|] eqn:E; [|contradiction].
  exact (lookupNode_In _ _ _ E).
Qed.

Lemma visitedState_refl N0 : visitedState N0 [] N0.
Proof.
  split; [reflexivity|]. intros j. now destruct (lookupNode N0 j).
Qed.

Lemma visitedState_ext N0 V V' N :
  (forall j, In j V <-> In j V') ->
  visitedState N0 V N -> visitedState N0 V' N.
Proof.
  intros Hext [Hlen H]. split; [exact Hlen|].
  intros j. rewrite H. destruct (lookupNode N0 j) as [n|]; [|reflexivity].
  destruct (in_dec index_eq_dec j V) as [i|i],
           (in_dec index_eq_dec j V') as [i'|i']; try reflexivity.
  - apply Hext in i. contradiction.
  - apply Hext in i'. contradiction.
Qed.

Lemma markTraversed_visited N0 V N i n :
  visitedState N0 V N -> lookupNode N0 i = Some n ->
  exists N1, markTraversed i N = Done (tt, N1) /\
             visitedState N0 (i :: V) N1.
Proof.
  intros [Hlen H] Hi.
  unfold markTraversed, bind, getS, defined, putS, ret.
  pose proof (H i) as Hi'. rewrite Hi in Hi'. rewrite Hi'.
  eexists. split; [reflexivity|]. split.
  - rewrite (length_storeNode_present _ _ _ _ Hi'). exact Hlen.
  - intros j. destruct (index_eq_dec i j) as [<-|Hij].
    + rewrite lookupNode_storeNode_same, Hi.
      destruct (in_dec index_eq_dec i (i :: V)) as [_|n0];
        [|exfalso; apply n0; now left].
      destruct (in_dec index_eq_dec i V); reflexivity.
    + rewrite lookupNode_storeNode_other by assumption. rewrite H.
      destruct (lookupNode N0 j) as [m|]; [|reflexivity].
      destruct (in_dec index_eq_dec j V) as [i0|i0],
               (in_dec index_eq_dec j (i :: V)) as [i1|i1]; try reflexivity.
      * exfalso. apply i1. now right.
      * destruct i1 as [E|E]; [congruence | contradiction].
Qed.

Lemma readNode_visited N0 V N j n :
  visitedState N0 V N -> lookupNode N0 j = Some n ->
  readNode (Some j) N
  = Done (if in_dec index_eq_dec j V then marked n else n, N).
Proof.
  intros [_ H] Hj. unfold readNode, bind, defined, getS, ret.
  now rewrite H, Hj.
Qed.

Lemma linkedBetween_inv N0 before cur after :
  linkedBetween N0 before cur after = true ->
  exists n, lookupNode N0 cur = Some n /\ traversed n = false /\
    ((node0 n = Some after /\ node1 n = Some before) \/
     (node0 n = Some before /\ node1 n = Some after)).
Proof.
  unfold linkedBetween. destruct (lookupNode N0 cur) as [n|]; [|discriminate].
  intros H. apply andb_true_iff in H as [Ht H].
  exists n. split; [reflexivity|]. split; [now apply negb_true_iff|].
  apply orb_true_iff in H as [H|H]; apply andb_true_iff in H as [H0 H1];
    apply slot_eqb_eq in H0, H1; auto.
Qed.

Lemma cycleLoop_traversed fuel node cyc N n :
  readNode node N = Done (n, N) -> traversed n = true ->
  cycleLoop fuel node cyc N = Done (cyc, N).
Proof.
  intros Hr Ht. destruct fuel; cbn [cycleLoop]; unfold bind at 1;
    rewrite Hr, Ht; reflexivity.
Qed.

Lemma cycleLoop_step fuel node cyc N n i N1 :
  readNode node N = Done (n, N) -> traversed n = false ->
  node = Some i -> markTraversed i N = Done (tt, N1) ->
  cycleLoop (S fuel) node cyc N
  = bind (readNode (node1 n)) (fun next =>
      if traversed next then cycleLoop fuel (node0 n) (cyc ++ [value n])
      else cycleLoop fuel (node1 n) (cyc ++ [value n])) N1.
Proof.
  intros Hr Ht -> Hm. cbn [cycleLoop]. unfold bind at 1. rewrite Hr, Ht.
  unfold defined at 1. rewrite bind_ret.
  unfold bind at 1. rewrite Hm. reflexivity.
Qed.

Lemma cycleLoop_ring N0 first : forall post before cur V N fuel cyc,
  linkedFrom N0 first before (cur :: post) = true ->
  NoDup (cur :: post) ->
  (forall x, In x (cur :: post) -> ~ In x V) ->
  In before V -> In first V ->
  (forall x, In x V -> lookupNode N0 x <> None) ->
  visitedState N0 V N -> length post < fuel ->
  exists N', cycleLoop fuel (Some cur) cyc N
             = Done (cyc ++ valuesOf N0 (cur :: post), N') /\
             visitedState N0 (rev (cur :: post) ++ V) N'.
Proof.
  induction post as [|x post IH];
    intros before cur V N fuel cyc Hl Hnd Hfresh Hb Hf Hex Hst Hfuel.
  - cbn [linkedFrom] in Hl. apply andb_true_iff in Hl as [Hl _].
    destruct (linkedBetween_inv _ _ _ _ Hl) as (n & Hn & Ht & Hs).
    cbn [hd] in Hs.
    destruct fuel as [|fuel]; [simpl in Hfuel; lia|].
    pose proof (readNode_visited _ _ _ _ _ Hst Hn) as Hr.
    destruct (in_dec index_eq_dec cur V) as [i|_];
      [exfalso; apply (Hfresh cur); [now left | exact i]|].
    destruct (markTraversed_visited _ _ _ _ _ Hst Hn) as (N1 & Hm & Hst1).
    rewrite (cycleLoop_step _ _ _ _ _ _ _ Hr Ht eq_refl Hm).
    assert (Hseen : forall y, In y V -> exists m,
              readNode (Some y) N1 = Done (m, N1) /\ traversed m = true).
    { intros y Hy. specialize (Hex y Hy).
      destruct (lookupNode N0 y) as [m|] eqn:Em; [|contradiction].
      eexists. split; [exact (readNode_visited _ _ _ _ _ Hst1 Em)|].
      destruct (in_dec index_eq_dec y (cur :: V)) as [_|c]; [reflexivity|].
      exfalso. apply c. now right. }
    exists N1. split.
    + destruct (Hseen _ Hb) as (mb & Rb & Tb).
      destruct (Hseen _ Hf) as (mf & Rf & Tf).
      unfold valuesOf. cbn [map]. rewrite Hn.
      destruct Hs as [[H0 H1]|[H0 H1]]; rewrite H0, H1.
      * unfold bind at 1. rewrite Rb, Tb.
        exact (cycleLoop_traversed _ _ _ _ _ Rf Tf).
      * unfold bind at 1. rewrite Rf, Tf.
        exact (cycleLoop_traversed _ _ _ _ _ Rb Tb).
    + exact Hst1.
  - cbn [linkedFrom] in Hl. apply andb_true_iff in Hl as [Hl Hrest].
    destruct (linkedBetween_inv _ _ _ _ Hl) as (n & Hn & Ht & Hs).
    cbn [hd] in Hs.
    destruct fuel as [|fuel]; [simpl in Hfuel; lia|].
    pose proof (readNode_visited _ _ _ _ _ Hst Hn) as Hr.
    destruct (in_dec index_eq_dec cur V) as [i|_];
      [exfalso; apply (Hfresh cur); [now left | exact i]|].
    destruct (markTraversed_visited _ _ _ _ _ Hst Hn) as (N1 & Hm & Hst1).
    rewrite (cycleLoop_step _ _ _ _ _ _ _ Hr Ht eq_refl Hm).
    pose proof Hrest as Hrest'.
    cbn [linkedFrom] in Hrest'. apply andb_true_iff in Hrest' as [Hx _].
    destruct (linkedBetween_inv _ _ _ _ Hx) as (nx & Hnx & Htx & _).
    inversion Hnd as [|? ? Hcur Hnd']; subst.
    assert (Hxfresh : ~ In x (cur :: V)).
    { intros [E|E]; [subst; apply Hcur; now left|].
      apply (Hfresh x); [right; now left | exact E]. }
    pose proof (readNode_visited _ _ _ _ _ Hst1 Hnx) as Rx.
    destruct (in_dec index_eq_dec x (cur :: V)) as [i|_]; [contradiction|].
    assert (Hseen : forall y, In y V -> exists m,
              readNode (Some y) N1 = Done (m, N1) /\ traversed m = true).
    { intros y Hy. specialize (Hex y Hy).
      destruct (lookupNode N0 y) as [m|] eqn:Em; [|contradiction].
      eexists. split; [exact (readNode_visited _ _ _ _ _ Hst1 Em)|].
      destruct (in_dec index_eq_dec y (cur :: V)) as [_|c]; [reflexivity|].
      exfalso. apply c. now right. }
    destruct (IH cur x (cur :: V) N1 fuel (cyc ++ [value n]))
      as (N' & Hrun & Hst'); auto.
    + intros y Hy [E|E].
      * subst y. apply Hcur. exact Hy.
      * apply (Hfresh y); [now right | exact E].
    + now left.
    + now right.
    + intros y [E|E]; [subst; now rewrite Hn | now apply Hex].
    + simpl in Hfuel. lia.
    + exists N'. split.
      * assert (Hgoal : cycleLoop fuel (Some x) (cyc ++ [value n]) N1
                        = Done (cyc ++ valuesOf N0 (cur :: x :: post), N')).
        { rewrite Hrun. unfold valuesOf. cbn [map]. rewrite Hn, Hnx.
          now rewrite <- app_assoc. }
        destruct (Hseen _ Hb) as (mb & Rb & Tb).
        destruct Hs as [[H0 H1]|[H0 H1]]; rewrite H0, H1.
        -- unfold bind at 1. rewrite Rb, Tb. exact Hgoal.
        -- unfold bind at 1. rewrite Rx, Htx. exact Hgoal.
      * cbn [rev] in Hst' |- *. rewrite <- app_assoc. exact Hst'.
Qed.

Lemma linkedFrom_present N0 first : forall l before,
  linkedFrom N0 first before l = true ->
  forall x, In x l -> lookupNode N0 x <> None.
Proof.
  induction l as [|c l IH]; intros before H x Hx; [contradiction|].
  cbn [linkedFrom] in H. apply andb_true_iff in H as [Hc Hl].
  destruct Hx as [<-|Hx].
  - destruct (linkedBetween_inv _ _ _ _ Hc) as (n & Hn & _). now rewrite Hn.
  - exact (IH _ Hl x Hx).
Qed.

Lemma getCycle_run nodes first rest :
  NoDup (first :: rest) -> linkedRing nodes first rest = true ->
  exists nodes',
    getCycle first nodes = Done (valuesOf nodes (first :: rest), nodes') /\
    visitedState nodes (first :: rest) nodes'.
Proof.
  intros Hnd Hring. unfold linkedRing in Hring.
  destruct (lookupNode nodes first) as [n|] eqn:Hn; [|discriminate].
  apply andb_true_iff in Hring as [Hring Hl].
  apply andb_true_iff in Hring as [Ht H0].
  apply negb_true_iff in Ht. apply slot_eqb_eq in H0.
  pose proof (readNode_visited _ _ _ _ _ (visitedState_refl nodes) Hn) as Hr.
  cbn [in_dec] in Hr.
  destruct (markTraversed_visited _ _ _ _ _ (visitedState_refl nodes) Hn)
    as (N1 & Hm & Hst1).
  unfold getCycle. rewrite (bind_run Hr), (bind_run Hm).
  rewrite bind_getS, H0.
  destruct rest as [|x post].
  - exists N1. split; [|exact Hst1].
    unfold valuesOf. cbn [map hd]. rewrite Hn.
    eapply cycleLoop_traversed.
    + exact (readNode_visited _ _ _ _ _ Hst1 Hn).
    + destruct (in_dec index_eq_dec first [first]) as [_|c]; [reflexivity|].
      exfalso. apply c. now left.
  - inversion Hnd as [|? ? Hfirst Hnd']; subst.
    destruct (cycleLoop_ring nodes first post first x [first] N1
                (length N1) [value n]) as (N' & Hrun & Hst'); auto.
    + intros y Hy [E|[]]. subst y. contradiction.
    + now left.
    + now left.
    + intros y [E|[]]. subst y. now rewrite Hn.
    + destruct Hst1 as [Hlen _]. rewrite Hlen.
      assert (Hfit : length (first :: x :: post) <= length nodes).
      { apply ring_fits; [exact Hnd|].
        intros y [E|Hy]; [subst y; now rewrite Hn|].
        exact (linkedFrom_present _ _ _ _ Hl y Hy). }
      simpl in Hfit. lia.
    + exists N'. split.
      * cbn [hd]. rewrite Hrun. unfold valuesOf. cbn [map]. now rewrite Hn.
      * apply (visitedState_ext _ (rev (x :: post) ++ [first])); [|exact Hst'].
        intros j. rewrite in_app_iff, <- in_rev. simpl. tauto.
Qed.

Lemma nextIs_inv N0 cur after :
  nextIs N0 cur after = true ->
  exists n, lookupNode N0 cur = Some n /\ traversed n = false /\
            node0 n = Some after.
Proof.
  unfold nextIs. destruct (lookupNode N0 cur) as [n|]; [|discriminate].
  intros H. apply andb_true_iff in H as [Ht H0].
  exists n. split; [reflexivity|]. split; [now apply negb_true_iff|].
  now apply slot_eqb_eq.
Qed.

Lemma orderedLoop_traversed fuel node cyc N n :
  readNode node N = Done (n, N) -> traversed n = true ->
  orderedLoop fuel node cyc N = Done (cyc, N).
Proof.
  intros Hr Ht. destruct fuel; cbn [orderedLoop]; unfold bind at 1;
    rewrite Hr, Ht; reflexivity.
Qed.

Lemma orderedLoop_step fuel node cyc N n i N1 :
  readNode node N = Done (n, N) -> traversed n = false ->
  node = Some i -> markTraversed i N = Done (tt, N1) ->
  orderedLoop (S fuel) node cyc N
  = orderedLoop fuel (node0 n) (cyc ++ [value n]) N1.
Proof.
  intros Hr Ht -> Hm. cbn [orderedLoop]. unfold bind at 1. rewrite Hr, Ht.
  unfold defined at 1. rewrite bind_ret.
  unfold bind at 1. rewrite Hm. reflexivity.
Qed.

Lemma orderedLoop_ring N0 first : forall post cur V N fuel cyc,
  orderedFrom N0 first (cur :: post) = true ->
  NoDup (cur :: post) ->
  (forall x, In x (cur :: post) -> ~ In x V) ->
  In first V ->
  (forall x, In x V -> lookupNode N0 x <> None) ->
  visitedState N0 V N -> length post < fuel ->
  exists N', orderedLoop fuel (Some cur) cyc N
             = Done (cyc ++ valuesOf N0 (cur :: post), N') /\
             visitedState N0 (rev (cur :: post) ++ V) N'.
Proof.
  induction post as [|x post IH];
    intros cur V N fuel cyc Hl Hnd Hfresh Hf Hex Hst Hfuel;
    cbn [orderedFrom] in Hl; apply andb_true_iff in Hl as [Hl Hrest];
    destruct (nextIs_inv _ _ _ Hl) as (n & Hn & Ht & H0);
    cbn [hd] in H0;
    (destruct fuel as [|fuel]; [simpl in Hfuel; lia|]);
    pose proof (readNode_visited _ _ _ _ _ Hst Hn) as Hr;
    (destruct (in_dec index_eq_dec cur V) as [i|_];
      [exfalso; apply (Hfresh cur); [now left | exact i]|]);
    destruct (markTraversed_visited _ _ _ _ _ Hst Hn) as (N1 & Hm & Hst1);
    rewrite (orderedLoop_step _ _ _ _ _ _ _ Hr Ht eq_refl Hm), H0.
  - exists N1. split; [|exact Hst1].
    unfold valuesOf. cbn [map]. rewrite Hn.
    specialize (Hex first Hf).
    destruct (lookupNode N0 first) as [m|] eqn:Em; [|contradiction].
    eapply orderedLoop_traversed.
    + exact (readNode_visited _ _ _ _ _ Hst1 Em).
    + destruct (in_dec index_eq_dec first (cur :: V)) as [_|c];
        [reflexivity|].
      exfalso. apply c. now right.
  - inversion Hnd as [|? ? Hcur Hnd']; subst.
    destruct (IH x (cur :: V) N1 fuel (cyc ++ [value n]))
      as (N' & Hrun & Hst'); auto.
    + intros y Hy [E|E].
      * subst y. apply Hcur. exact Hy.
      * apply (Hfresh y); [now right | exact E].
    + now right.
    + intros y [E|E]; [subst; now rewrite Hn | now apply Hex].
    + simpl in Hfuel. lia.
    + exists N'. split.
      * rewrite Hrun. unfold valuesOf. cbn [map]. rewrite Hn.
        now rewrite <- app_assoc.
      * cbn [rev] in Hst' |- *. rewrite <- app_assoc. exact Hst'.
Qed.

Lemma orderedFrom_present N0 first : forall l,
  orderedFrom N0 first l = true ->
  forall x, In x l -> lookupNode N0 x <> None.
Proof.
  induction l as [|c l IH]; intros H x Hx; [contradiction|].
  cbn [orderedFrom] in H. apply andb_true_iff in H as [Hc Hl].
  destruct Hx as [<-|Hx].
  - destruct (nextIs_inv _ _ _ Hc) as (n & Hn & _). now rewrite Hn.
  - exact (IH Hl x Hx).
Qed.

(** X1.  On a ring of distinct nodes that are not traversed and hold the
    next node in their first slot, [getOrderedCycle] returns the values of
    the nodes in the order of the ring, the receiver first, and leaves
    exactly the nodes of the ring marked as traversed. *)
Theorem getOrderedCycle_ring nodes first rest
    (Hdistinct : NoDup (first :: rest))
    (Hring : orderedRing nodes first rest = true) :
  exists nodes',
    getOrderedCycle first nodes
    = Done (valuesOf nodes (first :: rest), nodes') /\
    visitedState nodes (first :: rest) nodes'.
Proof.
  rename Hdistinct into Hnd. unfold orderedRing in Hring.
  pose proof (orderedFrom_present _ _ _ Hring) as Hpresent.
  cbn [orderedFrom] in Hring. apply andb_true_iff in Hring as [Hfirst Hl].
  destruct (nextIs_inv _ _ _ Hfirst) as (n & Hn & Ht & H0).
  pose proof (readNode_visited _ _ _ _ _ (visitedState_refl nodes) Hn) as Hr.
  cbn [in_dec] in Hr.
  destruct (markTraversed_visited _ _ _ _ _ (visitedState_refl nodes) Hn)
    as (N1 & Hm & Hst1).
  unfold getOrderedCycle. rewrite (bind_run Hr), (bind_run Hm).
  rewrite bind_getS, H0.
  destruct rest as [|x post].
  - exists N1. split; [|exact Hst1].
    unfold valuesOf. cbn [map hd]. rewrite Hn.
    eapply orderedLoop_traversed.
    + exact (readNode_visited _ _ _ _ _ Hst1 Hn).
    + destruct (in_dec index_eq_dec first [first]) as [_|c]; [reflexivity|].
      exfalso. apply c. now left.
  - inversion Hnd as [|? ? Hfirst' Hnd']; subst.
    destruct (orderedLoop_ring nodes first post x [first] N1
                (length N1) [value n]) as (N' & Hrun & Hst'); auto.
    + intros y Hy [E|[]]. subst y. contradiction.
    + now left.
    + intros y [E|[]]. subst y. now rewrite Hn.
    + destruct Hst1 as [Hlen _]. rewrite Hlen.
      pose proof (ring_fits nodes _ Hnd Hpresent) as Hfit.
      simpl in Hfit. lia.
    + exists N'. split.
      * cbn [hd]. rewrite Hrun. unfold valuesOf. cbn [map]. now rewrite Hn.
      * apply (visitedState_ext _ (rev (x :: post) ++ [first])); [|exact Hst'].
        intros j. rewrite in_app_iff, <- in_rev. simpl. tauto.
Qed.

Lemma getOrderedCycle_ring_witness :
  exists nodes',
    getOrderedCycle (Some 0) orderedTriple
    = Done (valuesOf orderedTriple [Some 0; Some 1; Some 2], nodes') /\
    visitedState orderedTriple [Some 0; Some 1; Some 2] nodes'.
Proof.
  apply (getOrderedCycle_ring orderedTriple (Some 0) [Some 1; Some 2]).
  - repeat constructor; simpl; intuition discriminate.
  - reflexivity.
Defined.

(** ** The nodes of a polygonal face *)

Lemma ensureNode_slots i nodes f :
  slotsFilled nodes f ->
  exists nodes',
    ensureNode i nodes = Done (tt, nodes') /\
    slotsFilled nodes' f /\ lookupNode nodes' i <> None /\
    (forall j, lookupNode nodes j <> None -> lookupNode nodes' j <> None).
Proof.
  intros Hinv. unfold ensureNode. rewrite bind_getS.
  destruct (lookupNode nodes i) as [n|] eqn:E.
  - exists nodes. repeat split; auto. now rewrite E.
  - eexists. split; [reflexivity|]. split; [|split].
    + intros v. destruct (index_eq_dec i v) as [<-|Hiv].
      * rewrite lookupNode_storeNode_same. cbn.
        pose proof (Hinv i) as Hi. rewrite E in Hi. rewrite Hi.
        repeat split.
      * rewrite lookupNode_storeNode_other by assumption. apply Hinv.
    + now rewrite lookupNode_storeNode_same.
    + intros j Hj. destruct (index_eq_dec i j) as [<-|Hij].
      * now rewrite lookupNode_storeNode_same.
      * now rewrite lookupNode_storeNode_other.
Qed.

Lemma fillSlot_slots i target nodes f :
  slotsFilled nodes f -> lookupNode nodes i <> None ->
  length (f i) <= 1 ->
  exists nodes',
    fillSlot i target nodes = Done (tt, nodes') /\
    slotsFilled nodes'
      (fun v => f v ++ (if index_eqb i v then [target] else [])) /\
    (forall j, lookupNode nodes j <> None -> lookupNode nodes' j <> None).
Proof.
  intros Hinv Hi Hlen. unfold fillSlot. rewrite bind_getS.
  destruct (lookupNode nodes i) as [n|] eqn:E; [|contradiction].
  unfold defined at 1. rewrite bind_ret.
  pose proof (Hinv i) as Hn. rewrite E in Hn.
  destruct Hn as (Hv & Ht & H0 & H1).
  assert (Hstore : forall n',
    value n' = i -> traversed n' = false ->
    node0 n' = nth_error (f i ++ [target]) 0 ->
    node1 n' = nth_error (f i ++ [target]) 1 ->
    slotsFilled (storeNode nodes i n')
      (fun v => f v ++ (if index_eqb i v then [target] else [])) /\
    (forall j, lookupNode nodes j <> None ->
               lookupNode (storeNode nodes i n') j <> None)).
  { intros n' Hv' Ht' H0' H1'. split.
    - intros v. destruct (index_eq_dec i v) as [<-|Hiv].
      + rewrite lookupNode_storeNode_same, index_eqb_refl. auto.
      + rewrite lookupNode_storeNode_other by assumption.
        rewrite index_eqb_neq by assumption. rewrite app_nil_r. apply Hinv.
    - intros j Hj. destruct (index_eq_dec i j) as [<-|Hij].
      + now rewrite lookupNode_storeNode_same.
      + now rewrite lookupNode_storeNode_other. }
  destruct (f i) as [|p [|q l]] eqn:Ef; [| |simpl in Hlen; lia].
  - cbn in H0, H1. rewrite H0. eexists. split; [reflexivity|].
    apply Hstore; cbn; auto.
  - cbn in H0, H1. rewrite H0, H1. eexists. split; [reflexivity|].
    apply Hstore; cbn; auto.
Qed.

Lemma slotsFilled_ext nodes f g :
  (forall v, f v = g v) -> slotsFilled nodes f -> slotsFilled nodes g.
Proof.
  intros Hfg H v. specialize (H v). now rewrite <- Hfg.
Qed.

Lemma partnerList_app v es es' :
  partnerList v (es ++ es') = partnerList v es ++ partnerList v es'.
Proof. apply flat_map_app. Qed.

Lemma linkEndpoints_slots e nodes done :
  slotsFilled nodes (fun v => partnerList v done) ->
  (forall v, length (partnerList v (done ++ [e])) <= 2) ->
  exists nodes',
    linkEndpoints e nodes = Done (tt, nodes') /\
    slotsFilled nodes' (fun v => partnerList v (done ++ [e])).
Proof.
  intros Hinv Hlen. unfold linkEndpoints, linkTo.
  set (a := nth_error e 0). set (b := nth_error e 1).
  assert (Hpl : forall v, partnerList v (done ++ [e])
            = (partnerList v done ++ (if index_eqb a v then [b] else []))
              ++ (if index_eqb b v then [a] else [])).
  { intros v. rewrite partnerList_app. unfold partnerList at 2.
    cbn [flat_map]. rewrite app_nil_r. fold a. fold b.
    now rewrite app_assoc. }
  destruct (ensureNode_slots a nodes _ Hinv) as (n1 & R1 & I1 & Ha1 & _).
  rewrite (bind_run R1).
  destruct (ensureNode_slots b n1 _ I1) as (n2 & R2 & I2 & Hb2 & K2).
  rewrite (bind_run R2).
  destruct (fillSlot_slots a b n2 _ I2 (K2 _ Ha1)) as (n3 & R3 & I3 & K3).
  { specialize (Hlen a). rewrite Hpl, !length_app, index_eqb_refl in Hlen.
    simpl in Hlen. lia. }
  rewrite (bind_run R3).
  destruct (fillSlot_slots b a n3 _ I3 (K3 _ Hb2)) as (n4 & R4 & I4 & _).
  { specialize (Hlen b). rewrite Hpl, !length_app, index_eqb_refl in Hlen.
    cbv beta. rewrite length_app.
    destruct (index_eqb a b); simpl in Hlen |- *; lia. }
  exists n4. split; [exact R4|].
  apply (slotsFilled_ext _ _ _ (fun v => eq_sym (Hpl v)) I4).
Qed.

Lemma forEach_linkEndpoints_slots : forall es done nodes,
  slotsFilled nodes (fun v => partnerList v done) ->
  (forall v, length (partnerList v (done ++ es)) <= 2) ->
  exists nodes',
    forEach es linkEndpoints nodes = Done (tt, nodes') /\
    slotsFilled nodes' (fun v => partnerList v (done ++ es)).
Proof.
  induction es as [|e es IH]; intros done nodes Hinv Hlen.
  - exists nodes. split; [reflexivity|]. now rewrite app_nil_r.
  - destruct (linkEndpoints_slots e nodes done Hinv) as (n1 & R1 & I1).
    { intros v. specialize (Hlen v).
      rewrite partnerList_app in Hlen.
      change (e :: es) with ([e] ++ es) in Hlen.
      rewrite partnerList_app, !length_app in Hlen.
      rewrite partnerList_app, length_app. lia. }
    cbn [forEach]. rewrite (bind_run R1).
    destruct (IH (done ++ [e]) n1 I1) as (n2 & R2 & I2).
    { intros v. rewrite <- app_assoc. apply Hlen. }
    exists n2. split; [exact R2|]. now rewrite <- app_assoc in I2.
Qed.

(** *** Rings as closed walks *)

Lemma cpairs_cons {A} (x y : A) l : cpairs (x :: y :: l) = (x, y) :: cpairs (y :: l).
Proof. reflexivity. Qed.

Lemma cpairs_app {A} (l1 : list A) x l2 :
  cpairs (l1 ++ x :: l2) = cpairs (l1 ++ [x]) ++ cpairs (x :: l2).
Proof.
  induction l1 as [|a l1 IH]; [reflexivity|].
  destruct l1 as [|b l1]; [reflexivity|].
  cbn [app] in *. rewrite !cpairs_cons, IH. reflexivity.
Qed.

Lemma combine_longer {A B} (l m : list A) : forall (l' : list B),
  length l' <= length l -> combine (l ++ m) l' = combine l l'.
Proof.
  induction l as [|a l IH]; intros [|b l'] H; simpl in *; try reflexivity;
    try lia.
  - now destruct m.
  - rewrite IH by lia. reflexivity.
Qed.

Lemma adjacentPairs_closed {A} (first : A) rest :
  adjacentPairs (first :: rest) = cpairs (first :: rest ++ [first]).
Proof.
  unfold adjacentPairs, cpairs. cbn [tl firstn].
  change (first :: rest ++ [first]) with ((first :: rest) ++ [first]).
  rewrite combine_longer; [reflexivity|].
  rewrite length_app. simpl. lia.
Qed.

Lemma adjacentPairs_rotate {A} (l1 : list A) s l2 :
  Permutation (adjacentPairs (l1 ++ s :: l2)) (adjacentPairs (s :: l2 ++ l1)).
Proof.
  destruct l1 as [|a l1]; [now rewrite app_nil_r|].
  cbn [app]. rewrite !adjacentPairs_closed.
  change (a :: (l1 ++ s :: l2) ++ [a])
    with ((a :: l1 ++ s :: l2) ++ [a]).
  replace ((a :: l1 ++ s :: l2) ++ [a])
    with ((a :: l1) ++ s :: (l2 ++ [a]))
    by (cbn [app]; now rewrite <- app_assoc).
  replace (s :: (l2 ++ a :: l1) ++ [s])
    with ((s :: l2) ++ a :: (l1 ++ [s]))
    by (cbn [app]; now rewrite <- app_assoc).
  rewrite (cpairs_app (a :: l1)), (cpairs_app (s :: l2)).
  apply Permutation_app_comm.
Qed.

Lemma cpairs_rev {A} (l : list A) :
  cpairs (rev l) = map swapPair (rev (cpairs l)).
Proof.
  induction l as [|x l IH]; [reflexivity|].
  destruct l as [|y l]; [reflexivity|].
  rewrite cpairs_cons. cbn [rev] in *.
  rewrite <- app_assoc. cbn [app].
  rewrite cpairs_app, IH, map_app. reflexivity.
Qed.

Lemma adjacentPairs_reflect {A} (s : A) l :
  adjacentPairs (s :: rev l) = map swapPair (rev (adjacentPairs (s :: l))).
Proof.
  rewrite !adjacentPairs_closed, <- cpairs_rev.
  f_equal. cbn [rev]. rewrite rev_app_distr. reflexivity.
Qed.

Lemma adjacentPairs_map {A B} (f : A -> B) (l : list A) :
  adjacentPairs (map f l) = map (fun p => (f (fst p), f (snd p))) (adjacentPairs l).
Proof.
  destruct l as [|a l]; [reflexivity|].
  cbn [map]. rewrite !adjacentPairs_closed.
  change (f a :: map f l ++ [f a]) with (f a :: map f l ++ map f [a]).
  rewrite <- map_app.
  change (f a :: map f (l ++ [a])) with (map f (a :: l ++ [a])).
  generalize (a :: l ++ [a]). intros w.
  induction w as [|x w IH]; [reflexivity|].
  destruct w as [|y w]; [reflexivity|].
  cbn [map] in *. rewrite !cpairs_cons. cbn [map]. now rewrite IH.
Qed.

(** *** The neighbours of a vertex on a ring *)

Lemma pairContrib_other v x y :
  x <> v -> y <> v -> pairContrib v (x, y) = [].
Proof.
  intros Hx Hy. unfold pairContrib. cbn [fst snd].
  apply Nat.eqb_neq in Hx, Hy. now rewrite Hx, Hy.
Qed.

Lemma pairContrib_none v : forall l,
  ~ In v l -> flat_map (pairContrib v) (cpairs l) = [].
Proof.
  induction l as [|x l IH]; intros Hv; [reflexivity|].
  destruct l as [|y l]; [reflexivity|].
  rewrite cpairs_cons. cbn [flat_map].
  rewrite pairContrib_other, IH; [reflexivity| | |].
  - intros H. apply Hv. now right.
  - intros ->. apply Hv. now left.
  - intros ->. apply Hv. right. now left.
Qed.

Lemma last_cons {A} (a : A) l d : last (a :: l) d = last l a.
Proof.
  revert a d. induction l as [|b l IH]; intros a d; [reflexivity|].
  change (last (a :: b :: l) d) with (last (b :: l) d).
  now rewrite !IH.
Qed.

Lemma pairContrib_end v : forall l a,
  ~ In v (a :: l) ->
  flat_map (pairContrib v) (cpairs ((a :: l) ++ [v])) = [last l a].
Proof.
  induction l as [|b l IH]; intros a Hv.
  - cbn. assert (a <> v) by (intros ->; apply Hv; now left).
    apply Nat.eqb_neq in H. rewrite H, Nat.eqb_refl. reflexivity.
  - cbn [app]. rewrite cpairs_cons. cbn [flat_map].
    rewrite pairContrib_other.
    + cbn [app]. rewrite (last_cons b l a). apply (IH b).
      intros H. apply Hv. now right.
    + intros ->. apply Hv. now left.
    + intros ->. apply Hv. right. now left.
Qed.

Lemma pairContrib_start v b m :
  ~ In v (b :: m) ->
  flat_map (pairContrib v) (cpairs (v :: b :: m)) = [b].
Proof.
  intros Hv. rewrite cpairs_cons. cbn [flat_map].
  rewrite (pairContrib_none v (b :: m) Hv), app_nil_r.
  unfold pairContrib. cbn [fst snd]. rewrite Nat.eqb_refl.
  assert (b <> v) by (intros ->; apply Hv; now left).
  apply Nat.eqb_neq in H. now rewrite H.
Qed.

Lemma ring_neighbours first pre cur post :
  NoDup (first :: pre ++ cur :: post) ->
  flat_map (pairContrib cur) (adjacentPairs (first :: pre ++ cur :: post))
  = [last pre first; hd first post].
Proof.
  intros Hnd. rewrite adjacentPairs_closed.
  replace (first :: (pre ++ cur :: post) ++ [first])
    with ((first :: pre) ++ cur :: (post ++ [first]))
    by (cbn [app]; now rewrite <- app_assoc).
  rewrite cpairs_app, flat_map_app.
  change (first :: pre ++ cur :: post)
    with ((first :: pre) ++ cur :: post) in Hnd.
  pose proof (NoDup_remove_2 _ _ _ Hnd) as Hcur.
  rewrite pairContrib_end.
  2:{ intros H. apply Hcur. apply in_or_app. now left. }
  assert (Hne : cur <> first).
  { intros ->. apply Hcur. now left. }
  destruct post as [|p post].
  - cbn [app hd]. rewrite pairContrib_start; [reflexivity|].
    intros [E|[]]. congruence.
  - cbn [app hd]. rewrite pairContrib_start; [reflexivity|].
    intros H. apply Hcur. apply in_or_app.
    change (In cur ((p :: post) ++ [first])) in H.
    apply in_app_or in H as [H|[E|[]]]; [now right | congruence].
Qed.

Lemma ring_first_neighbours first rest :
  NoDup (first :: rest) ->
  flat_map (pairContrib first) (adjacentPairs (first :: rest))
  = [hd first rest; last rest first].
Proof.
  intros Hnd. rewrite adjacentPairs_closed.
  inversion Hnd as [|? ? Hfirst _]; subst.
  destruct rest as [|b m].
  - cbn. rewrite Nat.eqb_refl. reflexivity.
  - cbn [app hd]. rewrite cpairs_cons. cbn [flat_map].
    change (b :: m ++ [first]) with ((b :: m) ++ [first]).
    rewrite pairContrib_end by assumption.
    unfold pairContrib. cbn [fst snd]. rewrite Nat.eqb_refl.
    assert (b <> first) by (intros ->; apply Hfirst; now left).
    apply Nat.eqb_neq in H. rewrite H. rewrite (last_cons b m first).
    reflexivity.
Qed.

Lemma ring_no_neighbours v ring :
  ~ In v ring -> flat_map (pairContrib v) (adjacentPairs ring) = [].
Proof.
  intros Hv. destruct ring as [|first rest]; [reflexivity|].
  rewrite adjacentPairs_closed. apply pairContrib_none.
  intros [E|H]; [apply Hv; now left|].
  apply in_app_or in H as [H|[E|[]]]; apply Hv; [now right | now left].
Qed.

(** *** The slots after the edges of a polygon are linked *)

Lemma partnerList_isEdge x e a b :
  isEdge e a b ->
  Permutation (partnerList x [e])
    match x with
    | Some v => map Some (pairContrib v (a, b))
    | None => []
    end.
Proof.
  unfold partnerList, pairContrib. cbn [flat_map fst snd].
  rewrite app_nil_r.
  intros [-> | ->]; cbn [nth_error]; destruct x as [v|]; cbn [index_eqb];
    try apply Permutation_refl.
  - rewrite map_app. destruct (a =? v), (b =? v); apply Permutation_refl.
  - rewrite map_app.
    destruct (a =? v), (b =? v); cbn; try apply Permutation_refl.
    apply perm_swap.
Qed.

Lemma partnerList_sides x : forall es ps,
  Forall2 (fun e p => isEdge e (fst p) (snd p)) es ps ->
  Permutation (partnerList x es)
    match x with
    | Some v => map Some (flat_map (pairContrib v) ps)
    | None => []
    end.
Proof.
  induction 1 as [|e [a b] es ps He _ IH].
  - destruct x; apply Permutation_refl.
  - change (e :: es) with ([e] ++ es). rewrite partnerList_app.
    pose proof (partnerList_isEdge x e a b He) as H1.
    destruct x as [v|].
    + cbn [flat_map]. rewrite map_app. now apply Permutation_app.
    + change (@nil index) with (@nil index ++ []). now apply Permutation_app.
Qed.

Lemma partnerList_polygon x ring es :
  polygonFace ring es ->
  Permutation (partnerList x es)
    match x with
    | Some v => map Some (flat_map (pairContrib v) (adjacentPairs ring))
    | None => []
    end.
Proof.
  intros (es' & Hperm & Hsides).
  eapply Permutation_trans; [|exact (partnerList_sides x es' _ Hsides)].
  unfold partnerList. now apply Permutation_flat_map.
Qed.

Lemma Forall2_Permutation {A B} (R : A -> B -> Prop) : forall ps ps',
  Permutation ps ps' ->
  forall l, Forall2 R l ps ->
  exists l', Permutation l l' /\ Forall2 R l' ps'.
Proof.
  induction 1 as [|p ps ps' _ IH|p q ps|ps ps' ps'' _ IH1 _ IH2]; intros l Hl.
  - exists l. split; [apply Permutation_refl | exact Hl].
  - inversion Hl as [|x ? l0 ? Hx Hl0]; subst.
    destruct (IH l0 Hl0) as (l' & Hp & Hf).
    exists (x :: l'). split; [now constructor | now constructor].
  - inversion Hl as [|x ? l0 ? Hx Hl0]; subst.
    inversion Hl0 as [|y ? l1 ? Hy Hl1]; subst.
    exists (y :: x :: l1). split; [apply perm_swap|].
    repeat constructor; assumption.
  - destruct (IH1 l Hl) as (l' & Hp & Hf).
    destruct (IH2 l' Hf) as (l'' & Hp' & Hf').
    exists l''. split; [eapply Permutation_trans; eassumption | exact Hf'].
Qed.

Lemma polygonFace_pairs ring ring' es :
  Permutation (adjacentPairs ring) (adjacentPairs ring') ->
  polygonFace ring es -> polygonFace ring' es.
Proof.
  intros Hperm (es' & Hp & Hf).
  destruct (Forall2_Permutation _ _ _ Hperm es' Hf) as (es'' & Hp' & Hf').
  exists es''. split; [eapply Permutation_trans; eassumption | exact Hf'].
Qed.

Lemma Forall2_reverse {A B} (R : A -> B -> Prop) l ps :
  Forall2 R l ps -> Forall2 R (rev l) (rev ps).
Proof.
  induction 1 as [|x p l ps Hx _ IH]; [constructor|].
  cbn [rev]. apply Forall2_app; [exact IH|]. now repeat constructor.
Qed.

Lemma polygonFace_reflect s l es :
  polygonFace (s :: l) es -> polygonFace (s :: rev l) es.
Proof.
  intros (es' & Hp & Hf). exists (rev es'). split.
  - eapply Permutation_trans; [exact Hp | apply Permutation_rev].
  - rewrite adjacentPairs_reflect.
    apply Forall2_reverse in Hf.
    revert Hf. generalize (rev es') (rev (adjacentPairs (s :: l))).
    induction 1 as [|e [a b] ? ? He _ IH]; constructor; [|exact IH].
    cbn in He |- *. destruct He as [-> | ->]; [now right | now left].
Qed.

Lemma adjacentPairs_In {A} (a b : A) ring :
  In (a, b) (adjacentPairs ring) -> In a ring /\ In b ring.
Proof.
  unfold adjacentPairs. intros H. split.
  - exact (in_combine_l _ _ _ _ H).
  - apply in_combine_r in H. apply in_app_or in H as [H|H].
    + destruct ring; [contradiction | now right].
    + destruct ring as [|x ring]; [contradiction|].
      destruct H as [<-|[]]. now left.
Qed.

Lemma ring_contrib_length v ring :
  NoDup ring ->
  length (flat_map (pairContrib v) (adjacentPairs ring)) <= 2.
Proof.
  intros Hnd. destruct (in_dec Nat.eq_dec v ring) as [Hin|Hout].
  - apply in_split in Hin as (l1 & l2 & ->).
    destruct l1 as [|first pre].
    + cbn [app] in *. now rewrite ring_first_neighbours.
    + cbn [app] in *. now rewrite ring_neighbours.
  - rewrite ring_no_neighbours by assumption. simpl. lia.
Qed.

Lemma polygon_slots_bound ring es :
  NoDup ring -> polygonFace ring es ->
  forall x, length (partnerList x es) <= 2.
Proof.
  intros Hnd Hpoly x.
  rewrite (Permutation_length (partnerList_polygon x ring es Hpoly)).
  destruct x as [v|]; [|simpl; lia].
  rewrite length_map. now apply ring_contrib_length.
Qed.

Lemma two_slots nodes es x a b :
  slotsFilled nodes (fun v => partnerList v es) ->
  Permutation (partnerList x es) [a; b] ->
  exists n, lookupNode nodes x = Some n /\ value n = x /\
    traversed n = false /\
    ((node0 n = Some a /\ node1 n = Some b) \/
     (node0 n = Some b /\ node1 n = Some a)).
Proof.
  intros Hinv Hperm. specialize (Hinv x). cbv beta in Hinv.
  destruct (lookupNode nodes x) as [n|].
  - destruct Hinv as (Hv & Ht & H0 & H1).
    exists n. repeat split; try assumption.
    apply Permutation_sym, Permutation_length_2_inv in Hperm.
    destruct Hperm as [E|E]; rewrite E in H0, H1; cbn in H0, H1; auto.
  - rewrite Hinv in Hperm. apply Permutation_nil in Hperm. discriminate.
Qed.

Lemma hd_map_Some first (l : list nat) :
  hd (Some first) (map Some l) = Some (hd first l).
Proof. now destruct l. Qed.

Lemma polygon_linkedFrom nodes es first rest :
  NoDup (first :: rest) -> polygonFace (first :: rest) es ->
  slotsFilled nodes (fun v => partnerList v es) ->
  forall post pre, rest = pre ++ post ->
    linkedFrom nodes (Some first) (Some (last pre first)) (map Some post)
    = true.
Proof.
  intros Hnd Hpoly Hinv.
  induction post as [|cur post IH]; intros pre Hrest; [reflexivity|].
  cbn [map linkedFrom]. apply andb_true_iff. split.
  - pose proof (partnerList_polygon (Some cur) _ _ Hpoly) as Hperm.
    cbv iota beta in Hperm. subst rest.
    rewrite (ring_neighbours first pre cur post Hnd) in Hperm.
    destruct (two_slots _ _ _ _ _ Hinv Hperm) as (n & Hn & _ & Ht & Hs).
    unfold linkedBetween. rewrite Hn, Ht, hd_map_Some. cbn [negb andb].
    apply orb_true_iff.
    destruct Hs as [[H0 H1]|[H0 H1]]; [right|left]; rewrite H0, H1;
      cbn [slot_eqb]; now rewrite !index_eqb_refl.
  - specialize (IH (pre ++ [cur])). rewrite last_last in IH.
    apply IH. rewrite <- app_assoc. exact Hrest.
Qed.

Lemma valuesOf_names nodes f : forall l,
  slotsFilled nodes f ->
  (forall x, In x l -> lookupNode nodes x <> None) ->
  valuesOf nodes l = l.
Proof.
  induction l as [|x l IH]; intros Hinv Hl; [reflexivity|].
  unfold valuesOf in *. cbn [map]. rewrite IH; auto.
  2:{ intros y Hy. apply Hl. now right. }
  specialize (Hinv x). specialize (Hl x (or_introl eq_refl)).
  destruct (lookupNode nodes x) as [n|]; [|contradiction].
  destruct Hinv as (-> & _). reflexivity.
Qed.

Lemma hd_rev {A} (l : list A) d : hd d (rev l) = last l d.
Proof.
  induction l as [|a l IH] using rev_ind; [reflexivity|].
  rewrite rev_app_distr, last_last. reflexivity.
Qed.

(** The walk of an aligned ring: the start is the first vertex and its
    first slot holds the second. *)
Lemma getCycle_polygon nodes es first rest n :
  NoDup (first :: rest) -> polygonFace (first :: rest) es ->
  slotsFilled nodes (fun v => partnerList v es) ->
  lookupNode nodes (Some first) = Some n ->
  node0 n = Some (Some (hd first rest)) ->
  exists nodes',
    getCycle (Some first) nodes = Done (map Some (first :: rest), nodes').
Proof.
  intros Hnd Hpoly Hinv Hn H0.
  assert (Hnd' : NoDup (Some first :: map Some rest)).
  { change (NoDup (map Some (first :: rest))).
    apply Finite.Injective_map_NoDup; [|exact Hnd].
    intros x y E. now injection E. }
  assert (Hring : linkedRing nodes (Some first) (map Some rest) = true).
  { unfold linkedRing. rewrite Hn.
    pose proof (Hinv (Some first)) as Hf. rewrite Hn in Hf.
    destruct Hf as (_ & Ht & _). rewrite Ht, H0, hd_map_Some.
    cbn [negb andb slot_eqb]. rewrite index_eqb_refl. cbn [andb].
    exact (polygon_linkedFrom nodes es first rest Hnd Hpoly Hinv rest []
             eq_refl). }
  destruct (getCycle_run nodes _ _ Hnd' Hring) as (nodes' & Hrun & _).
  exists nodes'. rewrite Hrun. f_equal. f_equal.
  apply (valuesOf_names nodes _ _ Hinv).
  intros x [<-|Hx]; [now rewrite Hn|].
  unfold linkedRing in Hring. rewrite Hn in Hring.
  apply andb_true_iff in Hring as [_ Hl].
  exact (linkedFrom_present _ _ _ _ Hl x Hx).
Qed.

Lemma Forall2_In_l {A B} (R : A -> B -> Prop) l ps x :
  Forall2 R l ps -> In x l -> exists p, In p ps /\ R x p.
Proof.
  induction 1 as [|y q l ps Hy _ IH]; intros Hx; [contradiction|].
  destruct Hx as [<-|Hx].
  - exists q. split; [now left | exact Hy].
  - destruct (IH Hx) as (p & Hp & Hr). exists p. split; [now right | exact Hr].
Qed.

Lemma Forall2_In_r {A B} (R : A -> B -> Prop) l ps p :
  Forall2 R l ps -> In p ps -> exists x, In x l /\ R x p.
Proof.
  induction 1 as [|y q l ps Hy _ IH]; intros Hp; [contradiction|].
  destruct Hp as [<-|Hp].
  - exists y. split; [now left | exact Hy].
  - destruct (IH Hp) as (x & Hx & Hr). exists x. split; [now right | exact Hr].
Qed.

Lemma slotsFilled_empty : slotsFilled [] (fun v => partnerList v []).
Proof. intros v. reflexivity. Qed.

Lemma cycleOfEdges_polygon es ring :
  NoDup ring -> ring <> [] -> polygonFace ring es ->
  exists ring',
    cycleOfEdges es = Done (map Some ring') /\
    Permutation ring' ring /\ polygonFace ring' es.
Proof.
  intros Hnd Hne Hpoly.
  destruct (forEach_linkEndpoints_slots es [] [] slotsFilled_empty
              (polygon_slots_bound ring es Hnd Hpoly))
    as (nodes & Hrun & Hinv).
  cbn [app] in Hinv.
  (* the first edge and its first end point *)
  assert (Hstart : exists e0 es1 s t,
            es = e0 :: es1 /\ nth_error e0 0 = Some s /\ In s ring /\
            isEdge e0 s t).
  { destruct Hpoly as (es' & Hperm & Hsides).
    destruct es as [|e0 es1].
    - apply Permutation_nil in Hperm. subst es'.
      destruct ring as [|f r]; [contradiction|].
      rewrite adjacentPairs_closed in Hsides.
      destruct r; cbn in Hsides; inversion Hsides.
    - assert (Hin : In e0 es') by (apply (Permutation_in _ Hperm); now left).
      destruct (Forall2_In_l _ _ _ _ Hsides Hin) as ([a b] & Hab & He).
      destruct (adjacentPairs_In _ _ _ Hab) as [Ha Hb].
      cbn [fst snd] in He. destruct He as [E|E].
      + exists e0, es1, a, b. subst e0. repeat split; auto. now left.
      + exists e0, es1, b, a. subst e0. repeat split; auto. now left. }
  destruct Hstart as (e0 & es1 & s & t & -> & Hs0 & Hs & _).
  apply in_split in Hs as (l1 & l2 & ->).
  set (rest := l2 ++ l1).
  assert (Hrot : Permutation (s :: rest) (l1 ++ s :: l2)).
  { unfold rest. apply Permutation_sym.
    eapply Permutation_trans; [apply Permutation_app_comm|].
    cbn [app]. apply Permutation_refl. }
  assert (Hnd1 : NoDup (s :: rest)).
  { apply (Permutation_NoDup (Permutation_sym Hrot) Hnd). }
  assert (Hpoly1 : polygonFace (s :: rest) (e0 :: es1)).
  { apply (polygonFace_pairs (l1 ++ s :: l2)); [|exact Hpoly].
    apply adjacentPairs_rotate. }
  pose proof (partnerList_polygon (Some s) _ _ Hpoly1) as Hperm.
  cbv iota beta in Hperm.
  rewrite (ring_first_neighbours s rest Hnd1) in Hperm. cbn [map] in Hperm.
  destruct (two_slots _ _ _ _ _ Hinv Hperm) as (n & Hn & _ & _ & Hslots).
  unfold cycleOfEdges. rewrite (bind_run Hrun).
  cbn [hd_error]. unfold defined at 1. rewrite bind_ret, Hs0.
  destruct Hslots as [[H0 _]|[H0 _]].
  - destruct (getCycle_polygon nodes _ s rest n Hnd1 Hpoly1 Hinv Hn H0)
      as (nodes' & Hcyc).
    exists (s :: rest). rewrite Hcyc. auto.
  - assert (Hnd2 : NoDup (s :: rev rest)).
    { apply (Permutation_NoDup (l := s :: rest)); [|exact Hnd1].
      constructor. apply Permutation_rev. }
    pose proof (polygonFace_reflect s rest _ Hpoly1) as Hpoly2.
    rewrite <- (hd_rev rest s) in H0.
    destruct (getCycle_polygon nodes _ s (rev rest) n Hnd2 Hpoly2 Hinv Hn H0)
      as (nodes' & Hcyc).
    exists (s :: rev rest). rewrite Hcyc. repeat split; auto.
    eapply Permutation_trans; [|exact Hrot].
    constructor. apply Permutation_sym, Permutation_rev.
Qed.

(** ** What the walks and the links guarantee *)

(** X2.  On a ring of distinct nodes that are not traversed, where the first
    slot of the receiver holds the second node and every other node holds
    its two neighbours in its slots in either order, [getCycle] returns
    the values of the nodes in the order of the ring, the receiver first,
    and leaves exactly the nodes of the ring marked as traversed. *)
Theorem getCycle_ring nodes first rest
    (Hdistinct : NoDup (first :: rest))
    (Hring : linkedRing nodes first rest = true) :
  exists nodes',
    getCycle first nodes = Done (valuesOf nodes (first :: rest), nodes') /\
    visitedState nodes (first :: rest) nodes'.
Proof. exact (getCycle_run nodes first rest Hdistinct Hring). Qed.

Lemma getCycle_ring_witness :
  exists nodes',
    getCycle (Some 0) mixedRing
    = Done (valuesOf mixedRing [Some 0; Some 1; Some 2], nodes') /\
    visitedState mixedRing [Some 0; Some 1; Some 2] nodes'.
Proof.
  apply (getCycle_ring mixedRing (Some 0) [Some 1; Some 2]).
  - repeat constructor; simpl; intuition discriminate.
  - reflexivity.
Defined.

(** X3.  [getCycle] does not clear the marks it sets: a second call on the
    same ring returns the value of the receiver alone. *)
Theorem getCycle_second_call nodes first rest
    (Hdistinct : NoDup (first :: rest))
    (Hring : linkedRing nodes first rest = true) :
  exists nodes',
    bind (getCycle first) (fun _ => getCycle first) nodes
    = Done (valuesOf nodes [first], nodes').
Proof.
  destruct (getCycle_run nodes first rest Hdistinct Hring)
    as (N1 & Hrun & Hst).
  rewrite (bind_run Hrun).
  unfold linkedRing in Hring.
  destruct (lookupNode nodes first) as [n|] eqn:Hn; [|discriminate].
  apply andb_true_iff in Hring as [Hring Hl].
  apply andb_true_iff in Hring as [_ H0]. apply slot_eqb_eq in H0.
  pose proof (readNode_visited _ _ _ _ _ Hst Hn) as Hr.
  destruct (markTraversed_visited _ _ _ _ _ Hst Hn) as (N2 & Hm & Hst2).
  unfold getCycle. rewrite (bind_run Hr), (bind_run Hm), bind_getS.
  exists N2.
  assert (Hnext : In (hd first rest) (first :: first :: rest)).
  { destruct rest; simpl; auto. }
  assert (Hpresent : lookupNode nodes (hd first rest) <> None).
  { destruct rest as [|x post]; [cbn; now rewrite Hn|].
    exact (linkedFrom_present _ _ _ _ Hl x (or_introl eq_refl)). }
  destruct (lookupNode nodes (hd first rest)) as [m|] eqn:Em;
    [|contradiction].
  pose proof (readNode_visited _ _ _ _ _ Hst2 Em) as Hr2.
  destruct (in_dec index_eq_dec (hd first rest) (first :: first :: rest))
    as [_|c]; [|contradiction].
  assert (Hval : forall b : bool,
            value (if b then marked n else n) = value n /\
            node0 (if b then marked n else n) = node0 n).
  { intros []; split; reflexivity. }
  destruct (in_dec index_eq_dec first (first :: rest)) as [i|i];
    destruct (Hval true) as [Hv1 Hv2]; destruct (Hval false) as [Hv3 Hv4];
    cbv beta iota in *.
  - rewrite Hv2, H0.
    rewrite (cycleLoop_traversed _ _ _ _ _ Hr2 eq_refl).
    unfold valuesOf. cbn [map]. now rewrite Hn.
  - exfalso. apply i. now left.
Qed.

Lemma getCycle_second_call_witness :
  exists nodes',
    bind (getCycle (Some 0)) (fun _ => getCycle (Some 0)) mixedRing
    = Done (valuesOf mixedRing [Some 0], nodes').
Proof.
  apply (getCycle_second_call mixedRing (Some 0) [Some 1; Some 2]).
  - repeat constructor; simpl; intuition discriminate.
  - reflexivity.
Defined.

Lemma storeNode_twice nodes i x y :
  storeNode (storeNode nodes i x) i y = storeNode nodes i y.
Proof.
  induction nodes as [|[k m] nodes IH]; simpl.
  - now rewrite index_eqb_refl.
  - destruct (index_eqb k i) eqn:E; simpl; rewrite E; [reflexivity|].
    now rewrite IH.
Qed.

Lemma storeNode_swap nodes a b x y :
  a <> b -> lookupNode nodes a <> None -> lookupNode nodes b <> None ->
  storeNode (storeNode nodes a x) b y = storeNode (storeNode nodes b y) a x.
Proof.
  intros Hab. induction nodes as [|[k m] nodes IH]; intros Ha Hb.
  - now contradiction Ha.
  - simpl in Ha, Hb |- *.
    destruct (index_eqb k a) eqn:Ea, (index_eqb k b) eqn:Eb; simpl;
      rewrite ?Ea, ?Eb; try reflexivity.
    + apply index_eqb_eq in Ea, Eb. congruence.
    + now rewrite IH.
Qed.

Lemma setNode0_run nodes i t n :
  lookupNode nodes i = Some n ->
  setNode0 i t nodes
  = Done (tt, storeNode nodes i
                (mkNodeD (value n) (Some t) (node1 n) (traversed n))).
Proof. intros H. unfold setNode0. rewrite bind_getS, H. reflexivity. Qed.

Lemma setNode1_run nodes i t n :
  lookupNode nodes i = Some n ->
  setNode1 i t nodes
  = Done (tt, storeNode nodes i
                (mkNodeD (value n) (node0 n) (Some t) (traversed n))).
Proof. intros H. unfold setNode1. rewrite bind_getS, H. reflexivity. Qed.

Lemma setNode0_missing nodes i t :
  lookupNode nodes i = None -> setNode0 i t nodes = Throw TypeError.
Proof. intros H. unfold setNode0. rewrite bind_getS, H. reflexivity. Qed.

Lemma setNode1_missing nodes i t :
  lookupNode nodes i = None -> setNode1 i t nodes = Throw TypeError.
Proof. intros H. unfold setNode1. rewrite bind_getS, H. reflexivity. Qed.

(** X4.  [a.linkToNext(b)] and [b.linkToPrev(a)] have the same outcome and
    leave the same nodes, also when [a] and [b] are one node. *)
Theorem linkToNext_linkToPrev nodes a b :
  linkToNext a b nodes = linkToPrev b a nodes.
Proof.
  unfold linkToNext, linkToPrev.
  destruct (lookupNode nodes a) as [na|] eqn:Ea;
    destruct (lookupNode nodes b) as [nb|] eqn:Eb.
  - rewrite (bind_run (setNode0_run nodes a b na Ea)).
    rewrite (bind_run (setNode1_run nodes b a nb Eb)).
    destruct (index_eq_dec a b) as [<-|Hab].
    + rewrite Ea in Eb. injection Eb as <-.
      erewrite setNode1_run by apply lookupNode_storeNode_same.
      erewrite setNode0_run by apply lookupNode_storeNode_same.
      rewrite !storeNode_twice. reflexivity.
    + erewrite setNode1_run
        by (rewrite lookupNode_storeNode_other by congruence; exact Eb).
      erewrite setNode0_run
        by (rewrite lookupNode_storeNode_other by congruence; exact Ea).
      rewrite storeNode_swap; [reflexivity|assumption| |]; congruence.
  - rewrite (bind_run (setNode0_run nodes a b na Ea)).
    rewrite (bind_throw (setNode1_missing nodes b a Eb)).
    apply setNode1_missing.
    rewrite lookupNode_storeNode_other by congruence. exact Eb.
  - rewrite (bind_throw (setNode0_missing nodes a b Ea)).
    rewrite (bind_run (setNode1_run nodes b a nb Eb)).
    symmetry. apply setNode0_missing.
    rewrite lookupNode_storeNode_other by congruence. exact Ea.
  - rewrite (bind_throw (setNode0_missing nodes a b Ea)).
    now rewrite (bind_throw (setNode1_missing nodes b a Eb)).
Qed.

Lemma readNode_run nodes j n :
  lookupNode nodes j = Some n -> readNode (Some j) nodes = Done (n, nodes).
Proof.
  intros H. unfold readNode, bind, defined, getS, ret. now rewrite H.
Qed.

(** X5.  After [a.linkToNext(b)] on two nodes of the store, whatever their
    slots held, [a.getNode(0)] is [b], and [b.getNode(i)] is [a] for every
    [i] other than 0. *)
Theorem linkToNext_getNode nodes a b
    (Ha : lookupNode nodes a <> None) (Hb : lookupNode nodes b <> None) :
  exists nodes',
    linkToNext a b nodes = Done (tt, nodes') /\
    getNode a 0 nodes' = Done (Some b, nodes') /\
    forall i, i <> 0%Z -> getNode b i nodes' = Done (Some a, nodes').
Proof.
  destruct (lookupNode nodes a) as [na|] eqn:Ea; [|contradiction].
  destruct (lookupNode nodes b) as [nb|] eqn:Eb; [|contradiction].
  unfold linkToNext. rewrite (bind_run (setNode0_run nodes a b na Ea)).
  set (N1 := storeNode nodes a _).
  assert (Hb1 : exists nb1, lookupNode N1 b = Some nb1 /\
            (a = b -> node0 nb1 = Some b)).
  { unfold N1. destruct (index_eq_dec a b) as [<-|Hab].
    - rewrite lookupNode_storeNode_same. eexists. split; [reflexivity|].
      reflexivity.
    - rewrite lookupNode_storeNode_other by assumption.
      exists nb. split; [exact Eb | contradiction]. }
  destruct Hb1 as (nb1 & Hb1 & Hsame).
  rewrite (setNode1_run N1 b a nb1 Hb1).
  eexists. split; [reflexivity|]. split.
  - unfold getNode.
    destruct (index_eq_dec a b) as [<-|Hab].
    + erewrite (bind_run (readNode_run _ _ _ (lookupNode_storeNode_same _ _ _))).
      cbn. now rewrite Hsame.
    + assert (Hread : lookupNode
                (storeNode N1 b
                   (mkNodeD (value nb1) (node0 nb1) (Some a) (traversed nb1)))
                a = Some (mkNodeD (value na) (Some b) (node1 na)
                            (traversed na))).
      { rewrite lookupNode_storeNode_other by congruence.
        unfold N1. now rewrite lookupNode_storeNode_same. }
      now rewrite (bind_run (readNode_run _ _ _ Hread)).
  - intros i Hi. unfold getNode.
    erewrite (bind_run (readNode_run _ _ _ (lookupNode_storeNode_same _ _ _))).
    apply Z.eqb_neq in Hi. cbn. now rewrite Hi.
Qed.

Lemma linkToNext_getNode_witness :
  exists nodes',
    linkToNext (Some 2) (Some 1) mixedRing = Done (tt, nodes') /\
    getNode (Some 2) 0 nodes' = Done (Some (Some 1), nodes') /\
    forall i, i <> 0%Z -> getNode (Some 1) i nodes' = Done (Some (Some 2), nodes').
Proof.
  apply (linkToNext_getNode mixedRing (Some 2) (Some 1)); discriminate.
Defined.

(** *** Links made by [linkTo] *)

Lemma fillSlot_inv i target nodes nodes' :
  fillSlot i target nodes = Done (tt, nodes') ->
  exists n n',
    lookupNode nodes i = Some n /\ nodes' = storeNode nodes i n' /\
    (node0 n' = Some target \/ node1 n' = Some target) /\
    (forall y, node0 n = Some y \/ node1 n = Some y ->
               node0 n' = Some y \/ node1 n' = Some y) /\
    (forall y, node0 n' = Some y \/ node1 n' = Some y ->
               (node0 n = Some y \/ node1 n = Some y) \/ y = target).
Proof.
  unfold fillSlot. rewrite bind_getS.
  destruct (lookupNode nodes i) as [n|] eqn:E; [|discriminate].
  unfold defined at 1. rewrite bind_ret.
  destruct (node0 n) as [x0|] eqn:E0; [destruct (node1 n) as [x1|] eqn:E1|];
    [discriminate| |]; intros H; injection H as <-;
    eexists n, _; (split; [reflexivity|]); (split; [reflexivity|]);
    cbn [node0 node1]; rewrite ?E0, ?E1.
  - split; [now right|]. split.
    + intros y [Hy|Hy]; [now left|discriminate].
    + intros y [Hy|Hy]; [now left; left|]. right. congruence.
  - split; [now left|]. split.
    + intros y [Hy|Hy]; [discriminate|now right].
    + intros y [Hy|Hy]; [right; congruence|now left; right].
Qed.

Lemma fillSlot_neighbour i target nodes nodes' :
  fillSlot i target nodes = Done (tt, nodes') ->
  neighbour nodes' i target /\
  (forall x y, neighbour nodes x y -> neighbour nodes' x y) /\
  (forall x y, neighbour nodes' x y ->
     neighbour nodes x y \/ (x = i /\ y = target)).
Proof.
  intros H. apply fillSlot_inv in H
    as (n & n' & Hn & -> & Hnew & Hkept & Honly).
  split; [|split].
  - exists n'. split; [apply lookupNode_storeNode_same|exact Hnew].
  - intros x y (m & Hm & Hy). destruct (index_eq_dec i x) as [<-|Hix].
    + exists n'. split; [apply lookupNode_storeNode_same|].
      apply Hkept. congruence.
    + exists m. split; [|exact Hy].
      now rewrite lookupNode_storeNode_other.
  - intros x y (m & Hm & Hy). destruct (index_eq_dec i x) as [<-|Hix].
    + rewrite lookupNode_storeNode_same in Hm. injection Hm as <-.
      destruct (Honly y Hy) as [Hold| ->]; [|now right].
      left. now exists n.
    + rewrite lookupNode_storeNode_other in Hm by assumption.
      left. now exists m.
Qed.

(** X6.  A call of [linkTo] that returns leaves each of the two nodes in a
    slot of the other, removes no link that was there, and keeps a store
    in which every link is held from both ends in that state. *)
Theorem linkTo_symmetric nodes a b nodes'
    (Hrun : linkTo a b nodes = Done (tt, nodes')) :
  neighbour nodes' a b /\ neighbour nodes' b a /\
  (forall x y, neighbour nodes x y -> neighbour nodes' x y) /\
  (symmetricLinks nodes -> symmetricLinks nodes').
Proof.
  unfold linkTo in Hrun.
  apply bind_Done in Hrun as ([] & mid & Hfirst & Hsecond).
  apply fillSlot_neighbour in Hfirst as (Hab & Hkept1 & Honly1).
  apply fillSlot_neighbour in Hsecond as (Hba & Hkept2 & Honly2).
  split; [now apply Hkept2|]. split; [exact Hba|]. split; [now auto|].
  intros Hsym x y Hxy.
  destruct (Honly2 x y Hxy) as [Hmid|[-> ->]]; [|now apply Hkept2].
  destruct (Honly1 x y Hmid) as [Hold|[-> ->]]; [|exact Hba].
  apply Hkept2, Hkept1, Hsym, Hold.
Qed.

Lemma linkTo_symmetric_witness :
  exists nodes',
    linkTo (Some 0) (Some 1) twoFresh = Done (tt, nodes') /\
    neighbour nodes' (Some 0) (Some 1) /\ neighbour nodes' (Some 1) (Some 0) /\
    (forall x y, neighbour twoFresh x y -> neighbour nodes' x y) /\
    (symmetricLinks twoFresh -> symmetricLinks nodes').
Proof.
  eexists. split; [reflexivity|].
  apply (linkTo_symmetric twoFresh (Some 0) (Some 1)). reflexivity.
Defined.

Lemma fillSlot_run i target nodes n :
  lookupNode nodes i = Some n ->
  fillSlot i target nodes
  = if fullNode n then Throw LinkError
    else Done (tt, storeNode nodes i
                 (match node0 n with
                  | None => mkNodeD (value n) (Some target) (node1 n)
                              (traversed n)
                  | Some _ => mkNodeD (value n) (node0 n) (Some target)
                                (traversed n)
                  end)).
Proof.
  intros Hn. unfold fillSlot. rewrite bind_getS, Hn.
  unfold defined at 1. rewrite bind_ret. unfold fullNode.
  destruct (node0 n), (node1 n); reflexivity.
Qed.

(** X7.  On two distinct nodes of the store, [linkTo] throws when one of
    them already holds two links, and returns otherwise. *)
Theorem linkTo_full nodes a b na nb
    (Ha : lookupNode nodes a = Some na)
    (Hb : lookupNode nodes b = Some nb)
    (Hab : a <> b) :
  (fullNode na || fullNode nb = true -> linkTo a b nodes = Throw LinkError) /\
  (fullNode na || fullNode nb = false ->
   exists nodes', linkTo a b nodes = Done (tt, nodes')).
Proof.
  pose proof (fillSlot_run a b nodes na Ha) as Hfirst.
  unfold linkTo. destruct (fullNode na); cbn [orb].
  - rewrite (bind_throw Hfirst). split; [reflexivity|discriminate].
  - rewrite (bind_run Hfirst).
    rewrite (fillSlot_run b a _ nb)
      by (now rewrite lookupNode_storeNode_other).
    destruct (fullNode nb); split; intros H; try discriminate H;
      [reflexivity|eexists; reflexivity].
Qed.

Lemma linkTo_full_witness :
  (fullNode (mkNodeD (Some 0) None None false)
   || fullNode (mkNodeD (Some 1) None None false) = true ->
   linkTo (Some 0) (Some 1) twoFresh = Throw LinkError) /\
  (fullNode (mkNodeD (Some 0) None None false)
   || fullNode (mkNodeD (Some 1) None None false) = false ->
   exists nodes', linkTo (Some 0) (Some 1) twoFresh = Done (tt, nodes')).
Proof.
  apply (linkTo_full twoFresh (Some 0) (Some 1)).
  - reflexivity.
  - reflexivity.
  - discriminate.
Defined.

(** ** Faces that are polygons *)

(** X8.  For a face whose edges are the sides of a polygon on distinct
    vertices, listed in any order and each in either direction,
    [faceToVertices] returns the vertices of the polygon, each once, and
    any two adjacent entries of the result, the last and the first
    included, are the two ends of one of these edges. *)
Theorem faceToVertices_polygon this i es ring
    (Hface : faceEdges this i = Some es)
    (Hdistinct : NoDup ring) (Hvertex : ring <> [])
    (Hsides : polygonFace ring es) :
  exists cycle,
    faceToVertices this i = Done cycle /\
    Permutation cycle (map Some ring) /\
    forall x y, In (x, y) (adjacentPairs cycle) ->
      exists a b e, x = Some a /\ y = Some b /\ In e es /\ isEdge e a b.
Proof.
  rewrite (@faceToVertices_cycleOfEdges _ _ _ Hface).
  destruct (cycleOfEdges_polygon es ring Hdistinct Hvertex Hsides)
    as (ring' & Hrun & Hperm & (es' & Hp & Hf)).
  exists (map Some ring'). split; [exact Hrun|].
  split; [now apply Permutation_map|].
  intros x y Hxy. rewrite adjacentPairs_map in Hxy.
  apply in_map_iff in Hxy as ([a b] & E & Hab). cbn [fst snd] in E.
  injection E as <- <-.
  destruct (Forall2_In_r _ _ _ _ Hf Hab) as (e & He & Hedge).
  exists a, b, e. repeat split; auto.
  apply (Permutation_in _ (Permutation_sym Hp) He).
Qed.

Lemma faceToVertices_polygon_witness :
  exists cycle,
    faceToVertices pentagon 0 = Done cycle /\
    Permutation cycle (map Some [0; 1; 2; 3; 4]) /\
    forall x y, In (x, y) (adjacentPairs cycle) ->
      exists a b e, x = Some a /\ y = Some b /\
        In e [[2; 3]; [0; 1]; [0; 4]; [2; 1]; [4; 3]] /\ isEdge e a b.
Proof.
  apply (faceToVertices_polygon pentagon 0%Z
           [[2; 3]; [0; 1]; [0; 4]; [2; 1]; [4; 3]] [0; 1; 2; 3; 4]).
  - reflexivity.
  - repeat constructor; simpl; intuition discriminate.
  - discriminate.
  - exists [[0; 1]; [2; 1]; [2; 3]; [4; 3]; [0; 4]]. split.
    + apply (Permutation_cons_app [[0; 1]; [2; 1]] [[4; 3]; [0; 4]]).
      apply perm_skip.
      apply (Permutation_cons_app [[2; 1]; [4; 3]] []).
      apply perm_skip. apply Permutation_refl.
    + repeat (apply Forall2_cons || apply Forall2_nil);
        unfold isEdge; cbn; auto.
Defined.

(** ** The centroid *)

Lemma length_addCoordinates res : forall coords,
  length (addCoordinates res coords) = length res.
Proof.
  induction res as [|r res IH]; intros coords; simpl; [reflexivity|].
  now rewrite IH.
Qed.

Lemma length_sum_coordinates (vertices : list Point) : forall res,
  length (fold_left (fun res P => addCoordinates res (coordinates P))
            vertices res) = length res.
Proof.
  induction vertices as [|P vertices IH]; intros res; simpl; [reflexivity|].
  now rewrite IH, length_addCoordinates.
Qed.

(** X9.  The centroid has as many coordinates as the field
    [spaceDimensions] says, whatever the vertices hold; without a vertex
    level it is the point without coordinates. *)
Theorem gravicenter_dimensions {I} (this : PolytopeC I) :
  dimensions_of (gravicenter this)
  = match elementList this with
    | NoLevels => 0
    | Levels _ _ => Z.to_nat (spaceDimensions this)
    end.
Proof.
  unfold gravicenter, dimensions_of.
  destruct (elementList this) as [|vertices higher]; [reflexivity|].
  cbn [coordinates]. rewrite length_map, length_sum_coordinates.
  apply repeat_length.
Qed.

Lemma is_nan_spec x : PrimFloat.is_nan x = true <-> Prim2SF x = S754_nan.
Proof.
  unfold PrimFloat.is_nan. rewrite negb_true_iff, eqb_spec.
  destruct (Prim2SF x) as [[|]|[|]| |[|] m e]; cbn;
    try (split; [discriminate | discriminate]);
    try (split; reflexivity).
  - unfold SFeqb, SFcompare. cbn. rewrite Z.compare_refl, Pos.compare_refl.
    split; discriminate.
  - unfold SFeqb, SFcompare. cbn. rewrite Z.compare_refl, Pos.compare_refl.
    split; discriminate.
Qed.

Lemma is_nan_add_l x y :
  PrimFloat.is_nan x = true -> PrimFloat.is_nan (x + y) = true.
Proof.
  rewrite !is_nan_spec, add_spec. intros ->. reflexivity.
Qed.

Lemma is_nan_add_r x y :
  PrimFloat.is_nan y = true -> PrimFloat.is_nan (x + y) = true.
Proof.
  rewrite !is_nan_spec, add_spec. intros ->.
  destruct (Prim2SF x) as [[|]|[|]| |[|] m e]; reflexivity.
Qed.

Lemma is_nan_div_l x y :
  PrimFloat.is_nan x = true -> PrimFloat.is_nan (x / y) = true.
Proof.
  rewrite !is_nan_spec, div_spec. intros ->. reflexivity.
Qed.

Lemma nth_error_addCoordinates res : forall coords j r,
  nth_error res j = Some r ->
  nth_error (addCoordinates res coords) j = Some (r + nth j coords nan)%float.
Proof.
  induction res as [|r0 res IH]; intros coords j r Hj.
  - destruct j; discriminate.
  - destruct j as [|j]; simpl in *.
    + injection Hj as ->. destruct coords; reflexivity.
    + rewrite (IH (tl coords) j r Hj). destruct coords as [|c coords];
        [destruct j|]; reflexivity.
Qed.

(** Coordinate [j] of the sum over the vertices, read from left to
    right. *)
Lemma nth_error_sum_coordinates (vertices : list Point) : forall res j r,
  nth_error res j = Some r ->
  nth_error (fold_left (fun res P => addCoordinates res (coordinates P))
               vertices res) j
  = Some (fold_left (fun x P => (x + nth j (coordinates P) nan)%float)
            vertices r).
Proof.
  induction vertices as [|P vertices IH]; intros res j r Hj; simpl; [exact Hj|].
  apply IH. now apply nth_error_addCoordinates.
Qed.

Lemma sum_nan_stays (vertices : list Point) j : forall x,
  PrimFloat.is_nan x = true ->
  PrimFloat.is_nan
    (fold_left (fun x P => (x + nth j (coordinates P) nan)%float) vertices x)
  = true.
Proof.
  induction vertices as [|P vertices IH]; intros x Hx; simpl; [exact Hx|].
  apply IH. now apply is_nan_add_l.
Qed.

Lemma sum_short_vertex (vertices : list Point) j P :
  In P vertices -> dimensions_of P <= j ->
  forall x,
  PrimFloat.is_nan
    (fold_left (fun x P => (x + nth j (coordinates P) nan)%float) vertices x)
  = true.
Proof.
  intros HP Hshort.
  induction vertices as [|Q vertices IH]; intros x; [contradiction|].
  simpl. destruct HP as [->|HP].
  - apply sum_nan_stays. apply is_nan_add_r.
    rewrite nth_overflow by exact Hshort. reflexivity.
  - now apply IH.
Qed.

(** X10.  A vertex that holds fewer coordinates than [spaceDimensions] turns
    every coordinate of the centroid that it lacks into NaN. *)
Theorem gravicenter_short_vertex {I} (this : PolytopeC I) vertices higher P j
    (Hlevels : elementList this = Levels vertices higher)
    (Hvertex : In P vertices)
    (Hshort : dimensions_of P <= j < Z.to_nat (spaceDimensions this)) :
  exists x, nth_error (coordinates (gravicenter this)) j = Some x /\
    PrimFloat.is_nan x = true.
Proof.
  unfold gravicenter. rewrite Hlevels. cbn [coordinates].
  rewrite nth_error_map.
  rewrite (nth_error_sum_coordinates vertices _ j 0%float).
  - cbn [option_map]. eexists. split; [reflexivity|].
    apply is_nan_div_l. now apply sum_short_vertex with (P := P).
  - rewrite nth_error_repeat by lia. reflexivity.
Qed.

Lemma gravicenter_short_vertex_witness :
  exists x,
    nth_error (coordinates (gravicenter paddedExample)) 2 = Some x /\
    PrimFloat.is_nan x = true.
Proof.
  apply (gravicenter_short_vertex paddedExample
           [mkPoint [1; 2; 3]; mkPoint [1; 0]]%float [] (mkPoint [1; 0]%float) 2).
  - reflexivity.
  - right; left; reflexivity.
  - cbn. lia.
Defined.

(** X11.  After [setSpaceDimensions(dim)] on a polytope with a vertex that held
    at least two coordinates fewer than [dim], the last coordinate of the
    centroid is NaN. *)
Theorem setSpaceDimensions_gravicenter {I} (this : PolytopeC I) dim
    vertices higher P
    (Hlevels : elementList this = Levels vertices higher)
    (Hvertex : In P vertices)
    (Hshort : (Z.of_nat (dimensions_of P) + 2 <= dim)%Z) :
  exists x,
    nth_error (coordinates (gravicenter (setSpaceDimensions this dim)))
      (Z.to_nat dim - 1) = Some x /\
    PrimFloat.is_nan x = true.
Proof.
  destruct (@setSpaceDimensions_spec _ this dim vertices higher Hlevels)
    as (Hdim & vertices' & Hlevels' & _ & Hpadded).
  destruct (In_nth_error _ _ Hvertex) as (i & Hi).
  destruct (Hpadded i P Hi) as (P' & HP' & Hcoords).
  assert (Hshort' : dimensions_of P' <= Z.to_nat dim - 1 < Z.to_nat dim).
  { unfold dimensions_of at 1. rewrite Hcoords.
    destruct (Z.ltb_spec (Z.of_nat (dimensions_of P)) dim) as [_|]; [|lia].
    rewrite length_app, repeat_length. fold (dimensions_of P).
    assert (((dim - Z.of_nat (dimensions_of P) + 1) / 2
             < dim - Z.of_nat (dimensions_of P))%Z)
      by (apply Z.div_lt_upper_bound; lia).
    assert ((0 <= (dim - Z.of_nat (dimensions_of P) + 1) / 2)%Z)
      by (apply Z.div_pos; lia).
    lia. }
  unfold gravicenter. rewrite Hlevels', Hdim. cbn [coordinates].
  rewrite nth_error_map.
  rewrite (nth_error_sum_coordinates vertices' _ _ 0%float).
  - cbn [option_map]. eexists. split; [reflexivity|].
    apply is_nan_div_l. apply sum_short_vertex with (P := P').
    + now apply nth_error_In with i.
    + apply Hshort'.
  - rewrite nth_error_repeat by lia. reflexivity.
Qed.

Lemma setSpaceDimensions_gravicenter_witness :
  exists x,
    nth_error (coordinates (gravicenter (setSpaceDimensions resizeExample 3)))
      (Z.to_nat 3 - 1) = Some x /\
    PrimFloat.is_nan x = true.
Proof.
  apply (setSpaceDimensions_gravicenter resizeExample 3
           [mkPoint [1; 2; 3]; mkPoint [1]]%float [] (mkPoint [1]%float)).
  - reflexivity.
  - right; left; reflexivity.
  - cbn. lia.
Defined.

(** X12.  What [setSpaceDimensions(dim)] does to a vertex: one that holds
    [dim] coordinates or more keeps them all, a shorter one receives
    half of the missing zeros, rounded up; so the vertex ends with [dim]
    coordinates exactly when it held [dim] or [dim - 1] of them. *)
Theorem setSpaceDimensions_vertex {I} (this : PolytopeC I) dim
    points higher i P
    (Hlevels : elementList this = Levels points higher)
    (Hvertex : nth_error points i = Some P) :
  exists points' P',
    elementList (setSpaceDimensions this dim) = Levels points' higher /\
    nth_error points' i = Some P' /\
    coordinates P'
    = coordinates P
      ++ repeat 0%float
           (Z.to_nat ((dim - Z.of_nat (dimensions_of P) + 1) / 2)) /\
    (Z.of_nat (dimensions_of P') = dim <->
     Z.of_nat (dimensions_of P) = dim \/
     (Z.of_nat (dimensions_of P) + 1 = dim)%Z).
Proof.
  destruct (@setSpaceDimensions_spec _ this dim points higher Hlevels)
    as (_ & points' & Hlevels' & _ & Hpadded).
  destruct (Hpadded i P Hvertex) as (P' & HP' & Hcoords).
  exists points', P'. split; [exact Hlevels'|]. split; [exact HP'|].
  set (len := Z.of_nat (dimensions_of P)) in *.
  assert (Hlen : (0 <= len)%Z) by (subst len; lia).
  destruct (Z.ltb_spec len dim) as [Hlt|Hge].
  - assert (Hhalf : (0 < (dim - len + 1) / 2)%Z)
      by (apply Z.div_str_pos; lia).
    assert (Hup : ((dim - len + 1) / 2 <= dim - len)%Z)
      by (apply Z.div_le_upper_bound; lia).
    assert (Hone : (len + 1 = dim -> (dim - len + 1) / 2 = 1)%Z).
    { intros <-. replace (len + 1 - len + 1)%Z with 2%Z by lia.
      reflexivity. }
    assert (Hmore : (len + 2 <= dim -> (dim - len + 1) / 2 < dim - len)%Z).
    { intros Hfar. apply Z.div_lt_upper_bound; lia. }
    split; [exact Hcoords|].
    unfold dimensions_of at 1. rewrite Hcoords, length_app, repeat_length.
    fold (dimensions_of P). fold len. lia.
  - assert (Hnone : Z.to_nat ((dim - len + 1) / 2) = 0).
    { assert (((dim - len + 1) / 2 < 1)%Z); [|lia].
      apply Z.div_lt_upper_bound; lia. }
    rewrite Hnone, app_nil_r. split; [exact Hcoords|].
    unfold dimensions_of at 1. rewrite Hcoords. fold (dimensions_of P).
    fold len. lia.
Qed.

Lemma setSpaceDimensions_vertex_witness :
  exists points' P',
    elementList (setSpaceDimensions resizeExample 4) = Levels points' [] /\
    nth_error points' 1 = Some P' /\
    coordinates P' = [1; 0; 0]%float /\
    (Z.of_nat (dimensions_of P') = 4%Z <->
     Z.of_nat (dimensions_of (mkPoint [1]%float)) = 4%Z \/
     (Z.of_nat (dimensions_of (mkPoint [1]%float)) + 1 = 4)%Z).
Proof.
  exact (setSpaceDimensions_vertex resizeExample 4
           [mkPoint [1; 2; 3]; mkPoint [1]]%float [] 1 (mkPoint [1]%float)
           eq_refl eq_refl).
Defined.

(** ** The shape of a converted polytope *)

Section ConversionShape.

Context {T : Type} (this : PolytopeS T).

Lemma isRepresentative_test s flag (st st' : Store T) b :
  isRepresentative this s flag st = Done (b, st') ->
  st' = st /\
  b = match lookup this st s flag with
      | Some rep => equalFlags this flag rep
      | None => false
      end.
Proof.
  unfold isRepresentative. intros H.
  apply bind_Done in H as (o & st1 & Hget & H).
  apply get_inv in Hget as (-> & -> & _).
  apply bind_Done in H as (rep & st1 & Hdef & H).
  apply defined_inv in Hdef as (-> & Hrep).
  injection H as <- <-. now rewrite Hrep.
Qed.

(** The test of one flag in the loops over the scan. *)
Lemma scan_test els i flag (st st1 st2 : Store T) s b :
  simplifierAt els (Z.of_nat i) st = Done (s, st1) ->
  isRepresentative this s flag st1 = Done (b, st2) ->
  st1 = st /\ st2 = st /\ b = representativeAt this st els i flag.
Proof.
  intros Hs Hb. apply simplifierAt_inv in Hs as (-> & Hs).
  rewrite nthZ_of_nat in Hs.
  apply isRepresentative_test in Hb as (-> & ->).
  unfold representativeAt. now rewrite Hs.
Qed.

Lemma filter_snoc {A} (p : A -> bool) l a :
  filter p (l ++ [a]) = filter p l ++ (if p a then [a] else []).
Proof. rewrite filter_app. reflexivity. Qed.

Lemma buildVertices_count applyMatrix els (st st' : Store T) points :
  buildVertices this applyMatrix els st = Done (points, st') ->
  st' = st /\ length points = representatives this st els 0.
Proof.
  unfold buildVertices. intros H.
  refine ((foldM_inv
    (fun done (pts : list Point) s =>
       s = st /\
       length pts = length (filter (representativeAt this st els 0) done))
    _ (scan this) _ (scan this) [] _ _ _ _ eq_refl _ H));
    [|split; reflexivity].
  intros done flag rest pts s pts' s' _ (-> & Hlen) Hbody.
  apply bind_Done in Hbody as (e & s1 & He & Hbody).
  apply bind_Done in Hbody as (b & s2 & Hb & Hbody).
  destruct (scan_test els 0 flag _ _ _ _ _ He Hb) as (-> & -> & ->).
  rewrite filter_snoc, length_app.
  destruct (representativeAt this st els 0 flag).
  - apply bind_Done in Hbody as (seed & s1 & Hseed & Hbody).
    apply defined_inv in Hseed as (-> & _). injection Hbody as <- <-.
    split; [reflexivity|]. rewrite length_app, Hlen. reflexivity.
  - injection Hbody as <- <-. split; [reflexivity|]. simpl. lia.
Qed.

(** Every vertex that the conversion lists is a seed vertex moved by
    the domain of a scanned flag of its class. *)
Lemma buildVertices_images applyMatrix els (st st' : Store T) points :
  buildVertices this applyMatrix els st = Done (points, st') ->
  forall Q, In Q points ->
    exists flag seed,
      In flag (scan this) /\
      nth_error (vertices this) (classNumber flag) = Some seed /\
      Q = applyMatrix seed (domain flag).
Proof.
  unfold buildVertices. intros H.
  refine ((foldM_inv
    (fun done (pts : list Point) (s : Store T) =>
       forall Q, In Q pts ->
         exists flag seed,
           In flag done /\
           nth_error (vertices this) (classNumber flag) = Some seed /\
           Q = applyMatrix seed (domain flag))
    _ (scan this) _ (scan this) [] _ _ _ _ eq_refl _ H)).
  - intros done flag rest pts s pts' s' _ Hinv Hbody.
    assert (Hgrow : forall Q,
              (exists flag0 seed, In flag0 done /\
                 nth_error (vertices this) (classNumber flag0) = Some seed /\
                 Q = applyMatrix seed (domain flag0)) ->
              exists flag0 seed, In flag0 (done ++ [flag]) /\
                 nth_error (vertices this) (classNumber flag0) = Some seed /\
                 Q = applyMatrix seed (domain flag0)).
    { intros Q (flag0 & seed & Hin & Hseed & HQ). exists flag0, seed.
      split; [apply in_or_app; now left|]. now split. }
    apply bind_Done in Hbody as (e & s1 & _ & Hbody).
    apply bind_Done in Hbody as (b & s2 & _ & Hbody).
    destruct b.
    + apply bind_Done in Hbody as (seed & s3 & Hseed & Hbody).
      apply defined_inv in Hseed as (_ & Hseed). injection Hbody as <- _.
      intros Q HQ. apply in_app_or in HQ as [HQ|[<-|[]]].
      * apply Hgrow. now apply Hinv.
      * exists flag, seed. split; [apply in_or_app; right; now left|].
        now split.
    + injection Hbody as <- _. intros Q HQ. apply Hgrow. now apply Hinv.
  - intros Q [].
Qed.

Lemma fm_get_set_bound {U} (m : FlagMap T U) k v f x :
  fm_get this (fm_set this m k v) f = Some x ->
  x = v \/ fm_get this m f = Some x.
Proof.
  induction m as [|[k0 v0] m IH]; simpl.
  - destruct (equalFlags this k f); [|discriminate].
    intros [= <-]. now left.
  - destruct (equalFlags this k0 k); simpl;
      destruct (equalFlags this k0 f); auto.
    intros [= <-]. now left.
Qed.

Lemma locationsRow_count els i (st st' : Store T) row next :
  foldM (scan this) ([], 0) (fun '(row, nextID) flag =>
    bind (simplifierAt els (Z.of_nat i)) (fun s =>
    bind (isRepresentative this s flag) (fun b =>
      if b then ret (fm_set this row flag nextID, S nextID)
      else ret (row, nextID)))) st = Done ((row, next), st') ->
  st' = st /\ next = representatives this st els i /\
  forall f id, fm_get this row f = Some id -> id < next.
Proof.
  intros H.
  refine (foldM_inv
    (fun done (acc : FlagMap T nat * nat) s =>
       s = st /\
       snd acc = length (filter (representativeAt this st els i) done) /\
       forall f id, fm_get this (fst acc) f = Some id -> id < snd acc)
    _ (scan this) _ (scan this) [] _ _ _ _ eq_refl _ H).
  - intros done flag rest [row0 next0] s [row1 next1] s' _
      (-> & Hnext & Hbound) Hbody. simpl in *.
    apply bind_Done in Hbody as (e & s1 & He & Hbody).
    apply bind_Done in Hbody as (b & s2 & Hb & Hbody).
    destruct (scan_test els i flag _ _ _ _ _ He Hb) as (-> & -> & ->).
    rewrite filter_snoc, length_app.
    destruct (representativeAt this st els i flag);
      injection Hbody as <- <- <-.
    + split; [reflexivity|]. split; [simpl; lia|].
      intros f id Hf. apply fm_get_set_bound in Hf as [->|Hf]; [lia|].
      apply Hbound in Hf. lia.
    + split; [reflexivity|]. split; [simpl; lia|]. exact Hbound.
  - simpl. repeat split. discriminate.
Qed.

Lemma buildLocations_count els (st st' : Store T) locs lens :
  buildLocations this els st = Done ((locs, lens), st') ->
  st' = st /\
  forall k, k < rank this + 1 ->
    nth_error lens k = Some (representatives this st els k) /\
    exists row, nth_error locs k = Some row /\
                boundedRow this row (representatives this st els k).
Proof.
  intros H. unfold buildLocations in H.
  assert (Hinv :
    st' = st /\ length locs = length (seq 0 (rank this + 1)) /\
    length lens = length (seq 0 (rank this + 1)) /\
    forall k, k < length (seq 0 (rank this + 1)) ->
      nth_error lens k = Some (representatives this st els k) /\
      exists row, nth_error locs k = Some row /\
                  boundedRow this row (representatives this st els k)).
  { refine (foldM_inv
      (fun done (acc : list (FlagMap T nat) * list nat) s =>
         s = st /\ length (fst acc) = length done /\
         length (snd acc) = length done /\
         forall k, k < length done ->
           nth_error (snd acc) k = Some (representatives this st els k) /\
           exists row, nth_error (fst acc) k = Some row /\
                       boundedRow this row (representatives this st els k))
      _ (seq 0 (rank this + 1)) _ (seq 0 (rank this + 1)) [] _ _ _ _
      eq_refl _ H).
    - intros done i rest [locs0 lens0] s [locs1 lens1] s' Hsplit
        (-> & Hlen & Hlen' & Hrows) Hbody. simpl in *.
      apply seq_split in Hsplit. simpl in Hsplit. subst i.
      apply bind_Done in Hbody as ([row next] & s1 & Hrow & Hbody).
      injection Hbody as <- <- <-.
      apply locationsRow_count in Hrow as (-> & -> & Hrow).
      unfold FlagMap in *.
      split; [reflexivity|]. rewrite !length_app. simpl.
      split; [lia|]. split; [lia|].
      intros k Hk.
      destruct (Nat.eq_dec k (length done)) as [->|Hneq].
      + rewrite !nth_error_app2 by lia.
        rewrite Hlen, Hlen', Nat.sub_diag. simpl.
        split; [reflexivity|]. exists row. split; [reflexivity | exact Hrow].
      + rewrite !nth_error_app1 by lia. apply Hrows. lia.
    - simpl. split; [reflexivity|]. split; [reflexivity|].
      split; [reflexivity|]. intros k Hk. lia. }
  rewrite length_seq in Hinv. tauto.
Qed.


Lemma buildElements_range els ints locs lens i (st st' : Store T) elements
    n bound :
  1 <= i ->
  nth_error lens i = Some n ->
  (forall rowl, nth_error locs (i - 1) = Some rowl ->
     boundedRow this rowl bound) ->
  buildElements this els ints locs lens (Z.of_nat i) st
    = Done (elements, st') ->
  st' = st /\ length elements = n /\
  forall row, In row elements ->
    forall id, In (Some id) row -> id < bound.
Proof.
  intros Hi Hlens Hrowl H. unfold buildElements in H.
  replace (Z.of_nat i - 1)%Z with (Z.of_nat (i - 1)) in H by lia.
  apply bind_Done in H as (n' & st1 & Hn & H).
  apply defined_inv in Hn as (-> & Hn).
  rewrite nthZ_of_nat, Hlens in Hn. injection Hn as <-.
  refine (foldM_inv
    (fun _ (elements : list (list (option nat))) s =>
       s = st /\ length elements = n /\
       forall row, In row elements ->
         forall id, In (Some id) row -> id < bound)
    _ (scan this) _ (scan this) [] _ _ _ _ eq_refl _ H).
  - intros done flag rest elements0 s elements1 s' _
      (-> & Hlen & Hrows) Hbody.
    apply bind_Done in Hbody as (sx & s1 & Hsx & Hbody).
    apply simplifierAt_inv in Hsx as (-> & _).
    apply bind_Done in Hbody as (b & s1 & Hb & Hbody).
    apply isRepresentative_test in Hb as (-> & _).
    destruct b; [|injection Hbody as <- <-; auto].
    apply bind_Done in Hbody as (sl & s1 & Hsl & Hbody).
    apply simplifierAt_inv in Hsl as (-> & _).
    apply bind_Done in Hbody as (sr & s1 & Hsr & Hbody).
    apply simplifierAt_inv in Hsr as (-> & _).
    apply bind_Done in Hbody as (leftFlag & s1 & Hleft & Hbody).
    apply get_inv in Hleft as (-> & _ & _).
    apply bind_Done in Hbody as (rightFlag & s1 & Hright & Hbody).
    apply get_inv in Hright as (-> & _ & _).
    apply bind_Done in Hbody as (leftFlag' & s1 & Hleft & Hbody).
    apply defined_inv in Hleft as (-> & _).
    apply bind_Done in Hbody as (rowl & s1 & Hpick & Hbody).
    apply pick_inv in Hpick as (-> & Hpick).
    rewrite nthZ_of_nat in Hpick.
    apply bind_Done in Hbody as (rightFlag' & s1 & Hright & Hbody).
    apply defined_inv in Hright as (-> & _).
    apply bind_Done in Hbody as (rowr & s1 & Hpick' & Hbody).
    apply pick_inv in Hpick' as (-> & _).
    apply pushAt_inv in Hbody as (-> & k & row & Hrow & ->).
    split; [reflexivity|]. split; [now rewrite length_update_nth|].
    intros row' Hrow' id Hid.
    apply In_update_nth in Hrow' as [Hrow'| ->];
      [exact (Hrows row' Hrow' id Hid)|].
    apply in_app_or in Hid as [Hid|[Hid|[]]].
    + apply nth_error_In in Hrow. exact (Hrows row Hrow id Hid).
    + exact (Hrowl rowl Hpick _ _ Hid).
  - split; [reflexivity|]. split; [apply repeat_length|].
    intros row Hrow. apply repeat_spec in Hrow. subst row. intros id [].
Qed.

Lemma buildHigher_range els ints locs lens (st st' : Store T) higher :
  (forall k, k < rank this + 1 ->
     nth_error lens k = Some (representatives this st els k) /\
     exists row, nth_error locs k = Some row /\
                 boundedRow this row (representatives this st els k)) ->
  buildHigher this els ints locs lens st = Done (higher, st') ->
  st' = st /\ length higher = rank this /\
  forall d elements, nth_error higher d = Some elements ->
    length elements = representatives this st els (S d) /\
    forall row, In row elements ->
      forall id, In (Some id) row -> id < representatives this st els d.
Proof.
  intros Hlocs H. unfold buildHigher in H.
  assert (Hinv :
    st' = st /\ length higher = length (seq 1 (rank this)) /\
    forall d elements, nth_error higher d = Some elements ->
      length elements = representatives this st els (S d) /\
      forall row, In row elements ->
        forall id, In (Some id) row -> id < representatives this st els d).
  { refine (foldM_inv
      (fun done (higher : list (list (list (option nat)))) s =>
         s = st /\ length higher = length done /\
         forall d elements, nth_error higher d = Some elements ->
           length elements = representatives this st els (S d) /\
           forall row, In row elements ->
             forall id, In (Some id) row ->
               id < representatives this st els d)
      _ (seq 1 (rank this)) _ (seq 1 (rank this)) [] _ _ _ _ eq_refl _ H).
    - intros done i rest higher0 s higher1 s' Hsplit (-> & Hlen & Hrows)
        Hbody.
      assert (Hi : 1 <= i <= rank this).
      { assert (Hin : In i (seq 1 (rank this)))
          by (rewrite Hsplit; apply in_or_app; right; now left).
        apply in_seq in Hin. lia. }
      apply seq_split in Hsplit.
      apply bind_Done in Hbody as (elements & s1 & Hel & Hbody).
      injection Hbody as <- <-.
      destruct (Hlocs i ltac:(lia)) as (Hn & _).
      destruct (Hlocs (i - 1) ltac:(lia)) as (_ & rowl & Hrowl & Hbound).
      apply (buildElements_range _ _ _ _ _ _ _ _ _
               (representatives this st els (i - 1)) (proj1 Hi) Hn)
        in Hel as (-> & Hcount & Hids).
      2:{ intros rowl' Hrowl'. rewrite Hrowl in Hrowl'.
          injection Hrowl' as <-. exact Hbound. }
      split; [reflexivity|]. rewrite !length_app. simpl.
      split; [lia|].
      intros d elements' Hd.
      destruct (Nat.lt_ge_cases d (length higher0)) as [Hlt|Hge].
      + rewrite nth_error_app1 in Hd by assumption. now apply Hrows.
      + rewrite nth_error_app2 in Hd by assumption.
        destruct (d - length higher0) as [|x] eqn:Ed;
          [|destruct x; discriminate].
        injection Hd as <-.
        assert (d = i - 1) by lia. subst d.
        replace (S (i - 1)) with i by lia. auto.
    - split; [reflexivity|]. split; [reflexivity|].
      intros d elements Hd. destruct d; discriminate. }
  rewrite length_seq in Hinv. exact Hinv.
Qed.

Lemma toPolytopeC_levels applyMatrix (st st' : Store T) P :
  toPolytopeC this applyMatrix st = Done (P, st') ->
  exists points higher stc els,
    newPolytopeC (Levels points higher) None = Done P /\
    length points = representatives this stc els 0 /\
    length higher = rank this /\
    forall d elements, nth_error higher d = Some elements ->
      length elements = representatives this stc els (S d) /\
      forall row, In row elements ->
        forall id, In (Some id) row -> id < representatives this stc els d.
Proof.
  intros H. unfold toPolytopeC in H.
  apply bind_Done in H as (u & st1 & _ & H).
  apply bind_Done in H as (asc & st2 & _ & H).
  apply bind_Done in H as (desc & st3 & _ & H).
  apply bind_Done in H as (els & st4 & _ & H).
  apply bind_Done in H as (ints & st5 & _ & H).
  apply bind_Done in H as (pts & st6 & Hpts & H).
  apply buildVertices_count in Hpts as (-> & Hcount).
  apply bind_Done in H as ([locs lens] & st6 & Hlocs & H).
  apply buildLocations_count in Hlocs as (-> & Hlocs).
  apply bind_Done in H as (higher & st6 & Hhigher & H).
  apply lift_inv in H as (-> & Hnew).
  apply (buildHigher_range _ _ _ _ _ _ _ Hlocs) in Hhigher
    as (_ & Hlen & Hrows).
  exists pts, higher, st5, els. auto.
Qed.

End ConversionShape.

(** X13.  In the explicit polytope that [toPolytopeC] returns, every number
    in the list of an element of rank [d + 1] is an index into the level
    below: it is smaller than the number of elements of rank [d]. *)
Theorem toPolytopeC_indices_in_range {T} (this : PolytopeS T)
    (applyMatrix : Point -> T -> Point) (st st' : Store T)
    (P : PolytopeC (option nat))
    (Hrun : toPolytopeC this applyMatrix st = Done (P, st')) :
  forall points higher, elementList P = Levels points higher ->
  forall d elements row id,
    nth_error higher d = Some elements -> In row elements ->
    In (Some id) row ->
    id < match d with
         | 0 => length points
         | S d' => length (nth d' higher [])
         end.
Proof.
  destruct (toPolytopeC_levels this applyMatrix st st' P Hrun)
    as (pts & hi & stc & els & Hnew & Hpts & Hlen & Hrows).
  apply newPolytopeC_dimensions in Hnew as [_ Hels].
  intros points higher HP. rewrite Hels in HP. injection HP as <- <-.
  intros d elements row id Hd Hrow Hid.
  destruct (Hrows d elements Hd) as [_ Hids].
  specialize (Hids row Hrow id Hid).
  destruct d as [|d']; [now rewrite Hpts|].
  assert (Hd' : d' < length hi).
  { assert (Hs : nth_error hi (S d') <> None) by congruence.
    apply nth_error_Some in Hs. lia. }
  destruct (nth_error hi d') as [elements'|] eqn:E.
  - rewrite (nth_error_nth _ _ _ E).
    now rewrite (proj1 (Hrows d' elements' E)).
  - apply nth_error_None in E. lia.
Qed.

Lemma toPolytopeC_indices_in_range_witness :
  exists P st',
    toPolytopeC square applyMat emptyStore = Done (P, st') /\
    forall points higher, elementList P = Levels points higher ->
    forall d elements row id,
      nth_error higher d = Some elements -> In row elements ->
      In (Some id) row ->
      id < match d with
           | 0 => length points
           | S d' => length (nth d' higher [])
           end.
Proof.
  do 2 eexists. split; [vm_compute; reflexivity|].
  eapply (toPolytopeC_indices_in_range square applyMat emptyStore _ _).
  vm_compute. reflexivity.
Defined.

(** X14.  When [toPolytopeC] returns, the rank of the symmetric polytope is at
    least 1 and the result has that number of dimensions, a vertex level
    that is not empty followed by one level for each rank, the number of
    coordinates of its first vertex as [spaceDimensions], and the plain
    construction node made of its number of facets and its rank. *)
Theorem toPolytopeC_shape {T} (this : PolytopeS T)
    (applyMatrix : Point -> T -> Point) (st st' : Store T)
    (P : PolytopeC (option nat))
    (Hrun : toPolytopeC this applyMatrix st = Done (P, st')) :
  1 <= rank this /\
  dimensions P = Z.of_nat (rank this) /\
  exists first points higher facets,
    elementList P = Levels (first :: points) higher /\
    length higher = rank this /\
    spaceDimensions P = Z.of_nat (dimensions_of first) /\
    levelLength (elementList P) (Z.of_nat (rank this) - 1) = Some facets /\
    construction P = CNPlain [Z.of_nat facets; Z.of_nat (rank this)].
Proof.
  destruct (toPolytopeC_levels this applyMatrix st st' P Hrun)
    as (pts & hi & stc & els & Hnew & _ & Hlen & _).
  unfold newPolytopeC in Hnew. cbn [levels] in Hnew.
  replace (Z.of_nat (S (length hi)) - 2)%Z
    with (Z.of_nat (rank this) - 1)%Z in Hnew by lia.
  replace (Z.of_nat (S (length hi)) - 1)%Z
    with (Z.of_nat (rank this)) in Hnew by lia.
  destruct (levelLength (Levels pts hi) (Z.of_nat (rank this) - 1))
    as [facets|] eqn:Hfacets; [|discriminate].
  destruct pts as [|first points]; [discriminate|].
  injection Hnew as <-. cbn [dimensions elementList spaceDimensions
                              construction].
  assert (Hrank : 1 <= rank this).
  { destruct (rank this) as [|r] eqn:Er; [|lia].
    destruct hi; [|discriminate]. discriminate Hfacets. }
  split; [exact Hrank|]. split; [reflexivity|].
  exists first, points, hi, facets. auto.
Qed.

Lemma toPolytopeC_shape_witness :
  exists P st',
    toPolytopeC square applyMat emptyStore = Done (P, st') /\
    1 <= rank square /\
    dimensions P = Z.of_nat (rank square) /\
    exists first points higher facets,
      elementList P = Levels (first :: points) higher /\
      length higher = rank square /\
      spaceDimensions P = Z.of_nat (dimensions_of first) /\
      levelLength (elementList P) (Z.of_nat (rank square) - 1)
        = Some facets /\
      construction P = CNPlain [Z.of_nat facets; Z.of_nat (rank square)].
Proof.
  do 2 eexists. split; [vm_compute; reflexivity|].
  eapply (toPolytopeC_shape square applyMat emptyStore _ _).
  vm_compute. reflexivity.
Defined.

(** X15.  Every vertex of the explicit polytope that [toPolytopeC] returns
    is the image, under an element that the group lists, of the vertex
    given for one of the flag classes. *)
Theorem toPolytopeC_vertices_are_images {T} (this : PolytopeS T)
    (applyMatrix : Point -> T -> Point) (st st' : Store T)
    (P : PolytopeC (option nat))
    (Hrun : toPolytopeC this applyMatrix st = Done (P, st')) :
  forall points higher, elementList P = Levels points higher ->
  forall Q, In Q points ->
    exists c g seed,
      c < length (flagClasses this) /\
      In g (enumerateElements (symmetries this)) /\
      nth_error (vertices this) c = Some seed /\
      Q = applyMatrix seed g.
Proof.
  unfold toPolytopeC in Hrun.
  apply bind_Done in Hrun as (u & st1 & _ & H).
  apply bind_Done in H as (asc & st2 & _ & H).
  apply bind_Done in H as (desc & st3 & _ & H).
  apply bind_Done in H as (els & st4 & _ & H).
  apply bind_Done in H as (ints & st5 & _ & H).
  apply bind_Done in H as (pts & st6 & Hpts & H).
  apply bind_Done in H as ([locs lens] & st7 & _ & H).
  apply bind_Done in H as (hi & st8 & _ & H).
  apply lift_inv in H as (_ & Hnew).
  apply newPolytopeC_dimensions in Hnew as [_ Hels].
  intros points higher HP. rewrite Hels in HP. injection HP as <- <-.
  intros Q HQ.
  destruct (buildVertices_images this applyMatrix els _ _ _ Hpts Q HQ)
    as (flag & seed & Hflag & Hseed & ->).
  unfold scan in Hflag. apply in_flat_map in Hflag as (g & Hg & Hflag).
  apply in_map_iff in Hflag as (c & <- & Hc). apply in_seq in Hc.
  cbn [classNumber domain] in *.
  exists c, g, seed. repeat split; auto. lia.
Qed.

Lemma toPolytopeC_vertices_are_images_witness :
  exists P st',
    toPolytopeC square applyMat emptyStore = Done (P, st') /\
    forall points higher, elementList P = Levels points higher ->
    forall Q, In Q points ->
      exists c g seed,
        c < length (flagClasses square) /\
        In g (enumerateElements (symmetries square)) /\
        nth_error (vertices square) c = Some seed /\
        Q = applyMat seed g.
Proof.
  do 2 eexists. split; [vm_compute; reflexivity|].
  eapply (toPolytopeC_vertices_are_images square applyMat emptyStore _ _).
  vm_compute. reflexivity.
Defined.

(** ** The order of the flags *)

Section FlagOrder.

Context {T : Type} (this : PolytopeS T).

Hypothesis compare_eq :
  forall x y : T, compare (symmetries this) x y = Eq <-> x = y.
Hypothesis compare_antisym :
  forall x y : T,
    compare (symmetries this) x y = CompOpp (compare (symmetries this) y x).
Hypothesis compare_trans :
  forall x y z : T,
    compare (symmetries this) x y = Lt -> compare (symmetries this) y z = Lt ->
    compare (symmetries this) x z = Lt.

Lemma compareFlags_Eq (f g : Flag T) : compareFlags this f g = Eq <-> f = g.
Proof.
  destruct f as [c d], g as [c' d']. unfold compareFlags. cbn [classNumber domain].
  destruct (c <? c') eqn:E1; [split; [discriminate|]|].
  - intros [= -> _]. rewrite Nat.ltb_irrefl in E1. discriminate.
  - destruct (c' <? c) eqn:E2; [split; [discriminate|]|].
    + intros [= -> _]. rewrite Nat.ltb_irrefl in E2. discriminate.
    + apply Nat.ltb_ge in E1, E2. rewrite compare_eq.
      split; [intros ->; f_equal; lia | now intros [= _ ->]].
Qed.

Lemma compareFlags_antisym (f g : Flag T) :
  compareFlags this f g = CompOpp (compareFlags this g f).
Proof.
  destruct f as [c d], g as [c' d']. unfold compareFlags. cbn [classNumber domain].
  destruct (c <? c') eqn:E1, (c' <? c) eqn:E2; try reflexivity.
  - apply Nat.ltb_lt in E1, E2. lia.
  - apply compare_antisym.
Qed.

Lemma compareFlags_trans (f g h : Flag T) :
  compareFlags this f g = Lt -> compareFlags this g h = Lt ->
  compareFlags this f h = Lt.
Proof.
  destruct f as [c d], g as [c' d'], h as [c'' d'']. unfold compareFlags.
  cbn [classNumber domain].
  destruct (Nat.ltb_spec c c'), (Nat.ltb_spec c' c), (Nat.ltb_spec c' c''),
    (Nat.ltb_spec c'' c'), (Nat.ltb_spec c c''), (Nat.ltb_spec c'' c);
    intros Hfg Hgh; try discriminate; try lia; try reflexivity.
  eapply compare_trans; eassumption.
Qed.

End FlagOrder.

(** X16.  When the comparator of the group answers [0] exactly on equal
    elements, is antisymmetric and is transitive, [compareFlags] has the
    same three properties on flags, so it is a total order. *)
Theorem compareFlags_total_order {T} (this : PolytopeS T)
    (Heq : forall x y : T, compare (symmetries this) x y = Eq <-> x = y)
    (Hantisym : forall x y : T,
        compare (symmetries this) x y
        = CompOpp (compare (symmetries this) y x))
    (Htrans : forall x y z : T,
        compare (symmetries this) x y = Lt ->
        compare (symmetries this) y z = Lt ->
        compare (symmetries this) x z = Lt) :
  (forall f g, compareFlags this f g = Eq <-> f = g) /\
  (forall f g, compareFlags this f g = CompOpp (compareFlags this g f)) /\
  (forall f g h, compareFlags this f g = Lt -> compareFlags this g h = Lt ->
                 compareFlags this f h = Lt).
Proof.
  split; [exact (compareFlags_Eq this Heq)|].
  split; [exact (compareFlags_antisym this Hantisym)|].
  exact (compareFlags_trans this Htrans).
Qed.

Lemma lexCompare_antisym (m n : Mat) :
  lexCompare m n = CompOpp (lexCompare n m).
Proof.
  destruct m as [[[a b] c] d], n as [[[e f] g] h]. unfold lexCompare.
  rewrite (Z.compare_antisym e a), (Z.compare_antisym f b),
    (Z.compare_antisym g c), (Z.compare_antisym h d).
  destruct (e ?= a)%Z, (f ?= b)%Z, (g ?= c)%Z, (h ?= d)%Z; reflexivity.
Qed.

Lemma lexCompare_trans (m n p : Mat) :
  lexCompare m n = Lt -> lexCompare n p = Lt -> lexCompare m p = Lt.
Proof.
  destruct m as [[[a b] c] d], n as [[[e f] g] h], p as [[[i j] k] l].
  unfold lexCompare.
  destruct (Z.compare_spec a e), (Z.compare_spec b f), (Z.compare_spec c g),
    (Z.compare_spec d h); try discriminate; intros _;
    destruct (Z.compare_spec e i), (Z.compare_spec f j),
      (Z.compare_spec g k), (Z.compare_spec h l); try discriminate;
    intros _; subst;
    repeat match goal with
           | |- context [(?x ?= ?y)%Z] =>
               destruct (Z.compare_spec x y); try lia; try reflexivity
           end.
Qed.

Lemma squareGroup_compare_antisym (x y : Mat) :
  compare (symmetries square) x y
  = CompOpp (compare (symmetries square) y x).
Proof. simpl. apply lexCompare_antisym. Qed.

Lemma squareGroup_compare_trans (x y z : Mat) :
  compare (symmetries square) x y = Lt ->
  compare (symmetries square) y z = Lt ->
  compare (symmetries square) x z = Lt.
Proof.
  simpl. intros H1 H2. exact (lexCompare_trans _ _ _ H2 H1).
Qed.

Lemma compareFlags_total_order_witness :
  (forall f g, compareFlags square f g = Eq <-> f = g) /\
  (forall f g, compareFlags square f g = CompOpp (compareFlags square g f)) /\
  (forall f g h, compareFlags square f g = Lt ->
                 compareFlags square g h = Lt ->
                 compareFlags square f h = Lt).
Proof.
  exact (compareFlags_total_order square squareGroup_compare_eq
           squareGroup_compare_antisym squareGroup_compare_trans).
Defined.

(** X17.  A call of [modifySimplifier] that returns has created one
    dictionary, which it returns; every flag that this dictionary maps to
    itself was mapped to itself by the first argument before the call; and
    no dictionary other than the first argument has changed. *)
Theorem modifySimplifier_representatives {T} (this : PolytopeS T)
    (s1 : ref) (s2 : ref + nat) (st st' : Store T) (b : ref)
    (Hcompare : forall x y : T,
        compare (symmetries this) x y = Eq <-> x = y)
    (Hrun : modifySimplifier this s1 s2 st = Done (b, st')) :
  b = length (maps st) /\
  length (maps st') = S (length (maps st)) /\
  (forall f, isRep this st' b f -> isRep this st s1 f) /\
  (forall r, r <> s1 -> r < length (maps st) ->
     nth_error (maps st') r = nth_error (maps st) r).
Proof.
  destruct (modifySimplifier_inv this Hcompare s1 s2 st st' b Hrun)
    as (Hb & _ & Hlen & _ & Hframe & Hshrink & Hsame).
  split; [exact Hb|]. split; [exact Hlen|]. split; [|exact Hframe].
  intros f Hf. apply Hshrink. now apply Hsame.
Qed.

Lemma modifySimplifier_representatives_witness :
  exists st b st',
    buildIdentity square emptyStore = Done (tt, st) /\
    modifySimplifier square 0 (inr 0) st = Done (b, st') /\
    b = length (maps st) /\
    length (maps st') = S (length (maps st)) /\
    (forall f, isRep square st' b f -> isRep square st 0 f) /\
    (forall r, r <> 0 -> r < length (maps st) ->
       nth_error (maps st') r = nth_error (maps st) r).
Proof.
  do 3 eexists. split; [vm_compute; reflexivity|].
  split; [vm_compute; reflexivity|].
  eapply (modifySimplifier_representatives square 0 (inr 0) _ _ _
            squareGroup_compare_eq).
  vm_compute. reflexivity.
Defined.

(** ** Conversions that return *)

Section Totality.

Context {T : Type} (this : PolytopeS T).

Hypothesis compare_eq :
  forall x y : T, compare (symmetries this) x y = Eq <-> x = y.
Hypothesis compare_antisym :
  forall x y : T,
    compare (symmetries this) x y = CompOpp (compare (symmetries this) y x).
Hypothesis compare_trans :
  forall x y z : T,
    compare (symmetries this) x y = Lt -> compare (symmetries this) y z = Lt ->
    compare (symmetries this) x z = Lt.

(** Every element change of a generator below the rank maps scanned flags
    to scanned flags. *)
Hypothesis moves_closed :
  forall f g, In f (scan this) -> g < rank this ->
    exists f', moveFlag this f g = Done f' /\ In f' (scan this).

(** The flag of class 0 and the identity is scanned, and no scanned flag
    comes before it. *)
Hypothesis sentinel_scanned : In (sentinel this) (scan this).
Hypothesis sentinel_least :
  forall f, In f (scan this) -> compareFlags this f (sentinel this) <> Lt.

Lemma notAfter_trans x y z :
  notAfter this x y -> notAfter this y z -> notAfter this x z.
Proof.
  intros [->|Hxy] [->|Hyz]; try (now left); try (now right).
  right. exact (compareFlags_trans this compare_trans _ _ _ Hxy Hyz).
Qed.

Lemma filter_length_lt {A} (p q : A -> bool) (l : list A) a :
  (forall x, p x = true -> q x = true) ->
  In a l -> q a = true -> p a = false ->
  length (filter p l) < length (filter q l).
Proof.
  intros Hpq. induction l as [|x l IH]; intros Hin Hq Hp; [contradiction|].
  assert (Hle : length (filter p l) <= length (filter q l)).
  { clear IH Hin. induction l as [|y l IHl]; simpl; [lia|].
    destruct (p y) eqn:Ey; [rewrite (Hpq y Ey); simpl; lia|].
    destruct (q y); simpl; lia. }
  simpl. destruct Hin as [->|Hin].
  - rewrite Hq, Hp. simpl. lia.
  - specialize (IH Hin Hq Hp).
    destruct (p x) eqn:Ex; [rewrite (Hpq x Ex); simpl; lia|].
    destruct (q x); simpl; lia.
Qed.

Lemma below_decreases m e e' :
  In e' (fm_keys m) -> compareFlags this e' e = Lt ->
  below this m e' < below this m e.
Proof.
  intros Hin Hlt. unfold below.
  apply (filter_length_lt _ _ _ e'); [|exact Hin| |].
  - intros x Hx. destruct (compareFlags this x e') eqn:E; try discriminate.
    now rewrite (compareFlags_trans this compare_trans _ _ _ E Hlt).
  - now rewrite Hlt.
  - destruct (compareFlags this e' e') eqn:E; try reflexivity.
    exfalso. exact (compareFlags_Lt_neq this compare_eq _ _ E eq_refl).
Qed.

Lemma below_le m e : below this m e <= length m.
Proof.
  unfold below, fm_keys.
  eapply Nat.le_trans; [apply filter_length_le|]. now rewrite length_map.
Qed.

Lemma resolve_same r fuel e (st : Store T) :
  resolve this fuel r e (Some e) st = Done (e, st).
Proof.
  destruct fuel; cbn [resolve];
    rewrite bind_defined_Some, (equalFlags_refl this compare_eq);
    reflexivity.
Qed.

Lemma resolve_total r m (st : Store T) :
  nth_error (maps st) r = Some m -> simplifierOver this m ->
  forall fuel old e,
    In e (scan this) -> below this m e < fuel ->
    exists x,
      resolve this fuel r old (Some e) st = Done (x, st) /\
      In x (scan this) /\ notAfter this x e /\
      ((x = e /\ old = e) \/ fm_get this m x = Some x).
Proof.
  intros Hr [Hpart Htotal].
  assert (Hlen : r < length (maps st)).
  { apply nth_error_Some. congruence. }
  induction fuel as [|fuel IH]; intros old e He Hfuel; [lia|].
  cbn [resolve]. rewrite bind_defined_Some.
  destruct (equalFlags this old e) eqn:E.
  - apply (equalFlags_eq this compare_eq) in E. subst old.
    exists e. split; [reflexivity|]. split; [exact He|].
    split; [now left | now left].
  - rewrite (bind_run (get_run this r e st Hlen)).
    unfold lookup. rewrite Hr.
    destruct (fm_get this m e) as [e'|] eqn:Ee;
      [|exfalso; exact (Htotal e He Ee)].
    destruct (Hpart e e' Ee) as (_ & He' & [->|Hlt]).
    + exists e. rewrite resolve_same.
      split; [reflexivity|]. split; [exact He|]. split; [now left|now right].
    + destruct (fm_get this m e') as [e''|] eqn:Ee';
        [|exfalso; exact (Htotal e' He' Ee')].
      pose proof (fm_get_keys this compare_eq m e' e'' Ee') as Hkey.
      pose proof (below_decreases m e e' Hkey Hlt) as Hdec.
      destruct (IH e e' He' ltac:(lia)) as (x & Hrun & Hx & Hxe & Hfix).
      exists x. split; [exact Hrun|]. split; [exact Hx|].
      split; [exact (notAfter_trans _ _ _ Hxe (or_intror Hlt))|].
      right. destruct Hfix as [[-> Heq]|Hfix]; [|exact Hfix].
      exfalso. subst e'.
      exact (compareFlags_Lt_neq this compare_eq _ _ Hlt eq_refl).
Qed.

(** *** One call of [modifySimplifier] *)

Lemma sentinel_fixed m :
  simplifierOver this m -> fm_get this m (sentinel this) = Some (sentinel this).
Proof.
  intros [Hpart Htotal].
  destruct (fm_get this m (sentinel this)) as [v|] eqn:E;
    [|exfalso; exact (Htotal _ sentinel_scanned E)].
  destruct (Hpart _ _ E) as (_ & Hv & [->|Hlt]); [reflexivity|].
  exfalso. exact (sentinel_least v Hv Hlt).
Qed.

Lemma simplifierOver_set m k v :
  simplifierOver this m -> In k (scan this) -> In v (scan this) ->
  notAfter this v k -> simplifierOver this (fm_set this m k v).
Proof.
  intros [Hpart Htotal] Hk Hv Hvk. split.
  - intros k' v' Hget.
    destruct (flag_eq_dec this compare_eq k k') as [<-|Hneq].
    + rewrite (fm_get_set_same this compare_eq) in Hget.
      injection Hget as <-. auto.
    + rewrite (fm_get_set_other this compare_eq) in Hget by assumption.
      now apply Hpart.
  - intros k' Hk'.
    destruct (flag_eq_dec this compare_eq k k') as [<-|Hneq].
    + now rewrite (fm_get_set_same this compare_eq).
    + rewrite (fm_get_set_other this compare_eq) by assumption.
      now apply Htotal.
Qed.

Lemma set_run r key value (st : Store T) m :
  nth_error (maps st) r = Some m ->
  set this r key value st
  = Done (tt, mkStore (update_nth (maps st) r (fm_set this m key value))
                (identitySimplifier st)).
Proof.
  intros H. unfold set, bind, deref. rewrite H. reflexivity.
Qed.

Lemma deref_run r (st : Store T) m :
  nth_error (maps st) r = Some m -> deref r st = Done (m, st).
Proof. intros H. unfold deref. now rewrite H. Qed.

Lemma fuelFor_run r (st : Store T) m :
  nth_error (maps st) r = Some m -> fuelFor r st = Done (S (length m), st).
Proof.
  intros H. unfold fuelFor. now rewrite (bind_run (deref_run r st m H)).
Qed.

Lemma wellFormedFrom_update n (st : Store T) r m idS :
  wellFormedFrom this n st -> simplifierOver this m ->
  wellFormedFrom this n (mkStore (update_nth (maps st) r m) idS).
Proof.
  intros Hwf Hm r' m' Hr' Hget. cbn [maps] in Hget.
  destruct (Nat.eq_dec r r') as [<-|Hneq].
  - assert (Hlt : r < length (maps st)).
    { rewrite <- (length_update_nth (maps st) r m).
      apply nth_error_Some. congruence. }
    rewrite nth_error_update_nth_same in Hget by assumption.
    now injection Hget as <-.
  - rewrite nth_error_update_nth_other in Hget by assumption.
    exact (Hwf r' m' Hr' Hget).
Qed.

Lemma lookup_total n (st : Store T) r key :
  wellFormedFrom this n st -> n <= r < length (maps st) ->
  In key (scan this) ->
  exists m e, nth_error (maps st) r = Some m /\ simplifierOver this m /\
    fm_get this m key = Some e /\ lookup this st r key = Some e /\
    In e (scan this) /\ notAfter this e key.
Proof.
  intros Hwf [Hn Hr] Hkey.
  destruct (nth_error (maps st) r) as [m|] eqn:Em;
    [|apply nth_error_None in Em; lia].
  pose proof (Hwf r m Hn Em) as Hm.
  destruct (fm_get this m key) as [e|] eqn:Ee;
    [|exfalso; exact (proj2 Hm key Hkey Ee)].
  destruct (proj1 Hm key e Ee) as (_ & He & Hle).
  exists m, e. unfold lookup. rewrite Em. auto 10.
Qed.

Lemma lift_run {S A} (o : outcome A) (s : S) a :
  o = Done a -> lift o s = Done (a, s).
Proof. intros ->. reflexivity. Qed.

Lemma thisIdentitySimplifier_run (st : Store T) :
  @thisIdentitySimplifier T st = Done (identitySimplifier st, st).
Proof. reflexivity. Qed.

(** The part of [unionStep] after the three starting values are read. *)
Lemma unionTail_total n s1 (st : Store T) oldLeft oldRight left right :
  wellFormedFrom this n st -> n <= s1 < length (maps st) ->
  In left (scan this) -> In right (scan this) ->
  exists st',
    bind (fuelFor s1) (fun fuel =>
    bind (resolve this fuel s1 oldLeft (Some left)) (fun leftElem =>
    bind (resolve this fuel s1 oldRight (Some right)) (fun rightElem =>
      match compareFlags this leftElem rightElem with
      | Gt => set this s1 leftElem rightElem
      | Lt => set this s1 rightElem leftElem
      | Eq => ret tt
      end))) st = Done (tt, st') /\
    wellFormedFrom this n st' /\
    length (maps st') = length (maps st) /\
    identitySimplifier st' = identitySimplifier st.
Proof.
  intros Hwf Hs1 Hleft Hright.
  destruct (nth_error (maps st) s1) as [m1|] eqn:Hm1;
    [|apply nth_error_None in Hm1; lia].
  pose proof (Hwf s1 m1 (proj1 Hs1) Hm1) as Hover.
  rewrite (bind_run (fuelFor_run s1 st m1 Hm1)).
  pose proof (below_le m1 left) as Hbl. pose proof (below_le m1 right) as Hbr.
  destruct (resolve_total s1 m1 st Hm1 Hover (S (length m1)) oldLeft left
              Hleft ltac:(lia)) as (x & Hx & Hxs & _).
  destruct (resolve_total s1 m1 st Hm1 Hover (S (length m1)) oldRight right
              Hright ltac:(lia)) as (y & Hy & Hys & _).
  rewrite (bind_run Hx), (bind_run Hy).
  destruct (compareFlags this x y) eqn:Hc.
  - exists st. auto.
  - rewrite (set_run s1 y x st m1 Hm1). eexists. split; [reflexivity|].
    split; [|split; [apply length_update_nth | reflexivity]].
    apply wellFormedFrom_update; [exact Hwf|].
    apply simplifierOver_set; auto. now right.
  - rewrite (set_run s1 x y st m1 Hm1). eexists. split; [reflexivity|].
    split; [|split; [apply length_update_nth | reflexivity]].
    apply wellFormedFrom_update; [exact Hwf|].
    apply simplifierOver_set; auto. right.
    rewrite (compareFlags_antisym this compare_antisym), Hc. reflexivity.
Qed.

Lemma unionStep_total n s1 s2 key (st : Store T) :
  wellFormedFrom this n st -> n <= s1 < length (maps st) ->
  validArgument this n st s2 -> In key (scan this) ->
  exists st',
    unionStep this s1 s2 key st = Done (tt, st') /\
    wellFormedFrom this n st' /\
    length (maps st') = length (maps st) /\
    identitySimplifier st' = identitySimplifier st.
Proof.
  intros Hwf Hs1 Hs2 Hkey.
  destruct (lookup_total n st s1 key Hwf Hs1 Hkey)
    as (m1 & e1 & Hm1 & Hover1 & _ & Hl1 & He1 & _).
  unfold unionStep.
  destruct s2 as [r2|g]; cbn [validArgument] in Hs2.
  - destruct (lookup_total n st r2 key Hwf Hs2 Hkey)
      as (m2 & e2 & _ & _ & _ & Hl2 & He2 & _).
    rewrite !bind_assoc.
    rewrite (bind_run (get_run this s1 key st (proj2 Hs1))).
    rewrite !bind_assoc.
    rewrite (bind_run (get_run this r2 key st (proj2 Hs2))).
    rewrite bind_ret, Hl1, Hl2.
    exact (unionTail_total n s1 st _ _ e1 e2 Hwf Hs1 He1 He2).
  - destruct Hs2 as [Hg Hid].
    destruct (moves_closed _ g sentinel_scanned Hg) as (oldRight & Hmove & _).
    destruct (lookup_total n st _ key Hwf Hid Hkey)
      as (mi & ei & _ & _ & _ & Hli & Hei & _).
    destruct (moves_closed ei g Hei Hg) as (right & Hmove' & Hright).
    rewrite !bind_assoc.
    rewrite (bind_run (lift_run _ st _ Hmove)).
    rewrite !bind_assoc.
    rewrite (bind_run (thisIdentitySimplifier_run st)).
    rewrite !bind_assoc.
    rewrite (bind_run (get_run this _ key st (proj2 Hid))).
    rewrite Hli, !bind_assoc, bind_defined_Some, !bind_assoc.
    rewrite (bind_run (lift_run _ st _ Hmove')).
    rewrite bind_ret.
    exact (unionTail_total n s1 st _ _ ei right Hwf Hs1 Hei Hright).
Qed.

Lemma forEach_unionStep_total n s1 s2 : forall keys (st : Store T),
  wellFormedFrom this n st -> n <= s1 < length (maps st) ->
  validArgument this n st s2 ->
  (forall k, In k keys -> In k (scan this)) ->
  exists st',
    forEach keys (unionStep this s1 s2) st = Done (tt, st') /\
    wellFormedFrom this n st' /\
    length (maps st') = length (maps st) /\
    identitySimplifier st' = identitySimplifier st.
Proof.
  induction keys as [|key keys IH]; intros st Hwf Hs1 Hs2 Hkeys.
  - exists st. auto.
  - destruct (unionStep_total n s1 s2 key st Hwf Hs1 Hs2)
      as (st1 & Hrun & Hwf1 & Hlen1 & Hid1).
    { apply Hkeys. now left. }
    destruct (IH st1 Hwf1) as (st2 & Hrun2 & Hwf2 & Hlen2 & Hid2).
    + now rewrite Hlen1.
    + destruct s2 as [r2|g]; cbn [validArgument] in *;
        rewrite ?Hlen1, ?Hid1; exact Hs2.
    + intros k Hk. apply Hkeys. now right.
    + exists st2. cbn [forEach]. rewrite (bind_run Hrun).
      split; [exact Hrun2|]. split; [exact Hwf2|].
      split; congruence.
Qed.

Lemma update_nth_last {A} (l : list A) x y :
  update_nth (l ++ [x]) (length l) y = l ++ [y].
Proof. induction l as [|a l IH]; simpl; [reflexivity | now rewrite IH]. Qed.

Lemma nth_error_snoc_last {A} (l : list A) x :
  nth_error (l ++ [x]) (length l) = Some x.
Proof. rewrite nth_error_app2, Nat.sub_diag by lia. reflexivity. Qed.

Lemma cleanStep_total maps0 idS newS m mb key :
  nth_error maps0 newS = Some m -> simplifierOver this m ->
  In key (scan this) ->
  exists x,
    cleanStep this newS (length maps0) key (mkStore (maps0 ++ [mb]) idS)
    = Done (tt, mkStore (maps0 ++ [fm_set this mb key x]) idS) /\
    In x (scan this) /\ notAfter this x key /\ fm_get this m x = Some x.
Proof.
  intros Hm Hover Hkey.
  set (st := mkStore (maps0 ++ [mb]) idS).
  assert (Hlt : newS < length maps0) by (apply nth_error_Some; congruence).
  assert (Hm' : nth_error (maps st) newS = Some m).
  { cbn [maps st]. now rewrite nth_error_app1. }
  assert (Hlen : newS < length (maps st)).
  { cbn [maps st]. rewrite length_app. lia. }
  destruct (fm_get this m key) as [e|] eqn:Ee;
    [|exfalso; exact (proj2 Hover key Hkey Ee)].
  destruct (proj1 Hover key e Ee) as (_ & He & Hle).
  unfold cleanStep.
  rewrite (bind_run (get_run this newS key st Hlen)).
  unfold lookup. rewrite Hm', Ee.
  rewrite (bind_run (fuelFor_run newS st m Hm')).
  pose proof (below_le m e) as Hb.
  destruct (resolve_total newS m st Hm' Hover (S (length m))
              (mkFlag 0 (identity (symmetries this))) e He ltac:(lia))
    as (x & Hx & Hxs & Hxe & Hfix).
  rewrite (bind_run Hx).
  exists x. split.
  - rewrite (set_run (length maps0) key x st mb).
    + cbn [maps st identitySimplifier]. now rewrite update_nth_last.
    + cbn [maps st]. apply nth_error_snoc_last.
  - split; [exact Hxs|]. split; [exact (notAfter_trans _ _ _ Hxe Hle)|].
    destruct Hfix as [[-> Hold]|Hfix]; [|exact Hfix].
    rewrite <- Hold. exact (sentinel_fixed m Hover).
Qed.

Lemma cleanLoop_total maps0 idS newS m :
  nth_error maps0 newS = Some m -> simplifierOver this m ->
  forall keys mb,
    (forall k, In k keys -> In k (scan this)) ->
    cleanedFrom this m mb ->
    exists mb',
      forEach keys (cleanStep this newS (length maps0))
        (mkStore (maps0 ++ [mb]) idS)
      = Done (tt, mkStore (maps0 ++ [mb']) idS) /\
      cleanedFrom this m mb' /\
      forall k, In k keys \/ fm_get this mb k <> None ->
                fm_get this mb' k <> None.
Proof.
  intros Hm Hover.
  induction keys as [|key keys IH]; intros mb Hkeys Hclean.
  - exists mb. split; [reflexivity|]. split; [exact Hclean|].
    intros k [[]|Hk]. exact Hk.
  - destruct (cleanStep_total maps0 idS newS m mb key Hm Hover)
      as (x & Hrun & Hx & Hxk & Hfix).
    { apply Hkeys. now left. }
    destruct (IH (fm_set this mb key x)) as (mb' & Hrun' & Hclean' & Hcover).
    + intros k Hk. apply Hkeys. now right.
    + intros k v Hget.
      destruct (flag_eq_dec this compare_eq key k) as [<-|Hneq].
      * rewrite (fm_get_set_same this compare_eq) in Hget.
        injection Hget as <-. repeat split; auto. apply Hkeys. now left.
      * rewrite (fm_get_set_other this compare_eq) in Hget by assumption.
        now apply Hclean.
    + exists mb'. cbn [forEach]. rewrite (bind_run Hrun).
      split; [exact Hrun'|]. split; [exact Hclean'|].
      intros k Hk. apply Hcover.
      destruct (flag_eq_dec this compare_eq key k) as [<-|Hneq].
      * right. now rewrite (fm_get_set_same this compare_eq).
      * destruct Hk as [[Hk|Hk]|Hk]; [contradiction | now left|].
        right. now rewrite (fm_get_set_other this compare_eq).
Qed.

Lemma alloc_run m (st : Store T) :
  alloc m st
  = Done (length (maps st), mkStore (maps st ++ [m]) (identitySimplifier st)).
Proof. reflexivity. Qed.

Lemma fm_keys_get {U} (m : FlagMap T U) k :
  In k (fm_keys m) -> exists v, fm_get this m k = Some v.
Proof.
  unfold fm_keys. induction m as [|[k0 v0] m IH]; [contradiction|].
  cbn [map fst fm_get]. intros Hk.
  destruct (equalFlags this k0 k) eqn:E; [now exists v0|].
  destruct Hk as [->|Hk]; [|now apply IH].
  now rewrite (equalFlags_refl this compare_eq) in E.
Qed.

Lemma keys_scanned m k :
  simplifierOver this m -> In k (fm_keys m) -> In k (scan this).
Proof.
  intros [Hpart _] Hk. destruct (fm_keys_get m k Hk) as (v & Hv).
  exact (proj1 (Hpart k v Hv)).
Qed.

Lemma modifySimplifier_total n s1 s2 (st : Store T) :
  wellFormedFrom this n st -> n <= s1 < length (maps st) ->
  validArgument this n st s2 ->
  exists b st',
    modifySimplifier this s1 s2 st = Done (b, st') /\
    wellFormedFrom this n st' /\ idempotentAt this st' b.
Proof.
  intros Hwf Hs1 Hs2.
  destruct (nth_error (maps st) s1) as [m|] eqn:Hm;
    [|apply nth_error_None in Hm; lia].
  pose proof (Hwf s1 m (proj1 Hs1) Hm) as Hover.
  destruct (forEach_unionStep_total n s1 s2 (fm_keys m) st Hwf Hs1 Hs2)
    as (st1 & Hrun1 & Hwf1 & Hlen1 & Hid1).
  { intros k Hk. exact (keys_scanned m k Hover Hk). }
  destruct (nth_error (maps st1) s1) as [m'|] eqn:Hm';
    [|apply nth_error_None in Hm'; lia].
  pose proof (Hwf1 s1 m' (proj1 Hs1) Hm') as Hover'.
  destruct (cleanLoop_total (maps st1) (identitySimplifier st1) s1 m' Hm'
              Hover' (fm_keys m') [])
    as (mb & Hrun2 & Hclean & Hcover).
  { intros k Hk. exact (keys_scanned m' k Hover' Hk). }
  { intros k v Hget. discriminate Hget. }
  set (st2 := mkStore (maps st1 ++ [mb]) (identitySimplifier st1)).
  assert (Hrun : modifySimplifier this s1 s2 st
                 = Done (length (maps st1), st2)).
  { unfold modifySimplifier.
    rewrite (bind_run (deref_run s1 st m Hm)).
    rewrite (bind_run Hrun1).
    rewrite (bind_run (alloc_run [] st1)).
    assert (Hd : nth_error
                   (maps (mkStore (maps st1 ++ [[]]) (identitySimplifier st1)))
                   s1 = Some m').
    { cbn [maps]. rewrite nth_error_app1; [exact Hm' | lia]. }
    rewrite (bind_run (deref_run s1 _ m' Hd)).
    rewrite (bind_run Hrun2). reflexivity. }
  assert (Hmb : simplifierOver this mb).
  { split.
    - intros k v Hget. destruct (Hclean k v Hget) as (Hk & Hv & Hvk & _).
      auto.
    - intros k Hk. apply Hcover. left.
      destruct (fm_get this m' k) as [v|] eqn:Ev;
        [|exfalso; exact (proj2 Hover' k Hk Ev)].
      exact (fm_get_keys this compare_eq m' k v Ev). }
  exists (length (maps st1)), st2. split; [exact Hrun|]. split.
  - intros r mr Hr Hget. unfold st2 in Hget. cbn [maps] in Hget.
    destruct (Nat.lt_ge_cases r (length (maps st1))) as [Hlt|Hge].
    + rewrite nth_error_app1 in Hget by assumption.
      exact (Hwf1 r mr Hr Hget).
    + rewrite nth_error_app2 in Hget by assumption.
      destruct (r - length (maps st1)) as [|d]; [|destruct d; discriminate].
      injection Hget as <-. exact Hmb.
  - destruct (modifySimplifier_inv this compare_eq s1 s2 st st2 _ Hrun)
      as (_ & _ & _ & _ & _ & _ & Hsame).
    intros k Hk.
    assert (Hb : nth_error (maps st2) (length (maps st1)) = Some mb).
    { unfold st2. cbn [maps]. apply nth_error_snoc_last. }
    destruct (fm_get this mb k) as [x|] eqn:Ex;
      [|exfalso; exact (proj2 Hmb k Hk Ex)].
    exists x. unfold lookup at 1. rewrite Hb. split; [exact Ex|].
    apply Hsame. unfold isRep, lookup, st2. cbn [maps].
    rewrite nth_error_app1 by lia. rewrite Hm'.
    exact (proj2 (proj2 (proj2 (Hclean k x Ex)))).
Qed.

(** *** The simplifiers of a conversion *)

Lemma buildIdentity_total (st : Store T) :
  exists st1,
    buildIdentity this st = Done (tt, st1) /\
    identitySimplifier st1 = length (maps st) /\
    length (maps st1) = S (length (maps st)) /\
    wellFormedFrom this (length (maps st)) st1.
Proof.
  unfold buildIdentity.
  rewrite (bind_run (alloc_run [] st)).
  unfold setIdentitySimplifier. rewrite bind_assoc.
  unfold getS at 1. unfold bind at 1. unfold putS at 1. unfold bind at 1.
  cbn [maps].
  destruct (forEach_total
    (fun done (s : Store T) =>
       exists mb, s = mkStore (maps st ++ [mb]) (length (maps st)) /\
         (forall k v, fm_get this mb k = Some v -> v = k /\ In k done) /\
         (forall k, In k done -> fm_get this mb k <> None))
    (fun flag => bind (@thisIdentitySimplifier T)
                   (fun idS => set this idS flag flag))
    (scan this)) with (l := scan this) (done := @nil (Flag T))
    (s := mkStore (maps st ++ [[]]) (length (maps st))) as (s' & Hrun & mb & -> & Hid & Hcov).
  - intros done flag rest s Hfull (mb & -> & Hid & Hcov).
    rewrite (bind_run (thisIdentitySimplifier_run _)).
    cbn [identitySimplifier].
    rewrite (set_run (length (maps st)) flag flag _ mb).
    2:{ cbn [maps]. apply nth_error_snoc_last. }
    cbn [maps identitySimplifier]. rewrite update_nth_last.
    eexists. split; [reflexivity|].
    exists (fm_set this mb flag flag). split; [reflexivity|]. split.
    + intros k v Hget.
      destruct (flag_eq_dec this compare_eq flag k) as [<-|Hneq].
      * rewrite (fm_get_set_same this compare_eq) in Hget.
        injection Hget as <-. split; [reflexivity|].
        apply in_or_app. right. now left.
      * rewrite (fm_get_set_other this compare_eq) in Hget by assumption.
        destruct (Hid k v Hget). split; [assumption|].
        apply in_or_app. now left.
    + intros k Hk.
      destruct (flag_eq_dec this compare_eq flag k) as [<-|Hneq].
      * now rewrite (fm_get_set_same this compare_eq).
      * rewrite (fm_get_set_other this compare_eq) by assumption.
        apply in_app_or in Hk as [Hk|[Hk|[]]]; [now apply Hcov|contradiction].
  - reflexivity.
  - exists []. split; [reflexivity|]. split; [discriminate | intros k []].
  - exists (mkStore (maps st ++ [mb]) (length (maps st))). split; [exact Hrun|].
    split; [reflexivity|]. cbn [maps]. split; [rewrite length_app; simpl; lia|].
    intros r m Hr Hget. cbn [maps] in Hget.
    destruct (Nat.lt_ge_cases r (length (maps st))) as [Hlt|Hge];
      [lia|].
    rewrite nth_error_app2 in Hget by assumption.
    destruct (r - length (maps st)) as [|d]; [|destruct d; discriminate].
    injection Hget as <-. split.
    + intros k v Hk. destruct (Hid k v Hk) as [-> Hin].
      split; [exact Hin|]. split; [exact Hin | now left].
    + exact Hcov.
Qed.

Lemma seq_member start n done i rest :
  seq start n = done ++ i :: rest ->
  i = start + length done /\ i < start + n.
Proof.
  intros H. split; [exact (seq_split _ _ _ _ _ H)|].
  assert (Hin : In i (seq start n))
    by (rewrite H; apply in_or_app; right; now left).
  apply in_seq in Hin. lia.
Qed.

Lemma buildAscending_total n0 (st1 : Store T) :
  wellFormedFrom this n0 st1 -> identitySimplifier st1 = n0 ->
  n0 < length (maps st1) -> 1 <= rank this ->
  exists asc st2 aR,
    buildAscending this st1 = Done (asc, st2) /\
    wellFormedFrom this n0 st2 /\ identitySimplifier st2 = n0 /\
    length (maps st1) <= length (maps st2) /\
    length asc = S (rank this) /\
    (forall i r, nth_error asc i = Some r -> n0 <= r < length (maps st2)) /\
    nth_error asc (rank this) = Some aR /\
    S aR = length (maps st2) /\ idempotentAt this st2 aR /\
    (forall i r, i < rank this -> nth_error asc i = Some r -> r < aR).
Proof.
  intros Hwf Hid Hn0 Hrank. unfold buildAscending.
  rewrite (bind_run (thisIdentitySimplifier_run st1)). rewrite Hid.
  match goal with
  | |- context [bind (foldM ?ll ?bb ?bd) _ ?ss] =>
      destruct (foldM_total
        (fun done (acc : list ref * ref) (s : Store T) =>
           wellFormedFrom this n0 s /\ identitySimplifier s = n0 /\
           length (maps st1) <= length (maps s) /\
           length (fst acc) = S (length done) /\
           nth_error (fst acc) (length done) = Some (snd acc) /\
           (forall i r, nth_error (fst acc) i = Some r ->
              n0 <= r < length (maps s)) /\
           (done <> [] ->
              S (snd acc) = length (maps s) /\
              idempotentAt this s (snd acc) /\
              forall i r, i < length done ->
                nth_error (fst acc) i = Some r -> r < snd acc))
        bd ll) with (l := ll) (done := @nil nat) (b := bb) (s := ss)
        as ([asc last] & st2 & Hrun & Hwf2 & Hid2 & Hlen2 & Hasc & Hlast &
            Hvalid & Hfinal)
  end.
  - intros done i rest [asc last] s Hfull
      (Hwf' & Hid' & Hlen' & Hasc & Hlast & Hvalid & _).
    cbn [fst snd] in *.
    apply seq_member in Hfull as [-> Hi]. cbn [Nat.add] in *.
    destruct (modifySimplifier_total n0 last (inr (length done)) s Hwf')
      as (b & s' & Hrun & Hwf'' & Hidem).
    { exact (Hvalid _ _ Hlast). }
    { cbn [validArgument]. rewrite Hid'. split; [exact Hi | lia]. }
    destruct (modifySimplifier_inv this compare_eq _ _ _ _ _ Hrun)
      as (-> & _ & Hgrow & Hid'' & _).
    unfold extendSimplifier. rewrite (bind_run Hrun).
    eexists. eexists. split; [reflexivity|]. cbn [fst snd].
    split; [exact Hwf''|]. split; [congruence|]. split; [lia|].
    rewrite !length_app. cbn [length].
    split; [lia|]. split.
    { rewrite nth_error_app2 by lia.
      replace (length done + 1 - length asc) with 0 by lia. reflexivity. }
    split.
    { intros j r Hj.
      destruct (Nat.lt_ge_cases j (length asc)) as [Hlt|Hge].
      - rewrite nth_error_app1 in Hj by assumption.
        specialize (Hvalid j r Hj). lia.
      - rewrite nth_error_app2 in Hj by assumption.
        destruct (j - length asc) as [|d]; [|destruct d; discriminate].
        injection Hj as <-. lia. }
    intros _. split; [lia|]. split; [exact Hidem|].
    intros j r Hj Hr.
    rewrite nth_error_app1 in Hr by lia.
    specialize (Hvalid j r Hr). lia.
  - reflexivity.
  - cbn [fst snd length]. split; [exact Hwf|]. split; [exact Hid|].
    split; [lia|]. split; [reflexivity|]. split; [reflexivity|].
    split; [|intros Hne; contradiction].
    intros i r Hi. destruct i as [|i]; [|destruct i; discriminate].
    injection Hi as <-. lia.
  - cbn [fst snd] in *. rewrite length_seq in *.
    destruct Hfinal as (HaR & Hidem & Hbelow).
    { destruct (rank this); [lia | discriminate]. }
    exists asc, st2, last. rewrite (bind_run Hrun).
    split; [reflexivity|]. split; [exact Hwf2|]. split; [exact Hid2|].
    split; [exact Hlen2|]. split; [exact Hasc|]. split; [exact Hvalid|].
    split; [exact Hlast|]. split; [exact HaR|].
    split; [exact Hidem | exact Hbelow].
Qed.

Lemma pick_run {A} (l : list A) i (st : Store T) a :
  nthZ l i = Some a -> pick l i st = Done (a, st).
Proof. intros H. unfold pick. now rewrite H. Qed.

Lemma idempotentAt_frame (s s' : Store T) p :
  nth_error (maps s') p = nth_error (maps s) p ->
  idempotentAt this s p -> idempotentAt this s' p.
Proof.
  intros Hsame Hidem k Hk. destruct (Hidem k Hk) as (x & H1 & H2).
  exists x. unfold lookup in *. rewrite Hsame. auto.
Qed.

Lemma buildDescending_total n0 (st2 : Store T) :
  wellFormedFrom this n0 st2 -> identitySimplifier st2 = n0 ->
  n0 < length (maps st2) -> 1 <= rank this ->
  exists desc st3,
    buildDescending this st2 = Done (desc, st3) /\
    wellFormedFrom this n0 st3 /\ identitySimplifier st3 = n0 /\
    length (maps st2) <= length (maps st3) /\
    length desc = S (rank this) /\
    (forall i r, nth_error desc i = Some r -> n0 <= r < length (maps st3)) /\
    (forall r', r' < length (maps st2) -> r' <> n0 ->
       nth_error (maps st3) r' = nth_error (maps st2) r').
Proof.
  intros Hwf Hid Hn0 Hrank. unfold buildDescending.
  rewrite (bind_run (thisIdentitySimplifier_run st2)). rewrite Hid.
  match goal with
  | |- context [foldM ?ll ?bb ?bd ?ss] =>
      destruct (foldM_total
        (fun done (desc : list ref) (s : Store T) =>
           wellFormedFrom this n0 s /\ identitySimplifier s = n0 /\
           length (maps st2) <= length (maps s) /\
           length desc = S (length done) /\
           (forall i r, nth_error desc i = Some r ->
              n0 <= r < length (maps s) /\
              (r = n0 \/ length (maps st2) <= r)) /\
           (forall r', r' < length (maps st2) -> r' <> n0 ->
              nth_error (maps s) r' = nth_error (maps st2) r'))
        bd ll) with (l := ll) (done := @nil nat) (b := bb) (s := ss)
        as (desc & st3 & Hrun & Hwf3 & Hid3 & Hlen3 & Hdesc & Hvalid & Hframe)
  end.
  - intros done i rest desc s Hfull
      (Hwf' & Hid' & Hlen' & Hdesc & Hvalid & Hframe).
    apply seq_member in Hfull as [-> Hi]. cbn [Nat.add] in *.
    destruct (nth_error desc (length desc - 1)) as [lastS|] eqn:Hlast;
      [|apply nth_error_None in Hlast; lia].
    destruct (Hvalid _ _ Hlast) as [HlastV Hwhere].
    assert (Hpick : nthZ desc (Z.of_nat (length desc) - 1) = Some lastS).
    { replace (Z.of_nat (length desc) - 1)%Z
        with (Z.of_nat (length desc - 1)) by lia.
      rewrite nthZ_of_nat. exact Hlast. }
    rewrite (bind_run (pick_run desc _ s lastS Hpick)).
    destruct (modifySimplifier_total n0 lastS
                (inr (rank this - (length done + 1))) s Hwf' HlastV)
      as (b & s' & Hrun & Hwf'' & _).
    { cbn [validArgument]. rewrite Hid'. split; lia. }
    destruct (modifySimplifier_inv this compare_eq _ _ _ _ _ Hrun)
      as (-> & _ & Hgrow & Hid'' & Hfr & _).
    unfold extendSimplifier. rewrite (bind_run Hrun).
    eexists. eexists. split; [reflexivity|].
    split; [exact Hwf''|]. split; [congruence|]. split; [lia|].
    rewrite !length_app. cbn [length]. split; [lia|]. split.
    + intros j r Hj.
      destruct (Nat.lt_ge_cases j (length desc)) as [Hlt|Hge].
      * rewrite nth_error_app1 in Hj by assumption.
        destruct (Hvalid j r Hj). split; [lia | assumption].
      * rewrite nth_error_app2 in Hj by assumption.
        destruct (j - length desc) as [|d]; [|destruct d; discriminate].
        injection Hj as <-. split; [lia | right; lia].
    + intros r' Hr' Hne. rewrite Hfr; [now apply Hframe| |lia].
      destruct Hwhere as [->|Hge]; [congruence | lia].
  - reflexivity.
  - cbn [length]. split; [exact Hwf|]. split; [exact Hid|]. split; [lia|].
    split; [reflexivity|]. split; [|auto].
    intros i r Hi. destruct i as [|i]; [|destruct i; discriminate].
    injection Hi as <-. split; [lia | now left].
  - rewrite length_seq in Hdesc.
    exists desc, st3. split; [exact Hrun|]. split; [exact Hwf3|].
    split; [exact Hid3|]. split; [exact Hlen3|]. split; [exact Hdesc|].
    split; [|exact Hframe].
    intros i r Hi. exact (proj1 (Hvalid i r Hi)).
Qed.

(** The merges of [buildElementSimplifiers] (with [off = 1]) and of
    [buildIntersectionSimplifiers] (with [off = 2]). *)
Lemma merges_total n0 aR asc desc (off : Z) c (st : Store T) :
  wellFormedFrom this n0 st ->
  length asc = S (rank this) -> length desc = S (rank this) ->
  (forall i r, nth_error asc i = Some r -> n0 <= r < length (maps st)) ->
  (forall i r, nth_error desc i = Some r -> n0 <= r < length (maps st)) ->
  (forall i r, i < rank this -> nth_error asc i = Some r -> r < aR) ->
  (1 <= off)%Z -> (Z.of_nat c + off <= Z.of_nat (rank this) + 1)%Z ->
  exists els st',
    foldM (seq 0 c) [] (fun els i =>
      bind (pick asc (Z.of_nat i)) (fun s1 =>
      bind (pick desc (Z.of_nat (rank this) - (Z.of_nat i + off))%Z)
        (fun s2 =>
      bind (mergeSimplifiers this s1 s2) (fun simplifier =>
      ret (els ++ [Some simplifier]))))) st = Done (els, st') /\
    wellFormedFrom this n0 st' /\
    length (maps st) <= length (maps st') /\
    identitySimplifier st' = identitySimplifier st /\
    length els = c /\
    (forall p, aR <= p < length (maps st) ->
       idempotentAt this st p -> idempotentAt this st' p) /\
    (forall k e, nth_error els k = Some e ->
       exists r, e = Some r /\ n0 <= r /\
         length (maps st) <= r < length (maps st') /\
         idempotentAt this st' r).
Proof.
  intros Hwf Hasc Hdesc HascV HdescV Hbelow Hoff Hc.
  match goal with
  | |- context [foldM ?ll ?bb ?bd ?ss] =>
      destruct (foldM_total
        (fun done (els : list (option ref)) (s : Store T) =>
           wellFormedFrom this n0 s /\
           length (maps st) <= length (maps s) /\
           identitySimplifier s = identitySimplifier st /\
           length els = length done /\
           (forall p, aR <= p < length (maps st) ->
              idempotentAt this st p -> idempotentAt this s p) /\
           (forall k e, nth_error els k = Some e ->
              exists r, e = Some r /\ n0 <= r /\
                length (maps st) <= r < length (maps s) /\
                idempotentAt this s r))
        bd ll) with (l := ll) (done := @nil nat) (b := bb) (s := ss)
        as (els & st' & Hrun & Hwf' & Hlen' & Hid' & Hels & Hprot & Hnew)
  end.
  - intros done i rest els s Hfull
      (Hwf' & Hlen' & Hid' & Hels & Hprot & Hnew).
    apply seq_member in Hfull as [-> Hi]. cbn [Nat.add] in *.
    destruct (nth_error asc (length done)) as [s1|] eqn:Hs1;
      [|apply nth_error_None in Hs1; lia].
    assert (Hpick1 : nthZ asc (Z.of_nat (length done)) = Some s1).
    { rewrite nthZ_of_nat. exact Hs1. }
    rewrite (bind_run (pick_run asc _ s s1 Hpick1)).
    set (j := Z.to_nat (Z.of_nat (rank this) - (Z.of_nat (length done) + off))).
    destruct (nth_error desc j) as [s2|] eqn:Hs2;
      [|apply nth_error_None in Hs2; unfold j in Hs2; lia].
    assert (Hpick2 : nthZ desc (Z.of_nat (rank this)
                                - (Z.of_nat (length done) + off)) = Some s2).
    { unfold nthZ.
      destruct (Z.ltb_spec (Z.of_nat (rank this)
                            - (Z.of_nat (length done) + off)) 0);
        [lia | exact Hs2]. }
    rewrite (bind_run (pick_run desc _ s s2 Hpick2)).
    pose proof (HascV _ _ Hs1) as Hs1V. pose proof (HdescV _ _ Hs2) as Hs2V.
    destruct (modifySimplifier_total n0 s1 (inl s2) s Hwf')
      as (b & s' & Hrun & Hwf'' & Hidem).
    { lia. }
    { cbn [validArgument]. lia. }
    destruct (modifySimplifier_inv this compare_eq _ _ _ _ _ Hrun)
      as (-> & _ & Hgrow & Hid'' & Hfr & _).
    unfold mergeSimplifiers. rewrite (bind_run Hrun).
    assert (Hs1a : s1 < aR) by (apply (Hbelow (length done)); [lia|exact Hs1]).
    eexists. eexists. split; [reflexivity|].
    split; [exact Hwf''|]. split; [lia|]. split; [congruence|].
    rewrite !length_app. cbn [length]. split; [lia|]. split.
    + intros p Hp Hidp. apply (idempotentAt_frame s); [|now apply Hprot].
      apply Hfr; lia.
    + intros k e Hk.
      destruct (Nat.lt_ge_cases k (length els)) as [Hlt|Hge].
      * rewrite nth_error_app1 in Hk by assumption.
        destruct (Hnew k e Hk) as (r & -> & Hr0 & Hr & Hidr).
        exists r. split; [reflexivity|]. split; [exact Hr0|].
        split; [lia|].
        apply (idempotentAt_frame s); [|exact Hidr]. apply Hfr; lia.
      * rewrite nth_error_app2 in Hk by assumption.
        destruct (k - length els) as [|d]; [|destruct d; discriminate].
        injection Hk as <-. eexists. split; [reflexivity|].
        split; [lia|]. split; [lia | exact Hidem].
  - reflexivity.
  - split; [exact Hwf|]. split; [lia|]. split; [reflexivity|].
    split; [reflexivity|]. split; [auto|].
    intros k e Hk. destruct k; discriminate.
  - rewrite length_seq in Hels. exists els, st'. auto 10.
Qed.

(** *** Reading the elements off the simplifiers *)

(** Every flag class has a seed vertex. *)
Hypothesis seeds : length (flagClasses this) <= length (vertices this).

Lemma simplifierAt_run l i (st : Store T) s :
  nthZ l i = Some (Some s) -> simplifierAt l i st = Done (s, st).
Proof.
  intros H. unfold simplifierAt. rewrite (bind_run (pick_run l i st _ H)).
  reflexivity.
Qed.

Lemma isRepresentative_total n0 (st : Store T) r flag :
  wellFormedFrom this n0 st -> n0 <= r < length (maps st) ->
  In flag (scan this) ->
  exists b, isRepresentative this r flag st = Done (b, st).
Proof.
  intros Hwf Hr Hflag.
  destruct (lookup_total n0 st r flag Hwf Hr Hflag)
    as (m & e & _ & _ & _ & Hl & _).
  unfold isRepresentative.
  rewrite (bind_run (get_run this r flag st (proj2 Hr))), Hl.
  rewrite bind_defined_Some. eexists. reflexivity.
Qed.

Lemma scan_class flag :
  In flag (scan this) -> classNumber flag < length (flagClasses this).
Proof.
  unfold scan. intros H. apply in_flat_map in H as (d & _ & H).
  apply in_map_iff in H as (j & <- & Hj). apply in_seq in Hj.
  cbn [classNumber]. lia.
Qed.

Lemma buildVertices_total applyMatrix n0 (st : Store T) els P :
  wellFormedFrom this n0 st -> 1 <= rank this ->
  simplifiersReady n0 st P els (rank this + 1) ->
  exists points, buildVertices this applyMatrix els st = Done (points, st).
Proof.
  intros Hwf Hrank Hels. unfold buildVertices.
  destruct (Hels 0 ltac:(lia)) as (e0 & He0 & He0V & _).
  match goal with
  | |- context [foldM ?ll ?bb ?bd ?ss] =>
      destruct (foldM_total
        (fun _ (_ : list Point) (s : Store T) => s = st)
        bd ll) with (l := ll) (done := @nil (Flag T)) (b := bb) (s := ss)
        as (points & st' & Hrun & ->)
  end.
  - intros done flag rest pts s Hfull ->.
    assert (Hflag : In flag (scan this))
      by (rewrite Hfull; apply in_or_app; right; now left).
    rewrite (bind_run (simplifierAt_run els 0%Z st e0 He0)).
    destruct (isRepresentative_total n0 st e0 flag Hwf He0V Hflag)
      as (b & Hb).
    rewrite (bind_run Hb). destruct b.
    + pose proof (scan_class flag Hflag) as Hclass.
      destruct (nth_error (vertices this) (classNumber flag)) as [seed|]
        eqn:Hseed; [|apply nth_error_None in Hseed; lia].
      rewrite bind_defined_Some. eexists. eexists. split; reflexivity.
    + eexists. eexists. split; reflexivity.
  - reflexivity.
  - reflexivity.
  - exists points. exact Hrun.
Qed.

Lemma locationsRow_total n0 (st : Store T) els P i :
  wellFormedFrom this n0 st ->
  simplifiersReady n0 st P els (rank this + 1) -> i < rank this + 1 ->
  exists row next,
    foldM (scan this) ([], 0) (fun '(row, nextID) flag =>
      bind (simplifierAt els (Z.of_nat i)) (fun s =>
      bind (isRepresentative this s flag) (fun b =>
        if b then ret (fm_set this row flag nextID, S nextID)
        else ret (row, nextID)))) st = Done ((row, next), st) /\
    forall f, In f (scan this) -> representativeAt this st els i f = true ->
      fm_get this row f <> None.
Proof.
  intros Hwf Hels Hi.
  destruct (Hels i Hi) as (e & He & HeV & _).
  match goal with
  | |- context [foldM ?ll ?bb ?bd ?ss] =>
      destruct (foldM_total
        (fun done (acc : FlagMap T nat * nat) (s : Store T) =>
           s = st /\
           forall f, In f done -> representativeAt this st els i f = true ->
             fm_get this (fst acc) f <> None)
        bd ll) with (l := ll) (done := @nil (Flag T)) (b := bb) (s := ss)
        as ([row next] & st' & Hrun & -> & Hcov)
  end.
  - intros done flag rest [row next] s Hfull (-> & Hcov). cbn [fst] in *.
    assert (Hflag : In flag (scan this))
      by (rewrite Hfull; apply in_or_app; right; now left).
    assert (Hat : simplifierAt els (Z.of_nat i) st = Done (e, st)).
    { apply simplifierAt_run. now rewrite nthZ_of_nat. }
    destruct (isRepresentative_total n0 st e flag Hwf HeV Hflag) as (b & Hb).
    destruct (scan_test this els i flag _ _ _ _ _ Hat Hb) as (_ & _ & Hbv).
    rewrite (bind_run Hat), (bind_run Hb).
    destruct b; (eexists; eexists; split; [reflexivity|]);
      (split; [reflexivity|]); cbn [fst]; intros f Hf Hrep.
    + destruct (flag_eq_dec this compare_eq flag f) as [<-|Hneq].
      * now rewrite (fm_get_set_same this compare_eq).
      * rewrite (fm_get_set_other this compare_eq) by assumption.
        apply in_app_or in Hf as [Hf|[Hf|[]]];
          [now apply Hcov | contradiction].
    + apply in_app_or in Hf as [Hf|[<-|[]]]; [now apply Hcov|].
      congruence.
  - reflexivity.
  - split; [reflexivity|]. intros f [].
  - exists row, next. auto.
Qed.

Lemma buildLocations_total n0 (st : Store T) els P :
  wellFormedFrom this n0 st ->
  simplifiersReady n0 st P els (rank this + 1) ->
  exists locs lens,
    buildLocations this els st = Done ((locs, lens), st) /\
    rowsReady this st els locs lens.
Proof.
  intros Hwf Hels. unfold buildLocations.
  match goal with
  | |- context [foldM ?ll ?bb ?bd ?ss] =>
      destruct (foldM_total
        (fun done (acc : list (FlagMap T nat) * list nat) (s : Store T) =>
           s = st /\ length (fst acc) = length done /\
           forall k, k < length done ->
             exists row, nth_error (fst acc) k = Some row /\
               forall f, In f (scan this) ->
                 representativeAt this st els k f = true ->
                 fm_get this row f <> None)
        bd ll) with (l := ll) (done := @nil nat) (b := bb) (s := ss)
        as ([locs lens] & st' & Hrun & -> & Hlen & Hcov)
  end.
  - intros done i rest [locs lens] s Hfull (-> & Hlen & Hcov).
    cbn [fst] in *.
    apply seq_member in Hfull as [-> Hi]. cbn [Nat.add] in *.
    destruct (locationsRow_total n0 st els P (length done) Hwf Hels Hi)
      as (row & next & Hrow & Hrowcov).
    rewrite (bind_run Hrow).
    eexists. eexists. split; [reflexivity|]. cbn [fst].
    split; [reflexivity|]. unfold FlagMap in *.
    rewrite !length_app. cbn [length]. split; [lia|].
    intros k Hk.
    destruct (Nat.eq_dec k (length done)) as [->|Hneq].
    + exists row. rewrite nth_error_app2 by lia.
      rewrite Hlen, Nat.sub_diag. split; [reflexivity | exact Hrowcov].
    + rewrite nth_error_app1 by lia. apply Hcov. lia.
  - reflexivity.
  - split; [reflexivity|]. split; [reflexivity|]. intros k Hk. simpl in Hk. lia.
  - exists locs, lens. split; [exact Hrun|].
    destruct (buildLocations_count this els st st locs lens Hrun)
      as (_ & Hcount).
    rewrite length_seq in Hcov. cbn [fst] in Hcov.
    intros k Hk. destruct (Hcount k Hk) as (Hn & row & Hrow & Hbound).
    destruct (Hcov k Hk) as (row' & Hrow' & Hrowcov).
    unfold FlagMap in *. rewrite Hrow in Hrow'. injection Hrow' as <-.
    exists row, (representatives this st els k). auto.
Qed.

Lemma fixed_representativeAt (st : Store T) els k r f :
  nth_error els k = Some (Some r) -> lookup this st r f = Some f ->
  representativeAt this st els k f = true.
Proof.
  intros Hk Hf. unfold representativeAt. rewrite Hk, Hf.
  exact (equalFlags_refl this compare_eq f).
Qed.

Lemma buildElements_total n0 (st : Store T) els ints locs lens i :
  wellFormedFrom this n0 st ->
  simplifiersReady n0 st (idempotentAt this st) els (rank this + 1) ->
  simplifiersReady n0 st (fun _ => True) ints (rank this) ->
  rowsReady this st els locs lens ->
  1 <= i <= rank this ->
  exists elements,
    buildElements this els ints locs lens (Z.of_nat i) st
    = Done (elements, st) /\
    forall row, In row elements -> forall y, In y row -> y <> None.
Proof.
  intros Hwf Hels Hints Hrows Hi. unfold buildElements.
  destruct (Hrows i ltac:(lia)) as (rowr & n & Hrowr & Hn & Hboundr & Hcovr).
  destruct (Hrows (i - 1) ltac:(lia))
    as (rowl & nl & Hrowl & _ & _ & Hcovl).
  destruct (Hels i ltac:(lia)) as (sr & Hsr & HsrV & Hidr).
  destruct (Hels (i - 1) ltac:(lia)) as (sl & Hsl & HslV & Hidl).
  destruct (Hints (i - 1) ltac:(lia)) as (sx & Hsx & HsxV & _).
  replace (Z.of_nat i - 1)%Z with (Z.of_nat (i - 1)) by lia.
  assert (Hlen : nthZ lens (Z.of_nat i) = Some n)
    by (now rewrite nthZ_of_nat).
  rewrite Hlen, bind_defined_Some.
  match goal with
  | |- context [foldM ?ll ?bb ?bd ?ss] =>
      destruct (foldM_total
        (fun _ (elements : list (list (option nat))) (s : Store T) =>
           s = st /\ length elements = n /\
           forall row, In row elements -> forall y, In y row -> y <> None)
        bd ll) with (l := ll) (done := @nil (Flag T)) (b := bb) (s := ss)
        as (elements & st' & Hrun & -> & _ & Hdef)
  end.
  - intros done flag rest elements s Hfull (-> & Hcount & Hdef).
    assert (Hflag : In flag (scan this))
      by (rewrite Hfull; apply in_or_app; right; now left).
    rewrite (bind_run (simplifierAt_run ints _ st sx
               ltac:(rewrite nthZ_of_nat; exact Hsx))).
    destruct (isRepresentative_total n0 st sx flag Hwf HsxV Hflag)
      as (b & Hb).
    rewrite (bind_run Hb).
    destruct b; [|eexists; eexists; split; [reflexivity | auto]].
    rewrite (bind_run (simplifierAt_run els _ st sl
               ltac:(rewrite nthZ_of_nat; exact Hsl))).
    rewrite (bind_run (simplifierAt_run els _ st sr
               ltac:(rewrite nthZ_of_nat; exact Hsr))).
    rewrite (bind_run (get_run this sl flag st (proj2 HslV))).
    rewrite (bind_run (get_run this sr flag st (proj2 HsrV))).
    destruct (Hidl flag Hflag) as (lf & Hlf & Hlfix).
    destruct (Hidr flag Hflag) as (rf & Hrf & Hrfix).
    rewrite Hlf, Hrf, bind_defined_Some.
    rewrite (bind_run (pick_run locs _ st rowl
               ltac:(rewrite nthZ_of_nat; exact Hrowl))).
    cbv beta zeta. rewrite bind_defined_Some.
    rewrite (bind_run (pick_run locs _ st rowr
               ltac:(rewrite nthZ_of_nat; exact Hrowr))).
    destruct (lookup_total n0 st sl flag Hwf HslV Hflag)
      as (_ & lf' & _ & _ & _ & Hlf' & Hlfs & _).
    destruct (lookup_total n0 st sr flag Hwf HsrV Hflag)
      as (_ & rf' & _ & _ & _ & Hrf' & Hrfs & _).
    rewrite Hlf in Hlf'. injection Hlf' as <-.
    rewrite Hrf in Hrf'. injection Hrf' as <-.
    pose proof (Hcovl lf Hlfs
                  (fixed_representativeAt st els (i - 1) sl lf Hsl Hlfix))
      as Hleft.
    pose proof (Hcovr rf Hrfs
                  (fixed_representativeAt st els i sr rf Hsr Hrfix))
      as Hright.
    destruct (fm_get this rowr rf) as [idr|] eqn:Eidr; [|contradiction].
    pose proof (Hboundr rf idr Eidr) as Hidr_lt.
    unfold pushAt.
    destruct (nth_error elements idr) as [row|] eqn:Erow;
      [|apply nth_error_None in Erow; lia].
    eexists. eexists. split; [reflexivity|].
    split; [reflexivity|]. split; [now rewrite length_update_nth|].
    intros row' Hrow' y Hy.
    apply In_update_nth in Hrow' as [Hrow'| ->];
      [exact (Hdef row' Hrow' y Hy)|].
    apply in_app_or in Hy as [Hy|[<-|[]]].
    + apply nth_error_In in Erow. exact (Hdef row Erow y Hy).
    + exact Hleft.
  - reflexivity.
  - split; [reflexivity|]. split; [apply repeat_length|].
    intros row Hrow. apply repeat_spec in Hrow. subst row. intros y [].
  - exists elements. auto.
Qed.

Lemma buildHigher_total n0 (st : Store T) els ints locs lens :
  wellFormedFrom this n0 st ->
  simplifiersReady n0 st (idempotentAt this st) els (rank this + 1) ->
  simplifiersReady n0 st (fun _ => True) ints (rank this) ->
  rowsReady this st els locs lens ->
  exists higher,
    buildHigher this els ints locs lens st = Done (higher, st) /\
    forall elements, In elements higher ->
      forall row, In row elements -> forall y, In y row -> y <> None.
Proof.
  intros Hwf Hels Hints Hrows. unfold buildHigher.
  match goal with
  | |- context [foldM ?ll ?bb ?bd ?ss] =>
      destruct (foldM_total
        (fun _ (higher : list (list (list (option nat)))) (s : Store T) =>
           s = st /\
           forall elements, In elements higher ->
             forall row, In row elements -> forall y, In y row -> y <> None)
        bd ll) with (l := ll) (done := @nil nat) (b := bb) (s := ss)
        as (higher & st' & Hrun & -> & Hdef)
  end.
  - intros done i rest higher s Hfull (-> & Hdef).
    apply seq_member in Hfull as [Hi Hi'].
    destruct (buildElements_total n0 st els ints locs lens i Hwf Hels Hints
                Hrows ltac:(lia)) as (elements & Hrun & Hel).
    rewrite (bind_run Hrun).
    eexists. eexists. split; [reflexivity|]. split; [reflexivity|].
    intros elements' Hin. apply in_app_or in Hin as [Hin|[<-|[]]].
    + now apply Hdef.
    + exact Hel.
  - reflexivity.
  - split; [reflexivity|]. intros elements [].
  - exists higher. auto.
Qed.

Lemma newPolytopeC_total {I} (P0 : Point) points
    (higher : list (list (list I))) :
  higher <> [] ->
  exists P, newPolytopeC (Levels (P0 :: points) higher) None = Done P.
Proof.
  intros Hne. unfold newPolytopeC. cbn [levels].
  destruct (levelLength (Levels (P0 :: points) higher)
              (Z.of_nat (S (length higher)) - 2)) as [n|] eqn:E.
  - eexists. reflexivity.
  - exfalso. unfold levelLength in E.
    destruct (Z.eqb_spec (Z.of_nat (S (length higher)) - 2) 0) as [|Hnz];
      [discriminate|].
    destruct higher as [|h0 higher]; [contradiction|].
    cbn [length] in *.
    replace (Z.of_nat (S (S (length higher))) - 2 - 1)%Z
      with (Z.of_nat (length higher - 1)) in E by lia.
    rewrite nthZ_of_nat in E.
    destruct (nth_error (h0 :: higher) (length higher - 1)) eqn:E';
      [discriminate|].
    apply nth_error_None in E'. cbn [length] in E'. lia.
Qed.

Lemma sentinel_counted n0 (st : Store T) els P :
  wellFormedFrom this n0 st -> 1 <= rank this ->
  simplifiersReady n0 st P els (rank this + 1) ->
  1 <= representatives this st els 0.
Proof.
  intros Hwf Hrank Hels.
  destruct (Hels 0 ltac:(lia)) as (e0 & He0 & He0V & _).
  destruct (nth_error (maps st) e0) as [m|] eqn:Em;
    [|apply nth_error_None in Em; lia].
  pose proof (sentinel_fixed m (Hwf e0 m (proj1 He0V) Em)) as Hfix.
  assert (Hrep : representativeAt this st els 0 (sentinel this) = true).
  { apply (fixed_representativeAt st els 0 e0); [exact He0|].
    unfold lookup. now rewrite Em. }
  unfold representatives.
  assert (Hin : In (sentinel this)
                  (filter (representativeAt this st els 0) (scan this))).
  { apply filter_In. split; [exact sentinel_scanned | exact Hrep]. }
  destruct (filter (representativeAt this st els 0) (scan this));
    [contradiction | simpl; lia].
Qed.

Lemma toPolytopeC_total applyMatrix (st : Store T) :
  1 <= rank this ->
  exists P st',
    toPolytopeC this applyMatrix st = Done (P, st') /\
    forall points higher, elementList P = Levels points higher ->
    forall elements, In elements higher ->
    forall row, In row elements -> forall y, In y row -> y <> None.
Proof.
  intros Hrank. unfold toPolytopeC.
  set (n0 := length (maps st)).
  destruct (buildIdentity_total st) as (st1 & R1 & Hid1 & Hlen1 & Hwf1).
  rewrite (bind_run R1).
  destruct (buildAscending_total n0 st1 Hwf1 Hid1 ltac:(unfold n0; lia) Hrank)
    as (asc & st2 & aR & R2 & Hwf2 & Hid2 & Hlen2 & Hasc & HascV & HaR &
        HaRlast & HaRidem & Hbelow).
  rewrite (bind_run R2).
  destruct (buildDescending_total n0 st2 Hwf2 Hid2 ltac:(unfold n0; lia)
              Hrank)
    as (desc & st3 & R3 & Hwf3 & Hid3 & Hlen3 & Hdesc & HdescV & Hframe3).
  rewrite (bind_run R3).
  assert (HaR0 : n0 < aR).
  { destruct (nth_error asc 0) as [a0|] eqn:E0;
      [|apply nth_error_None in E0; lia].
    pose proof (HascV 0 a0 E0). pose proof (Hbelow 0 a0 ltac:(lia) E0). lia. }
  assert (HaRidem3 : idempotentAt this st3 aR).
  { apply (idempotentAt_frame st2); [|exact HaRidem].
    apply Hframe3; lia. }
  (* the element simplifiers *)
  unfold buildElementSimplifiers. cbv zeta.
  destruct (merges_total n0 aR asc desc 1%Z (rank this) st3 Hwf3 Hasc Hdesc)
    as (els & st4 & R4 & Hwf4 & Hlen4 & Hid4 & Hels & Hprot4 & Hnew4);
    try lia.
  { intros i r Hi. specialize (HascV i r Hi). lia. }
  { exact HdescV. }
  { exact Hbelow. }
  rewrite bind_assoc, (bind_run R4), bind_ret.
  (* the intersection simplifiers *)
  unfold buildIntersectionSimplifiers. cbv zeta.
  destruct (merges_total n0 aR asc desc 2%Z (rank this - 1) st4 Hwf4 Hasc
              Hdesc)
    as (ints & st5 & R5 & Hwf5 & Hlen5 & Hid5 & Hints & Hprot5 & Hnew5);
    try lia.
  { intros i r Hi. specialize (HascV i r Hi). lia. }
  { intros i r Hi. specialize (HdescV i r Hi). lia. }
  { exact Hbelow. }
  rewrite bind_assoc, (bind_run R5), bind_ret.
  (* the lists of simplifiers are ready *)
  assert (HelsR : simplifiersReady n0 st5 (idempotentAt this st5)
                    (els ++ [nthZ asc (Z.of_nat (rank this))])
                    (rank this + 1)).
  { intros k Hk.
    destruct (Nat.lt_ge_cases k (length els)) as [Hlt|Hge].
    - rewrite nth_error_app1 by assumption.
      destruct (nth_error els k) as [e|] eqn:Ek;
        [|apply nth_error_None in Ek; lia].
      destruct (Hnew4 k e Ek) as (r & -> & Hr0 & Hr & Hidr).
      exists r. split; [reflexivity|]. split; [lia|].
      apply Hprot5; [lia | exact Hidr].
    - rewrite nth_error_app2 by assumption.
      replace (k - length els) with 0 by lia.
      rewrite nthZ_of_nat, HaR. exists aR. split; [reflexivity|].
      split; [lia|].
      apply Hprot5; [lia|]. apply Hprot4; [lia | exact HaRidem3]. }
  assert (HintsR : simplifiersReady n0 st5 (fun _ => True)
                     (ints ++ [nthZ asc (Z.of_nat (rank this) - 1)])
                     (rank this)).
  { intros k Hk.
    destruct (Nat.lt_ge_cases k (length ints)) as [Hlt|Hge].
    - rewrite nth_error_app1 by assumption.
      destruct (nth_error ints k) as [e|] eqn:Ek;
        [|apply nth_error_None in Ek; lia].
      destruct (Hnew5 k e Ek) as (r & -> & Hr0 & Hr & _).
      exists r. split; [reflexivity|]. split; [lia | exact I].
    - rewrite nth_error_app2 by assumption.
      replace (k - length ints) with 0 by lia.
      replace (Z.of_nat (rank this) - 1)%Z
        with (Z.of_nat (rank this - 1)) by lia.
      rewrite nthZ_of_nat.
      destruct (nth_error asc (rank this - 1)) as [a|] eqn:Ea;
        [|apply nth_error_None in Ea; lia].
      exists a. split; [reflexivity|].
      pose proof (HascV _ _ Ea). split; [lia | exact I]. }
  (* the elements *)
  destruct (buildVertices_total applyMatrix n0 st5 _ _ Hwf5 Hrank HelsR)
    as (points & R6).
  rewrite (bind_run R6).
  destruct (buildLocations_total n0 st5 _ _ Hwf5 HelsR)
    as (locs & lens & R7 & Hrows).
  rewrite (bind_run R7).
  destruct (buildHigher_total n0 st5 _ _ locs lens Hwf5 HelsR HintsR Hrows)
    as (higher & R8 & Hdef).
  rewrite (bind_run R8).
  destruct (buildVertices_count this applyMatrix _ st5 st5 points R6)
    as (_ & Hpoints).
  pose proof (sentinel_counted n0 st5 _ _ Hwf5 Hrank HelsR) as Hone.
  destruct (buildHigher_range this
              (els ++ [nthZ asc (Z.of_nat (rank this))])
              (ints ++ [nthZ asc (Z.of_nat (rank this) - 1)])
              locs lens st5 st5 higher) as (_ & Hhigher & _).
  { intros k Hk. destruct (Hrows k Hk) as (row & n & Hrow & Hn & Hb & _).
    destruct (buildLocations_count this _ st5 st5 locs lens R7) as (_ & Hc).
    exact (Hc k Hk). }
  { exact R8. }
  destruct points as [|P0 points]; [simpl in Hpoints; lia|].
  destruct (newPolytopeC_total P0 points higher) as (P & HP).
  { intros ->. simpl in Hhigher. lia. }
  exists P, st5. split.
  - unfold lift. now rewrite HP.
  - apply newPolytopeC_dimensions in HP as [_ HP].
    intros points' higher' E. rewrite HP in E. injection E as _ <-.
    exact Hdef.
Qed.

End Totality.

Section Sentinel.

Context {T : Type} (this : PolytopeS T).

Lemma sentinel_in_scan :
  In (identity (symmetries this)) (enumerateElements (symmetries this)) ->
  flagClasses this <> [] ->
  In (sentinel this) (scan this).
Proof.
  intros Hid Hclasses. unfold scan, sentinel.
  apply in_flat_map. exists (identity (symmetries this)).
  split; [exact Hid|]. apply in_map_iff. exists 0. split; [reflexivity|].
  apply in_seq. destruct (flagClasses this); [contradiction | simpl; lia].
Qed.

Lemma sentinel_is_least :
  (forall x, In x (enumerateElements (symmetries this)) ->
     compare (symmetries this) x (identity (symmetries this)) <> Lt) ->
  forall f, In f (scan this) -> compareFlags this f (sentinel this) <> Lt.
Proof.
  intros Hleast f Hf. unfold scan in Hf.
  apply in_flat_map in Hf as (d & Hd & Hf).
  apply in_map_iff in Hf as (j & <- & _).
  unfold compareFlags, sentinel. cbn [classNumber domain].
  destruct (Nat.ltb_spec j 0) as [Hlt|_]; [lia|].
  destruct (Nat.ltb_spec 0 j) as [_|_]; [discriminate|].
  now apply Hleast.
Qed.

End Sentinel.

(** X18.  When the comparator of the group is a total order in which no
    listed element comes before the identity, and [moveFlag] maps scanned
    flags to scanned flags, [modifySimplifier] returns on simplifiers that
    map every scanned flag to a scanned flag not after it: its loops end,
    the result maps every scanned flag to a flag that it maps to itself,
    and all simplifiers are still of that kind. *)
Theorem modifySimplifier_returns {T} (this : PolytopeS T) (n : nat)
    (s1 : ref) (s2 : ref + nat) (st : Store T)
    (Hcompare : forall x y : T,
        compare (symmetries this) x y = Eq <-> x = y)
    (Hantisym : forall x y : T,
        compare (symmetries this) x y
        = CompOpp (compare (symmetries this) y x))
    (Htrans : forall x y z : T,
        compare (symmetries this) x y = Lt ->
        compare (symmetries this) y z = Lt ->
        compare (symmetries this) x z = Lt)
    (Hidentity : In (identity (symmetries this))
                    (enumerateElements (symmetries this)))
    (Hleast : forall x, In x (enumerateElements (symmetries this)) ->
        compare (symmetries this) x (identity (symmetries this)) <> Lt)
    (Hclasses : flagClasses this <> [])
    (Hmoves : forall f g, In f (scan this) -> g < rank this ->
        exists f', moveFlag this f g = Done f' /\ In f' (scan this))
    (Hwf : wellFormedFrom this n st)
    (Hs1 : n <= s1 < length (maps st))
    (Hs2 : validArgument this n st s2) :
  exists b st',
    modifySimplifier this s1 s2 st = Done (b, st') /\
    wellFormedFrom this n st' /\ idempotentAt this st' b.
Proof.
  exact (modifySimplifier_total this Hcompare Hantisym Htrans Hmoves
           (sentinel_in_scan this Hidentity Hclasses)
           (sentinel_is_least this Hleast) n s1 s2 st Hwf Hs1 Hs2).
Qed.

(** X19.  Under the same conditions on the group and on [moveFlag], for a
    polytope of rank at least 1 with a vertex for each flag class,
    [toPolytopeC] returns, and no list of an element of the result
    contains [undefined]. *)
Theorem toPolytopeC_returns {T} (this : PolytopeS T)
    (applyMatrix : Point -> T -> Point) (st : Store T)
    (Hcompare : forall x y : T,
        compare (symmetries this) x y = Eq <-> x = y)
    (Hantisym : forall x y : T,
        compare (symmetries this) x y
        = CompOpp (compare (symmetries this) y x))
    (Htrans : forall x y z : T,
        compare (symmetries this) x y = Lt ->
        compare (symmetries this) y z = Lt ->
        compare (symmetries this) x z = Lt)
    (Hidentity : In (identity (symmetries this))
                    (enumerateElements (symmetries this)))
    (Hleast : forall x, In x (enumerateElements (symmetries this)) ->
        compare (symmetries this) x (identity (symmetries this)) <> Lt)
    (Hclasses : flagClasses this <> [])
    (Hmoves : forall f g, In f (scan this) -> g < rank this ->
        exists f', moveFlag this f g = Done f' /\ In f' (scan this))
    (Hseeds : length (flagClasses this) <= length (vertices this))
    (Hrank : 1 <= rank this) :
  exists P st',
    toPolytopeC this applyMatrix st = Done (P, st') /\
    forall points higher, elementList P = Levels points higher ->
    forall elements, In elements higher ->
    forall row, In row elements -> forall y, In y row -> y <> None.
Proof.
  exact (toPolytopeC_total this Hcompare Hantisym Htrans Hmoves
           (sentinel_in_scan this Hidentity Hclasses)
           (sentinel_is_least this Hleast) Hseeds applyMatrix st Hrank).
Qed.

Lemma square_identity_listed :
  In (identity (symmetries square)) (enumerateElements (symmetries square)).
Proof. now left. Qed.

Lemma square_identity_least x :
  In x (enumerateElements (symmetries square)) ->
  compare (symmetries square) x (identity (symmetries square)) <> Lt.
Proof.
  intros Hx. cbn in Hx.
  repeat (destruct Hx as [<-|Hx]; [discriminate|]). contradiction.
Qed.

Lemma square_moves_closed f g :
  In f (scan square) -> g < rank square ->
  exists f', moveFlag square f g = Done f' /\ In f' (scan square).
Proof.
  intros Hf Hg. cbn in Hf, Hg.
  destruct g as [|[|g]]; [| |lia];
    repeat (destruct Hf as [<-|Hf];
            [eexists; split; [reflexivity | cbn; tauto]|]);
    contradiction.
Qed.

Lemma toPolytopeC_returns_witness :
  exists P st',
    toPolytopeC square applyMat emptyStore = Done (P, st') /\
    forall points higher, elementList P = Levels points higher ->
    forall elements, In elements higher ->
    forall row, In row elements -> forall y, In y row -> y <> None.
Proof.
  apply (toPolytopeC_returns square applyMat emptyStore
           squareGroup_compare_eq squareGroup_compare_antisym
           squareGroup_compare_trans square_identity_listed
           square_identity_least).
  - discriminate.
  - exact square_moves_closed.
  - simpl. lia.
  - simpl. lia.
Defined.

Lemma identityStore_wellFormed : wellFormedFrom square 0 identityStore.
Proof.
  destruct (buildIdentity_total square squareGroup_compare_eq emptyStore)
    as (st1 & Hrun & _ & _ & Hwf).
  unfold identityStore. now rewrite Hrun.
Qed.

Lemma modifySimplifier_returns_witness :
  exists b st',
    modifySimplifier square 0 (inr 0) identityStore = Done (b, st') /\
    wellFormedFrom square 0 st' /\ idempotentAt square st' b.
Proof.
  apply (modifySimplifier_returns square 0 0 (inr 0) identityStore
           squareGroup_compare_eq squareGroup_compare_antisym
           squareGroup_compare_trans square_identity_listed
           square_identity_least).
  - discriminate.
  - exact square_moves_closed.
  - exact identityStore_wellFormed.
  - vm_compute. lia.
  - vm_compute. lia.
Defined.

(** ** Merging the children of a construction node *)

Lemma readArray_run h a l :
  nth_error (arrays h) a = Some l -> readArray a h = Done (l, h).
Proof. intros H. unfold readArray. now rewrite bind_getS, H. Qed.

Lemma childAt_run h a l i :
  nth_error (arrays h) a = Some l ->
  childAt a i h = Done (nth i l ChildUndefined, h).
Proof.
  intros H. unfold childAt. now rewrite (bind_run (readArray_run h a l H)).
Qed.

Lemma readObject_run h id o :
  nth_error (objects h) id = Some o ->
  readObject (ChildNode id) h = Done (Some o, h).
Proof. intros H. unfold readObject. now rewrite bind_getS, H. Qed.

Lemma childrenOfChild_run h a l i id o b :
  nth_error (arrays h) a = Some l ->
  nth i l ChildUndefined = ChildNode id ->
  nth_error (objects h) id = Some o ->
  children o = ChildrenArray b ->
  childrenOfChild a i h = Done (b, h).
Proof.
  intros Ha Hi Ho Hb. unfold childrenOfChild.
  rewrite (bind_run (childAt_run h a l i Ha)), Hi.
  now rewrite (bind_run (readObject_run h id o Ho)), Hb.
Qed.

Lemma pop_run h b l :
  nth_error (arrays h) b = Some l ->
  pop b h = Done (last l ChildUndefined,
                  mkHeap (objects h) (update_nth (arrays h) b (removelast l))
                    (genders h)).
Proof.
  intros H. unfold pop. now rewrite (bind_run (readArray_run h b l H)).
Qed.

Lemma push_run h a l x :
  nth_error (arrays h) a = Some l ->
  push a x h
  = Done (tt, mkHeap (objects h) (update_nth (arrays h) a (l ++ [x]))
                (genders h)).
Proof.
  intros H. unfold push. now rewrite (bind_run (readArray_run h a l H)).
Qed.

Lemma assign_run h a l i x :
  nth_error (arrays h) a = Some l -> i < length l ->
  assign a i x h
  = Done (tt, mkHeap (objects h)
                (update_nth (arrays h) a (update_nth l i x)) (genders h)).
Proof.
  intros H Hi. unfold assign. rewrite (bind_run (readArray_run h a l H)).
  apply Nat.ltb_lt in Hi. now rewrite Hi.
Qed.

Lemma nth_error_lt {A} (l : list A) n x : nth_error l n = Some x -> n < length l.
Proof. intros H. apply nth_error_Some. congruence. Qed.

Lemma removelast_firstn_length {A} (l : list A) :
  removelast l = firstn (length l - 1) l.
Proof.
  destruct l as [|x l] using rev_ind; [reflexivity|].
  rewrite removelast_last, length_app. cbn [length].
  replace (length l + 1 - 1) with (length l) by lia.
  now rewrite firstn_app, Nat.sub_diag, firstn_all, app_nil_r.
Qed.

(** The inner loop: [n] more entries leave the array [l] of the child,
    last entry first, for the end of the parent's array. *)
Lemma popLoop_run a i id o b : forall fuel h la l j,
  nth_error (objects h) id = Some o ->
  children o = ChildrenArray b ->
  b <> a ->
  nth_error (arrays h) a = Some la ->
  nth i la ChildUndefined = ChildNode id ->
  nth_error (arrays h) b = Some l ->
  (length l - j) / 2 <= fuel ->
  let n := (length l - j) / 2 in
  exists h',
    popLoop fuel a i (Z.of_nat j) h = Done (tt, h') /\
    objects h' = objects h /\
    nth_error (arrays h') a = Some (la ++ rev (skipn (length l - n) l)) /\
    nth_error (arrays h') b = Some (firstn (length l - n) l) /\
    forall c, c <> a -> c <> b ->
      nth_error (arrays h') c = nth_error (arrays h) c.
Proof.
  induction fuel as [|fuel IH]; intros h la l j Ho Hb Hba Ha Hi Hl Hfuel n.
  - assert (Hn : n = 0) by (subst n; lia).
    assert (Hstop : (Z.of_nat j <? Z.of_nat (length l) - 1)%Z = false).
    { apply Z.ltb_ge.
      destruct (Nat.le_gt_cases (length l - j) 1) as [Hle|Hgt]; [lia|].
      exfalso. subst n.
      assert (1 <= (length l - j) / 2) by (apply Nat.div_le_lower_bound; lia).
      lia. }
    exists h. cbn [popLoop].
    rewrite (bind_run (childrenOfChild_run h a la i id o b Ha Hi Ho Hb)).
    rewrite (bind_run (readArray_run h _ l Hl)), Hstop, Hn, Nat.sub_0_r.
    rewrite skipn_all, firstn_all, app_nil_r. auto.
  - cbn [popLoop].
    rewrite (bind_run (childrenOfChild_run h a la i id o b Ha Hi Ho Hb)).
    rewrite (bind_run (readArray_run h _ l Hl)).
    destruct (Z.ltb_spec (Z.of_nat j) (Z.of_nat (length l) - 1)) as [Hgo|Hstop].
    + rewrite (bind_run (childrenOfChild_run h a la i id o b Ha Hi Ho Hb)).
      rewrite (bind_run (pop_run h _ l Hl)).
      set (h1 := mkHeap (objects h)
                   (update_nth (arrays h) b (removelast l)) (genders h)).
      assert (Ha1 : nth_error (arrays h1) a = Some la).
      { unfold h1. cbn [arrays].
        now rewrite nth_error_update_nth_other. }
      rewrite (bind_run (push_run h1 a la _ Ha1)).
      set (h2 := mkHeap (objects h1)
                   (update_nth (arrays h1) a (la ++ [last l ChildUndefined]))
                   (genders h1)).
      pose proof (nth_error_lt _ _ _ Hl) as Hlb.
      pose proof (nth_error_lt _ _ _ Ha) as Hla.
      assert (Hl2 : nth_error (arrays h2) b = Some (removelast l)).
      { unfold h2, h1. cbn [arrays objects].
        rewrite nth_error_update_nth_other by congruence.
        now apply nth_error_update_nth_same. }
      assert (Ha2 : nth_error (arrays h2) a
                    = Some (la ++ [last l ChildUndefined])).
      { unfold h2. cbn [arrays].
        apply nth_error_update_nth_same.
        unfold h1. cbn [arrays]. now rewrite length_update_nth. }
      assert (Hlen : length (removelast l) = length l - 1).
      { rewrite removelast_firstn_length, length_firstn. lia. }
      assert (Hn : n = S ((length (removelast l) - S j) / 2)).
      { subst n. rewrite Hlen.
        replace (length l - j) with (length l - 1 - S j + 1 * 2) by lia.
        rewrite Nat.div_add by lia. lia. }
      destruct (IH h2 (la ++ [last l ChildUndefined]) (removelast l) (S j))
        as (h' & Hrun & Hobj & Ha' & Hl' & Hother).
      * exact Ho.
      * exact Hb.
      * exact Hba.
      * exact Ha2.
      * rewrite app_nth1; [exact Hi|].
        destruct (Nat.lt_ge_cases i (length la)) as [|Hge]; [assumption|].
        rewrite nth_overflow in Hi by assumption. discriminate.
      * exact Hl2.
      * lia.
      * replace (Z.of_nat j + 1)%Z with (Z.of_nat (S j)) by lia.
        exists h'. split; [exact Hrun|]. split; [exact Hobj|].
        set (m := (length (removelast l) - S j) / 2) in *.
        assert (Hm : length (removelast l) - m = length l - n) by lia.
        rewrite Hm in Ha', Hl'.
        assert (Hle : length l - n <= length l - 1) by lia.
        split; [|split].
        -- rewrite Ha', <- app_assoc. do 2 f_equal.
           rewrite removelast_firstn_length.
           destruct l as [|x l] using rev_ind; [cbn in Hgo; lia|].
           rewrite last_last, length_app. cbn [length].
           replace (length l + 1 - 1) with (length l) by lia.
           rewrite firstn_app, Nat.sub_diag, firstn_all, app_nil_r.
           rewrite length_app in Hle. cbn [length] in Hle.
           rewrite skipn_app.
           replace (length l + 1 - n - length l) with 0 by lia.
           cbn [skipn]. now rewrite rev_app_distr.
        -- rewrite Hl', removelast_firstn_length, firstn_firstn.
           now rewrite Nat.min_l by lia.
        -- intros c Hca Hcb. rewrite (Hother c Hca Hcb).
           unfold h2, h1. cbn [arrays objects].
           now rewrite !nth_error_update_nth_other by congruence.
    + assert (Hn : n = 0).
      { subst n. apply Nat.div_small. lia. }
      exists h. rewrite Hn, Nat.sub_0_r.
      rewrite skipn_all, firstn_all, app_nil_r. auto.
Qed.

Lemma last_firstn {A} (l : list A) m d :
  1 <= m <= length l -> last (firstn m l) d = nth (m - 1) l d.
Proof.
  revert m d. induction l as [|x l IH]; intros m d Hm; [cbn in Hm; lia|].
  destruct m as [|m]; [lia|].
  cbn [length] in Hm. cbn [firstn].
  destruct m as [|m]; [reflexivity|].
  replace (S (S m) - 1) with (S (S m - 1)) by lia. cbn [nth].
  rewrite <- IH by lia.
  destruct l; [cbn in Hm; lia|reflexivity].
Qed.

Lemma update_nth_app_l {A} (l l' : list A) i x :
  i < length l -> update_nth (l ++ l') i x = update_nth l i x ++ l'.
Proof.
  revert i. induction l as [|y l IH]; intros i Hi; [cbn in Hi; lia|].
  destruct i as [|i]; [reflexivity|].
  cbn [app update_nth]. rewrite IH; [reflexivity|cbn in Hi; lia].
Qed.

Lemma update_nth_middle {A} (l l' : list A) y x :
  update_nth (l ++ y :: l') (length l) x = l ++ x :: l'.
Proof. induction l as [|z l IH]; [reflexivity|]. cbn. now rewrite IH. Qed.

(** One iteration of the outer loop at a child of the type of its
    parent. *)
Lemma mergeChild_merged h a la i id o b l :
  nth_error (objects h) id = Some o ->
  children o = ChildrenArray b ->
  b <> a ->
  nth_error (arrays h) a = Some la ->
  nth i la ChildUndefined = ChildNode id ->
  nth_error (arrays h) b = Some l ->
  exists h',
    mergeChild (type o) a i h = Done (tt, h') /\
    objects h' = objects h /\
    nth_error (arrays h') a = Some (update_nth la i (keptOf l) ++ movedOf l) /\
    nth_error (arrays h') b = Some (leftOf l) /\
    forall c, c <> a -> c <> b ->
      nth_error (arrays h') c = nth_error (arrays h) c.
Proof.
  intros Ho Hb Hba Ha Hi Hl.
  assert (Hila : i < length la).
  { destruct (Nat.lt_ge_cases i (length la)) as [|Hge]; [assumption|].
    rewrite nth_overflow in Hi by assumption. discriminate. }
  destruct (popLoop_run a i id o b (length l) h la l 0 Ho Hb Hba Ha Hi Hl)
    as (h1 & Hloop & Hobj1 & Ha1 & Hl1 & Hother1).
  { rewrite Nat.sub_0_r. apply Nat.Div0.div_le_upper_bound. lia. }
  rewrite Nat.sub_0_r in Ha1, Hl1. cbn [Z.of_nat] in Hloop.
  set (n := length l / 2) in *.
  assert (Hn : n <= length l)
    by (apply Nat.Div0.div_le_upper_bound; lia).
  unfold mergeChild.
  rewrite (bind_run (childAt_run h a la i Ha)), Hi.
  rewrite (bind_run (readObject_run h id o Ho)), Nat.eqb_refl.
  rewrite (bind_run (childrenOfChild_run h a la i id o b Ha Hi Ho Hb)).
  rewrite (bind_run (readArray_run h _ l Hl)).
  rewrite (bind_run Hloop).
  assert (Hi1 : nth i (la ++ rev (skipn (length l - n) l)) ChildUndefined
                = ChildNode id) by (now rewrite app_nth1).
  rewrite <- Hobj1 in Ho.
  rewrite (bind_run (childrenOfChild_run h1 a _ i id o b Ha1 Hi1 Ho Hb)).
  rewrite (bind_run (pop_run h1 _ _ Hl1)).
  set (h2 := mkHeap (objects h1) _ _).
  pose proof (nth_error_lt _ _ _ Hl1) as Hlb.
  pose proof (nth_error_lt _ _ _ Ha1) as Hla.
  assert (Ha2 : nth_error (arrays h2) a
                = Some (la ++ rev (skipn (length l - n) l))).
  { unfold h2. cbn [arrays].
    now rewrite nth_error_update_nth_other by congruence. }
  rewrite (assign_run h2 a _ i _ Ha2) by (rewrite length_app; lia).
  eexists. split; [reflexivity|]. cbn [objects arrays].
  split; [exact Hobj1|].
  split; [|split].
  - rewrite nth_error_update_nth_same
      by (unfold h2; cbn [arrays]; now rewrite length_update_nth).
    rewrite update_nth_app_l by assumption.
    destruct l as [|x l']; [reflexivity|].
    rewrite last_firstn; [reflexivity|].
    assert (n < length (x :: l'))
      by (apply Nat.Div0.div_lt_upper_bound; cbn [length]; lia).
    lia.
  - rewrite nth_error_update_nth_other by congruence.
    unfold h2. cbn [arrays]. rewrite nth_error_update_nth_same by assumption.
    rewrite removelast_firstn_length, firstn_firstn, length_firstn.
    unfold leftOf. fold n. do 2 f_equal. lia.
  - intros c Hca Hcb. unfold h2. cbn [arrays].
    rewrite !nth_error_update_nth_other by congruence.
    now apply Hother1.
Qed.

(** One iteration of the outer loop at any other child. *)
Lemma mergeChild_other h t a la i :
  nth_error (arrays h) a = Some la ->
  nth i la ChildUndefined <> ChildUndefined ->
  (forall id, nth i la ChildUndefined = ChildNode id ->
     exists o, nth_error (objects h) id = Some o /\ type o <> t) ->
  mergeChild t a i h = Done (tt, h).
Proof.
  intros Ha Hdef Hnode. unfold mergeChild.
  rewrite (bind_run (childAt_run h a la i Ha)).
  destruct (nth i la ChildUndefined) as [id|z|]; [| |contradiction].
  - destruct (Hnode id eq_refl) as (o & Ho & Ht).
    rewrite (bind_run (readObject_run h id o Ho)).
    apply Nat.eqb_neq in Ht. now rewrite Ht.
  - reflexivity.
Qed.

Lemma seq_prefix_length n : forall done i rest,
  seq 0 n = done ++ i :: rest ->
  i = length done /\ S (length done + length rest) = n.
Proof.
  intros done i rest H.
  assert (Hlen : length (seq 0 n) = length done + S (length rest))
    by (rewrite H, length_app; reflexivity).
  rewrite length_seq in Hlen. split; [|lia].
  assert (Hi : nth_error (seq 0 n) (length done) = Some i).
  { rewrite H, nth_error_app2, Nat.sub_diag by lia. reflexivity. }
  rewrite nth_error_seq in Hi.
  destruct (Nat.ltb_spec (length done) n); [|discriminate].
  now injection Hi.
Qed.

Lemma mergedArrays_app h t l l' :
  mergedArrays h t (l ++ l') = mergedArrays h t l ++ mergedArrays h t l'.
Proof. apply flat_map_app. Qed.

Lemma mergedArray_In h t c b cs :
  In c cs -> mergedArray h t c = Some b -> In b (mergedArrays h t cs).
Proof.
  intros Hc Hb. apply in_flat_map. exists c. split; [exact Hc|].
  rewrite Hb. now left.
Qed.

Lemma mergedArray_node h t c b :
  mergedArray h t c = Some b ->
  exists id o, c = ChildNode id /\ nth_error (objects h) id = Some o /\
    type o = t /\ children o = ChildrenArray b.
Proof.
  destruct c as [id|z|]; cbn [mergedArray]; try discriminate.
  destruct (nth_error (objects h) id) as [o|] eqn:Ho; [|discriminate].
  destruct (children o) as [b'| |] eqn:Hb; try discriminate.
  destruct (Nat.eqb_spec (type o) t) as [Ht|]; [|discriminate].
  intros [= <-]. now exists id, o.
Qed.

Lemma mergeChild_step h t a pre c post h1 :
  mergeable h t a (pre ++ c :: post) ->
  mergedSoFar h t a pre (c :: post) h1 ->
  exists h2,
    mergeChild t a (length pre) h1 = Done (tt, h2) /\
    mergedSoFar h t a (pre ++ [c]) post h2.
Proof.
  intros (Hcs & Hdef & Hnodes & Hbound & Hdistinct)
         (Hobj & Harr & Hleft & Hrest).
  rewrite mergedArrays_app in Hdistinct.
  assert (Hc : nth (length pre)
                 (map (keptChild h t) pre ++ (c :: post)
                  ++ flat_map (movedChildren h t) pre)
                 ChildUndefined = c).
  { rewrite app_nth2; rewrite length_map; [|lia].
    now rewrite Nat.sub_diag. }
  destruct (mergedArray h t c) as [b|] eqn:Hb.
  - destruct (mergedArray_node h _ c b Hb)
      as (id & o & -> & Ho & Ht & Hchildren).
    assert (Hbin : In b (mergedArrays h t (pre ++ ChildNode id :: post))).
    { apply mergedArray_In with (ChildNode id); [|exact Hb].
      apply in_elt. }
    assert (Hba : b <> a).
    { intros ->. apply NoDup_cons_iff in Hdistinct as [Hnot _].
      apply Hnot. now rewrite <- mergedArrays_app. }
    assert (Hfresh : ~ In b (mergedArrays h t pre)).
    { apply NoDup_cons_iff in Hdistinct as [_ Hdistinct].
      cbn [mergedArrays flat_map] in Hdistinct.
      fold (mergedArrays h t post) in Hdistinct.
      rewrite Hb in Hdistinct.
      apply NoDup_remove_2 in Hdistinct.
      intros Hin. apply Hdistinct. apply in_or_app. now left. }
    destruct (nth_error (arrays h) b) as [l|] eqn:Hl.
    2:{ apply nth_error_None in Hl. specialize (Hbound b Hbin). lia. }
    assert (Hl1 : nth_error (arrays h1) b = Some l).
    { rewrite Hrest by assumption. exact Hl. }
    rewrite <- Hobj in Ho.
    destruct (mergeChild_merged h1 a _ (length pre) id o b l
                Ho Hchildren Hba Harr Hc Hl1)
      as (h2 & Hrun & Hobj2 & Ha2 & Hb2 & Hother2).
    rewrite Ht in Hrun. exists h2. split; [exact Hrun|].
    assert (Harray : arrayOf h b = l).
    { unfold arrayOf. now apply nth_error_nth. }
    split; [congruence|]. split; [|split].
    + rewrite Ha2. f_equal.
      replace (length pre) with (length (map (keptChild h t) pre))
        by apply length_map.
      cbn [app]. rewrite update_nth_middle.
      rewrite map_app, flat_map_app. cbn [map flat_map].
      unfold keptChild at 3, movedChildren at 3. rewrite Hb, Harray.
      rewrite app_nil_r, <- !app_assoc. cbn [app].
      now rewrite <- !app_assoc.
    + intros b' Hb'. rewrite mergedArrays_app in Hb'.
      cbn [mergedArrays flat_map] in Hb'. rewrite Hb in Hb'.
      apply in_app_or in Hb' as [Hpre|[<-|[]]].
      * rewrite Hother2.
        -- now apply Hleft.
        -- intros ->. apply NoDup_cons_iff in Hdistinct as [Hnot _].
           apply Hnot. apply in_or_app. now left.
        -- intros ->. contradiction.
      * rewrite Hb2, Harray. reflexivity.
    + intros b' Hneq Hnot. rewrite Hother2.
      * apply Hrest; [exact Hneq|].
        intros Hin. apply Hnot. rewrite mergedArrays_app.
        apply in_or_app. now left.
      * exact Hneq.
      * intros ->. apply Hnot.
        rewrite mergedArrays_app. apply in_or_app. right.
        cbn [mergedArrays flat_map]. rewrite Hb. now left.
  - exists h1. split.
    + apply mergeChild_other with (la := map (keptChild h t) pre
         ++ (c :: post) ++ flat_map (movedChildren h t) pre).
      * exact Harr.
      * rewrite Hc. apply Hdef. apply in_elt.
      * rewrite Hc, Hobj. intros id ->.
        destruct (Hnodes id (in_elt _ _ _)) as (o & Ho & Harray).
        exists o. split; [exact Ho|]. intros Ht.
        destruct (Harray Ht) as (b & Hchildren).
        cbn [mergedArray] in Hb. rewrite Ho, Hchildren, Ht in Hb.
        now rewrite Nat.eqb_refl in Hb.
    + split; [exact Hobj|]. split; [|split].
      * rewrite Harr. f_equal. rewrite map_app, flat_map_app.
        cbn [map flat_map]. unfold keptChild at 3, movedChildren at 3.
        rewrite Hb, <- !app_assoc, app_nil_r. reflexivity.
      * intros b Hin. apply Hleft. rewrite mergedArrays_app in Hin.
        cbn [mergedArrays flat_map] in Hin. rewrite Hb in Hin.
        now rewrite app_nil_r in Hin.
      * intros b Hneq Hnot. apply Hrest; [exact Hneq|].
        intros Hin. apply Hnot. rewrite mergedArrays_app.
        apply in_or_app. now left.
Qed.

Lemma mergeChildren_run h this o a cs :
  nth_error (objects h) this = Some o ->
  children o = ChildrenArray a ->
  mergeable h (type o) a cs ->
  exists h',
    _mergeChildren this h = Done (tt, h') /\
    mergedSoFar h (type o) a cs [] h'.
Proof.
  intros Hthis Ha Hcs.
  unfold _mergeChildren. rewrite bind_getS, Hthis.
  unfold defined at 1. rewrite bind_ret, Ha.
  rewrite (bind_run (readArray_run h _ cs (proj1 Hcs))).
  destruct (forEach_total
              (fun done h' =>
                 mergedSoFar h (type o) a (firstn (length done) cs)
                   (skipn (length done) cs) h')
              (mergeChild (type o) a) (seq 0 (length cs)))
    with (l := seq 0 (length cs)) (done := @nil nat) (s := h)
    as (h' & Hrun & Hinv).
  - intros done i rest h1 Hseq Hinv.
    apply seq_prefix_length in Hseq as [-> Hlen].
    assert (Hsplit : exists c post,
              skipn (length done) cs = c :: post /\
              cs = firstn (length done) cs ++ c :: post).
    { destruct (skipn (length done) cs) as [|c post] eqn:Hskip.
      - apply (f_equal (@length _)) in Hskip.
        rewrite length_skipn in Hskip. cbn [length] in Hskip. lia.
      - exists c, post. split; [reflexivity|].
        now rewrite <- Hskip, firstn_skipn. }
    destruct Hsplit as (c & post & Hskip & Hsplit).
    rewrite Hskip in Hinv.
    assert (Hpre : length (firstn (length done) cs) = length done)
      by (rewrite length_firstn; lia).
    destruct (mergeChild_step h (type o) a (firstn (length done) cs)
                c post h1)
      as (h2 & Hstep & Hinv2).
    + now rewrite <- Hsplit.
    + exact Hinv.
    + rewrite Hpre in Hstep. exists h2. split; [exact Hstep|].
      rewrite length_app. cbn [length].
      assert (Hfirst : firstn (length done + 1) cs
                       = firstn (length done) cs ++ [c]).
      { rewrite Hsplit at 1. rewrite firstn_app, Hpre.
        replace (length done + 1 - length done) with 1 by lia.
        rewrite firstn_firstn, Nat.min_r by lia. reflexivity. }
      assert (Hlast : skipn (length done + 1) cs = post).
      { rewrite Hsplit at 1. rewrite skipn_app, Hpre.
        replace (length done + 1 - length done) with 1 by lia.
        rewrite skipn_all2 by (rewrite Hpre; lia). reflexivity. }
      now rewrite Hfirst, Hlast.
  - reflexivity.
  - cbn [length firstn skipn]. destruct Hcs as (Harr & _).
    split; [reflexivity|]. split.
    + cbn [map flat_map app]. now rewrite app_nil_r.
    + split; [intros b []|]. intros; reflexivity.
  - exists h'. split; [exact Hrun|].
    now rewrite length_seq, firstn_all, skipn_all in Hinv.
Qed.

(** X20.  [_mergeChildren] on a node whose children of its own type hold
    arrays of their own: of the [k] children of such a child the last
    [k / 2] are appended to the node's children, last one first, the one
    before them replaces the child, and the first ones are left in the
    child; all other children and arrays stay as they were. *)
Theorem mergeChildren_result h this o a cs
    (Hthis : nth_error (objects h) this = Some o)
    (Harray : children o = ChildrenArray a)
    (Hcs : mergeable h (type o) a cs) :
  exists h',
    _mergeChildren this h = Done (tt, h') /\
    objects h' = objects h /\
    nth_error (arrays h') a
    = Some (map (keptChild h (type o)) cs
            ++ flat_map (movedChildren h (type o)) cs) /\
    (forall b, In b (mergedArrays h (type o) cs) ->
       nth_error (arrays h') b = Some (leftOf (arrayOf h b))) /\
    (forall b, b <> a -> ~ In b (mergedArrays h (type o) cs) ->
       nth_error (arrays h') b = nth_error (arrays h) b).
Proof.
  destruct (mergeChildren_run h this o a cs Hthis Harray Hcs)
    as (h' & Hrun & Hobj & Harr & Hleft & Hrest).
  exists h'. now rewrite app_nil_l in Harr.
Qed.

Lemma nestedPrisms_mergeable :
  mergeable nestedPrisms 2 0 [ChildOther 7; ChildNode 1; ChildNode 2].
Proof.
  split; [reflexivity|]. split; [|split; [|split]].
  - intros c [<-|[<-|[<-|[]]]]; discriminate.
  - intros id [H|[H|[H|[]]]]; try discriminate; injection H as <-;
      eexists; (split; [reflexivity|]); intros _; eexists; reflexivity.
  - intros b [<-|[<-|[]]]; cbn; lia.
  - cbn. repeat constructor; cbn; intuition discriminate.
Qed.

Lemma mergeChildren_result_witness :
  exists h',
    _mergeChildren 0 nestedPrisms = Done (tt, h') /\
    objects h' = objects nestedPrisms /\
    nth_error (arrays h') 0
    = Some [ChildOther 7; ChildOther 1; ChildOther 4;
            ChildOther 2; ChildOther 5] /\
    (forall b, In b (mergedArrays nestedPrisms 2
                       [ChildOther 7; ChildNode 1; ChildNode 2]) ->
       nth_error (arrays h') b = Some (leftOf (arrayOf nestedPrisms b))) /\
    (forall b, b <> 0 ->
       ~ In b (mergedArrays nestedPrisms 2
                 [ChildOther 7; ChildNode 1; ChildNode 2]) ->
       nth_error (arrays h') b = nth_error (arrays nestedPrisms) b).
Proof.
  exact (mergeChildren_result nestedPrisms 0 (mkNodeObject 2 (ChildrenArray 0))
           0 [ChildOther 7; ChildNode 1; ChildNode 2]
           eq_refl eq_refl nestedPrisms_mergeable).
Defined.

Lemma kept_moved_flattened h t : forall cs,
  (forall b, In b (mergedArrays h t cs) ->
     1 <= length (arrayOf h b) <= 2) ->
  Permutation (map (keptChild h t) cs ++ flat_map (movedChildren h t) cs)
              (flattened h t cs).
Proof.
  induction cs as [|c cs IH]; intros Hsmall; [constructor|].
  cbn [map flat_map flattened app].
  fold (flattened h t cs).
  assert (Hc : keptChild h t c :: movedChildren h t c
               = match mergedArray h t c with
                 | Some b => arrayOf h b
                 | None => [c]
                 end).
  { unfold keptChild, movedChildren.
    destruct (mergedArray h t c) as [b|] eqn:Hb; [|reflexivity].
    specialize (Hsmall b). cbn [mergedArrays flat_map] in Hsmall.
    rewrite Hb in Hsmall. specialize (Hsmall (or_introl eq_refl)).
    destruct (arrayOf h b) as [|x [|y [|z l]]]; cbn [length] in Hsmall;
      try lia; reflexivity. }
  rewrite <- Hc. cbn [app]. constructor.
  rewrite app_assoc.
  eapply Permutation_trans;
    [apply Permutation_app_tail, Permutation_app_comm|].
  rewrite <- app_assoc. apply Permutation_app_head. apply IH.
  intros b Hb. apply Hsmall. cbn [mergedArrays flat_map].
  apply in_or_app. now right.
Qed.

(** X21.  When every child of the node's own type holds one or two
    children, [_mergeChildren] replaces each such child by its children:
    the node's children become, up to their order, the children of those
    children together with the other children, and the arrays of the
    merged children are left empty. *)
Theorem mergeChildren_flattens h this o a cs
    (Hthis : nth_error (objects h) this = Some o)
    (Harray : children o = ChildrenArray a)
    (Hcs : mergeable h (type o) a cs)
    (Hsmall : forall b, In b (mergedArrays h (type o) cs) ->
                1 <= length (arrayOf h b) <= 2) :
  exists h' cs',
    _mergeChildren this h = Done (tt, h') /\
    nth_error (arrays h') a = Some cs' /\
    Permutation cs' (flattened h (type o) cs) /\
    forall b, In b (mergedArrays h (type o) cs) ->
      nth_error (arrays h') b = Some [].
Proof.
  destruct (mergeChildren_run h this o a cs Hthis Harray Hcs)
    as (h' & Hrun & _ & Harr & Hleft & _).
  rewrite app_nil_l in Harr.
  exists h', (map (keptChild h (type o)) cs
              ++ flat_map (movedChildren h (type o)) cs).
  split; [exact Hrun|]. split; [exact Harr|].
  split; [now apply kept_moved_flattened|].
  intros b Hb. rewrite (Hleft b Hb). f_equal.
  specialize (Hsmall b Hb). unfold leftOf.
  destruct (arrayOf h b) as [|x [|y [|z l]]]; cbn [length] in Hsmall;
    try lia; reflexivity.
Qed.

Lemma pairedPrisms_mergeable :
  mergeable pairedPrisms 2 0 [ChildOther 7; ChildNode 1; ChildNode 2].
Proof.
  split; [reflexivity|]. split; [|split; [|split]].
  - intros c [<-|[<-|[<-|[]]]]; discriminate.
  - intros id [H|[H|[H|[]]]]; try discriminate; injection H as <-;
      eexists; (split; [reflexivity|]); intros _; eexists; reflexivity.
  - intros b [<-|[<-|[]]]; cbn; lia.
  - cbn. repeat constructor; cbn; intuition discriminate.
Qed.

Lemma mergeChildren_flattens_witness :
  exists h' cs',
    _mergeChildren 0 pairedPrisms = Done (tt, h') /\
    nth_error (arrays h') 0 = Some cs' /\
    Permutation cs'
      [ChildOther 7; ChildOther 1; ChildOther 2; ChildOther 3] /\
    forall b, In b (mergedArrays pairedPrisms 2
                      [ChildOther 7; ChildNode 1; ChildNode 2]) ->
      nth_error (arrays h') b = Some [].
Proof.
  apply (mergeChildren_flattens pairedPrisms 0
           (mkNodeObject 2 (ChildrenArray 0)) 0
           [ChildOther 7; ChildNode 1; ChildNode 2]
           eq_refl eq_refl pairedPrisms_mergeable).
  intros b [<-|[<-|[]]]; cbn; lia.
Defined.

(** ** Passing the gender down *)

Lemma forallb_pointwise {A} (f g : A -> bool) l :
  (forall a, f a = g a) -> forallb f l = forallb g l.
Proof.
  intros H. induction l as [|a l IH]; [reflexivity|].
  cbn. now rewrite H, IH.
Qed.

Lemma existsb_pointwise {A} (f g : A -> bool) l :
  (forall a, f a = g a) -> existsb f l = existsb g l.
Proof.
  intros H. induction l as [|a l IH]; [reflexivity|].
  cbn. now rewrite H, IH.
Qed.

Lemma builtWithin_ext h h' :
  objects h' = objects h -> arrays h' = arrays h ->
  forall n this, builtWithin h' n this = builtWithin h n this.
Proof.
  intros Hobj Harr. induction n as [|n IH]; intros this; [reflexivity|].
  cbn [builtWithin]. rewrite Hobj, Harr.
  destruct (nth_error (objects h) this) as [o|]; [|reflexivity].
  destruct (children o) as [a|c|]; [|apply IH|reflexivity].
  destruct (nth_error (arrays h) a) as [l|]; [|reflexivity].
  apply forallb_pointwise. intros [c|z|]; [apply IH|reflexivity|reflexivity].
Qed.

Lemma reaches_ext h h' :
  objects h' = objects h -> arrays h' = arrays h ->
  forall n this x, reaches h' n this x = reaches h n this x.
Proof.
  intros Hobj Harr. induction n as [|n IH]; intros this x; [reflexivity|].
  cbn [reaches]. rewrite Hobj.
  destruct (nth_error (objects h) this) as [o|]; [|reflexivity].
  unfold childNodes, arrayOf. rewrite Harr.
  apply existsb_pointwise. intros c. now rewrite IH.
Qed.

Lemma setGender_run h c g :
  setGender c g h
  = Done (tt, mkHeap (objects h) (arrays h)
                (fun x => if x =? c then g else genders h x)).
Proof. reflexivity. Qed.

(** X22.  On a structure of nodes of the heap that is at most [n] levels
    deep, [_setGenders] returns; afterwards every node below the receiver
    has the gender of the receiver, and every other node, the receiver
    included, has the gender it had. *)
Theorem setGenders_descendants n : forall h this
    (Hbuilt : builtWithin h n this = true),
  exists h',
    _setGenders n this h = Done (tt, h') /\
    objects h' = objects h /\ arrays h' = arrays h /\
    forall x, genders h' x
              = if reaches h n this x then genders h this else genders h x.
Proof.
  induction n as [|n IH]; intros h this Hbuilt; [discriminate|].
  cbn [builtWithin] in Hbuilt. cbn [_setGenders reaches].
  rewrite bind_getS.
  destruct (nth_error (objects h) this) as [o|] eqn:Ho; [|discriminate].
  unfold defined at 1. rewrite bind_ret. unfold childNodes.
  destruct (children o) as [a|c|] eqn:Hchildren.
  - destruct (nth_error (arrays h) a) as [l|] eqn:Hl; [|discriminate].
    rewrite (bind_run (readArray_run h a l Hl)).
    unfold arrayOf. rewrite (nth_error_nth _ _ _ Hl).
    set (g := genders h this).
    match goal with |- context [forEach l ?body] =>
      destruct (forEach_total
        (fun done h1 =>
           objects h1 = objects h /\ arrays h1 = arrays h /\
           forall x, genders h1 x
                     = if existsb (fun c => (c =? x) || reaches h n c x)
                            (flat_map nodesOf done)
                       then g else genders h x)
        body l) with (l := l) (done := @nil Child) (s := h)
        as (h' & Hrun & Hobj & Harr & Hgenders)
    end.
    + intros done child rest h1 Hsplit (Hobj & Harr & Hgenders).
      assert (Hchild : In child l) by (rewrite Hsplit; apply in_elt).
      rewrite forallb_forall in Hbuilt. specialize (Hbuilt child Hchild).
      destruct child as [c|z|]; [| |discriminate].
      * rewrite bind_getS, (bind_run (setGender_run h1 c _)).
        set (h2 := mkHeap _ _ _).
        destruct (IH h2 c) as (h3 & Hrun & Hobj3 & Harr3 & Hgenders3).
        { rewrite (builtWithin_ext h h2); auto. }
        exists h3. split; [exact Hrun|].
        split; [now rewrite Hobj3|]. split; [now rewrite Harr3|].
        intros x. rewrite Hgenders3.
        rewrite (reaches_ext h h2) by assumption.
        unfold h2. cbn [genders]. rewrite Nat.eqb_refl.
        assert (Hthis : genders h1 this = g).
        { rewrite Hgenders. now destruct (existsb _ _). }
        rewrite Hthis, flat_map_app, existsb_app. cbn [flat_map nodesOf app existsb].
        rewrite orb_false_r, (Nat.eqb_sym c x), Hgenders.
        destruct (existsb _ (flat_map nodesOf done)), (x =? c),
          (reaches h n c x); reflexivity.
      * exists h1. split; [reflexivity|]. split; [exact Hobj|].
        split; [exact Harr|]. intros x.
        rewrite flat_map_app, existsb_app. cbn [flat_map nodesOf app existsb].
        now rewrite orb_false_r.
    + reflexivity.
    + auto.
    + exists h'. auto.
  - rewrite (bind_run (setGender_run h c _)).
    set (h1 := mkHeap _ _ _).
    destruct (IH h1 c) as (h2 & Hrun & Hobj2 & Harr2 & Hgenders2).
    { rewrite (builtWithin_ext h h1); auto. }
    exists h2. split; [exact Hrun|]. split; [exact Hobj2|].
    split; [exact Harr2|]. intros x. rewrite Hgenders2.
    rewrite (reaches_ext h h1) by reflexivity.
    unfold h1. cbn [genders existsb]. rewrite Nat.eqb_refl, orb_false_r.
    rewrite (Nat.eqb_sym c x).
    destruct (x =? c), (reaches h n c x); reflexivity.
  - exists h. auto.
Qed.

Lemma setGenders_descendants_witness :
  exists h',
    _setGenders 4 0 genderedPyramid = Done (tt, h') /\
    objects h' = objects genderedPyramid /\
    arrays h' = arrays genderedPyramid /\
    forall x, genders h' x
              = if reaches genderedPyramid 4 0 x
                then genders genderedPyramid 0 else genders genderedPyramid x.
Proof.
  apply (setGenders_descendants 4 genderedPyramid 0). reflexivity.
Defined.

(** ** The circumcenter, case by case *)



(** *** Lattice points with no equidistant point *)

Local Open Scope Z_scope.






Local Close Scope Z_scope.

(** *** The lattice points of a box *)










(** ** Faces that are not one polygon *)

(** *** Faces whose edges do not form one polygon *)

Lemma index_eqb_sym a b : index_eqb a b = index_eqb b a.
Proof.
  destruct a as [x|], b as [y|]; simpl; try reflexivity.
  apply Nat.eqb_sym.
Qed.

Lemma length_partnerList v es :
  length (partnerList v es) = occurrences v es.
Proof.
  induction es as [|e es IH]; [reflexivity|].
  change (e :: es) with ([e] ++ es).
  rewrite partnerList_app, length_app, IH.
  unfold occurrences. rewrite flat_map_app, filter_app, length_app.
  f_equal. unfold partnerList. cbn [flat_map app filter].
  rewrite (index_eqb_sym v (nth_error e 0)).
  rewrite (index_eqb_sym v (nth_error e 1)).
  destruct (index_eqb (nth_error e 0) v), (index_eqb (nth_error e 1) v);
    reflexivity.
Qed.

Lemma touches_In vs e v :
  In v vs ->
  index_eqb (nth_error e 0) (Some v) || index_eqb (nth_error e 1) (Some v)
  = true ->
  touches vs e = true.
Proof.
  intros Hv H. unfold touches. apply existsb_exists. now exists v.
Qed.

Lemma partnerList_edgesAt vs v es :
  In v vs ->
  partnerList (Some v) (edgesAt vs es) = partnerList (Some v) es.
Proof.
  intros Hv. unfold edgesAt.
  induction es as [|e es IH]; [reflexivity|].
  cbn [filter]. destruct (touches vs e) eqn:Ht.
  - change (e :: filter (touches vs) es)
      with ([e] ++ filter (touches vs) es).
    change (e :: es) with ([e] ++ es).
    now rewrite !partnerList_app, IH.
  - rewrite IH. change (e :: es) with ([e] ++ es).
    rewrite partnerList_app.
    assert (Hnone : partnerList (Some v) [e] = []); [|now rewrite Hnone].
    unfold partnerList. cbn [flat_map].
    destruct (index_eqb (nth_error e 0) (Some v)) eqn:E0.
    { rewrite (touches_In vs e v Hv) in Ht; [discriminate|].
      now rewrite E0. }
    destruct (index_eqb (nth_error e 1) (Some v)) eqn:E1.
    { rewrite (touches_In vs e v Hv) in Ht; [discriminate|].
      rewrite E1. apply orb_true_r. }
    reflexivity.
Qed.

Lemma edgesAt_In vs es e : In e (edgesAt vs es) -> In e es.
Proof. unfold edgesAt. intros H. now apply filter_In in H. Qed.

Lemma chain_neighbours pre cur post :
  NoDup (pre ++ cur :: post) ->
  flat_map (pairContrib cur) (cpairs (pre ++ cur :: post))
  = match pre with [] => [] | _ :: _ => [last pre 0] end
    ++ match post with [] => [] | b :: _ => [b] end.
Proof.
  intros Hnd. pose proof (NoDup_remove_2 _ _ _ Hnd) as Hcur.
  rewrite cpairs_app, flat_map_app. f_equal.
  - destruct pre as [|a l]; [reflexivity|].
    rewrite pairContrib_end, (last_cons a l 0); [reflexivity|].
    intros H. apply Hcur. apply in_or_app. now left.
  - destruct post as [|b m]; [reflexivity|].
    apply pairContrib_start.
    intros H. apply Hcur. apply in_or_app. now right.
Qed.

Lemma chain_partners path vs es :
  chainFace path (edgesAt vs es) ->
  forall v, In v vs ->
    Permutation (partnerList (Some v) es)
      (map Some (flat_map (pairContrib v) (cpairs path))).
Proof.
  intros (es' & Hperm & Hsides) v Hv.
  rewrite <- (partnerList_edgesAt vs v es Hv).
  eapply Permutation_trans;
    [|exact (partnerList_sides (Some v) es' _ Hsides)].
  unfold partnerList. now apply Permutation_flat_map.
Qed.

Lemma polygon_partners ring vs es :
  polygonFace ring (edgesAt vs es) ->
  forall v, In v vs ->
    Permutation (partnerList (Some v) es)
      (map Some (flat_map (pairContrib v) (adjacentPairs ring))).
Proof.
  intros Hpoly v Hv.
  rewrite <- (partnerList_edgesAt vs v es Hv).
  exact (partnerList_polygon (Some v) ring _ Hpoly).
Qed.

Lemma chainFace_reflect path es :
  chainFace path es -> chainFace (rev path) es.
Proof.
  intros (es' & Hp & Hf). exists (rev es'). split.
  - eapply Permutation_trans; [exact Hp | apply Permutation_rev].
  - rewrite cpairs_rev. apply Forall2_reverse in Hf.
    revert Hf. generalize (rev es') (rev (cpairs path)).
    induction 1 as [|e [a b] ? ? He _ IH]; constructor; [|exact IH].
    cbn in He |- *. destruct He as [-> | ->]; [now right | now left].
Qed.

Lemma openFrom_head N0 before cur post :
  openFrom N0 before (cur :: post) = true ->
  exists n, lookupNode N0 cur = Some n /\ traversed n = false.
Proof.
  cbn [openFrom]. destruct post as [|after post].
  - destruct (lookupNode N0 cur) as [n|]; [|discriminate].
    intros H. apply andb_true_iff in H as [Ht _].
    exists n. split; [reflexivity | now apply negb_true_iff].
  - intros H. apply andb_true_iff in H as [H _].
    destruct (linkedBetween_inv _ _ _ _ H) as (n & Hn & Ht & _).
    now exists n.
Qed.

Lemma openFrom_present N0 : forall l before,
  openFrom N0 before l = true ->
  forall x, In x l -> lookupNode N0 x <> None.
Proof.
  induction l as [|c l IH]; intros before H x Hx; [contradiction|].
  destruct Hx as [<-|Hx].
  - destruct (openFrom_head _ _ _ _ H) as (n & Hn & _). now rewrite Hn.
  - destruct l as [|d l]; [contradiction|].
    cbn [openFrom] in H. apply andb_true_iff in H as [_ H].
    exact (IH _ H x Hx).
Qed.

(** The walk along an open chain reaches its last node and fails there,
    when it reads the flag of the missing second neighbour. *)
Lemma cycleLoop_chain N0 : forall post before cur V N fuel cyc,
  openFrom N0 before (cur :: post) = true ->
  NoDup (cur :: post) ->
  (forall x, In x (cur :: post) -> ~ In x V) ->
  In before V ->
  (forall x, In x V -> lookupNode N0 x <> None) ->
  visitedState N0 V N -> length post < fuel ->
  cycleLoop fuel (Some cur) cyc N = Throw TypeError.
Proof.
  induction post as [|x post IH];
    intros before cur V N fuel cyc Hl Hnd Hfresh Hb Hex Hst Hfuel.
  - cbn [openFrom] in Hl.
    destruct (lookupNode N0 cur) as [n|] eqn:Hn; [|discriminate].
    apply andb_true_iff in Hl as [Ht H1]. apply negb_true_iff in Ht.
    destruct (node1 n) as [j|] eqn:E1; [discriminate|].
    destruct fuel as [|fuel]; [simpl in Hfuel; lia|].
    pose proof (readNode_visited _ _ _ _ _ Hst Hn) as Hr.
    destruct (in_dec index_eq_dec cur V) as [i|_];
      [exfalso; apply (Hfresh cur); [now left | exact i]|].
    destruct (markTraversed_visited _ _ _ _ _ Hst Hn) as (N1 & Hm & Hst1).
    rewrite (cycleLoop_step _ _ _ _ _ _ _ Hr Ht eq_refl Hm).
    rewrite E1. reflexivity.
  - change (openFrom N0 before (cur :: x :: post))
      with (linkedBetween N0 before cur x && openFrom N0 cur (x :: post))
      in Hl.
    apply andb_true_iff in Hl as [Hl Hrest].
    destruct (linkedBetween_inv _ _ _ _ Hl) as (n & Hn & Ht & Hs).
    destruct fuel as [|fuel]; [simpl in Hfuel; lia|].
    pose proof (readNode_visited _ _ _ _ _ Hst Hn) as Hr.
    destruct (in_dec index_eq_dec cur V) as [i|_];
      [exfalso; apply (Hfresh cur); [now left | exact i]|].
    destruct (markTraversed_visited _ _ _ _ _ Hst Hn) as (N1 & Hm & Hst1).
    rewrite (cycleLoop_step _ _ _ _ _ _ _ Hr Ht eq_refl Hm).
    destruct (openFrom_head _ _ _ _ Hrest) as (nx & Hnx & Htx).
    inversion Hnd as [|? ? Hcur Hnd']; subst.
    assert (Hxfresh : ~ In x (cur :: V)).
    { intros [E|E]; [subst; apply Hcur; now left|].
      apply (Hfresh x); [right; now left | exact E]. }
    pose proof (readNode_visited _ _ _ _ _ Hst1 Hnx) as Rx.
    destruct (in_dec index_eq_dec x (cur :: V)) as [i|_]; [contradiction|].
    assert (Hseen : forall y, In y V -> exists m,
              readNode (Some y) N1 = Done (m, N1) /\ traversed m = true).
    { intros y Hy. specialize (Hex y Hy).
      destruct (lookupNode N0 y) as [m|] eqn:Em; [|contradiction].
      eexists. split; [exact (readNode_visited _ _ _ _ _ Hst1 Em)|].
      destruct (in_dec index_eq_dec y (cur :: V)) as [_|c]; [reflexivity|].
      exfalso. apply c. now right. }
    assert (Hgoal : cycleLoop fuel (Some x) (cyc ++ [value n]) N1
                    = Throw TypeError).
    { apply (IH cur x (cur :: V) N1 fuel (cyc ++ [value n])); auto.
      - intros y Hy [E|E].
        + subst y. apply Hcur. exact Hy.
        + apply (Hfresh y); [now right | exact E].
      - now left.
      - intros y [E|E]; [subst; now rewrite Hn | now apply Hex].
      - simpl in Hfuel. lia. }
    destruct (Hseen _ Hb) as (mb & Rb & Tb).
    destruct Hs as [[H0 H1]|[H0 H1]]; rewrite H0, H1.
    + unfold bind at 1. rewrite Rb, Tb. exact Hgoal.
    + unfold bind at 1. rewrite Rx, Htx. exact Hgoal.
Qed.

Lemma chain_openFrom nodes es path :
  NoDup path ->
  (forall v, In v path ->
     Permutation (partnerList (Some v) es)
       (map Some (flat_map (pairContrib v) (cpairs path)))) ->
  slotsFilled nodes (fun v => partnerList v es) ->
  forall post pre, path = pre ++ post -> pre <> [] -> post <> [] ->
    openFrom nodes (Some (last pre 0)) (map Some post) = true.
Proof.
  intros Hnd Hpart Hinv.
  induction post as [|cur post IH]; intros pre Hpath Hpre Hpost;
    [contradiction|].
  assert (Hin : In cur path).
  { rewrite Hpath. apply in_or_app. right. now left. }
  pose proof (Hpart cur Hin) as Hperm.
  rewrite Hpath in Hperm.
  rewrite (chain_neighbours pre cur post) in Hperm
    by (now rewrite <- Hpath).
  destruct pre as [|a l]; [contradiction|].
  destruct post as [|after post].
  - cbn [map openFrom]. rewrite app_nil_r in Hperm. cbn [map] in Hperm.
    apply Permutation_sym, Permutation_length_1_inv in Hperm.
    pose proof (Hinv (Some cur)) as Hc. cbv beta in Hc.
    destruct (lookupNode nodes (Some cur)) as [n|].
    + destruct Hc as (_ & Ht & _ & H1). rewrite Hperm in H1.
      cbn in H1. now rewrite Ht, H1.
    + rewrite Hc in Hperm. discriminate.
  - change (openFrom nodes (Some (last (a :: l) 0))
              (map Some (cur :: after :: post)))
      with (linkedBetween nodes (Some (last (a :: l) 0)) (Some cur)
              (Some after)
            && openFrom nodes (Some cur) (map Some (after :: post))).
    apply andb_true_iff. split.
    + cbn [app map] in Hperm.
      destruct (two_slots _ _ _ _ _ Hinv Hperm) as (n & Hn & _ & Ht & Hs).
      unfold linkedBetween. rewrite Hn, Ht. cbn [negb andb].
      apply orb_true_iff.
      destruct Hs as [[H0 H1]|[H0 H1]]; [right|left]; rewrite H0, H1;
        cbn [slot_eqb]; now rewrite !index_eqb_refl.
    + specialize (IH ((a :: l) ++ [cur])). rewrite last_last in IH.
      apply IH.
      * rewrite <- app_assoc. exact Hpath.
      * destruct l; discriminate.
      * discriminate.
Qed.

Lemma NoDup_map_Some (l : list nat) : NoDup l -> NoDup (map Some l).
Proof.
  intros H. apply Finite.Injective_map_NoDup; [|exact H].
  intros x y E. now injection E.
Qed.

(** The walk from a node of an open chain, in the direction of its first
    slot. *)
Lemma getCycle_chain nodes es pre first b post n :
  NoDup (pre ++ first :: b :: post) ->
  (forall v, In v (pre ++ first :: b :: post) ->
     Permutation (partnerList (Some v) es)
       (map Some (flat_map (pairContrib v)
                    (cpairs (pre ++ first :: b :: post))))) ->
  slotsFilled nodes (fun v => partnerList v es) ->
  lookupNode nodes (Some first) = Some n ->
  node0 n = Some (Some b) ->
  getCycle (Some first) nodes = Throw TypeError.
Proof.
  intros Hnd Hpart Hinv Hn H0.
  assert (Hopen : openFrom nodes (Some first) (map Some (b :: post)) = true).
  { pose proof (chain_openFrom nodes es _ Hnd Hpart Hinv (b :: post)
                  (pre ++ [first])) as H.
    rewrite last_last in H. apply H.
    - now rewrite <- app_assoc.
    - destruct pre; discriminate.
    - discriminate. }
  assert (Hnd' : NoDup (Some first :: map Some (b :: post))).
  { change (NoDup (map Some (first :: b :: post))).
    apply NoDup_map_Some. exact (NoDup_app_remove_l _ _ Hnd). }
  pose proof (readNode_visited _ _ _ _ _ (visitedState_refl nodes) Hn) as Hr.
  cbn [in_dec] in Hr.
  destruct (markTraversed_visited _ _ _ _ _ (visitedState_refl nodes) Hn)
    as (N1 & Hm & Hst1).
  unfold getCycle. rewrite (bind_run Hr), (bind_run Hm).
  rewrite bind_getS, H0.
  inversion Hnd' as [|? ? Hfirst Hnd'']; subst.
  apply (cycleLoop_chain nodes (map Some post) (Some first) (Some b)
           [Some first] N1 (length N1) [value n]); auto.
  - intros y Hy [E|[]]. subst y. contradiction.
  - now left.
  - intros y [E|[]]. subst y. now rewrite Hn.
  - destruct Hst1 as [Hlen _]. rewrite Hlen.
    assert (Hfit : length (Some first :: map Some (b :: post))
                   <= length nodes).
    { apply ring_fits; [exact Hnd'|].
      intros y [E|Hy]; [subst y; now rewrite Hn|].
      exact (openFrom_present _ _ _ Hopen y Hy). }
    cbn [map length] in Hfit. rewrite length_map in Hfit |- *. lia.
Qed.

Lemma first_slot nodes es x a :
  slotsFilled nodes (fun v => partnerList v es) ->
  Permutation (partnerList x es) [a] ->
  exists n, lookupNode nodes x = Some n /\ node0 n = Some a.
Proof.
  intros Hinv Hperm. specialize (Hinv x). cbv beta in Hinv.
  apply Permutation_sym, Permutation_length_1_inv in Hperm.
  destruct (lookupNode nodes x) as [n|].
  - destruct Hinv as (_ & _ & H0 & _). exists n. split; [reflexivity|].
    now rewrite H0, Hperm.
  - rewrite Hinv in Hperm. discriminate.
Qed.

Lemma first_edge_touches vs es e0 first :
  hd_error es = Some e0 -> nth_error e0 0 = Some first -> In first vs ->
  In e0 (edgesAt vs es).
Proof.
  intros Hhd H0 Hin. destruct es as [|e es]; [discriminate|].
  injection Hhd as ->. unfold edgesAt. apply filter_In. split; [now left|].
  apply (touches_In vs e0 first Hin). rewrite H0.
  cbn [index_eqb]. now rewrite Nat.eqb_refl.
Qed.

Lemma cycleOfEdges_open es e0 first path :
  (forall v, occurrences v es <= 2) ->
  hd_error es = Some e0 -> nth_error e0 0 = Some first ->
  In first path -> NoDup path ->
  chainFace path (edgesAt path es) ->
  cycleOfEdges es = Throw TypeError.
Proof.
  intros Hocc Hhd Hs0 Hin Hnd Hchain.
  destruct (forEach_linkEndpoints_slots es [] [] slotsFilled_empty)
    as (nodes & Hrun & Hinv).
  { intros v. cbn [app]. rewrite length_partnerList. apply Hocc. }
  cbn [app] in Hinv.
  unfold cycleOfEdges. rewrite (bind_run Hrun), Hhd.
  unfold defined at 1. rewrite bind_ret, Hs0.
  pose proof (chain_partners path path es Hchain) as Hfwd.
  pose proof (chain_partners (rev path) path es
                (chainFace_reflect _ _ Hchain)) as Hbwd.
  assert (Hndr : NoDup (rev path)).
  { apply (Permutation_NoDup (Permutation_rev path) Hnd). }
  assert (Hbwd' : forall v, In v (rev path) ->
            Permutation (partnerList (Some v) es)
              (map Some (flat_map (pairContrib v) (cpairs (rev path))))).
  { intros v Hv. apply Hbwd. now apply in_rev. }
  pose proof (Hfwd first Hin) as Hperm.
  apply in_split in Hin as (pre & post & Hpath).
  rewrite Hpath in Hperm.
  rewrite (chain_neighbours pre first post) in Hperm
    by (now rewrite <- Hpath).
  destruct (rev pre) as [|p l'] eqn:Epre.
  - (* the first vertex is the start of the chain *)
    apply (f_equal (@rev nat)) in Epre. rewrite rev_involutive in Epre.
    cbn in Epre. subst pre. cbn [app] in *.
    destruct post as [|b m].
    + exfalso. subst path.
      pose proof (first_edge_touches [first] es e0 first Hhd Hs0
                    (or_introl eq_refl)) as He0.
      destruct Hchain as (es' & Hp & Hf). cbn in Hf. inversion Hf; subst.
      apply Permutation_sym, Permutation_nil in Hp.
      rewrite Hp in He0. contradiction.
    + cbn [map] in Hperm.
      destruct (first_slot _ _ _ _ Hinv Hperm) as (n & Hn & H0).
      subst path.
      now rewrite (getCycle_chain nodes es [] first b m n Hnd Hfwd Hinv Hn H0).
  - apply (f_equal (@rev nat)) in Epre. rewrite rev_involutive in Epre.
    cbn [rev] in Epre. subst pre.
    rewrite last_last in Hperm.
    assert (Hrev : rev path = rev post ++ first :: p :: l').
    { rewrite Hpath, rev_app_distr. cbn [rev].
      rewrite rev_app_distr, rev_involutive. cbn [rev app].
      now rewrite <- !app_assoc. }
    rewrite Hrev in Hndr, Hbwd'.
    destruct (rev l' ++ [p]) as [|q w] eqn:Eq;
      [destruct (rev l'); discriminate|].
    destruct post as [|b m].
    + cbn [app map] in Hperm.
      destruct (first_slot _ _ _ _ Hinv Hperm) as (n & Hn & H0).
      now rewrite (getCycle_chain nodes es (rev []) first p l' n
               Hndr Hbwd' Hinv Hn H0).
    + cbn [app map] in Hperm.
      destruct (two_slots _ _ _ _ _ Hinv Hperm)
        as (n & Hn & _ & _ & [[H0 _]|[H0 _]]).
      * now rewrite (getCycle_chain nodes es (rev (b :: m)) first p l' n
                 Hndr Hbwd' Hinv Hn H0).
      * rewrite <- Eq in Hpath. subst path.
        now rewrite (getCycle_chain nodes es (rev l' ++ [p]) first b m n
                 Hnd Hfwd Hinv Hn H0).
Qed.

Lemma ring_linkedFrom nodes es first rest :
  NoDup (first :: rest) ->
  (forall v, In v (first :: rest) ->
     Permutation (partnerList (Some v) es)
       (map Some (flat_map (pairContrib v)
                    (adjacentPairs (first :: rest))))) ->
  slotsFilled nodes (fun v => partnerList v es) ->
  forall post pre, rest = pre ++ post ->
    linkedFrom nodes (Some first) (Some (last pre first)) (map Some post)
    = true.
Proof.
  intros Hnd Hpart Hinv.
  induction post as [|cur post IH]; intros pre Hrest; [reflexivity|].
  cbn [map linkedFrom]. apply andb_true_iff. split.
  - assert (Hin : In cur (first :: rest)).
    { right. rewrite Hrest. apply in_or_app. right. now left. }
    pose proof (Hpart cur Hin) as Hperm. subst rest.
    rewrite (ring_neighbours first pre cur post Hnd) in Hperm.
    destruct (two_slots _ _ _ _ _ Hinv Hperm) as (n & Hn & _ & Ht & Hs).
    unfold linkedBetween. rewrite Hn, Ht, hd_map_Some. cbn [negb andb].
    apply orb_true_iff.
    destruct Hs as [[H0 H1]|[H0 H1]]; [right|left]; rewrite H0, H1;
      cbn [slot_eqb]; now rewrite !index_eqb_refl.
  - specialize (IH (pre ++ [cur])). rewrite last_last in IH.
    apply IH. rewrite <- app_assoc. exact Hrest.
Qed.

(** The walk around a ring of which the face may have further edges, in
    the direction of the first slot of its first node. *)
Lemma getCycle_closed nodes es first rest n :
  NoDup (first :: rest) ->
  (forall v, In v (first :: rest) ->
     Permutation (partnerList (Some v) es)
       (map Some (flat_map (pairContrib v)
                    (adjacentPairs (first :: rest))))) ->
  slotsFilled nodes (fun v => partnerList v es) ->
  lookupNode nodes (Some first) = Some n ->
  node0 n = Some (Some (hd first rest)) ->
  exists nodes',
    getCycle (Some first) nodes = Done (map Some (first :: rest), nodes').
Proof.
  intros Hnd Hpart Hinv Hn H0.
  assert (Hnd' : NoDup (Some first :: map Some rest)).
  { change (NoDup (map Some (first :: rest))). now apply NoDup_map_Some. }
  assert (Hring : linkedRing nodes (Some first) (map Some rest) = true).
  { unfold linkedRing. rewrite Hn.
    pose proof (Hinv (Some first)) as Hf. rewrite Hn in Hf.
    destruct Hf as (_ & Ht & _). rewrite Ht, H0, hd_map_Some.
    cbn [negb andb slot_eqb]. rewrite index_eqb_refl. cbn [andb].
    exact (ring_linkedFrom nodes es first rest Hnd Hpart Hinv rest []
             eq_refl). }
  destruct (getCycle_run nodes _ _ Hnd' Hring) as (nodes' & Hrun & _).
  exists nodes'. rewrite Hrun. f_equal. f_equal.
  apply (valuesOf_names nodes _ _ Hinv).
  intros x [<-|Hx]; [now rewrite Hn|].
  unfold linkedRing in Hring. rewrite Hn in Hring.
  apply andb_true_iff in Hring as [_ Hl].
  exact (linkedFrom_present _ _ _ _ Hl x Hx).
Qed.

Lemma cycleOfEdges_closed es e0 first ring :
  (forall v, occurrences v es <= 2) ->
  hd_error es = Some e0 -> nth_error e0 0 = Some first ->
  In first ring -> NoDup ring ->
  polygonFace ring (edgesAt ring es) ->
  exists rest,
    cycleOfEdges es = Done (map Some (first :: rest)) /\
    Permutation (first :: rest) ring /\
    polygonFace (first :: rest) (edgesAt ring es).
Proof.
  intros Hocc Hhd Hs0 Hin Hnd Hpoly.
  destruct (forEach_linkEndpoints_slots es [] [] slotsFilled_empty)
    as (nodes & Hrun & Hinv).
  { intros v. cbn [app]. rewrite length_partnerList. apply Hocc. }
  cbn [app] in Hinv.
  unfold cycleOfEdges. rewrite (bind_run Hrun), Hhd.
  unfold defined at 1. rewrite bind_ret, Hs0.
  apply in_split in Hin as (l1 & l2 & ->).
  set (rest := l2 ++ l1).
  assert (Hrot : Permutation (first :: rest) (l1 ++ first :: l2)).
  { unfold rest. apply Permutation_sym.
    eapply Permutation_trans; [apply Permutation_app_comm|].
    cbn [app]. apply Permutation_refl. }
  assert (Hnd1 : NoDup (first :: rest)).
  { apply (Permutation_NoDup (Permutation_sym Hrot) Hnd). }
  assert (Hpoly1 : polygonFace (first :: rest)
                     (edgesAt (l1 ++ first :: l2) es)).
  { apply (polygonFace_pairs (l1 ++ first :: l2)); [|exact Hpoly].
    apply adjacentPairs_rotate. }
  assert (Hpart1 : forall v, In v (first :: rest) ->
            Permutation (partnerList (Some v) es)
              (map Some (flat_map (pairContrib v)
                           (adjacentPairs (first :: rest))))).
  { intros v Hv. apply (polygon_partners _ _ _ Hpoly1).
    exact (Permutation_in _ Hrot Hv). }
  pose proof (Hpart1 first (or_introl eq_refl)) as Hperm.
  rewrite (ring_first_neighbours first rest Hnd1) in Hperm.
  cbn [map] in Hperm.
  destruct (two_slots _ _ _ _ _ Hinv Hperm) as (n & Hn & _ & _ & Hslots).
  destruct Hslots as [[H0 _]|[H0 _]].
  - destruct (getCycle_closed nodes es first rest n Hnd1 Hpart1 Hinv Hn H0)
      as (nodes' & Hcyc).
    exists rest. rewrite Hcyc. auto.
  - assert (Hrev : Permutation (first :: rev rest) (first :: rest)).
    { constructor. apply Permutation_sym, Permutation_rev. }
    assert (Hnd2 : NoDup (first :: rev rest)).
    { apply (Permutation_NoDup (Permutation_sym Hrev) Hnd1). }
    pose proof (polygonFace_reflect first rest _ Hpoly1) as Hpoly2.
    assert (Hpart2 : forall v, In v (first :: rev rest) ->
              Permutation (partnerList (Some v) es)
                (map Some (flat_map (pairContrib v)
                             (adjacentPairs (first :: rev rest))))).
    { intros v Hv. apply (polygon_partners _ _ _ Hpoly2).
      exact (Permutation_in _ Hrot (Permutation_in _ Hrev Hv)). }
    rewrite <- (hd_rev rest first) in H0.
    destruct (getCycle_closed nodes es first (rev rest) n Hnd2 Hpart2 Hinv
                Hn H0) as (nodes' & Hcyc).
    exists (rev rest). rewrite Hcyc. repeat split; auto.
    eapply Permutation_trans; [exact Hrev | exact Hrot].
Qed.

Lemma doubledEdge_occurrences v : occurrences v [[0; 1]; [0; 1]] <= 2.
Proof. destruct v as [[|[|n]]|]; cbn; lia. Qed.

Lemma twoTriangles_occurrences v :
  occurrences v [[0; 1]; [1; 2]; [2; 0]; [3; 4]; [4; 5]; [5; 3]] <= 2.
Proof. destruct v as [[|[|[|[|[|[|n]]]]]]|]; cbn; lia. Qed.

Lemma digonAndChain_occurrences v :
  occurrences v [[0; 1]; [0; 1]; [2; 3]] <= 2.
Proof. destruct v as [[|[|[|[|n]]]]|]; cbn; lia. Qed.

Lemma openChain_occurrences v : occurrences v [[0; 1]; [1; 2]] <= 2.
Proof. destruct v as [[|[|[|n]]]|]; cbn; lia. Qed.

(** C7, amended.  [faceToVertices i] fails with a range error whenever the
    polytope has no 2-faces or [i] is not the index of one, and the
    linking fails with a different error, the one of [linkTo], whenever a
    vertex ends three or more of the edges of the face.  When no vertex
    does, the walk starts at the first vertex of the first edge.  If the
    edges at the vertices of a polygon through that vertex are exactly
    the sides of the polygon, an edge listed twice being a polygon on two
    vertices, then the vertices of that polygon are returned, in cyclic
    order from the first vertex, whatever the other edges of the face
    are: neither an edge listed twice nor a face of several cycles is
    detected.  If the edges at the vertices of an open chain through that
    vertex are exactly the links of the chain, the walk stops with the
    type error of reading a missing neighbour. *)
Theorem faceToVertices_errors :
  (forall this i,
     level (elementList this) 2 = None \/
     (exists faces, level (elementList this) 2 = Some faces /\
                    nthZ faces i = None) ->
     faceToVertices this i = Throw RangeError) /\
  (forall this i es v,
     faceEdges this i = Some es ->
     3 <= occurrences v es ->
     faceToVertices this i = Throw LinkError) /\
  (forall this i es e0 first ring,
     faceEdges this i = Some es ->
     (forall v, occurrences v es <= 2) ->
     hd_error es = Some e0 -> nth_error e0 0 = Some first ->
     In first ring -> NoDup ring ->
     polygonFace ring (edgesAt ring es) ->
     exists cycle,
       faceToVertices this i = Done cycle /\
       hd_error cycle = Some (Some first) /\
       Permutation cycle (map Some ring) /\
       forall x y, In (x, y) (adjacentPairs cycle) ->
         exists a b e, x = Some a /\ y = Some b /\ In e es /\ isEdge e a b) /\
  (forall this i es e0 first path,
     faceEdges this i = Some es ->
     (forall v, occurrences v es <= 2) ->
     hd_error es = Some e0 -> nth_error e0 0 = Some first ->
     In first path -> NoDup path ->
     chainFace path (edgesAt path es) ->
     faceToVertices this i = Throw TypeError) /\
  faceToVertices openChain 0 = Throw TypeError /\
  faceToVertices doubledEdge 0 = Done [Some 0; Some 1] /\
  faceToVertices twoTriangles 0 = Done [Some 0; Some 1; Some 2].
Proof.
  split; [exact faceToVertices_invalid_face|].
  split; [exact faceToVertices_third_link|].
  split.
  { intros this i es e0 first ring Hface Hocc Hhd Hs0 Hin Hnd Hpoly.
    rewrite (@faceToVertices_cycleOfEdges _ _ _ Hface).
    destruct (cycleOfEdges_closed es e0 first ring Hocc Hhd Hs0 Hin Hnd
                Hpoly) as (rest & Hrun & Hperm & (es' & Hp & Hf)).
    exists (map Some (first :: rest)). split; [exact Hrun|].
    split; [reflexivity|].
    split; [now apply Permutation_map|].
    intros x y Hxy. rewrite adjacentPairs_map in Hxy.
    apply in_map_iff in Hxy as ([a b] & E & Hab). cbn [fst snd] in E.
    injection E as <- <-.
    destruct (Forall2_In_r _ _ _ _ Hf Hab) as (e & He & Hedge).
    exists a, b, e. repeat split; auto.
    apply (edgesAt_In ring).
    apply (Permutation_in _ (Permutation_sym Hp) He). }
  split.
  { intros this i es e0 first path Hface Hocc Hhd Hs0 Hin Hnd Hchain.
    rewrite (@faceToVertices_cycleOfEdges _ _ _ Hface).
    exact (cycleOfEdges_open es e0 first path Hocc Hhd Hs0 Hin Hnd Hchain). }
  repeat split.
Qed.

Lemma faceToVertices_errors_witness :
  faceToVertices threeAtVertex 1 = Throw RangeError /\
  faceToVertices threeAtVertex 0 = Throw LinkError /\
  (exists cycle,
     faceToVertices doubledEdge 0 = Done cycle /\
     hd_error cycle = Some (Some 0) /\
     Permutation cycle (map Some [0; 1]) /\
     forall x y, In (x, y) (adjacentPairs cycle) ->
       exists a b e, x = Some a /\ y = Some b /\
         In e [[0; 1]; [0; 1]] /\ isEdge e a b) /\
  (exists cycle,
     faceToVertices twoTriangles 0 = Done cycle /\
     hd_error cycle = Some (Some 0) /\
     Permutation cycle (map Some [0; 1; 2]) /\
     forall x y, In (x, y) (adjacentPairs cycle) ->
       exists a b e, x = Some a /\ y = Some b /\
         In e [[0; 1]; [1; 2]; [2; 0]; [3; 4]; [4; 5]; [5; 3]] /\
         isEdge e a b) /\
  (exists cycle,
     faceToVertices digonAndChain 0 = Done cycle /\
     hd_error cycle = Some (Some 0) /\
     Permutation cycle (map Some [0; 1]) /\
     forall x y, In (x, y) (adjacentPairs cycle) ->
       exists a b e, x = Some a /\ y = Some b /\
         In e [[0; 1]; [0; 1]; [2; 3]] /\ isEdge e a b) /\
  faceToVertices openChain 0 = Throw TypeError.
Proof.
  destruct faceToVertices_errors
    as (Hrange & Hlink & Hclosed & Hopen & _).
  split.
  { apply (Hrange threeAtVertex 1%Z).
    right. exists [[0; 1; 2]]. split; reflexivity. }
  split.
  { apply (Hlink threeAtVertex 0%Z [[0; 1]; [0; 2]; [0; 3]] (Some 0)).
    - reflexivity.
    - vm_compute. lia. }
  split.
  { apply (Hclosed doubledEdge 0%Z [[0; 1]; [0; 1]] [0; 1] 0 [0; 1]).
    - reflexivity.
    - exact doubledEdge_occurrences.
    - reflexivity.
    - reflexivity.
    - now left.
    - repeat constructor; simpl; intuition discriminate.
    - exists [[0; 1]; [0; 1]]. split; [apply Permutation_refl|].
      repeat (apply Forall2_cons; [first [now left | now right]|]).
      apply Forall2_nil. }
  split.
  { apply (Hclosed twoTriangles 0%Z
             [[0; 1]; [1; 2]; [2; 0]; [3; 4]; [4; 5]; [5; 3]]
             [0; 1] 0 [0; 1; 2]).
    - reflexivity.
    - exact twoTriangles_occurrences.
    - reflexivity.
    - reflexivity.
    - now left.
    - repeat constructor; simpl; intuition discriminate.
    - exists [[0; 1]; [1; 2]; [2; 0]]. split; [apply Permutation_refl|].
      repeat (apply Forall2_cons; [first [now left | now right]|]).
      apply Forall2_nil. }
  split.
  { apply (Hclosed digonAndChain 0%Z [[0; 1]; [0; 1]; [2; 3]]
             [0; 1] 0 [0; 1]).
    - reflexivity.
    - exact digonAndChain_occurrences.
    - reflexivity.
    - reflexivity.
    - now left.
    - repeat constructor; simpl; intuition discriminate.
    - exists [[0; 1]; [0; 1]]. split; [apply Permutation_refl|].
      repeat (apply Forall2_cons; [first [now left | now right]|]).
      apply Forall2_nil. }
  apply (Hopen openChain 0%Z [[0; 1]; [1; 2]] [0; 1] 0 [0; 1; 2]).
  - reflexivity.
  - exact openChain_occurrences.
  - reflexivity.
  - reflexivity.
  - now left.
  - repeat constructor; simpl; intuition discriminate.
  - exists [[0; 1]; [1; 2]]. split; [apply Permutation_refl|].
    repeat (apply Forall2_cons; [first [now left | now right]|]).
    apply Forall2_nil.
Defined.
